(** * ShokaiShelf: the PDF generators, the lists and the database

    A shallow embedding of the Python sources of the repository:

    - [tmp/pdfs/generate_shokaishelf_app_summary_pdf.py]
      (modules [AppSummary] and [AppSummaryMain]);
    - [tmp/pdfs/generate_shokaishelf_engine_vergleich_de_pdf.py]
      (modules [EngineVergleich] and [EngineVergleichMain]);
    - [format_description] of [api_handler.py] and of [gui_setup.py]
      (modules [ApiHandler] and [GuiSetup], on the regular expressions of
      module [Re]);
    - [list_manager.py] (module [ListManager]);
    - [database_handler.py] (module [DatabaseHandler]);

    together with the pieces of the Python runtime they call (module [Py]:
    [str], [bytes], [int] and [float] formatting, [str.replace],
    [str.encode], binary64 arithmetic) and of [textwrap] (module
    [Textwrap]).  The windows of [main.py] and [gui_setup.py], the requests
    to AniList and the loading of images are not modelled.

    Conventions.
    - A Python [str] is a list of Unicode code points ([list N]); text that
      the program builds from ASCII literals and decimal numbers only is a
      Rocq [string] and is injected with [Py.u].
    - [bytes] and [bytearray] are [list byte].
    - A Python [int] is a [Z].
    - A Python [float] is an IEEE-754 binary64 number, [spec_float] with
      precision 53 and maximal exponent 1024; arithmetic and comparisons are
      those of [SpecFloat], so rounding, infinities and NaN are those of the
      interpreter.
    - A function that can raise returns the exception or the value; a
      method that can raise returns the object as the call leaves it and
      a [Py.outcome].
    - State that a function changes (the lists of a module, a list box, the
      tables of a database) is passed in and returned. *)

From Stdlib Require Import ZArith NArith Lia Bool String Ascii List.
From Stdlib.Strings Require Import Byte.
From Stdlib Require Import SpecFloat.
Import ListNotations.
Open Scope Z_scope.

(* ================================================================== *)
(** * The Python runtime                                               *)
(* ================================================================== *)

Module Py.

(** ** Strings and bytes *)

Definition str := list N.
Definition bytes := list byte.

(** The line feed, which a Rocq string literal cannot contain. *)
Definition LF : string := String (ascii_of_nat 10) EmptyString.

(** The bytes literal for a text of Latin-1 characters, and [s.encode("latin-1")]
    for a string all of whose characters are below 256. *)
Definition latin1 (s : string) : bytes := list_byte_of_string s.

(** The code points of a literal. *)
Definition u (s : string) : str := map Byte.to_N (list_byte_of_string s).

Definition len {A : Type} (l : list A) : Z := Z.of_nat (List.length l).

(** [s.encode("latin-1", errors="replace")]: one byte per character, a
    question mark for every character the encoding does not have. *)
Definition encode_char_replace (c : N) : byte :=
  match Byte.of_N c with
  | Some x => x
  | None => x3f
  end.

Definition encode_latin1_replace (s : str) : bytes := map encode_char_replace s.

(** [sep.join(parts)]. *)
Fixpoint join (sep : str) (parts : list str) : str :=
  match parts with
  | [] => []
  | [p] => p
  | p :: rest => p ++ sep ++ join sep rest
  end.

(** [s.replace(old, new)] for a pattern [old] of one character. *)
Definition replace1 (old : N) (new : str) (s : str) : str :=
  flat_map (fun c => if N.eqb c old then new else [c]) s.

(** [s[:n]] and [s[n:]] for [0 <= n]. *)
Definition take {A : Type} (n : Z) (l : list A) : list A := firstn (Z.to_nat n) l.
Definition drop {A : Type} (n : Z) (l : list A) : list A := skipn (Z.to_nat n) l.

(** ** Integers in decimal *)

Definition digit (d : Z) : ascii := ascii_of_N (48 + Z.to_N d).

Fixpoint digits_loop (fuel : nat) (n : Z) (acc : string) : string :=
  match fuel with
  | O => acc
  | S fuel' =>
      let acc' := String (digit (n mod 10)) acc in
      if n / 10 =? 0 then acc' else digits_loop fuel' (n / 10) acc'
  end.

(** The decimal digits of [0 <= n], most significant first. *)
Definition digits (n : Z) : string :=
  digits_loop (S (Z.to_nat (Z.log2 n))) n EmptyString.

(** [str(n)], which is also [f"{n}"]. *)
Definition str_of_int (n : Z) : string :=
  if n <? 0 then String "-" (digits (- n)) else digits n.

Fixpoint zeros (k : nat) : string :=
  match k with
  | O => EmptyString
  | S k' => String "0" (zeros k')
  end.

(** [f"{n:0Wd}"]: sign first, then zeros up to the width [W]. *)
Definition format_0d (width : nat) (n : Z) : string :=
  let sign := if n <? 0 then "-"%string else EmptyString in
  let ds := digits (Z.abs n) in
  (sign ++ zeros (width - String.length sign - String.length ds) ++ ds)%string.

(** [int(s)] for an optional minus sign followed by decimal digits. *)
Fixpoint int_of_digits (acc : Z) (s : string) : option Z :=
  match s with
  | EmptyString => Some acc
  | String c s' =>
      let k := Z.of_N (N_of_ascii c) in
      if (48 <=? k) && (k <=? 57) then int_of_digits (10 * acc + (k - 48)) s'
      else None
  end.

Definition int_of_str (s : string) : option Z :=
  match s with
  | EmptyString => None
  | String "-" EmptyString => None
  | String "-" s' => option_map Z.opp (int_of_digits 0 s')
  | _ => int_of_digits 0 s
  end.

(** ** Floating point: IEEE-754 binary64 *)

Definition float := spec_float.

Definition fadd : float -> float -> float := SFadd 53 1024.
Definition fsub : float -> float -> float := SFsub 53 1024.
Definition fmul : float -> float -> float := SFmul 53 1024.
Definition fdiv : float -> float -> float := SFdiv 53 1024.
Definition flt : float -> float -> bool := SFltb.
Definition fle : float -> float -> bool := SFleb.

(** [float(n)], correctly rounded. *)
Definition float_of_int (n : Z) : float := binary_normalize 53 1024 n 0 false.

(** The literal [n / 10^k] written in decimal, as in [10.6] = [decimal 106 1]:
    both operands are exact, so the quotient is the nearest binary64. *)
Definition decimal (n : Z) (k : nat) : float :=
  fdiv (float_of_int n) (float_of_int (10 ^ Z.of_nat k)).

(** The nearest integer to [n / d], ties to even, for [0 <= n] and [0 < d]. *)
Definition round_half_even (n d : Z) : Z :=
  let q := n / d in
  match 2 * (n mod d) ?= d with
  | Lt => q
  | Gt => q + 1
  | Eq => if Z.even q then q else q + 1
  end.

(** [v] read with its last [k] digits after the point. *)
Definition fixed_point (k : nat) (v : Z) : string :=
  let p := 10 ^ Z.of_nat k in
  let fp := digits (v mod p) in
  match k with
  | O => digits v
  | _ => (digits (v / p) ++ "." ++ zeros (k - String.length fp) ++ fp)%string
  end.

Definition sign_str (s : bool) : string := if s then "-"%string else EmptyString.

(** [f"{x:.kf}"]: the exact binary value rounded to [k] decimals. *)
Definition format_f (k : nat) (x : float) : string :=
  match x with
  | S754_nan => "nan"%string
  | S754_infinity s => (sign_str s ++ "inf")%string
  | S754_zero s => (sign_str s ++ fixed_point k 0)%string
  | S754_finite s m e =>
      let p := 10 ^ Z.of_nat k in
      let v := if 0 <=? e then Z.pos m * 2 ^ e * p
               else round_half_even (Z.pos m * p) (2 ^ (- e)) in
      (sign_str s ++ fixed_point k v)%string
  end.

(** *** [repr(x)]: the shortest decimal that reads back as [x] *)

(** The binary64 nearest to [d * 10^q], for [0 < d]. *)
Definition float_of_decimal (d q : Z) : float :=
  if 0 <=? q then float_of_int (d * 10 ^ q)
  else fdiv (S754_finite false (Z.to_pos d) 0)
            (S754_finite false (Z.to_pos (10 ^ (- q))) 0).

(** The decimal point of [num / den]: the least [k] with
    [num / den < 10^k], searched upwards from [k]. *)
Fixpoint decpt_from (fuel : nat) (num den k : Z) : Z :=
  match fuel with
  | O => k
  | S fuel' =>
      let below := if 0 <=? k then num <? den * 10 ^ k
                   else num * 10 ^ (- k) <? den in
      if below then k else decpt_from fuel' num den (k + 1)
  end.

(** A start below the decimal point, from the binary lengths. *)
Definition decpt (num den : Z) : Z :=
  decpt_from 8 num den ((Z.log2 num - Z.log2 den - 1) * 30103 / 100000 - 1).

(** With [p] digits: the two [p]-digit decimals next to [num / den], the
    nearer first, and the first of them that reads back as [x]; the result
    is the digits [d] and the decimal point [k] of [0.d * 10^k]. *)
Definition repr_try (x : float) (num den k : Z) (p : Z) : option (Z * Z) :=
  let j := p - k in
  let n' := if 0 <=? j then num * 10 ^ j else num in
  let d' := if 0 <=? j then den else den * 10 ^ (- j) in
  let lo := n' / d' in
  let near := round_half_even n' d' in
  let far := if near =? lo then lo + 1 else lo in
  let ok c := match float_of_decimal c (k - p), x with
              | S754_finite _ m e, S754_finite _ mx ex => Pos.eqb m mx && (e =? ex)
              | _, _ => false
              end in
  let pick c := if c =? 10 ^ p then (1, k + 1) else (c, k) in
  if ok near then Some (pick near)
  else if negb (n' mod d' =? 0) && ok far then Some (pick far)
  else None.

Fixpoint repr_search (fuel : nat) (x : float) (num den k : Z) (p : Z) : Z * Z :=
  match fuel with
  | O => (0, k)
  | S fuel' =>
      match repr_try x num den k p with
      | Some r => r
      | None => repr_search fuel' x num den k (p + 1)
      end
  end.

Definition exponent_str (e : Z) : string :=
  let ds := digits (Z.abs e) in
  let mark := if e <? 0 then "e-"%string else "e+"%string in
  (mark ++ zeros (2 - String.length ds) ++ ds)%string.

Definition substring_from (n : nat) (s : string) : string :=
  String.substring n (String.length s - n) s.

(** [repr(x)] and [str(x)], which is also [f"{x}"]. *)
Definition repr_float (x : float) : string :=
  match x with
  | S754_nan => "nan"%string
  | S754_infinity s => (sign_str s ++ "inf")%string
  | S754_zero s => (sign_str s ++ "0.0")%string
  | S754_finite s m e =>
      let num := if 0 <=? e then Z.pos m * 2 ^ e else Z.pos m in
      let den := if 0 <=? e then 1 else 2 ^ (- e) in
      let k := decpt num den in
      let '(d, decpt) := repr_search 17 x num den k 1 in
      let ds := digits d in
      let n := Z.of_nat (String.length ds) in
      let frac := if 1 <? n then ("." ++ substring_from 1 ds)%string else EmptyString in
      let body :=
        if (decpt <=? -4) || (16 <? decpt) then
          (String.substring 0 1 ds ++ frac ++ exponent_str (decpt - 1))%string
        else if decpt <=? 0 then
          ("0." ++ zeros (Z.to_nat (- decpt)) ++ ds)%string
        else if n <=? decpt then
          (ds ++ zeros (Z.to_nat (decpt - n)) ++ ".0")%string
        else
          (String.substring 0 (Z.to_nat decpt) ds ++ "."
           ++ substring_from (Z.to_nat decpt) ds)%string in
      (sign_str s ++ body)%string
  end.

(** ** Exceptions *)


Inductive exn : Type :=
  | ValueError
  | RuntimeError.


(** How a call ends: it returns, or an exception leaves it. *)
Inductive outcome : Type :=
  | Returned
  | Raised (e : exn).

End Py.
(* ================================================================== *)
(** * [textwrap.wrap] with its default options                         *)
(* ================================================================== *)

(** The tables of the Unicode database that the regular expressions of
    [textwrap] consult above U+007F: [uni_alnum c] is [chr(c).isalnum()]
    and [uni_decimal c] is [chr(c).isdecimal()].  Below U+0080 the classes
    are written out. *)
Class UnicodeTables : Type := {
  uni_alnum : N -> bool;
  uni_decimal : N -> bool
}.

Module Textwrap.
Import Py.
Open Scope N_scope.

Definition SP : N := 32.
Definition TAB : N := 9.
Definition HYPHEN : N := 45.

(** [_whitespace = '\t\n\x0b\x0c\r '], the class [ws] of [wordsep_re]. *)
Definition is_ws (c : N) : bool :=
  (c =? 9) || (c =? 10) || (c =? 11) || (c =? 12) || (c =? 13) || (c =? 32).

(** [chr(c).isspace()], the characters that [str.strip()] removes. *)
Definition isspace (c : N) : bool :=
  ((9 <=? c) && (c <=? 13)) || ((28 <=? c) && (c <=? 32))
  || (c =? 133) || (c =? 160) || (c =? 5760)
  || ((8192 <=? c) && (c <=? 8202))
  || (c =? 8232) || (c =? 8233) || (c =? 8239) || (c =? 8287) || (c =? 12288).

(** [chunk.strip() == '']. *)
Definition blank (chunk : str) : bool := forallb isspace chunk.

Section Classes.
Context {U : UnicodeTables}.

Definition ascii_digit (c : N) : bool := (48 <=? c) && (c <=? 57).
Definition ascii_alpha (c : N) : bool :=
  ((65 <=? c) && (c <=? 90)) || ((97 <=? c) && (c <=? 122)).

(** [\d] and [\w] of a [str] pattern. *)
Definition is_d (c : N) : bool :=
  if c <? 128 then ascii_digit c else uni_decimal c.
Definition is_w (c : N) : bool :=
  if c <? 128 then ascii_alpha c || ascii_digit c || (c =? 95) else uni_alnum c.

(** [letter]: a word character that is no digit; [word_punct]: a word
    character or one of the marks 33, 34, 38, 39, 44, 46, 63 (exclamation
    mark, both quotes, ampersand, comma, full stop, question mark). *)
Definition is_letter (c : N) : bool := is_w c && negb (is_d c).
Definition is_wp (c : N) : bool :=
  is_w c || (c =? 33) || (c =? 34) || (c =? 39) || (c =? 38)
  || (c =? 46) || (c =? 44) || (c =? 63).

(** ** [_munge_whitespace] *)

(** [text.expandtabs(tabsize)]; [col] is the column since the last line
    break. *)
Fixpoint expandtabs_loop (tabsize : Z) (col : Z) (s : str) : str :=
  match s with
  | [] => []
  | c :: rest =>
      if c =? TAB then
        if (0 <? tabsize)%Z then
          let incr := (tabsize - col mod tabsize)%Z in
          repeat SP (Z.to_nat incr) ++ expandtabs_loop tabsize (col + incr)%Z rest
        else expandtabs_loop tabsize col rest
      else
        c :: expandtabs_loop tabsize
               (if (c =? 10) || (c =? 13) then 0%Z else (col + 1)%Z) rest
  end.

Definition expandtabs (tabsize : Z) (s : str) : str := expandtabs_loop tabsize 0 s.

(** [text.translate(unicode_whitespace_trans)]. *)
Definition translate_whitespace (s : str) : str :=
  map (fun c => if is_ws c then SP else c) s.

Definition munge_whitespace (text : str) : str :=
  translate_whitespace (expandtabs 8 text).

(** ** [_split]: [wordsep_re.split(text)] without the empty strings

    [wordsep_re] is one group of three alternatives, each of which takes at
    least one character, and one of them matches wherever the text has a
    character left; the pieces between the matches are therefore empty, and
    the chunks are the successive matches.  [prev] is the text before the
    position, last character first: the look-behinds read it. *)

(** The number of leading characters that satisfy [p]. *)
Fixpoint run (p : N -> bool) (s : str) : nat :=
  match s with
  | c :: rest => if p c then S (run p rest) else O
  | [] => O
  end.

Definition is_hyphen (c : N) : bool := c =? HYPHEN.

(** [-{2,}(?=\w)] or [(?=-{2,}\w)] at [s]: the hyphens are taken greedily,
    and giving one back leaves a hyphen where [\w] is wanted. *)
Definition dashes_then_word (s : str) : bool :=
  let h := run is_hyphen s in
  (2 <=? h)%nat && match nth_error s h with
                   | Some c => is_w c
                   | None => false
                   end.

Definition behind_wp (prev : str) : bool :=
  match prev with
  | c :: _ => is_wp c
  | [] => false
  end.

(** [(?<=lt{2}-) | (?<=lt-lt-)], read just after a hyphen that follows
    [prev]. *)
Definition behind_hyphenated (prev : str) : bool :=
  match prev with
  | c1 :: c2 :: rest =>
      (is_letter c1 && is_letter c2)
      || (is_letter c1 && is_hyphen c2
          && match rest with
             | c3 :: _ => is_letter c3
             | [] => false
             end)
  | _ => false
  end.

(** [(?= lt -? lt)]. *)
Definition ahead_hyphenated (s : str) : bool :=
  match s with
  | c1 :: c2 :: rest =>
      is_letter c1
      && (if is_hyphen c2
          then match rest with
               | c3 :: _ => is_letter c3
               | [] => false
               end
          else is_letter c2)
  | _ => false
  end.

(** The third alternative after its first character: [nws+?] grows one
    character at a time and stops at the first position where one of the
    three endings matches; the result is how many more characters the
    match takes. *)
Fixpoint word_more (prev : str) (s : str) : nat :=
  match s with
  | [] => O
  | c :: rest =>
      if is_hyphen c && behind_hyphenated prev && ahead_hyphenated rest then 1%nat
      else if is_ws c then O
      else if behind_wp prev && dashes_then_word s then O
      else S (word_more (c :: prev) rest)
  end.

(** The length of the match at a position with a character [c]. *)
Definition chunk_length (prev : str) (c : N) (rest : str) : nat :=
  if is_ws c then S (run is_ws rest)
  else if behind_wp prev && dashes_then_word (c :: rest) then run is_hyphen (c :: rest)
  else S (word_more (c :: prev) rest).

Fixpoint split_loop (fuel : nat) (prev : str) (s : str) : list str :=
  match fuel with
  | O => []
  | S fuel' =>
      match s with
      | [] => []
      | c :: rest =>
          let n := chunk_length prev c rest in
          firstn n s :: split_loop fuel' (rev (firstn n s) ++ prev) (skipn n s)
      end
  end.

(** Every chunk takes a character, so the length of the text is fuel
    enough. *)
Definition split (text : str) : list str := split_loop (List.length text) [] text.

Definition split_chunks (text : str) : list str := split (munge_whitespace text).

End Classes.

(** ** [_handle_long_word] and [_wrap_chunks]

    [_wrap_chunks] reverses [chunks] and takes the next chunk from the end;
    here the list is kept in reading order and the next chunk is its
    head. *)

Open Scope Z_scope.

(** [chunk.rfind('-', 0, stop)]. *)
Fixpoint rfind_from (i : Z) (s : str) (stop : Z) (found : Z) : Z :=
  match s with
  | [] => found
  | c :: rest =>
      if stop <=? i then found
      else rfind_from (i + 1) rest stop (if is_hyphen c then i else found)
  end.

Definition rfind_hyphen (chunk : str) (stop : Z) : Z := rfind_from 0 chunk stop (-1).

(** [_handle_long_word] with [break_long_words] and [break_on_hyphens]:
    the new [chunks] and [cur_line]. *)
Definition handle_long_word (chunks : list str) (cur_line : list str)
    (cur_len width : Z) : list str * list str :=
  let space_left := if width <? 1 then 1 else width - cur_len in
  match chunks with
  | [] => (chunks, cur_line)
  | chunk :: rest =>
      let hyphen := rfind_hyphen chunk space_left in
      let end_ :=
        if (space_left <? len chunk)
           && (0 <? hyphen)
           && existsb (fun c => negb (is_hyphen c)) (take hyphen chunk)
        then hyphen + 1
        else space_left in
      (drop end_ chunk :: rest, cur_line ++ [take end_ chunk])
  end.

(** The inner [while chunks:] of [_wrap_chunks]. *)
Fixpoint fill_line (chunks : list str) (cur_line : list str) (cur_len width : Z)
    : list str * list str * Z :=
  match chunks with
  | [] => (chunks, cur_line, cur_len)
  | chunk :: rest =>
      let l := len chunk in
      if cur_len + l <=? width
      then fill_line rest (cur_line ++ [chunk]) (cur_len + l) width
      else (chunks, cur_line, cur_len)
  end.

Definition nonempty {A : Type} (l : list A) : bool :=
  match l with
  | [] => false
  | _ => true
  end.

(** One turn of the outer [while chunks:], for [chunks] not empty: the
    chunks left and the line made, if one is. *)
Definition wrap_step (width : Z) (chunks : list str) (lines : list str)
    : list str * list str :=
  let cur_line := [] in
  let cur_len := 0 in
  let chunks :=
    match chunks with
    | first :: rest => if blank first && nonempty lines then rest else chunks
    | [] => chunks
    end in
  let '(chunks, cur_line, cur_len) := fill_line chunks cur_line cur_len width in
  let '(chunks, cur_line) :=
    match chunks with
    | chunk :: _ =>
        if width <? len chunk
        then handle_long_word chunks cur_line cur_len width
        else (chunks, cur_line)
    | [] => (chunks, cur_line)
    end in
  let cur_line :=
    if nonempty cur_line && blank (last cur_line [])
    then removelast cur_line
    else cur_line in
  let lines :=
    if nonempty cur_line then lines ++ [concat cur_line] else lines in
  (chunks, lines).

Fixpoint wrap_loop (fuel : nat) (width : Z) (chunks : list str) (lines : list str)
    : list str :=
  match fuel with
  | O => lines
  | S fuel' =>
      match chunks with
      | [] => lines
      | _ :: _ =>
          let '(chunks, lines) := wrap_step width chunks lines in
          wrap_loop fuel' width chunks lines
      end
  end.

(** What a turn of the loop takes away: a chunk, or characters of one. *)
Definition weight (chunks : list str) : nat :=
  fold_right (fun chunk n => (S (List.length chunk) + n)%nat) O chunks.

(** [_wrap_chunks]: [ValueError] for a width that is not positive. *)
Definition wrap_chunks (width : Z) (chunks : list str) : exn + list str :=
  if width <=? 0 then inl ValueError
  else inr (wrap_loop (weight chunks) width chunks []).

(** [textwrap.wrap(text, width=width)]. *)
Definition wrap {U : UnicodeTables} (text : str) (width : Z) : exn + list str :=
  wrap_chunks width (split_chunks text).

End Textwrap.


(* ================================================================== *)
(** * The binary serializer, shared shape of both scripts              *)
(* ================================================================== *)

(** The first two lines of every file: the version and a comment of four
    bytes above 127. *)
Definition pdf_header : Py.bytes :=
  Py.latin1 ("%PDF-1.4" ++ Py.LF ++ "%") ++ [xe2; xe3; xcf; xd3] ++ Py.latin1 Py.LF.

Module AppSummary.
Import Py.

Section WithTables.
Context {U : UnicodeTables}.

(** [escape_pdf_text]: the backslash (92) first, then the two parentheses
    (40 and 41). *)
Definition escape_pdf_text (text : str) : str :=
  replace1 41 (u "\)") (replace1 40 (u "\(") (replace1 92 (u "\\") text)).

(** [text_cmd]; every call in the script passes [font] and [size]. *)
Definition text_cmd (x y : float) (text : str) (font : string) (size : float) : str :=
  u "BT /" ++ u font ++ u " " ++ u (repr_float size) ++ u " Tf 1 0 0 1 "
  ++ u (format_f 2 x) ++ u " " ++ u (format_f 2 y)
  ++ u " Tm (" ++ escape_pdf_text text ++ u ") Tj ET".

(** The attributes of a [Layout] object. *)
Record Layout : Type := mkLayout {
  commands : list str;
  y : float;
  left : float;
  body_size : float;
  body_leading : float
}.

(** [self.commands.append(cmd)] and [self.y -= d]. *)
Definition append_command (self : Layout) (cmd : str) : Layout :=
  mkLayout (commands self ++ [cmd]) (y self) (left self) (body_size self) (body_leading self).

Definition descend (self : Layout) (d : float) : Layout :=
  mkLayout (commands self) (fsub (y self) d) (left self) (body_size self) (body_leading self).

(** [Layout()]. *)
Definition Layout_init : Layout :=
  mkLayout [] (decimal 7520 1) (decimal 540 1) (decimal 100 1) (decimal 120 1).

Definition add_title (self : Layout) (text : str) : Layout :=
  let self := append_command self (text_cmd (left self) (y self) text "F2" (decimal 180 1)) in
  descend self (decimal 200 1).

Definition add_subtitle (self : Layout) (text : str) : Layout :=
  let self := append_command self (text_cmd (left self) (y self) text "F1" (decimal 90 1)) in
  descend self (decimal 160 1).

Definition add_heading (self : Layout) (text : str) : Layout :=
  let self := append_command self (text_cmd (left self) (y self) text "F2" (decimal 120 1)) in
  descend self (decimal 140 1).

(** The body of the loop of [add_paragraph]. *)
Definition add_paragraph_line (self : Layout) (line : str) : Layout :=
  let self := append_command self
                (text_cmd (left self) (y self) line "F1" (body_size self)) in
  descend self (body_leading self).

(** [add_paragraph]; the default of [width] is 98.  When [textwrap.wrap]
    raises, the object is as it was. *)
Definition add_paragraph (self : Layout) (text : str) (width : Z) : Layout * outcome :=
  match Textwrap.wrap text width with
  | inl e => (self, Raised e)
  | inr lines =>
      let self := fold_left add_paragraph_line lines self in
      (descend self (decimal 40 1), Returned)
  end.

(** The inner loop of [add_bullets], over [wrapped[1:]]. *)
Definition add_bullets_extra (self : Layout) (extra : str) : Layout :=
  let self := append_command self
                (text_cmd (fadd (left self) (decimal 120 1)) (y self) extra "F1"
                          (body_size self)) in
  descend self (body_leading self).

(** The outer loop of [add_bullets]. *)
Fixpoint add_bullets_loop (self : Layout) (items : list str) (width : Z)
    : Layout * outcome :=
  match items with
  | [] => (self, Returned)
  | item :: rest =>
      match Textwrap.wrap item width with
      | inl e => (self, Raised e)
      | inr [] => add_bullets_loop self rest width
      | inr (first :: extras) =>
          let self := append_command self
                        (text_cmd (left self) (y self) (u "- " ++ first) "F1"
                                  (body_size self)) in
          let self := descend self (body_leading self) in
          let self := fold_left add_bullets_extra extras self in
          add_bullets_loop self rest width
      end
  end.

(** [add_bullets]; the default of [width] is 92. *)
Definition add_bullets (self : Layout) (items : list str) (width : Z)
    : Layout * outcome :=
  match add_bullets_loop self items width with
  | (self, Returned) => (descend self (decimal 40 1), Returned)
  | raised => raised
  end.

(** [check_fit]: it changes nothing and raises [RuntimeError] or returns. *)
Definition check_fit (self : Layout) : outcome :=
  if flt (y self) (decimal 420 1) then Raised RuntimeError else Returned.

(** [build_pdf_stream]. *)
Definition build_pdf_stream (layout : Layout) : bytes :=
  let stream := join (u LF) (commands layout) ++ u LF in
  encode_latin1_replace stream.

End WithTables.

(** [write_pdf], lines 67-80: the six objects. *)
Definition write_pdf_objects (content_stream : bytes) : list bytes :=
  let objects := [] in
  let objects := objects ++ [latin1 "<< /Type /Catalog /Pages 2 0 R >>"] in
  let objects := objects ++ [latin1 "<< /Type /Pages /Kids [3 0 R] /Count 1 >>"] in
  let objects := objects ++
    [latin1 ("<< /Type /Page /Parent 2 0 R /MediaBox [0 0 612 792] "
        ++ "/Resources << /Font << /F1 4 0 R /F2 5 0 R >> >> /Contents 6 0 R >>")] in
  let objects := objects ++ [latin1 "<< /Type /Font /Subtype /Type1 /BaseFont /Helvetica >>"] in
  let objects := objects ++ [latin1 "<< /Type /Font /Subtype /Type1 /BaseFont /Helvetica-Bold >>"] in
  let objects := objects ++
    [latin1 ("<< /Length " ++ str_of_int (len content_stream) ++ " >>" ++ LF ++ "stream" ++ LF)
     ++ content_stream
     ++ latin1 "endstream"] in
  objects.

(** [write_pdf], lines 86-90: the loop over [enumerate(objects, start=1)];
    the state is the buffer [pdf] and the list [offsets]. *)
Fixpoint write_pdf_loop (idx : Z) (objects : list bytes)
    (pdf : bytes) (offsets : list Z) : bytes * list Z :=
  match objects with
  | [] => (pdf, offsets)
  | obj :: rest =>
      let offsets := offsets ++ [len pdf] in
      let pdf := pdf ++ latin1 (str_of_int idx ++ " 0 obj" ++ LF) in
      let pdf := pdf ++ obj in
      let pdf := pdf ++ latin1 (LF ++ "endobj" ++ LF) in
      write_pdf_loop (idx + 1) rest pdf offsets
  end.

(** [write_pdf], lines 95-96: one entry per offset of [offsets[1:]]. *)
Fixpoint write_pdf_xref (offs : list Z) (pdf : bytes) : bytes :=
  match offs with
  | [] => pdf
  | off :: rest =>
      write_pdf_xref rest (pdf ++ latin1 (format_0d 10 off ++ " 00000 n " ++ LF))
  end.

(** [write_pdf], lines 82-106: the bytes assembled from the list [objects]. *)
Definition write_pdf_bytes (objects : list bytes) : bytes :=
  let pdf := [] in
  let pdf := pdf ++ pdf_header in
  let offsets := [0] in
  let '(pdf, offsets) := write_pdf_loop 1 objects pdf offsets in
  let xref_pos := len pdf in
  let pdf := pdf ++ latin1 ("xref" ++ LF ++ "0 " ++ str_of_int (len objects + 1) ++ LF) in
  let pdf := pdf ++ latin1 ("0000000000 65535 f " ++ LF) in
  let pdf := write_pdf_xref (tl offsets) pdf in
  let pdf := pdf ++
    latin1 ("trailer" ++ LF
       ++ "<< /Size " ++ str_of_int (len objects + 1) ++ " /Root 1 0 R >>" ++ LF
       ++ "startxref" ++ LF
       ++ str_of_int xref_pos ++ LF
       ++ "%%EOF" ++ LF) in
  pdf.

(** The list [offsets] as it stands after the loop of lines 86-90. *)
Definition write_pdf_offsets (objects : list bytes) : list Z :=
  snd (write_pdf_loop 1 objects ([] ++ pdf_header) [0]).

(** [write_pdf]: the effect on the file system is the file written, its
    path and its contents. *)
Definition write_pdf (path : string) (content_stream : bytes) : string * bytes :=
  (path, write_pdf_bytes (write_pdf_objects content_stream)).

End AppSummary.

Module EngineVergleich.
Import Py.

Section WithTables.
Context {U : UnicodeTables}.

(** [esc]. *)
Definition esc (text : str) : str :=
  replace1 41 (u "\)") (replace1 40 (u "\(") (replace1 92 (u "\\") text)).

(** [txt]; the defaults are [font="F1"] and [size=9.2]. *)
Definition txt (x y : float) (text : str) (font : string) (size : float) : str :=
  u "BT /" ++ u font ++ u " " ++ u (format_f 1 size) ++ u " Tf 1 0 0 1 "
  ++ u (format_f 2 x) ++ u " " ++ u (format_f 2 y)
  ++ u " Tm (" ++ esc text ++ u ") Tj ET".

Definition txt_font : string := "F1".
Definition txt_size : float := decimal 92 1.

(** The attributes of a [Page] object. *)
Record Page : Type := mkPage {
  left : float;
  y : float;
  commands : list str
}.

Definition append_command (self : Page) (cmd : str) : Page :=
  mkPage (left self) (y self) (commands self ++ [cmd]).

Definition descend (self : Page) (d : float) : Page :=
  mkPage (left self) (fsub (y self) d) (commands self).

(** [Page()]. *)
Definition Page_init : Page := mkPage (decimal 420 1) (decimal 7700 1) [].

Definition title (self : Page) (s : str) : Page :=
  let self := append_command self (txt (left self) (y self) s "F2" (decimal 160 1)) in
  descend self (decimal 180 1).

Definition sub (self : Page) (s : str) : Page :=
  let self := append_command self (txt (left self) (y self) s "F1" (decimal 84 1)) in
  descend self (decimal 140 1).

Definition h (self : Page) (s : str) : Page :=
  let self := append_command self (txt (left self) (y self) s "F2" (decimal 104 1)) in
  descend self (decimal 112 1).

(** The body of the loop of [p]. *)
Definition p_line (self : Page) (line : str) : Page :=
  let self := append_command self (txt (left self) (y self) line txt_font txt_size) in
  descend self (decimal 106 1).

(** [p]; the default of [width] is 118. *)
Definition p (self : Page) (s : str) (width : Z) : Page * outcome :=
  match Textwrap.wrap s width with
  | inl e => (self, Raised e)
  | inr lines =>
      let self := fold_left p_line lines self in
      (descend self (decimal 20 1), Returned)
  end.

(** The inner loop of [b], over [lines[1:]]. *)
Definition b_extra (self : Page) (line : str) : Page :=
  let self := append_command self
                (txt (fadd (left self) (decimal 100 1)) (y self) line txt_font txt_size) in
  descend self (decimal 106 1).

(** The outer loop of [b]. *)
Fixpoint b_loop (self : Page) (items : list str) (width : Z) : Page * outcome :=
  match items with
  | [] => (self, Returned)
  | item :: rest =>
      match Textwrap.wrap item width with
      | inl e => (self, Raised e)
      | inr [] => b_loop self rest width
      | inr (first :: extras) =>
          let self := append_command self
                        (txt (left self) (y self) (u "- " ++ first) txt_font txt_size) in
          let self := descend self (decimal 106 1) in
          let self := fold_left b_extra extras self in
          b_loop self rest width
      end
  end.

(** [b]; the default of [width] is 113. *)
Definition b (self : Page) (items : list str) (width : Z) : Page * outcome :=
  match b_loop self items width with
  | (self, Returned) => (descend self (decimal 20 1), Returned)
  | raised => raised
  end.

(** [check]. *)
Definition check (self : Page) : outcome :=
  if flt (y self) (decimal 380 1) then Raised RuntimeError else Returned.

(** [main], line 142: the content stream of the page. *)
Definition main_stream (page : Page) : bytes :=
  encode_latin1_replace (join (u LF) (commands page) ++ u LF).

End WithTables.

(** [build_pdf], lines 63-67. *)
Fixpoint build_pdf_loop (i : Z) (objects : list bytes)
    (out : bytes) (offsets : list Z) : bytes * list Z :=
  match objects with
  | [] => (out, offsets)
  | obj :: rest =>
      let offsets := offsets ++ [len out] in
      let out := out ++ latin1 (str_of_int i ++ " 0 obj" ++ LF) in
      let out := out ++ obj in
      let out := out ++ latin1 (LF ++ "endobj" ++ LF) in
      build_pdf_loop (i + 1) rest out offsets
  end.

(** [build_pdf], lines 71-72. *)
Fixpoint build_pdf_xref (offs : list Z) (out : bytes) : bytes :=
  match offs with
  | [] => out
  | off :: rest =>
      build_pdf_xref rest (out ++ latin1 (format_0d 10 off ++ " 00000 n " ++ LF))
  end.

Definition build_pdf (objects : list bytes) : bytes :=
  let out := [] in
  let out := out ++ pdf_header in
  let offsets := [0] in
  let '(out, offsets) := build_pdf_loop 1 objects out offsets in
  let xref := len out in
  let out := out ++ latin1 ("xref" ++ LF ++ "0 " ++ str_of_int (len objects + 1) ++ LF) in
  let out := out ++ latin1 ("0000000000 65535 f " ++ LF) in
  let out := build_pdf_xref (tl offsets) out in
  let out := out ++
    latin1 ("trailer" ++ LF
       ++ "<< /Size " ++ str_of_int (len objects + 1) ++ " /Root 1 0 R >>" ++ LF
       ++ "startxref" ++ LF
       ++ str_of_int xref ++ LF
       ++ "%%EOF" ++ LF) in
  out.

(** The list [offsets] as it stands after the loop of lines 63-67. *)
Definition build_pdf_offsets (objects : list bytes) : list Z :=
  snd (build_pdf_loop 1 objects ([] ++ pdf_header) [0]).

(** [main], lines 143-150: the six objects around the stream. *)
Definition main_objs (stream : bytes) : list bytes :=
  [ latin1 "<< /Type /Catalog /Pages 2 0 R >>";
    latin1 "<< /Type /Pages /Kids [3 0 R] /Count 1 >>";
    latin1 "<< /Type /Page /Parent 2 0 R /MediaBox [0 0 612 792] /Resources << /Font << /F1 4 0 R /F2 5 0 R >> >> /Contents 6 0 R >>";
    latin1 "<< /Type /Font /Subtype /Type1 /BaseFont /Helvetica >>";
    latin1 "<< /Type /Font /Subtype /Type1 /BaseFont /Helvetica-Bold >>";
    latin1 ("<< /Length " ++ str_of_int (len stream) ++ " >>" ++ LF ++ "stream" ++ LF)
      ++ stream ++ latin1 "endstream" ].

End EngineVergleich.


(* ================================================================== *)
(** * Vocabulary of the statements                                     *)
(* ================================================================== *)

Module Spec.
Import Py.

(** The bytes [t] begin at index [i] of [file]. *)
Definition begins_at (t : bytes) (i : Z) (file : bytes) : Prop :=
  0 <= i /\ take (len t) (drop i file) = t.

(** The opening token of object [i], and the whole of the object in the
    file. *)
Definition opening_token (i : Z) : bytes := latin1 (str_of_int i ++ " 0 obj").

Definition indirect_object (i : Z) (obj : bytes) : bytes :=
  latin1 (str_of_int i ++ " 0 obj" ++ LF) ++ obj ++ latin1 (LF ++ "endobj" ++ LF).

Fixpoint indirect_objects (i : Z) (objects : list bytes) : bytes :=
  match objects with
  | [] => []
  | obj :: rest => indirect_object i obj ++ indirect_objects (i + 1) rest
  end.

(** Where the objects start when the first starts at [start]. *)
Fixpoint object_starts (i : Z) (start : Z) (objects : list bytes) : list Z :=
  match objects with
  | [] => []
  | obj :: rest =>
      start :: object_starts (i + 1) (start + len (indirect_object i obj)) rest
  end.

(** One line of the cross-reference table, and the table of the offsets
    [offs] in a file of [n] objects. *)
Definition xref_entry (off : Z) : bytes :=
  latin1 (format_0d 10 off ++ " 00000 n " ++ LF).

Definition xref_table (n : Z) (offs : list Z) : bytes :=
  latin1 ("xref" ++ LF ++ "0 " ++ str_of_int (n + 1) ++ LF)
  ++ latin1 ("0000000000 65535 f " ++ LF)
  ++ concat (map xref_entry offs).

(** The file [file] carries the cross-reference table of the offsets
    [offs], one per object, every entry reads back as its offset, and at
    the offset recorded for object [i] the token of object [i] begins. *)
Definition offsets_locate_objects (objects : list bytes) (offs : list Z)
    (file : bytes) : Prop :=
  length offs = length objects
  /\ (exists before after, file = before ++ xref_table (len objects) offs ++ after)
  /\ forall (i : nat) (off : Z),
       nth_error offs i = Some off ->
       int_of_str (format_0d 10 off) = Some off
       /\ begins_at (opening_token (Z.of_nat i + 1)) off file.

(** The stream object [obj] is a dictionary whose [/Length] is written as
    the decimal text of the number of bytes of [payload], followed by
    [payload] between [stream] and [endstream]. *)
Definition length_prefixed (payload : bytes) (obj : bytes) : Prop :=
  exists number : string,
    obj = latin1 "<< /Length " ++ latin1 number
          ++ latin1 (" >>" ++ LF ++ "stream" ++ LF) ++ payload ++ latin1 "endstream"
    /\ int_of_str number = Some (len payload).

(** Reading an escaped literal back: a backslash stands for the character
    after it. *)
Fixpoint unescape (s : str) : str :=
  match s with
  | [] => []
  | c :: rest =>
      if (c =? 92)%N then
        match rest with
        | [] => [c]
        | d :: rest' => d :: unescape rest'
        end
      else c :: unescape rest
  end.

(** What the three substitutions make of one character. *)
Definition escape_char (c : N) : str :=
  if (c =? 92)%N then [92; 92]%N
  else if (c =? 40)%N then [92; 40]%N
  else if (c =? 41)%N then [92; 41]%N
  else [c].

(** The tables for a text below U+0080: nothing above is classified,
    and nothing above is asked for. *)
Definition ascii_tables : UnicodeTables :=
  {| uni_alnum := fun _ => false; uni_decimal := fun _ => false |}.

(** A plain word: not empty, and without whitespace of either kind and
    without hyphen. *)
Definition plain_char (c : N) : bool :=
  negb (Textwrap.isspace c) && negb (Textwrap.is_hyphen c).

Definition plain_word (w : str) : Prop :=
  w <> [] /\ Forall (fun c => plain_char c = true) w.

(** The chunks of words that single spaces separate: the words, with a
    space chunk between each two. *)
Definition space : str := [Textwrap.SP].

Fixpoint seps (words : list str) : list str :=
  match words with
  | [] => []
  | w :: rest => space :: w :: seps rest
  end.

Definition chunks_of (words : list str) : list str :=
  match words with
  | [] => []
  | w :: rest => w :: seps rest
  end.

(** A plain word of at most [width] characters. *)
Definition fits (width : Z) (w : str) : Prop := plain_word w /\ len w <= width.

(** A character that [_munge_whitespace] leaves as it is. *)
Definition munge_fixed (c : N) : Prop := c = Textwrap.SP \/ Textwrap.is_ws c = false.

(** The cursor [y] after [n] lines of leading [d]. *)
Definition descend_lines (n : nat) (d y : float) : float :=
  Nat.iter n (fun y => fsub y d) y.

(** The instructions of the lines of a paragraph of the app summary, the
    first at [y]. *)
Fixpoint paragraph_commands (left y size leading : float) (lines : list str)
    : list str :=
  match lines with
  | [] => []
  | line :: rest =>
      AppSummary.text_cmd left y line "F1" size
      :: paragraph_commands left (fsub y leading) size leading rest
  end.

(** The same for the engine comparison. *)
Fixpoint p_commands (left y : float) (lines : list str) : list str :=
  match lines with
  | [] => []
  | line :: rest =>
      EngineVergleich.txt left y line EngineVergleich.txt_font EngineVergleich.txt_size
      :: p_commands left (fsub y (decimal 106 1)) rest
  end.

(** Equality of two binary64 numbers as data: same class, sign, mantissa
    and exponent. *)
Definition same_float (x y : float) : bool :=
  match x, y with
  | S754_zero s, S754_zero s' => Bool.eqb s s'
  | S754_infinity s, S754_infinity s' => Bool.eqb s s'
  | S754_nan, S754_nan => true
  | S754_finite s m e, S754_finite s' m' e' =>
      Bool.eqb s s' && Pos.eqb m m' && Z.eqb e e'
  | _, _ => false
  end.

(** The scenario of a title and a paragraph of [n] lines: the cursor that
    the calls leave, and the cursor that the formula gives. *)
Definition scenario_cursor (n : nat) : float :=
  fsub (descend_lines n (decimal 120 1) (fsub (decimal 7520 1) (decimal 200 1)))
       (decimal 40 1).

Definition scenario_formula (n : nat) : float :=
  fsub (decimal 7520 1)
       (fadd (fadd (decimal 200 1)
                   (fmul (float_of_int (Z.of_nat n)) (decimal 120 1)))
             (decimal 40 1)).

(** The two agree for [n], [n + 1], ..., [n + k], when the paragraph of [n]
    lines stands at [y] before its gap. *)
Fixpoint scenario_agrees (k : nat) (n : nat) (y : float) : bool :=
  same_float (fsub y (decimal 40 1)) (scenario_formula n)
  && match k with
     | O => true
     | S k' => scenario_agrees k' (S n) (fsub y (decimal 120 1))
     end.

(** Nothing was lost in a right shift. *)
Definition exact_record (r : shr_record) : Prop := shr_r r = false /\ shr_s r = false.

(** The value of a finite binary64 number in units of 2^-1074, the least
    positive number: an integer. *)
Definition scaled (x : float) : Z :=
  match x with
  | S754_finite s m e => cond_Zopp s (Z.pos m * 2 ^ (e + 1074))
  | _ => 0
  end.

(** A zero or a finite number in canonical form. *)
Definition finite_valid (x : float) : Prop :=
  valid_binary 53 1024 x = true
  /\ match x with
     | S754_zero _ | S754_finite _ _ _ => True
     | _ => False
     end.

(** A finite number of magnitude at most [bound]. *)
Definition within (bound : Z) (x : float) : Prop :=
  finite_valid x /\ Z.abs (scaled x) <= bound * 2 ^ 1074.

(** [r] is a rounding of the positive value [v] (in units of 2^-1074) with
    the sign [s]: a canonical number between the two multiples of the unit
    in the last place next to [v], and [v] itself where [v] is such a
    multiple; or an infinity, when the exponent is beyond the largest. *)
Definition rounds_to (s : bool) (v : Z) (r : float) : Prop :=
  exists (m : positive) (e : Z),
    canonical_mantissa 53 1024 m e = true
    /\ -1074 <= e
    /\ (r = S754_finite s m e /\ e <= 971 \/ r = S754_infinity s /\ 971 < e)
    /\ v - v mod 2 ^ Z.max (Z.log2 v - 52) 0
       <= Z.pos m * 2 ^ (e + 1074)
       <= v - v mod 2 ^ Z.max (Z.log2 v - 52) 0 + 2 ^ Z.max (Z.log2 v - 52) 0
    /\ (v mod 2 ^ Z.max (Z.log2 v - 52) 0 = 0 -> Z.pos m * 2 ^ (e + 1074) = v).

(** A step of the cursor: a positive number from 2 to 32. *)
Definition descent_step (c : float) : Prop :=
  (exists m e, c = S754_finite false m e)
  /\ valid_binary 53 1024 c = true
  /\ 2 * 2 ^ 1074 <= scaled c <= 32 * 2 ^ 1074.

(** [descent_step], decided. *)
Definition is_descent_step (c : float) : bool :=
  match c with
  | S754_finite false _ _ =>
      valid_binary 53 1024 c
      && (2 * 2 ^ 1074 <=? scaled c) && (scaled c <=? 32 * 2 ^ 1074)
  | _ => false
  end.

(** The placement calls of a layout, with their arguments. *)
Inductive placement : Type :=
  | Title (text : str)
  | Subtitle (text : str)
  | Heading (text : str)
  | Paragraph (text : str) (width : Z)
  | Bullets (items : list str) (width : Z).

Section Placement.
Context {U : UnicodeTables}.

Definition place_app (self : AppSummary.Layout) (call : placement)
    : AppSummary.Layout * outcome :=
  match call with
  | Title text => (AppSummary.add_title self text, Returned)
  | Subtitle text => (AppSummary.add_subtitle self text, Returned)
  | Heading text => (AppSummary.add_heading self text, Returned)
  | Paragraph text width => AppSummary.add_paragraph self text width
  | Bullets items width => AppSummary.add_bullets self items width
  end.

Definition place_engine (self : EngineVergleich.Page) (call : placement)
    : EngineVergleich.Page * outcome :=
  match call with
  | Title text => (EngineVergleich.title self text, Returned)
  | Subtitle text => (EngineVergleich.sub self text, Returned)
  | Heading text => (EngineVergleich.h self text, Returned)
  | Paragraph text width => EngineVergleich.p self text width
  | Bullets items width => EngineVergleich.b self items width
  end.

End Placement.

(** The layout [self'] is [self] after [k] more lines: [k] more
    instructions, the cursor [k] leadings lower, the rest as it was. *)
Definition advanced (k : nat) (self self' : AppSummary.Layout) : Prop :=
  length (AppSummary.commands self') = (length (AppSummary.commands self) + k)%nat
  /\ AppSummary.y self'
     = descend_lines k (AppSummary.body_leading self) (AppSummary.y self)
  /\ AppSummary.left self' = AppSummary.left self
  /\ AppSummary.body_size self' = AppSummary.body_size self
  /\ AppSummary.body_leading self' = AppSummary.body_leading self.

Definition advanced_page (k : nat) (self self' : EngineVergleich.Page) : Prop :=
  length (EngineVergleich.commands self')
  = (length (EngineVergleich.commands self) + k)%nat
  /\ EngineVergleich.y self' = descend_lines k (decimal 106 1) (EngineVergleich.y self)
  /\ EngineVergleich.left self' = EngineVergleich.left self.

End Spec.

(* ================================================================== *)
(** * Words, chunks and lines                                          *)
(* ================================================================== *)

(** The vocabulary for what [textwrap] does with the words of a text. *)
Module Words.
Import Py Textwrap.

Section WithTables.
Context {U : UnicodeTables}.

(** The chunks of [_split] for the text [s] that stands behind [prev]
    ([prev] last character first, as in [split_loop]). *)
Definition chunks_from (prev s : str) : list str := split_loop (length s) prev s.

(** The length of the first of them. *)
Definition first_len (prev s : str) : nat :=
  match s with
  | [] => O
  | c :: rest => chunk_length prev c rest
  end.

End WithTables.

(** A run of whitespace, and a text without any. *)
Definition whitespace (s : str) : Prop := Forall (fun c => is_ws c = true) s.
Definition unspaced (s : str) : Prop := Forall (fun c => is_ws c = false) s.

(** A chunk is not empty and is one or the other. *)
Definition chunk_kind (c : str) : Prop := c <> [] /\ (whitespace c \/ unspaced c).

(** Where one chunk ends and the next begins: one of the two is
    whitespace, or the first ends with a hyphen, or the second begins with
    one. *)
Definition at_hyphen (a b : str) : Prop :=
  last a 0%N = HYPHEN \/ hd 0%N b = HYPHEN.

Definition word_boundary (a b : str) : Prop :=
  whitespace a \/ whitespace b \/ at_hyphen a b.

(** The pieces of the chunks: a chunk stays whole, unless it is longer
    than the width; then it is cut behind at most [width] characters, and
    what is left of it is a chunk again. *)
Inductive cuts_long (width : Z) : list str -> list str -> Prop :=
  | cuts_nil : cuts_long width [] []
  | cuts_whole : forall c cs ps,
      cuts_long width cs ps -> cuts_long width (c :: cs) (c :: ps)
  | cuts_cut : forall c n cs ps,
      width < len c -> 0 <= n <= width ->
      cuts_long width (drop n c :: cs) ps ->
      cuts_long width (c :: cs) (take n c :: ps).

(** The lines of the pieces: each line is a run of pieces, in order, and
    a piece that is in no line holds nothing but whitespace
    ([piece.strip() == '']). *)
Inductive lines_of : list str -> list str -> Prop :=
  | lines_nil : lines_of [] []
  | lines_drop : forall p ps ls,
      blank p = true -> lines_of ps ls -> lines_of (p :: ps) ls
  | lines_line : forall body ps ls,
      body <> [] -> lines_of ps ls -> lines_of (body ++ ps) (concat body :: ls).

(** A word: not empty and without whitespace of either kind; it may have
    hyphens. *)
Definition word (w : str) : Prop :=
  w <> [] /\ Forall (fun c => isspace c = false) w.

(** A word of at most [width] characters. *)
Definition word_fits (width : Z) (w : str) : Prop := word w /\ len w <= width.

(** A text of words with one space between each two. *)
Inductive spaced : str -> Prop :=
  | spaced_last : forall c, isspace c = false -> spaced [c]
  | spaced_char : forall c s, isspace c = false -> spaced s -> spaced (c :: s)
  | spaced_space : forall c s, isspace c = false -> spaced s -> spaced (c :: SP :: s).

(** The number of characters before the next whitespace. *)
Definition word_run (s : str) : nat := run (fun c => negb (is_ws c)) s.

(** No word of the text, and no end of a word, is longer than the
    width. *)
Definition short_words (width : Z) (s : str) : Prop :=
  forall n, Z.of_nat (word_run (skipn n s)) <= width.

(** The end of the text, or whitespace. *)
Definition word_end (t : str) : Prop :=
  match t with
  | [] => True
  | c :: _ => is_ws c = true
  end.

End Words.

(* ================================================================== *)
(** * [re.sub] for the patterns of [format_description]                *)
(* ================================================================== *)

(** The regular expressions of [api_handler.py] and [gui_setup.py] are
    sequences of literal characters, one [\s*] and one optional character.
    [Re] is the backtracking matcher of [re] for such sequences, and
    [re.sub] on top of it. *)
Module Re.
Import Py.
Open Scope N_scope.

(** A literal character, a class taken greedily any number of times
    ([\s*]), and a character taken if it is there ([/?]). *)
Inductive item : Type :=
  | Chr (c : N)
  | Star (cls : N -> bool)
  | Opt (c : N).

Definition pattern : Type := list item.

(** The pattern of a literal text. *)
Definition lit (s : string) : pattern := map Chr (u s).

(** The match of [p] that begins at the head of [s]: the number of
    characters it takes.  A star first takes all the characters it can and
    gives them back one at a time; an optional character is first tried
    with the character. *)
Fixpoint match_here (p : pattern) (s : str) {struct p} : option nat :=
  match p with
  | [] => Some O
  | Chr c :: k =>
      match s with
      | d :: s' => if d =? c then option_map S (match_here k s') else None
      | [] => None
      end
  | Opt c :: k =>
      match s with
      | d :: s' =>
          if d =? c then
            match match_here k s' with
            | Some n => Some (S n)
            | None => match_here k s
            end
          else match_here k s
      | [] => match_here k s
      end
  | Star cls :: k =>
      (fix star (s : str) : option nat :=
         match s with
         | d :: s' =>
             if cls d then
               match star s' with
               | Some n => Some (S n)
               | None => match_here k s
               end
             else match_here k s
         | [] => match_here k s
         end) s
  end.

(** The scan of [re.sub]: [skip] characters of the last match are still to
    be passed over; at every other position, the end of the text included,
    a match is looked for.  A match that takes characters is replaced and
    the scan goes on behind it; an empty match is replaced and the
    character after it is copied. *)
Fixpoint sub_loop (p : pattern) (repl : str) (skip : nat) (s : str) : str :=
  match skip, s with
  | S k, _ :: rest => sub_loop p repl k rest
  | S _, [] => []
  | O, [] =>
      match match_here p [] with
      | Some _ => repl
      | None => []
      end
  | O, c :: rest =>
      match match_here p s with
      | Some (S n) => repl ++ sub_loop p repl n rest
      | Some O => repl ++ c :: sub_loop p repl O rest
      | None => c :: sub_loop p repl O rest
      end
  end.

(** [re.sub(p, repl, s)] for a replacement without backslash. *)
Definition sub (p : pattern) (repl : str) (s : str) : str := sub_loop p repl O s.

End Re.

(* ================================================================== *)
(** * [api_handler.py] and [gui_setup.py]: [format_description]        *)
(* ================================================================== *)

Module ApiHandler.
Import Py.

(** [<br\s*/?>]; the class [\s] of a [str] pattern is [chr(c).isspace()]. *)
Definition br : Re.pattern :=
  Re.lit "<br" ++ [Re.Star Textwrap.isspace; Re.Opt 47%N] ++ Re.lit ">".

Definition format_description (description : str) : str :=
  let description := Re.sub br (u LF) description in
  let description := Re.sub (Re.lit "<i>") [] description in
  let description := Re.sub (Re.lit "</i>") [] description in
  let description := Re.sub (Re.lit "<b>") [] description in
  let description := Re.sub (Re.lit "</b>") [] description in
  description.

End ApiHandler.

Module GuiSetup.
Import Py.

(** The same function, written out a second time in [gui_setup.py]. *)
Definition format_description (description : str) : str :=
  let description :=
    Re.sub (Re.lit "<br" ++ [Re.Star Textwrap.isspace; Re.Opt 47%N] ++ Re.lit ">")
           (u LF) description in
  let description := Re.sub (Re.lit "<i>") [] description in
  let description := Re.sub (Re.lit "</i>") [] description in
  let description := Re.sub (Re.lit "<b>") [] description in
  let description := Re.sub (Re.lit "</b>") [] description in
  description.

End GuiSetup.

(** The markup that [format_description] is written for: text without the
    character [<], line breaks [<br>], [<br/>], [<br />] with any
    whitespace before the optional slash, the four tags of italic and
    bold, and tags of any other name. *)
Module Markup.
Import Py.

Inductive segment : Type :=
  | Text (s : str)
  | LineBreak (ws : str) (slash : bool)
  | ItalicOn
  | ItalicOff
  | BoldOn
  | BoldOff
  | Other (name : str).

(** How a segment is written in a description. *)
Definition source (seg : segment) : str :=
  match seg with
  | Text s => s
  | LineBreak ws slash => u "<br" ++ ws ++ (if slash then u "/" else []) ++ u ">"
  | ItalicOn => u "<i>"
  | ItalicOff => u "</i>"
  | BoldOn => u "<b>"
  | BoldOff => u "</b>"
  | Other name => u "<" ++ name ++ u ">"
  end.

(** What is to be shown for it: the text, a line feed for a line break,
    nothing for the four tags, and any other tag as it is written. *)
Definition shown (seg : segment) : str :=
  match seg with
  | Text s => s
  | LineBreak _ _ => u LF
  | Other name => u "<" ++ name ++ u ">"
  | _ => []
  end.

(** The five patterns of [format_description]. *)
Definition patterns : list Re.pattern :=
  [ApiHandler.br; Re.lit "<i>"; Re.lit "</i>"; Re.lit "<b>"; Re.lit "</b>"].

(** The tag [<name>] is one that a pattern matches. *)
Definition recognised (name : str) : bool :=
  existsb (fun p => match Re.match_here p (u "<" ++ name ++ u ">") with
                    | Some _ => true
                    | None => false
                    end) patterns.

Definition well_formed (seg : segment) : Prop :=
  match seg with
  | Text s => Forall (fun c => c <> 60%N) s
  | LineBreak ws _ => Forall (fun c => Textwrap.isspace c = true) ws
  | Other name =>
      Forall (fun c => c <> 60%N /\ c <> 62%N) name /\ recognised name = false
  | _ => True
  end.

(** An item that cannot take the character [>]. *)
Definition closed_item (it : Re.item) : Prop :=
  match it with
  | Re.Chr c => c <> 62%N
  | Re.Opt c => c <> 62%N
  | Re.Star cls => cls 62%N = false
  end.

(** The pattern of a tag: [<], items that cannot take [>], and [>]. *)
Definition tag_pattern (p : Re.pattern) : Prop :=
  exists q, p = Re.Chr 60%N :: q ++ [Re.Chr 62%N] /\ Forall closed_item q.

(** What one substitution makes of a segment. *)
Definition pass (p : Re.pattern) (repl : str) (seg : segment) : segment :=
  match seg with
  | Text s => Text s
  | _ => match Re.match_here p (source seg) with
         | Some _ => Text repl
         | None => seg
         end
  end.

(** The five substitutions, one after the other, on one segment. *)
Definition passes (seg : segment) : segment :=
  pass (Re.lit "</b>") []
    (pass (Re.lit "<b>") []
       (pass (Re.lit "</i>") []
          (pass (Re.lit "<i>") [] (pass ApiHandler.br (u LF) seg)))).

Definition write (segs : list segment) : str := concat (map source segs).
Definition display (segs : list segment) : str := concat (map shown segs).

End Markup.

(* ================================================================== *)
(** * [list_manager.py]: the lists held in memory                      *)
(* ================================================================== *)

(** [a == b] for two texts. *)
Fixpoint str_eqb (a b : Py.str) : bool :=
  match a, b with
  | [], [] => true
  | x :: a', y :: b' => N.eqb x y && str_eqb a' b'
  | _, _ => false
  end.

Module ListManager.
Import Py.

(** What the module asks of a [tk.Listbox]: the text of the active row
    ([listbox.get(tk.ACTIVE)], the empty text when there is none),
    [listbox.delete(0, tk.END)] and [listbox.insert(tk.END, s)]; [rows] is
    what the widget shows, [listbox.get(0, tk.END)].  The two laws are
    those of Tk: deleting from the first row to the last leaves no row, and
    inserting at the end adds a row behind the others. *)
Class Listbox (L : Type) : Type := {
  get_active : L -> str;
  delete_all : L -> L;
  insert_end : L -> str -> L;
  rows : L -> list str;
  rows_delete_all : forall lb, rows (delete_all lb) = [];
  rows_insert_end : forall lb s, rows (insert_end lb s) = rows lb ++ [s]
}.

(** [x in l]. *)
Definition contains (l : list str) (x : str) : bool := existsb (str_eqb x) l.

(** [l.remove(x)]: the first occurrence goes; [ValueError] when there is
    none. *)
Fixpoint list_remove (x : str) (l : list str) : option (list str) :=
  match l with
  | [] => None
  | y :: rest =>
      if str_eqb y x then Some rest
      else option_map (cons y) (list_remove x rest)
  end.

(** The truth value of a text: it is not empty. *)
Definition truthy (s : str) : bool :=
  match s with
  | [] => false
  | _ :: _ => true
  end.

Section WithListbox.
Context {L : Type} {Tk : Listbox L}.

(** The two lists of the module and the list boxes of the program, each
    at its address. *)
Record state : Type := mkState {
  watch_list : list str;
  buy_list : list str;
  widgets : nat -> L
}.

(** A callable without arguments, as [update_func]: it may change
    anything, and it returns or raises. *)
Definition callback : Type := state -> state * outcome.

Definition set_widget (s : state) (listbox : nat) (lb : L) : state :=
  mkState (watch_list s) (buy_list s)
          (fun i => if Nat.eqb i listbox then lb else widgets s i).

Definition add_to_watch_list (title : str) (update_func : callback) (s : state)
    : state * outcome :=
  if truthy title && negb (contains (watch_list s) title) then
    let s := mkState (watch_list s ++ [title]) (buy_list s) (widgets s) in
    update_func s
  else (s, Returned).

Definition add_to_buy_list (title : str) (update_func : callback) (s : state)
    : state * outcome :=
  if truthy title && negb (contains (buy_list s) title) then
    let s := mkState (watch_list s) (buy_list s ++ [title]) (widgets s) in
    update_func s
  else (s, Returned).

Definition remove_from_watch_list (listbox : nat) (update_func : callback) (s : state)
    : state * outcome :=
  let selected := get_active (widgets s listbox) in
  if contains (watch_list s) selected then
    match list_remove selected (watch_list s) with
    | Some l => update_func (mkState l (buy_list s) (widgets s))
    | None => (s, Raised ValueError)
    end
  else (s, Returned).

Definition remove_from_buy_list (listbox : nat) (update_func : callback) (s : state)
    : state * outcome :=
  let selected := get_active (widgets s listbox) in
  if contains (buy_list s) selected then
    match list_remove selected (buy_list s) with
    | Some l => update_func (mkState (watch_list s) l (widgets s))
    | None => (s, Raised ValueError)
    end
  else (s, Returned).

(** The body of the loop of the two display functions. *)
Definition insert_row (listbox : nat) (s : state) (anime : str) : state :=
  set_widget s listbox (insert_end (widgets s listbox) anime).

Definition update_watch_list_display (listbox : nat) (s : state) : state :=
  let s := set_widget s listbox (delete_all (widgets s listbox)) in
  fold_left (insert_row listbox) (watch_list s) s.

Definition update_buy_list_display (listbox : nat) (s : state) : state :=
  let s := set_widget s listbox (delete_all (widgets s listbox)) in
  fold_left (insert_row listbox) (buy_list s) s.

(** [lambda: update_watch_list_display(listbox)], the callable the add and
    remove functions are made for. *)
Definition show_watch_list (listbox : nat) : callback :=
  fun s => (update_watch_list_display listbox s, Returned).

Definition show_buy_list (listbox : nat) : callback :=
  fun s => (update_buy_list_display listbox s, Returned).

(** The calls of the module. *)
Inductive call : Type :=
  | AddToWatchList (title : str) (update_func : callback)
  | AddToBuyList (title : str) (update_func : callback)
  | RemoveFromWatchList (listbox : nat) (update_func : callback)
  | RemoveFromBuyList (listbox : nat) (update_func : callback).

Definition run (c : call) (s : state) : state * outcome :=
  match c with
  | AddToWatchList title update_func => add_to_watch_list title update_func s
  | AddToBuyList title update_func => add_to_buy_list title update_func s
  | RemoveFromWatchList listbox update_func => remove_from_watch_list listbox update_func s
  | RemoveFromBuyList listbox update_func => remove_from_buy_list listbox update_func s
  end.

Definition update_func_of (c : call) : callback :=
  match c with
  | AddToWatchList _ f | AddToBuyList _ f
  | RemoveFromWatchList _ f | RemoveFromBuyList _ f => f
  end.

(** A callable that leaves the two lists as they are. *)
Definition keeps_lists (f : callback) : Prop :=
  forall s, watch_list (fst (f s)) = watch_list s /\ buy_list (fst (f s)) = buy_list s.

(** The state after a sequence of calls, whatever their outcomes: a caller
    that catches what a callable raises goes on with the next call. *)
Definition run_all (calls : list call) (s : state) : state :=
  fold_left (fun s c => fst (run c s)) calls s.

(** No title twice and no empty title, in either list. *)
Definition tidy (s : state) : Prop :=
  NoDup (watch_list s) /\ NoDup (buy_list s)
  /\ ~ In [] (watch_list s) /\ ~ In [] (buy_list s).

(** The list boxes show the lists. *)
Definition in_step (watch_box buy_box : nat) (s : state) : Prop :=
  rows (widgets s watch_box) = watch_list s /\ rows (widgets s buy_box) = buy_list s.

(** The calls as a program wires them: a call on the watch list with the
    display of the watch list in the list box [watch_box], a call on the
    buy list with the display of the buy list in [buy_box]. *)
Definition wired (watch_box buy_box : nat) (c : call) : Prop :=
  match c with
  | AddToWatchList _ f | RemoveFromWatchList _ f => f = show_watch_list watch_box
  | AddToBuyList _ f | RemoveFromBuyList _ f => f = show_buy_list buy_box
  end.

(** The lists as the module makes them. *)
Definition initial (w : nat -> L) : state := mkState [] [] w.

End WithListbox.

(** A list box as a list of rows and the index of the active one. *)
Definition rows_and_active : Type := list str * nat.

#[global] Instance rows_and_active_listbox : Listbox rows_and_active := {|
  get_active := fun lb => nth (snd lb) (fst lb) [];
  delete_all := fun lb => ([], O);
  insert_end := fun lb s => (fst lb ++ [s], snd lb);
  rows := fst;
  rows_delete_all := fun lb => eq_refl;
  rows_insert_end := fun lb s => eq_refl
|}.

End ListManager.

(* ================================================================== *)
(** * [database_handler.py]: the two tables in SQLite                  *)
(* ================================================================== *)

(** The statements of the module, on a database that is open and can be
    written, whose tables, where they exist, were made by
    [create_database_schema]:

    - a table is its rows in the order of their ids, and the largest id
      it has ever given out ([sqlite_sequence], for [AUTOINCREMENT]);
    - [title] is [TEXT NOT NULL], [cover_url] is [TEXT]; a parameter is
      [None] or a [str];
    - a statement is compiled, which fails with [OperationalError] when
      the table is missing; then its parameters are bound, which fails
      with [UnicodeEncodeError] for a [str] with a surrogate; then it
      runs;
    - [title = ?] compares texts character by character and is not true
      of [NULL];
    - the name of the table is spliced into the text of three of the
      statements; the callers pass the literals ['watch_list'] and
      ['buy_list']. *)
Module DatabaseHandler.
Import Py.

Inductive exn : Type :=
  | ValueError (message : string)
  | IntegrityError
  | OperationalError
  | UnicodeEncodeError.

Inductive outcome : Type :=
  | Returned
  | Raised (e : exn).

(** A parameter: [None] or a [str]. *)
Definition value : Type := option str.

Record row : Type := mkRow {
  id : Z;
  title : str;
  cover_url : value
}.

Record table : Type := mkTable {
  rows : list row;
  seq : Z
}.

(** The database behind a connection: each table is there or not. *)
Record connection : Type := mkConnection {
  watch_list : option table;
  buy_list : option table
}.

Inductive list_name : Type :=
  | WatchList
  | BuyList.

Definition table_of (conn : connection) (name : list_name) : option table :=
  match name with
  | WatchList => watch_list conn
  | BuyList => buy_list conn
  end.

Definition with_table (conn : connection) (name : list_name) (t : table) : connection :=
  match name with
  | WatchList => mkConnection (Some t) (buy_list conn)
  | BuyList => mkConnection (watch_list conn) (Some t)
  end.

(** A [str] that UTF-8 can encode: it has no surrogate. *)
Definition encodable (s : str) : bool :=
  forallb (fun c => negb ((55296 <=? c)%N && (c <=? 57343)%N)) s.

Definition binds (v : value) : bool :=
  match v with
  | None => true
  | Some s => encodable s
  end.

(** [title = ?] on a row. *)
Definition title_is (parameter : value) (r : row) : bool :=
  match parameter with
  | Some s => str_eqb (title r) s
  | None => false
  end.

(** [SELECT * FROM {list_name} WHERE title = ?]. *)
Definition select_where_title (conn : connection) (name : list_name) (parameter : value)
    : exn + list row :=
  match table_of conn name with
  | None => inl OperationalError
  | Some t =>
      if binds parameter then inr (filter (title_is parameter) (rows t))
      else inl UnicodeEncodeError
  end.

(** The largest id of a table: no id is given out twice. *)
Definition largest_id (t : table) : Z := fold_right Z.max (seq t) (map id (rows t)).

Definition max_rowid : Z := 2 ^ 63 - 1.

(** [INSERT INTO {table} (title, cover_url) VALUES (?, ?)]: the id is the
    next one, and there is none after the largest integer of 64 bits; the
    title must not be [NULL]. *)
Definition insert (conn : connection) (name : list_name) (title cover_url : value)
    : exn + connection :=
  match table_of conn name with
  | None => inl OperationalError
  | Some t =>
      if negb (binds title && binds cover_url) then inl UnicodeEncodeError
      else if max_rowid <=? largest_id t then inl OperationalError
      else
        match title with
        | None => inl IntegrityError
        | Some s =>
            let next := largest_id t + 1 in
            inr (with_table conn name (mkTable (rows t ++ [mkRow next s cover_url]) next))
        end
  end.

(** [DELETE FROM {list_name} WHERE title = ?]. *)
Definition delete_where_title (conn : connection) (name : list_name) (parameter : value)
    : exn + connection :=
  match table_of conn name with
  | None => inl OperationalError
  | Some t =>
      if binds parameter then
        inr (with_table conn name
               (mkTable (filter (fun r => negb (title_is parameter r)) (rows t)) (seq t)))
      else inl UnicodeEncodeError
  end.

(** [CREATE TABLE IF NOT EXISTS]. *)
Definition create_table_if_not_exists (t : option table) : option table :=
  match t with
  | Some t => Some t
  | None => Some (mkTable [] 0)
  end.

Definition create_database_schema (conn : connection) : connection :=
  mkConnection (create_table_if_not_exists (watch_list conn))
               (create_table_if_not_exists (buy_list conn)).

(** [cursor.fetchone() is not None]. *)
Definition check_anime_exists (conn : connection) (title : value) (name : list_name)
    : exn + bool :=
  match select_where_title conn name title with
  | inl e => inl e
  | inr found => inr (match found with [] => false | _ :: _ => true end)
  end.

Definition add_anime_to_watch_list (conn : connection) (title cover_url : value)
    : connection * outcome :=
  match check_anime_exists conn title WatchList with
  | inl e => (conn, Raised e)
  | inr false =>
      match insert conn WatchList title cover_url with
      | inl e => (conn, Raised e)
      | inr conn => (conn, Returned)
      end
  | inr true => (conn, Raised (ValueError "Anime already exists in Watch List"))
  end.

Definition add_anime_to_buy_list (conn : connection) (title cover_url : value)
    : connection * outcome :=
  match check_anime_exists conn title BuyList with
  | inl e => (conn, Raised e)
  | inr false =>
      match insert conn BuyList title cover_url with
      | inl e => (conn, Raised e)
      | inr conn => (conn, Returned)
      end
  | inr true => (conn, Raised (ValueError "Anime already exists in Buy List"))
  end.

Definition remove_anime_from_list (conn : connection) (title : value) (name : list_name)
    : connection * outcome :=
  match delete_where_title conn name title with
  | inl e => (conn, Raised e)
  | inr conn => (conn, Returned)
  end.

(** [SELECT title, cover_url FROM ...] and [cursor.fetchall()]. *)
Definition select_all (t : option table) : exn + list (str * value) :=
  match t with
  | None => inl OperationalError
  | Some t => inr (map (fun r => (title r, cover_url r)) (rows t))
  end.

Definition get_watch_list (conn : connection) : exn + list (str * value) :=
  select_all (watch_list conn).

Definition get_buy_list (conn : connection) : exn + list (str * value) :=
  select_all (buy_list conn).

(** The two functions that add and the two that list, by the table they
    work on, and the error of the first two for a title that is there. *)
Definition add_anime_to (name : list_name)
    : connection -> value -> value -> connection * outcome :=
  match name with
  | WatchList => add_anime_to_watch_list
  | BuyList => add_anime_to_buy_list
  end.

Definition get_list (name : list_name) : connection -> exn + list (str * value) :=
  match name with
  | WatchList => get_watch_list
  | BuyList => get_buy_list
  end.

Definition already_exists (name : list_name) : exn :=
  match name with
  | WatchList => ValueError "Anime already exists in Watch List"
  | BuyList => ValueError "Anime already exists in Buy List"
  end.

Definition other (name : list_name) : list_name :=
  match name with
  | WatchList => BuyList
  | BuyList => WatchList
  end.

(** The calls of the module that write. *)
Inductive call : Type :=
  | CreateDatabaseSchema
  | AddAnimeToWatchList (title cover_url : value)
  | AddAnimeToBuyList (title cover_url : value)
  | RemoveAnimeFromList (title : value) (name : list_name).

Definition run (c : call) (conn : connection) : connection * outcome :=
  match c with
  | CreateDatabaseSchema => (create_database_schema conn, Returned)
  | AddAnimeToWatchList title cover_url => add_anime_to_watch_list conn title cover_url
  | AddAnimeToBuyList title cover_url => add_anime_to_buy_list conn title cover_url
  | RemoveAnimeFromList title name => remove_anime_from_list conn title name
  end.

(** The database after a sequence of calls, whatever their outcomes. *)
Definition run_all (calls : list call) (conn : connection) : connection :=
  fold_left (fun conn c => fst (run c conn)) calls conn.

(** The titles of a table, in the order of the rows; none for a table
    that is not there. *)
Definition titles (t : option table) : list str :=
  match t with
  | Some t => map title (rows t)
  | None => []
  end.

(** No title twice in either table. *)
Definition unique (conn : connection) : Prop :=
  NoDup (titles (watch_list conn)) /\ NoDup (titles (buy_list conn)).

(** A new database file: no table yet. *)
Definition new_database : connection := mkConnection None None.

End DatabaseHandler.

(* ================================================================== *)
(** * More vocabulary: the cross-reference section, bullets, words     *)
(* ================================================================== *)

Module Xref.
Import Py.

(** The two lines above the entries in a file of [n] objects. *)
Definition head (n : Z) : bytes :=
  latin1 ("xref" ++ LF ++ "0 " ++ str_of_int (n + 1) ++ LF).

(** The file ends with [startxref], a decimal number and the end mark,
    and at the index that the number reads as, the bytes [table] begin. *)
Definition startxref_locates (table : bytes) (file : bytes) : Prop :=
  exists (before : bytes) (number : string) (pos : Z),
    file = before ++ latin1 ("startxref" ++ LF) ++ latin1 number
           ++ latin1 (LF ++ "%%EOF" ++ LF)
    /\ int_of_str number = Some pos
    /\ Spec.begins_at table pos file.

(** The entries of the table that begins at [pos] have 20 bytes each, so
    that the entry of the object [i + 1] is found by counting: behind the
    head and after [i + 1] entries, the first of which is the entry of the
    free object 0. *)
Definition entries_by_counting (n : Z) (offs : list Z) (pos : Z) (file : bytes) : Prop :=
  forall (i : nat) (off : Z),
    nth_error offs i = Some off ->
    len (Spec.xref_entry off) = 20
    /\ Spec.begins_at (Spec.xref_entry off)
         (pos + len (head n) + 20 * (Z.of_nat i + 1)) file.

End Xref.

Module Placing.
Import Py.

(** The calls that [textwrap] refuses: a paragraph of a width that is not
    positive, and bullets of such a width when there is an item. *)
Definition refused (call : Spec.placement) : bool :=
  match call with
  | Spec.Paragraph _ width => width <=? 0
  | Spec.Bullets items width => (width <=? 0) && Textwrap.nonempty items
  | _ => false
  end.

(** An item of nothing but whitespace. *)
Definition all_whitespace (item : str) : bool := forallb Textwrap.is_ws item.

Section WithTables.
Context {U : UnicodeTables}.

(** The lines that the items of a list of bullets wrap to, all
    together. *)
Definition wrapped_lines (width : Z) (items : list str) : nat :=
  fold_right (fun item n =>
                match Textwrap.wrap item width with
                | inr lines => (length lines + n)%nat
                | inl _ => n
                end) O items.

End WithTables.

(** The layout [self'] is [self] with instructions added behind those it
    had, and with the same margins and body type. *)
Definition grown (self self' : AppSummary.Layout) : Prop :=
  (exists added, AppSummary.commands self' = AppSummary.commands self ++ added)
  /\ AppSummary.left self' = AppSummary.left self
  /\ AppSummary.body_size self' = AppSummary.body_size self
  /\ AppSummary.body_leading self' = AppSummary.body_leading self.

Definition grown_page (self self' : EngineVergleich.Page) : Prop :=
  (exists added, EngineVergleich.commands self' = EngineVergleich.commands self ++ added)
  /\ EngineVergleich.left self' = EngineVergleich.left self.

(** The characters of a text that are no whitespace, in their order. *)
Definition visible (s : str) : str := filter (fun c => negb (Textwrap.isspace c)) s.

(** The text of the lines of a paragraph, one after the other. *)
Definition visible_lines (lines : list str) : str := visible (concat lines).

(** A table of the check after a paragraph: for [n], [n + 1], ...,
    [n + k] lines of leading [d] and the gap [gap], the first of these
    paragraphs ending its lines at the cursor [y], the check against
    [limit] raises exactly when the lines are more than [cap]. *)
Fixpoint capacity_table (k n : nat) (y d gap limit : float) (cap : nat) : bool :=
  Bool.eqb (flt (fsub y gap) limit) (negb (n <=? cap)%nat)
  && match k with
     | O => true
     | S k' => capacity_table k' (S n) (fsub y d) d gap limit cap
     end.

(** Reading a literal string of a content stream from behind its
    opening parenthesis: a backslash stands for the character after it
    (the three escapes that the scripts write are of this kind),
    parentheses that are not escaped are counted, and the literal ends at
    the closing parenthesis that matches the opening one.  The result is
    the text of the literal and what follows it. *)
Fixpoint read_literal (depth : nat) (s : str) : option (str * str) :=
  match s with
  | [] => None
  | c :: rest =>
      if (c =? 92)%N then
        match rest with
        | [] => None
        | d :: rest' =>
            option_map (fun r => (d :: fst r, snd r)) (read_literal depth rest')
        end
      else if (c =? 40)%N then
        option_map (fun r => (c :: fst r, snd r)) (read_literal (S depth) rest)
      else if (c =? 41)%N then
        match depth with
        | O => Some ([], rest)
        | S depth' =>
            option_map (fun r => (c :: fst r, snd r)) (read_literal depth' rest)
        end
      else option_map (fun r => (c :: fst r, snd r)) (read_literal depth rest)
  end.

End Placing.

(* ================================================================== *)
(** * The two programs: [main]                                         *)
(* ================================================================== *)

(** What a run leaves behind: the files written, with their contents, and
    the lines printed.  The file system takes every file. *)
Record effects : Type := mkEffects {
  written : list (string * Py.bytes);
  printed : list string
}.

Module AppSummaryMain.
Import Py AppSummary.

Definition OUT_PATH : string := "output/pdf/shokaishelf-app-summary.pdf".

(** The next statement runs when the call before it has returned. *)
Definition and_then (r : Layout * outcome) (next : Layout -> Layout * outcome)
    : Layout * outcome :=
  match r with
  | (layout, Returned) => next layout
  | (layout, Raised e) => (layout, Raised e)
  end.

Section WithTables.
Context {U : UnicodeTables}.

(** [main], lines 115-165: the layout and the check; [generated_at] is the
    text that [strftime] returns. *)
Definition main_layout (generated_at : str) : Layout * outcome :=
  let layout := Layout_init in
  let layout := add_title layout (u "ShokaiShelf-Beta: One-Page App Summary") in
  let layout := add_subtitle layout (u "Generated from repository evidence only (" ++ generated_at ++ u ")") in
  let layout := add_heading layout (u "What it is") in
  and_then (add_paragraph layout
      (u ("ShokaiShelf-Beta is an Electron desktop app with a React frontend for AniList-connected anime tracking and discovery. "
         ++ "It combines library management, recommendation engines, social activity, and local desktop integrations in one client.")) 98) (fun layout =>
  let layout := add_heading layout (u "Who it is for") in
  and_then (add_paragraph layout
      (u ("Primary persona: AniList users who actively watch and track anime and want a desktop companion for recommendations, "
         ++ "scrobbling, and alerts.")) 98) (fun layout =>
  let layout := add_heading layout (u "What it does") in
  and_then (add_bullets layout
      [(u "Runs AniList OAuth setup/login and AniList GraphQL reads/writes (viewer, lists, search, save/delete list entries).");
       (u "Shows personalized recommendations via local recommendation logic (`netrecV3` and `netrecDream`) plus feedback learning.");
       (u "Provides a library workspace with status tabs, progress edits, sort/filter controls, and airing-focused views.");
       (u "Supports anime search/discovery with query input, popular genre shortcuts, mood/vibe selection, and quick add/update.");
       (u "Includes a social feed view (following/global) and a composer for creating activity posts.");
       (u "Offers desktop integrations: notifications, Discord Rich Presence, local scrobbler matching, and Miru extension bridge.")] 92) (fun layout =>
  let layout := add_heading layout (u "How it works (architecture)") in
  and_then (add_bullets layout
      [(u "Renderer layer (React): pages/components in `src/`, AniList API wrapper in `src/api/anilist.ts`, and recommendation/feedback logic in `src/logic/*`.");
       (u "Bridge layer (preload): `electron/preload.js` exposes `window.shokai` APIs and forwards renderer calls via Electron IPC.");
       (u "Main process layer: `electron/main.js` owns OAuth callback handling, IPC handlers, app services (`ScrobblerEngine`, `DiscordPresence`, `NotificationEngine`, `MiruBridge`), and persistent store access.");
       (u "Data flow: UI action -> `window.shokai` API -> IPC handler -> local store/service and/or AniList endpoints -> response back to renderer.");
       (u "Offline cache/sync code exists in repo (`electron/offlineStore.ts`, `src/logic/offline/sync-manager.ts`) but runtime main process currently sets `offlineStore = null` with offline mode unavailable.")] 92) (fun layout =>
  let layout := add_heading layout (u "How to run (minimal)") in
  and_then (add_bullets layout
      [(u "Install dependencies: `npm install`.");
       (u "Run development app: `npm run dev` (starts Vite and Electron).");
       (u "On first launch, open setup, enter AniList Client ID/Secret, then sign in through AniList OAuth.");
       (u "Create production package: `npm run build`.");
       (u "Required Node.js version: Not found in repo. Supported OS matrix: Not found in repo.")] 92) (fun layout =>
  (layout, check_fit layout)))))).

(** [main], lines 166-168. *)
Definition main (generated_at : str) : effects * outcome :=
  match main_layout generated_at with
  | (layout, Returned) =>
      let content_stream := build_pdf_stream layout in
      (mkEffects [write_pdf OUT_PATH content_stream] [OUT_PATH], Returned)
  | (_, Raised e) => (mkEffects [] [], Raised e)
  end.

End WithTables.

End AppSummaryMain.

Module EngineVergleichMain.
Import Py EngineVergleich.

Definition OUT_PATH : string := "output/pdf/shokaishelf-engine-vergleich-de.pdf".

Definition and_then (r : Page * outcome) (next : Page -> Page * outcome)
    : Page * outcome :=
  match r with
  | (page, Returned) => next page
  | (page, Raised e) => (page, Raised e)
  end.

Section WithTables.
Context {U : UnicodeTables}.

(** [main], lines 87-141: the page and the check; [now] is the text that
    [strftime] returns. *)
Definition main_page (now : str) : Page * outcome :=
  let p := Page_init in
  let p := title p (u "ShokaiShelf: Ausfuehrliche Engine-Erklaerung und Unterschiede") in
  let p := sub p (u "Nur repo-basierte Einordnung | Stand: " ++ now) in
  let p := h p (u "1) Shokai-Rythm (src/logic/rhythm.ts)") in
  and_then (b p
      [(u "V1 ist strikt regelbasiert und komplett lokal: Genre-Gewichte aus Listenstatus, Mood/Daypart-Heuristiken, Session-Fit und leichte Frische-/Populaeritaetsanteile.");
       (u "Das Ranking arbeitet ohne ML-Training und ohne externe Modelldienste; Ergebnis ist nachvollziehbar ueber __why-Reasons.");
       (u "Diversitaet ist einfach: kleines Genre-Dedupe-Light beim Re-Ranking.")] 113) (fun p =>
  let p := h p (u "2) Shokai-Rythm v2 (src/logic/rhythm2.ts)") in
  and_then (b p
      [(u "V2 wechselt auf TF-IDF-Vektoren (Titel, Synonyme, Genres, Tags, Studios) plus Positive/Negative-Centroids aus User-Verlauf und Scores.");
       (u "Relevanz kombiniert aehnlichkeitsbasierte Signale (simPos/simNeg) mit Meta-Faktoren und Kontext; danach MMR fuer Diversitaet.");
       (u "Dashboard und Suche nutzen bewusst verschiedene Tuning-Profile (Lambda/Popularity/Seen-Penalty) und teilen letzte Empfehlungen, damit Suche anders wirkt.")] 113) (fun p =>
  let p := h p (u "3) AnimeNetRec (src/logic/netrec.ts)") in
  and_then (b p
      [(u "Graphbasierter Ansatz: Medien als Knoten, gewichtete Aehnlichkeitskanten ueber Tags/Genres/Studios/Format/Jahr.");
       (u "Ranking: positive und negative Personalized PageRank + BFS-Proximity + Meta/Mood-Modulation, danach MMR-Selektion.");
       (u "Wichtiger Unterschied zu NetRecV3: dieses Modul ist im aktuellen UI-Fluss nicht als aktiver Hauptpfad verdrahtet (keine direkte Import-Nutzung in den Page-Flows gefunden).")] 113) (fun p =>
  let p := h p (u "4) AnimeNetRecV2 (src/logic/netrecV2.ts)") in
  and_then (b p
      [(u "V2 ist ein gewichteter Multi-Faktor-Scorer auf Catalog-Ebene (Genres, Tags, Baseline, Populaeritaet, Feedback-Boost/Penalty).");
       (u "Feedback wird bereits einbezogen (like/dislike-aehnlichkeit), aber ohne die modulare Kandidaten-Pipeline von V3.");
       (u "In der Engine-Weiche ist V2 als Fallback angelegt, aber derzeit als Platzhalter markiert und liefert dort leer zurueck.")] 113) (fun p =>
  let p := h p (u ("5) AnimeNetRecV3 (src/logic/netrecV3/*"
         ++ ")")) in
  and_then (b p
      [(u "V3 ist die produktive Standard-Engine: Multi-Source Candidate Generation (current-similar, collaborative, content, relations, trending).");
       (u "Danach folgen Features/Filter/Scoring, adaptive Lambda fuer MMR, erklaerbare Reasons und Confidence-Ausgabe.");
       (u "V3 ist breit integriert (z. B. Dashboard_v3, Search-Fallback-First, rec-engine-switcher auf V3-Standard).")] 113) (fun p =>
  let p := h p (u ("6) AnimeNetRec Dream (src/logic/netrecDream/*"
         ++ ")")) in
  and_then (b p
      [(u "Dream (V4) erweitert V3 um pro-User DreamProfile mit adaptiven Gewichten, Behavioral Metrics, semantischen Regeln, Clustern und Lernhistorie.");
       (u "Scoring ist multiplikativ erweitert (Veto-Regeln, Cluster-Boost, Behavioral Modifier, Tolerance Adjustment) statt nur linearer Gewichtssumme.");
       (u "Migration von V3-Profilen ist im App-Startpfad verdrahtet; Dream-Empfehlungen und Feedback-Verarbeitung sind in den Dream-Pages aktiv.")] 113) (fun p =>
  let p := h p (u "Kernunterschiede auf einen Blick") in
  and_then (b p
      [(u "Komplexitaet: Rythm v1 < Rythm v2 < NetRecV2 < NetRec/NetRecV3 < Dream.");
       (u "Personalisierung: von festen Regeln (v1) ueber statische Gewichte (V2/V3) bis zu adaptivem, profilbasiertem Lernen (Dream).");
       (u "Kandidatenquellen: bei V3/Dream am staerksten ausgebaut (mehrere Quellen plus Relations/current-similar).");
       (u "Produktstatus im Repo: V3 + Dream klar aktiv; Rythm2 in Search-Fallback aktiv; NetRec (graph) eher experimentell/isoliert; V2 im Switcher-Fallback nicht ausimplementiert.")] 113) (fun p =>
  (p, check p)))))))).

(** [main], lines 142-155. *)
Definition main (now : str) : effects * outcome :=
  match main_page now with
  | (p, Returned) =>
      let stream := main_stream p in
      let objs := main_objs stream in
      let pdf := build_pdf objs in
      (mkEffects [(OUT_PATH, pdf)] [OUT_PATH], Returned)
  | (_, Raised e) => (mkEffects [] [], Raised e)
  end.

End WithTables.

End EngineVergleichMain.

(* ================================================================== *)
(** * Proofs                                                           *)
(* ================================================================== *)

Import Py.

(** ** Decimal numbers read back *)

Section Decimal.

Lemma digit_value (d : Z) :
  0 <= d < 10 -> Z.of_N (N_of_ascii (digit d)) = 48 + d.
Proof.
  intros Hd. unfold digit.
  assert (Hc : d = 0 \/ d = 1 \/ d = 2 \/ d = 3 \/ d = 4 \/ d = 5
               \/ d = 6 \/ d = 7 \/ d = 8 \/ d = 9) by lia.
  repeat (destruct Hc as [-> | Hc]; [reflexivity |]). subst d. reflexivity.
Qed.

Lemma int_of_digits_digit (a d : Z) (s : string) :
  0 <= d < 10 ->
  int_of_digits a (String (digit d) s) = int_of_digits (10 * a + d) s.
Proof.
  intros Hd. cbn [int_of_digits]. rewrite digit_value by assumption.
  replace (48 <=? 48 + d) with true by (symmetry; apply Z.leb_le; lia).
  replace (48 + d <=? 57) with true by (symmetry; apply Z.leb_le; lia).
  cbn [andb]. f_equal. lia.
Qed.

Lemma digits_loop_value (fuel : nat) :
  forall (n : Z) (rest : string) (a : Z),
    0 <= n < 10 ^ Z.of_nat fuel ->
    exists k, 0 <= k /\
      int_of_digits a (digits_loop fuel n rest) = int_of_digits (a * 10 ^ k + n) rest.
Proof.
  induction fuel as [| fuel IH]; intros n rest a Hn.
  - exists 0. split; [lia |]. cbn in *. f_equal. lia.
  - rewrite Nat2Z.inj_succ, Z.pow_succ_r in Hn by lia.
    cbn [digits_loop].
    assert (Hm : 0 <= n mod 10 < 10) by (apply Z.mod_pos_bound; lia).
    assert (Hdm : n = 10 * (n / 10) + n mod 10) by (apply Z.div_mod; lia).
    destruct (n / 10 =? 0) eqn:Hq.
    + apply Z.eqb_eq in Hq. exists 1. split; [lia |].
      rewrite int_of_digits_digit by assumption. f_equal. lia.
    + assert (Hq' : 0 <= n / 10 < 10 ^ Z.of_nat fuel).
      { split; [apply Z.div_pos; lia | apply Z.div_lt_upper_bound; lia]. }
      destruct (IH (n / 10) (String (digit (n mod 10)) rest) a Hq') as [k [Hk Hv]].
      exists (k + 1). split; [lia |].
      rewrite Hv, int_of_digits_digit by assumption.
      f_equal. rewrite Z.pow_add_r, Z.pow_1_r by lia. lia.
Qed.

Lemma digits_fuel_enough (n : Z) :
  0 <= n -> n < 10 ^ Z.of_nat (S (Z.to_nat (Z.log2 n))).
Proof.
  intros Hn. rewrite Nat2Z.inj_succ, Z2Nat.id by apply Z.log2_nonneg.
  destruct (Z.eq_dec n 0) as [-> | Hz]; [reflexivity |].
  assert (H2 : n < 2 ^ Z.succ (Z.log2 n)) by (apply Z.log2_spec; lia).
  assert (Hp : 2 ^ Z.succ (Z.log2 n) <= 10 ^ Z.succ (Z.log2 n)).
  { apply Z.pow_le_mono_l. lia. }
  lia.
Qed.

Lemma int_of_digits_digits (n : Z) (a : Z) (rest : string) :
  0 <= n ->
  exists k, 0 <= k /\
    int_of_digits a (digits_loop (S (Z.to_nat (Z.log2 n))) n rest)
    = int_of_digits (a * 10 ^ k + n) rest.
Proof.
  intros Hn. apply digits_loop_value. split; [assumption |].
  now apply digits_fuel_enough.
Qed.

Lemma digits_loop_not_empty (fuel : nat) :
  forall n s, s <> EmptyString -> digits_loop fuel n s <> EmptyString.
Proof.
  induction fuel as [| fuel IH]; intros n s Hs; cbn [digits_loop]; [assumption |].
  destruct (n / 10 =? 0); [discriminate | apply IH; discriminate].
Qed.

Lemma digits_not_empty (n : Z) : digits n <> EmptyString.
Proof.
  unfold digits. cbn [digits_loop].
  destruct (n / 10 =? 0); [discriminate |].
  apply digits_loop_not_empty. discriminate.
Qed.

Lemma digits_loop_head (fuel : nat) :
  forall n s c s', digits_loop fuel n s = String c s' ->
    (exists d, 0 <= d < 10 /\ c = digit d) \/ (exists s'', s = String c s'').
Proof.
  induction fuel as [| fuel IH]; intros n s c s' H; cbn [digits_loop] in H.
  - right. exists s'. assumption.
  - destruct (n / 10 =? 0).
    + left. injection H as <- _. exists (n mod 10). split; [| reflexivity].
      apply Z.mod_pos_bound. lia.
    + destruct (IH _ _ _ _ H) as [Hd | [s'' Hs]]; [left; assumption |].
      left. injection Hs as <- _. exists (n mod 10). split; [| reflexivity].
      apply Z.mod_pos_bound. lia.
Qed.

Lemma digit_not_minus (d : Z) : 0 <= d < 10 -> digit d <> "-"%char.
Proof.
  intros Hd Heq. apply (f_equal (fun c => Z.of_N (N_of_ascii c))) in Heq.
  rewrite digit_value in Heq by assumption.
  change (Z.of_N (N_of_ascii "-")) with 45 in Heq. lia.
Qed.

Lemma int_of_str_digits (n : Z) : 0 <= n -> int_of_str (digits n) = Some n.
Proof.
  intros Hn.
  destruct (int_of_digits_digits n 0 EmptyString Hn) as [k [_ Hv]].
  cbn [int_of_digits] in Hv. fold (digits n) in Hv.
  destruct (digits n) as [| c s] eqn:Hd; [now apply digits_not_empty in Hd |].
  unfold digits in Hd.
  destruct (digits_loop_head _ _ _ _ _ Hd) as [[d [Hdr ->]] | [s'' Hs]]; [| discriminate].
  unfold int_of_str.
  destruct (digit d) as [b0 b1 b2 b3 b4 b5 b6 b7] eqn:Hc.
  assert (Hne : Ascii b0 b1 b2 b3 b4 b5 b6 b7 <> "-"%char).
  { rewrite <- Hc. now apply digit_not_minus. }
  rewrite Hv.
  destruct b0, b1, b2, b3, b4, b5, b6, b7;
    try (f_equal; lia); exfalso; apply Hne; reflexivity.
Qed.

(** [int(str(n)) == n]. *)
Lemma int_of_str_of_int (n : Z) : int_of_str (str_of_int n) = Some n.
Proof.
  unfold str_of_int. destruct (n <? 0) eqn:Hs.
  - apply Z.ltb_lt in Hs.
    destruct (int_of_digits_digits (- n) 0 EmptyString ltac:(lia)) as [k [_ Hv]].
    cbn [int_of_digits] in Hv. fold (digits (- n)) in Hv.
    cbn [int_of_str].
    destruct (digits (- n)) as [| c s] eqn:Hd; [now apply digits_not_empty in Hd |].
    rewrite Hv. cbn. f_equal. lia.
  - apply Z.ltb_ge in Hs. now apply int_of_str_digits.
Qed.

Lemma int_of_digits_zeros (k : nat) (s : string) :
  int_of_digits 0 (zeros k ++ s) = int_of_digits 0 s.
Proof. induction k as [| k IH]; [reflexivity | exact IH]. Qed.

(** A zero-padded offset reads back as the offset. *)
Lemma int_of_str_format_0d (w : nat) (n : Z) :
  0 <= n -> int_of_str (format_0d w n) = Some n.
Proof.
  intros Hn. unfold format_0d.
  replace (n <? 0) with false by (symmetry; apply Z.ltb_ge; lia).
  rewrite Z.abs_eq by assumption. cbn [String.append String.length].
  pose proof (int_of_str_digits n Hn) as Hd.
  destruct (int_of_digits_digits n 0 EmptyString Hn) as [k [_ Hv]].
  cbn [int_of_digits] in Hv. fold (digits n) in Hv.
  remember (w - 0 - String.length (digits n))%nat as j.
  destruct j as [| j]; [exact Hd |].
  cbn [zeros String.append int_of_str].
  change (int_of_digits 0 (String "0" (zeros j ++ digits n)))
    with (int_of_digits 0 (zeros j ++ digits n)).
  rewrite int_of_digits_zeros, Hv. f_equal; lia.
Qed.

End Decimal.

(** ** The serializer *)

Section Serializer.
Import Spec.

Lemma latin1_app (s t : string) : latin1 (s ++ t) = latin1 s ++ latin1 t.
Proof.
  unfold latin1. induction s as [| c s IH]; [reflexivity |].
  cbn [String.append].
  change (list_byte_of_string (String c (s ++ t)))
    with (byte_of_ascii c :: list_byte_of_string (s ++ t)).
  rewrite IH. reflexivity.
Qed.

Lemma len_app {A : Type} (l l' : list A) : len (l ++ l') = len l + len l'.
Proof. unfold len. rewrite length_app. lia. Qed.

Lemma len_nonneg {A : Type} (l : list A) : 0 <= len l.
Proof. unfold len. lia. Qed.

Lemma begins_at_intro (t before after : bytes) :
  begins_at t (len before) (before ++ t ++ after).
Proof.
  split; [apply len_nonneg |].
  unfold take, drop, len. rewrite !Nat2Z.id.
  rewrite skipn_app, skipn_all, Nat.sub_diag. cbn [skipn app].
  rewrite firstn_app, firstn_all, Nat.sub_diag. cbn [firstn]. apply app_nil_r.
Qed.

Lemma build_pdf_loop_spec (objects : list bytes) :
  forall i out offsets,
    EngineVergleich.build_pdf_loop i objects out offsets
    = (out ++ indirect_objects i objects,
       offsets ++ object_starts i (len out) objects).
Proof.
  induction objects as [| obj rest IH]; intros i out offsets.
  - cbn. now rewrite !app_nil_r.
  - cbn [EngineVergleich.build_pdf_loop indirect_objects object_starts].
    rewrite IH. unfold indirect_object.
    rewrite !len_app, <- !app_assoc. cbn [app].
    f_equal. do 2 f_equal. f_equal. lia.
Qed.

Lemma write_pdf_loop_spec (objects : list bytes) :
  forall idx pdf offsets,
    AppSummary.write_pdf_loop idx objects pdf offsets
    = (pdf ++ indirect_objects idx objects,
       offsets ++ object_starts idx (len pdf) objects).
Proof.
  induction objects as [| obj rest IH]; intros idx pdf offsets.
  - cbn. now rewrite !app_nil_r.
  - cbn [AppSummary.write_pdf_loop indirect_objects object_starts].
    rewrite IH. unfold indirect_object.
    rewrite !len_app, <- !app_assoc. cbn [app].
    f_equal. do 2 f_equal. f_equal. lia.
Qed.

Lemma build_pdf_xref_spec (offs : list Z) :
  forall out, EngineVergleich.build_pdf_xref offs out = out ++ concat (map xref_entry offs).
Proof.
  induction offs as [| off rest IH]; intros out; cbn.
  - now rewrite app_nil_r.
  - rewrite IH, <- app_assoc. reflexivity.
Qed.

Lemma write_pdf_xref_spec (offs : list Z) :
  forall pdf, AppSummary.write_pdf_xref offs pdf = pdf ++ concat (map xref_entry offs).
Proof.
  induction offs as [| off rest IH]; intros pdf; cbn.
  - now rewrite app_nil_r.
  - rewrite IH, <- app_assoc. reflexivity.
Qed.

Lemma object_starts_length (objects : list bytes) :
  forall i start, length (object_starts i start objects) = length objects.
Proof. induction objects; intros; cbn; [reflexivity | now rewrite IHobjects]. Qed.

(** The [j]-th start is where the token of object [i + j] begins. *)
Lemma object_starts_token (objects : list bytes) :
  forall i start j off,
    nth_error (object_starts i start objects) j = Some off ->
    exists before after,
      indirect_objects i objects
      = before ++ opening_token (i + Z.of_nat j) ++ after
      /\ off = start + len before.
Proof.
  induction objects as [| obj rest IH]; intros i start j off Hnth.
  - destruct j; discriminate.
  - destruct j as [| j]; cbn [object_starts nth_error] in Hnth.
    + injection Hnth as <-. exists [].
      exists (latin1 LF ++ obj ++ latin1 (LF ++ "endobj" ++ LF)
              ++ indirect_objects (i + 1) rest).
      split; [| cbn; lia].
      cbn [indirect_objects app]. unfold indirect_object, opening_token.
      rewrite Z.add_0_r.
      replace (str_of_int i ++ " 0 obj" ++ LF)%string
        with ((str_of_int i ++ " 0 obj") ++ LF)%string.
      * rewrite latin1_app, <- !app_assoc. reflexivity.
      * generalize (str_of_int i). intros s.
        induction s as [| c s IHs]; [reflexivity | cbn; now rewrite IHs].
    + destruct (IH _ _ _ _ Hnth) as [before [after [Heq Hoff]]].
      exists (indirect_object i obj ++ before), after. split.
      * cbn [indirect_objects]. rewrite Heq, <- app_assoc.
        do 4 f_equal. lia.
      * rewrite len_app. lia.
Qed.

Lemma object_starts_nonneg (objects : list bytes) :
  forall i start j off,
    0 <= start ->
    nth_error (object_starts i start objects) j = Some off -> 0 <= off.
Proof.
  intros i start j off Hs Hnth.
  destruct (object_starts_token _ _ _ _ _ Hnth) as [before [_ [_ ->]]].
  pose proof (len_nonneg before). lia.
Qed.

Lemma build_pdf_unfold (objects : list bytes) :
  EngineVergleich.build_pdf objects
  = pdf_header ++ indirect_objects 1 objects
    ++ xref_table (len objects) (object_starts 1 (len pdf_header) objects)
    ++ latin1 ("trailer" ++ LF
         ++ "<< /Size " ++ str_of_int (len objects + 1) ++ " /Root 1 0 R >>" ++ LF
         ++ "startxref" ++ LF
         ++ str_of_int (len (pdf_header ++ indirect_objects 1 objects)) ++ LF
         ++ "%%EOF" ++ LF).
Proof.
  unfold EngineVergleich.build_pdf. rewrite build_pdf_loop_spec.
  cbn [app tl]. rewrite build_pdf_xref_spec.
  unfold xref_table. rewrite <- !app_assoc. reflexivity.
Qed.

Lemma build_pdf_offsets_unfold (objects : list bytes) :
  tl (EngineVergleich.build_pdf_offsets objects)
  = object_starts 1 (len pdf_header) objects.
Proof.
  unfold EngineVergleich.build_pdf_offsets. rewrite build_pdf_loop_spec. reflexivity.
Qed.

Lemma write_pdf_bytes_eq_build_pdf (objects : list bytes) :
  AppSummary.write_pdf_bytes objects = EngineVergleich.build_pdf objects.
Proof.
  unfold AppSummary.write_pdf_bytes, EngineVergleich.build_pdf.
  rewrite write_pdf_loop_spec, build_pdf_loop_spec.
  cbn [app tl]. rewrite write_pdf_xref_spec, build_pdf_xref_spec. reflexivity.
Qed.

Lemma write_pdf_offsets_eq (objects : list bytes) :
  AppSummary.write_pdf_offsets objects = EngineVergleich.build_pdf_offsets objects.
Proof.
  unfold AppSummary.write_pdf_offsets, EngineVergleich.build_pdf_offsets.
  now rewrite write_pdf_loop_spec, build_pdf_loop_spec.
Qed.

Lemma build_pdf_offsets_locate (objects : list bytes) :
  offsets_locate_objects objects
    (tl (EngineVergleich.build_pdf_offsets objects))
    (EngineVergleich.build_pdf objects).
Proof.
  rewrite build_pdf_offsets_unfold, build_pdf_unfold.
  split; [apply object_starts_length |]. split.
  - exists (pdf_header ++ indirect_objects 1 objects). eexists.
    rewrite <- !app_assoc. reflexivity.
  - intros i off Hnth.
    pose proof (object_starts_nonneg _ _ _ _ _ (len_nonneg pdf_header) Hnth) as Hpos.
    split; [now apply int_of_str_format_0d |].
    destruct (object_starts_token _ _ _ _ _ Hnth) as [before [after [Heq ->]]].
    rewrite Heq, <- len_app, <- !app_assoc.
    replace (Z.of_nat i + 1) with (1 + Z.of_nat i) by lia.
    rewrite (app_assoc pdf_header before). apply begins_at_intro.
Qed.

End Serializer.

(** C1. For every list of object bodies, in both scripts: the file carries
    the cross-reference table of the recorded offsets, each entry reads
    back as the recorded offset, and at the offset recorded for object [i]
    the bytes of the text [i 0 obj] begin in the final output. *)
Theorem xref_offsets_locate_objects (objects : list bytes) :
  Spec.offsets_locate_objects objects
    (tl (EngineVergleich.build_pdf_offsets objects))
    (EngineVergleich.build_pdf objects)
  /\ Spec.offsets_locate_objects objects
       (tl (AppSummary.write_pdf_offsets objects))
       (AppSummary.write_pdf_bytes objects).
Proof.
  split.
  - apply build_pdf_offsets_locate.
  - rewrite write_pdf_offsets_eq, write_pdf_bytes_eq_build_pdf.
    apply build_pdf_offsets_locate.
Qed.

(** C9. On every list of object bodies the bytes assembled by [write_pdf]
    of the app-summary script are the bytes returned by [build_pdf] of the
    engine-vergleich script. *)
Theorem write_pdf_matches_build_pdf (objects : list bytes) :
  AppSummary.write_pdf_bytes objects = EngineVergleich.build_pdf objects.
Proof. apply write_pdf_bytes_eq_build_pdf. Qed.

(** ** The length of the content stream *)

Section ContentStream.
Import Spec.

Lemma length_prefixed_intro (payload : bytes) :
  length_prefixed payload
    (latin1 ("<< /Length " ++ str_of_int (len payload) ++ " >>" ++ LF ++ "stream" ++ LF)
     ++ payload ++ latin1 "endstream").
Proof.
  exists (str_of_int (len payload)). split.
  - rewrite !latin1_app, <- !app_assoc. reflexivity.
  - apply int_of_str_of_int.
Qed.

(** The payload has one byte per character of the joined commands. *)
Lemma encode_latin1_replace_length (s : str) :
  length (encode_latin1_replace s) = length s.
Proof. apply length_map. Qed.

End ContentStream.

(** C2. For every list of layout commands, in both scripts, the sixth
    object is the stream object, and the integer written after [/Length]
    reads as the number of bytes of the encoded payload that stands
    between [stream] and [endstream]. *)
Theorem stream_length_is_payload_length :
  (forall layout : AppSummary.Layout,
     exists obj,
       nth_error (AppSummary.write_pdf_objects (AppSummary.build_pdf_stream layout)) 5
       = Some obj
       /\ Spec.length_prefixed (AppSummary.build_pdf_stream layout) obj)
  /\ (forall page : EngineVergleich.Page,
        exists obj,
          nth_error (EngineVergleich.main_objs (EngineVergleich.main_stream page)) 5
          = Some obj
          /\ Spec.length_prefixed (EngineVergleich.main_stream page) obj).
Proof.
  split.
  - intros layout. eexists. split; [reflexivity |]. apply length_prefixed_intro.
  - intros page. eexists. split; [reflexivity |]. apply length_prefixed_intro.
Qed.

(** ** The text escaper *)

Section Escaper.
Import Spec.

Lemma replace1_app (old : N) (new s t : str) :
  replace1 old new (s ++ t) = replace1 old new s ++ replace1 old new t.
Proof. unfold replace1. apply flat_map_app. Qed.

(** The three passes, in their order, escape every character once. *)
Lemma escape_is_flat_map (text : str) :
  replace1 41 (u "\)") (replace1 40 (u "\(") (replace1 92 (u "\\") text))
  = flat_map escape_char text.
Proof.
  induction text as [| c text IH]; [reflexivity |].
  change (replace1 92 (u "\\") (c :: text))
    with ((if (c =? 92)%N then u "\\" else [c]) ++ replace1 92 (u "\\") text).
  rewrite !replace1_app, IH. cbn [flat_map]. f_equal.
  unfold escape_char.
  destruct (c =? 92)%N eqn:H92; [reflexivity |].
  cbn [replace1 flat_map app].
  destruct (c =? 40)%N eqn:H40.
  - apply N.eqb_eq in H40. subst c. reflexivity.
  - cbn [flat_map app]. destruct (c =? 41)%N eqn:H41; reflexivity.
Qed.

Lemma unescape_flat_map (text : str) : unescape (flat_map escape_char text) = text.
Proof.
  induction text as [| c text IH]; [reflexivity |].
  cbn [flat_map]. unfold escape_char at 1.
  destruct (c =? 92)%N eqn:H92.
  - apply N.eqb_eq in H92. subst c. cbn. now rewrite IH.
  - destruct (c =? 40)%N eqn:H40.
    + apply N.eqb_eq in H40. subst c. cbn. now rewrite IH.
    + destruct (c =? 41)%N eqn:H41.
      * apply N.eqb_eq in H41. subst c. cbn. now rewrite IH.
      * cbn [app unescape]. rewrite H92, IH. reflexivity.
Qed.

End Escaper.

(** C4. For every text, in both scripts: the escaper is the substitution
    of the backslash followed by those of the two parentheses, it puts one
    backslash before each of the three characters, and reading the escapes
    back gives the text. *)
Theorem escape_order_and_round_trip (text : str) :
  (AppSummary.escape_pdf_text text
   = replace1 41 (u "\)") (replace1 40 (u "\(") (replace1 92 (u "\\") text))
   /\ AppSummary.escape_pdf_text text = flat_map Spec.escape_char text
   /\ Spec.unescape (AppSummary.escape_pdf_text text) = text)
  /\ (EngineVergleich.esc text
      = replace1 41 (u "\)") (replace1 40 (u "\(") (replace1 92 (u "\\") text))
      /\ EngineVergleich.esc text = flat_map Spec.escape_char text
      /\ Spec.unescape (EngineVergleich.esc text) = text).
Proof.
  unfold AppSummary.escape_pdf_text, EngineVergleich.esc.
  rewrite escape_is_flat_map, unescape_flat_map. repeat split; reflexivity.
Qed.

(** ** The overflow check *)

Section Comparison.

Lemma SFcompare_antisym (x y : float) :
  SFcompare x y = option_map CompOpp (SFcompare y x).
Proof.
  destruct x as [sx | sx | | sx mx ex], y as [sy | sy | | sy my ey];
    try destruct sx; try destruct sy; try reflexivity;
    cbn [SFcompare option_map]; f_equal;
    rewrite (Z.compare_antisym ex ey);
    destruct (ex ?= ey) eqn:He; cbn [CompOpp]; try reflexivity;
    rewrite (Pos.compare_cont_antisym my mx Eq); cbn [CompOpp];
    try rewrite CompOpp_involutive; reflexivity.
Qed.

(** [a <= y] excludes [y < a]. *)
Lemma fle_not_flt (a y : float) : fle a y = true -> flt y a = false.
Proof.
  unfold fle, flt, SFleb, SFltb. rewrite (SFcompare_antisym y a).
  destruct (SFcompare a y) as [[ | | ] |]; cbn; congruence.
Qed.

End Comparison.

(** C3. For every layout state, in both scripts: [check_fit] raises when
    the cursor is strictly below the bottom margin (42.0, and 38.0 for
    [Page.check]), and returns when the cursor is at or above it. *)
Theorem check_fit_raises_below_threshold :
  (forall layout : AppSummary.Layout,
     (flt (AppSummary.y layout) (decimal 420 1) = true ->
      AppSummary.check_fit layout = Raised RuntimeError)
     /\ (fle (decimal 420 1) (AppSummary.y layout) = true ->
         AppSummary.check_fit layout = Returned))
  /\ (forall page : EngineVergleich.Page,
        (flt (EngineVergleich.y page) (decimal 380 1) = true ->
         EngineVergleich.check page = Raised RuntimeError)
        /\ (fle (decimal 380 1) (EngineVergleich.y page) = true ->
            EngineVergleich.check page = Returned)).
Proof.
  split; intros s; split; intros H.
  - unfold AppSummary.check_fit. now rewrite H.
  - unfold AppSummary.check_fit. now rewrite (fle_not_flt _ _ H).
  - unfold EngineVergleich.check. now rewrite H.
  - unfold EngineVergleich.check. now rewrite (fle_not_flt _ _ H).
Qed.

(** ** [textwrap]: no line is longer than the width *)

Section LineWidth.
Import Textwrap.

Lemma len_take_le {A : Type} (n : Z) (l : list A) : 0 <= n -> len (take n l) <= n.
Proof.
  intros Hn. unfold len, take.
  pose proof (firstn_le_length (Z.to_nat n) l). lia.
Qed.

Lemma len_concat_app (l l' : list str) :
  len (concat (l ++ l')) = len (concat l) + len (concat l').
Proof. rewrite concat_app. apply len_app. Qed.

Lemma len_concat_single (c : str) : len (concat [c]) = len c.
Proof. cbn. now rewrite app_nil_r. Qed.

Lemma len_concat_removelast (l : list str) :
  len (concat (removelast l)) <= len (concat l).
Proof.
  induction l as [| c l IH]; [reflexivity |].
  destruct l as [| c' l]; [cbn; apply len_nonneg |].
  change (removelast (c :: c' :: l)) with (c :: removelast (c' :: l)).
  cbn [concat] in *. rewrite !len_app in *. lia.
Qed.

Lemma rfind_from_bound (s : str) :
  forall i stop found, found < stop -> rfind_from i s stop found < stop.
Proof.
  induction s as [| c s IH]; intros i stop found Hf; cbn [rfind_from]; [assumption |].
  destruct (stop <=? i) eqn:Hs; [assumption |].
  apply Z.leb_gt in Hs. apply IH. destruct (is_hyphen c); lia.
Qed.

Lemma fill_line_width (width : Z) (chunks : list str) :
  forall cur_line cur_len chunks' cur_line' cur_len',
    fill_line chunks cur_line cur_len width = (chunks', cur_line', cur_len') ->
    cur_len = len (concat cur_line) -> cur_len <= width ->
    cur_len' = len (concat cur_line') /\ cur_len' <= width.
Proof.
  induction chunks as [| c chunks IH]; intros cur_line cur_len chunks' cur_line' cur_len' H Hl Hw;
    cbn [fill_line] in H.
  - injection H as _ <- <-. now split.
  - destruct (cur_len + len c <=? width) eqn:Hfit.
    + apply Z.leb_le in Hfit. apply (IH _ _ _ _ _ H); [| assumption].
      rewrite len_concat_app, len_concat_single. lia.
    + injection H as _ <- <-. now split.
Qed.

Lemma handle_long_word_width (width : Z) (chunks cur_line chunks' cur_line' : list str)
    (cur_len : Z) :
  handle_long_word chunks cur_line cur_len width = (chunks', cur_line') ->
  1 <= width -> cur_len = len (concat cur_line) -> cur_len <= width ->
  len (concat cur_line') <= width.
Proof.
  unfold handle_long_word. intros H Hw Hl Hc.
  replace (width <? 1) with false in H by (symmetry; apply Z.ltb_ge; lia).
  destruct chunks as [| chunk rest].
  - injection H as _ <-. lia.
  - injection H as _ <-. rewrite len_concat_app, len_concat_single.
    set (space_left := width - cur_len) in *.
    pose proof (rfind_from_bound chunk 0 space_left (-1)) as Hr.
    fold (rfind_hyphen chunk space_left) in Hr.
    destruct ((space_left <? len chunk) && (0 <? rfind_hyphen chunk space_left)
              && existsb (fun c => negb (is_hyphen c))
                         (take (rfind_hyphen chunk space_left) chunk)) eqn:Hb.
    + apply andb_prop in Hb. destruct Hb as [Hb _].
      apply andb_prop in Hb. destruct Hb as [_ Hh]. apply Z.ltb_lt in Hh.
      pose proof (len_take_le (rfind_hyphen chunk space_left + 1) chunk).
      subst space_left. lia.
    + pose proof (len_take_le space_left chunk). subst space_left. lia.
Qed.

(** The lines that one turn of the loop adds are within the width. *)
Lemma wrap_step_width (width : Z) (chunks lines chunks' lines' : list str) :
  1 <= width ->
  wrap_step width chunks lines = (chunks', lines') ->
  Forall (fun line => len line <= width) lines ->
  Forall (fun line => len line <= width) lines'.
Proof.
  intros Hw H Hlines. unfold wrap_step in H.
  destruct (fill_line _ [] 0 width) as [[chunks1 cur_line1] cur_len1] eqn:Hfill.
  assert (Hf : cur_len1 = len (concat cur_line1) /\ cur_len1 <= width).
  { apply (fill_line_width _ _ _ _ _ _ _ Hfill); [reflexivity | lia]. }
  destruct Hf as [Hf1 Hf2].
  assert (Hlong : forall c2 l2,
            match chunks1 with
            | chunk :: _ =>
                if width <? len chunk
                then handle_long_word chunks1 cur_line1 cur_len1 width
                else (chunks1, cur_line1)
            | [] => (chunks1, cur_line1)
            end = (c2, l2) -> len (concat l2) <= width).
  { intros c2 l2 E. destruct chunks1 as [| chunk rest].
    - injection E as _ <-. lia.
    - destruct (width <? len chunk).
      + apply (handle_long_word_width _ _ _ _ _ _ E); assumption.
      + injection E as _ <-. lia. }
  destruct (match chunks1 with
            | chunk :: _ => _
            | [] => _
            end) as [chunks2 cur_line2] eqn:E2.
  specialize (Hlong _ _ eq_refl).
  injection H as _ <-.
  set (cur_line3 := if nonempty cur_line2 && blank (last cur_line2 [])
                    then removelast cur_line2 else cur_line2).
  assert (H3 : len (concat cur_line3) <= width).
  { subst cur_line3. destruct (nonempty cur_line2 && blank (last cur_line2 [])).
    - pose proof (len_concat_removelast cur_line2). lia.
    - assumption. }
  destruct (nonempty cur_line3); [| assumption].
  apply Forall_app. split; [assumption |]. constructor; [assumption | constructor].
Qed.

Lemma wrap_loop_width (width : Z) (fuel : nat) :
  forall chunks lines,
    1 <= width ->
    Forall (fun line => len line <= width) lines ->
    Forall (fun line => len line <= width) (wrap_loop fuel width chunks lines).
Proof.
  induction fuel as [| fuel IH]; intros chunks lines Hw Hlines; cbn [wrap_loop];
    [assumption |].
  destruct chunks as [| c chunks]; [assumption |].
  destruct (wrap_step width (c :: chunks) lines) as [chunks' lines'] eqn:Hstep.
  apply IH; [assumption |].
  now apply (wrap_step_width _ _ _ _ _ Hw Hstep).
Qed.

Lemma wrap_width_positive {U : UnicodeTables} (text : str) (width : Z) (lines : list str) :
  wrap text width = inr lines -> 1 <= width.
Proof.
  unfold wrap, wrap_chunks. destruct (width <=? 0) eqn:Hw; [discriminate |].
  intros _. apply Z.leb_gt in Hw. lia.
Qed.

Lemma wrap_lines_width {U : UnicodeTables} (text : str) (width : Z) (lines : list str) :
  wrap text width = inr lines ->
  Forall (fun line => len line <= width) lines.
Proof.
  intros H. pose proof (wrap_width_positive _ _ _ H) as Hw.
  unfold wrap, wrap_chunks in H.
  destruct (width <=? 0); [discriminate |]. injection H as <-.
  apply wrap_loop_width; [assumption | constructor].
Qed.

End LineWidth.

(** ** [textwrap]: the loop ends within its fuel, and how many lines it makes *)

Section WrapLoop.
Import Textwrap.

Lemma weight_cons (c : str) (l : list str) :
  weight (c :: l) = (S (length c) + weight l)%nat.
Proof. reflexivity. Qed.

Lemma weight_app (l l' : list str) : weight (l ++ l') = (weight l + weight l')%nat.
Proof.
  induction l as [| c l IH]; [reflexivity |].
  change (weight ((c :: l) ++ l')) with (S (length c) + weight (l ++ l'))%nat.
  change (weight (c :: l)) with (S (length c) + weight l)%nat.
  rewrite IH. lia.
Qed.

(** [fill_line] moves a prefix of the chunks to the line; it stops at the
    end or at a chunk that does not fit. *)
Lemma fill_line_prefix (width : Z) (chunks : list str) :
  forall cur_line cur_len rest cur_line' cur_len',
    fill_line chunks cur_line cur_len width = (rest, cur_line', cur_len') ->
    exists taken,
      chunks = taken ++ rest
      /\ cur_line' = cur_line ++ taken
      /\ cur_len' = cur_len + len (concat taken)
      /\ match rest with
         | c :: _ => width < cur_len' + len c
         | [] => True
         end.
Proof.
  induction chunks as [| c chunks IH]; intros cur_line cur_len rest cur_line' cur_len' H;
    cbn [fill_line] in H.
  - injection H as <- <- <-. exists []. cbn. rewrite app_nil_r.
    repeat split; lia.
  - destruct (cur_len + len c <=? width) eqn:Hfit.
    + destruct (IH _ _ _ _ _ H) as [taken [-> [-> [-> Hstop]]]].
      exists (c :: taken). cbn [concat app]. rewrite <- app_assoc, len_app.
      repeat split; [lia | assumption].
    + injection H as <- <- <-. exists []. cbn. rewrite app_nil_r.
      apply Z.leb_gt in Hfit. repeat split; lia.
Qed.

Lemma length_drop_lt {A : Type} (n : Z) (l : list A) :
  1 <= n -> l <> [] -> (length (drop n l) < length l)%nat.
Proof.
  intros Hn Hl. unfold drop. rewrite length_skipn.
  destruct l; [congruence |]. cbn [length]. lia.
Qed.

Lemma length_drop_le {A : Type} (n : Z) (l : list A) :
  (length (drop n l) <= length l)%nat.
Proof. unfold drop. rewrite length_skipn. lia. Qed.

Lemma rfind_from_range (s : str) :
  forall i stop found,
    rfind_from i s stop found = found \/ i <= rfind_from i s stop found < stop.
Proof.
  induction s as [| c s IH]; intros i stop found; cbn [rfind_from]; [now left |].
  destruct (stop <=? i) eqn:Hs; [now left |]. apply Z.leb_gt in Hs.
  destruct (is_hyphen c).
  - destruct (IH (i + 1) stop i) as [-> | Hr]; right; lia.
  - destruct (IH (i + 1) stop found) as [-> | Hr]; [now left | right; lia].
Qed.

(** The cut of [_handle_long_word] is at least one character when the
    line is empty, and never behind the room that is left. *)
Lemma handle_long_word_cut (width cur_len : Z) (chunk : str) (rest cur_line : list str) :
  1 <= width ->
  exists end_,
    handle_long_word (chunk :: rest) cur_line cur_len width
    = (drop end_ chunk :: rest, cur_line ++ [take end_ chunk])
    /\ (end_ = width - cur_len \/ 1 <= end_ <= width - cur_len).
Proof.
  intros Hw. unfold handle_long_word.
  replace (width <? 1) with false by (symmetry; apply Z.ltb_ge; lia).
  set (space_left := width - cur_len).
  pose proof (rfind_from_range chunk 0 space_left (-1)) as Hr.
  fold (rfind_hyphen chunk space_left) in Hr.
  destruct ((space_left <? len chunk) && (0 <? rfind_hyphen chunk space_left)
            && existsb (fun c => negb (is_hyphen c))
                       (take (rfind_hyphen chunk space_left) chunk)) eqn:Hb.
  - eexists. split; [reflexivity |]. right.
    apply andb_prop in Hb. destruct Hb as [Hb _].
    apply andb_prop in Hb. destruct Hb as [Hlt Hh].
    apply Z.ltb_lt in Hh. lia.
  - eexists. split; [reflexivity |]. now left.
Qed.

(** A turn of the loop makes the chunks lighter. *)
Lemma wrap_step_lighter (width : Z) (c : str) (chunks lines chunks' lines' : list str) :
  1 <= width ->
  wrap_step width (c :: chunks) lines = (chunks', lines') ->
  (weight chunks' < weight (c :: chunks))%nat.
Proof.
  intros Hw H. unfold wrap_step in H.
  set (chunks0 := if blank c && nonempty lines then chunks else c :: chunks) in H.
  assert (H0 : (weight chunks0 <= weight (c :: chunks))%nat
               /\ (chunks0 = [] -> (weight chunks0 < weight (c :: chunks))%nat)).
  { subst chunks0. destruct (blank c && nonempty lines); rewrite weight_cons.
    - split; intros; lia.
    - split; [lia | discriminate]. }
  destruct H0 as [H0 H0'].
  destruct (fill_line chunks0 [] 0 width) as [[chunks1 cur_line1] cur_len1] eqn:Hfill.
  destruct (fill_line_prefix _ _ _ _ _ _ _ Hfill) as [taken [Hsplit [Hline [Hlen Hstop]]]].
  cbn [app] in Hline. subst cur_line1.
  assert (H1 : (weight chunks1 <= weight chunks0)%nat).
  { rewrite Hsplit, weight_app. lia. }
  destruct chunks1 as [| chunk rest].
  - injection H as <- _.
    destruct taken as [| t taken].
    + cbn in Hsplit. specialize (H0' Hsplit). lia.
    + rewrite Hsplit, weight_app in H0. rewrite ?weight_cons in *. lia.
  - destruct (width <? len chunk) eqn:Hlong.
    + apply Z.ltb_lt in Hlong.
      destruct (handle_long_word_cut width cur_len1 chunk rest taken Hw)
        as [end_ [Hh Hend]].
      rewrite Hh in H. injection H as <- _.
      destruct taken as [| t taken].
      * cbn in Hsplit, Hlen. subst cur_len1.
        assert (Hlt : (length (drop end_ chunk) < length chunk)%nat).
        { apply length_drop_lt; [lia |]. intros ->. cbn in Hlong. lia. }
        rewrite Hsplit in H0. rewrite ?weight_cons in *. lia.
      * pose proof (length_drop_le end_ chunk).
        rewrite Hsplit, weight_app in H0. rewrite ?weight_cons in *. lia.
    + injection H as <- _.
      destruct taken as [| t taken].
      * cbn in Hlen. subst cur_len1. apply Z.ltb_ge in Hlong. lia.
      * rewrite Hsplit, weight_app in H0. rewrite ?weight_cons in *. lia.
Qed.

(** With the weight of the chunks as fuel the loop runs until no chunk is
    left: more fuel changes nothing. *)
Lemma wrap_loop_fuel_enough (width : Z) (fuel : nat) :
  forall chunks lines extra,
    1 <= width -> (weight chunks <= fuel)%nat ->
    wrap_loop (fuel + extra) width chunks lines = wrap_loop fuel width chunks lines.
Proof.
  induction fuel as [| fuel IH]; intros chunks lines extra Hw Hf.
  - destruct chunks as [| c chunks]; [| cbn in Hf; lia].
    destruct extra; reflexivity.
  - cbn [Nat.add wrap_loop]. destruct chunks as [| c chunks]; [reflexivity |].
    destruct (wrap_step width (c :: chunks) lines) as [chunks' lines'] eqn:Hstep.
    apply IH; [assumption |].
    pose proof (wrap_step_lighter _ _ _ _ _ _ Hw Hstep). lia.
Qed.

(** A turn of the loop adds at most one line, after the lines it has. *)
Lemma wrap_step_lines (width : Z) (chunks lines chunks' lines' : list str) :
  wrap_step width chunks lines = (chunks', lines') ->
  lines' = lines \/ exists line, lines' = lines ++ [line].
Proof.
  unfold wrap_step. intros H.
  destruct (fill_line _ [] 0 width) as [[chunks1 cur_line1] cur_len1].
  destruct (match chunks1 with
            | chunk :: _ => _
            | [] => _
            end) as [chunks2 cur_line2].
  injection H as _ <-.
  destruct (nonempty _); [right; eexists; reflexivity | now left].
Qed.

Lemma wrap_loop_length (width : Z) (fuel : nat) :
  forall chunks lines,
    (length (wrap_loop fuel width chunks lines) <= length lines + fuel)%nat.
Proof.
  induction fuel as [| fuel IH]; intros chunks lines; cbn [wrap_loop]; [lia |].
  destruct chunks as [| c chunks]; [lia |].
  destruct (wrap_step width (c :: chunks) lines) as [chunks' lines'] eqn:Hstep.
  specialize (IH chunks' lines').
  destruct (wrap_step_lines _ _ _ _ _ Hstep) as [-> | [line ->]];
    [| rewrite length_app in IH; cbn in IH]; lia.
Qed.

End WrapLoop.

(** ** [textwrap]: the size of what [_split] returns *)

Section SplitSize.
Context {U : UnicodeTables}.
Import Textwrap.

Lemma chunk_length_positive (prev : str) (c : N) (rest : str) :
  (1 <= chunk_length prev c rest)%nat.
Proof.
  unfold chunk_length. destruct (is_ws c); [lia |].
  destruct (behind_wp prev && dashes_then_word (c :: rest)) eqn:Hd; [| lia].
  apply andb_prop in Hd. destruct Hd as [_ Hd]. unfold dashes_then_word in Hd.
  apply andb_prop in Hd. destruct Hd as [Hd _]. apply Nat.leb_le in Hd. lia.
Qed.

Lemma split_loop_weight (fuel : nat) :
  forall prev s, (weight (split_loop fuel prev s) <= 2 * length s)%nat.
Proof.
  induction fuel as [| fuel IH]; intros prev s; cbn [split_loop]; [cbn; lia |].
  destruct s as [| c rest]; [cbn; lia |].
  set (n := chunk_length prev c rest).
  pose proof (chunk_length_positive prev c rest) as Hn. fold n in Hn.
  rewrite weight_cons.
  specialize (IH (rev (firstn n (c :: rest)) ++ prev) (skipn n (c :: rest))).
  rewrite length_skipn in IH. rewrite length_firstn.
  destruct n as [| n]; [lia |]. cbn [length] in *. lia.
Qed.

Lemma expandtabs_loop_length (s : str) :
  forall col, (length (expandtabs_loop 8 col s) <= 8 * length s)%nat.
Proof.
  induction s as [| c s IH]; intros col; cbn [expandtabs_loop]; [cbn; lia |].
  destruct (N.eqb c TAB).
  - change (0 <? 8) with true. cbn iota. rewrite length_app, repeat_length.
    specialize (IH (col + (8 - col mod 8))).
    pose proof (Z.mod_pos_bound col 8 ltac:(lia)). cbn [length]. lia.
  - cbn [length]. match goal with |- context [expandtabs_loop 8 ?k s] => specialize (IH k) end.
    lia.
Qed.

Lemma munge_whitespace_length (text : str) :
  (length (munge_whitespace text) <= 8 * length text)%nat.
Proof.
  unfold munge_whitespace, translate_whitespace, expandtabs.
  rewrite length_map. apply expandtabs_loop_length.
Qed.

(** The lines of a text are at most sixteen times its characters: this
    is only a bound on the fuel, not the number of lines of a real
    text. *)
Lemma wrap_line_count (text : str) (width : Z) (lines : list str) :
  wrap text width = inr lines -> (length lines <= 16 * length text)%nat.
Proof.
  unfold wrap, wrap_chunks. destruct (width <=? 0); [discriminate |].
  intros H. injection H as <-.
  pose proof (wrap_loop_length width (weight (split_chunks text)) (split_chunks text) []) as Hl.
  unfold split_chunks, split in *.
  pose proof (split_loop_weight (length (munge_whitespace text)) [] (munge_whitespace text)).
  pose proof (munge_whitespace_length text). cbn [length] in Hl. lia.
Qed.

End SplitSize.

(** ** [textwrap]: a text of whitespace gives no line *)

Section Whitespace.
Context {U : UnicodeTables}.
Import Textwrap.

Lemma is_ws_isspace (c : N) : is_ws c = true -> isspace c = true.
Proof.
  unfold is_ws. intros H.
  repeat (apply orb_prop in H; destruct H as [H | H]);
    apply N.eqb_eq in H; subst c; reflexivity.
Qed.

Lemma expandtabs_loop_ws (s : str) :
  forall col,
    Forall (fun c => is_ws c = true) s ->
    Forall (fun c => is_ws c = true) (expandtabs_loop 8 col s).
Proof.
  induction s as [| c s IH]; intros col Hs; cbn [expandtabs_loop]; [constructor |].
  inversion Hs as [| ? ? Hc Hs']; subst.
  destruct (N.eqb c TAB).
  - change (0 <? 8) with true. cbn iota. apply Forall_app. split; [| now apply IH].
    apply Forall_forall. intros x Hx. apply repeat_spec in Hx. now subst x.
  - constructor; [assumption | now apply IH].
Qed.

Lemma munge_whitespace_ws (text : str) :
  Forall (fun c => is_ws c = true) text ->
  Forall (fun c => c = SP) (munge_whitespace text).
Proof.
  intros Ht. unfold munge_whitespace, translate_whitespace, expandtabs.
  pose proof (expandtabs_loop_ws text 0 Ht) as He.
  induction He as [| c s Hc _ IH]; cbn [map]; constructor; [| assumption].
  now rewrite Hc.
Qed.

Lemma run_all (p : N -> bool) (s : str) :
  Forall (fun c => p c = true) s -> run p s = length s.
Proof.
  induction 1 as [| c s Hc _ IH]; cbn [run length]; [reflexivity |].
  now rewrite Hc, IH.
Qed.

Lemma split_spaces (s : str) :
  Forall (fun c => c = SP) s -> split s = match s with [] => [] | _ => [s] end.
Proof.
  intros Hs. unfold split. destruct s as [| c rest]; [reflexivity |].
  inversion Hs as [| ? ? Hc Hrest]; subst.
  cbn [length split_loop]. unfold chunk_length. change (is_ws SP) with true. cbn iota.
  rewrite run_all.
  - change (firstn (S (length rest)) (SP :: rest)) with (SP :: firstn (length rest) rest).
    change (skipn (S (length rest)) (SP :: rest)) with (skipn (length rest) rest).
    rewrite firstn_all, skipn_all. destruct (length rest); reflexivity.
  - eapply Forall_impl; [| exact Hrest]. intros x ->. reflexivity.
Qed.

Lemma blank_take (n : Z) (s : str) : blank s = true -> blank (take n s) = true.
Proof.
  unfold blank, take. rewrite !forallb_forall. intros H x Hx.
  apply H. rewrite <- (firstn_skipn (Z.to_nat n) s). apply in_or_app. now left.
Qed.

Lemma blank_drop (n : Z) (s : str) : blank s = true -> blank (drop n s) = true.
Proof.
  unfold blank, drop. rewrite !forallb_forall. intros H x Hx.
  apply H. rewrite <- (firstn_skipn (Z.to_nat n) s). apply in_or_app. now right.
Qed.

(** One blank chunk, however long, leaves no line. *)
Lemma wrap_loop_blank (width : Z) (fuel : nat) :
  forall chunk,
    1 <= width -> blank chunk = true -> wrap_loop fuel width [chunk] [] = [].
Proof.
  induction fuel as [| fuel IH]; intros chunk Hw Hb; cbn [wrap_loop]; [reflexivity |].
  unfold wrap_step. rewrite Hb. cbn [nonempty andb fill_line].
  change (0 + len chunk) with (len chunk).
  destruct (len chunk <=? width) eqn:Hfit.
  - cbn [fill_line app nonempty last removelast andb]. rewrite Hb.
    cbn [nonempty]. destruct fuel; reflexivity.
  - apply Z.leb_gt in Hfit.
    replace (width <? len chunk) with true by (symmetry; now apply Z.ltb_lt).
    destruct (handle_long_word_cut width 0 chunk [] [] Hw) as [end_ [-> _]].
    cbn [app nonempty last removelast andb].
    rewrite (blank_take _ _ Hb). cbn [nonempty].
    apply IH; [assumption | now apply blank_drop].
Qed.

Lemma wrap_whitespace (text : str) (width : Z) :
  Forall (fun c => is_ws c = true) text -> 0 < width ->
  wrap text width = inr [].
Proof.
  intros Ht Hw. unfold wrap, wrap_chunks.
  replace (width <=? 0) with false by (symmetry; apply Z.leb_gt; lia).
  f_equal. unfold split_chunks.
  pose proof (munge_whitespace_ws text Ht) as Hm.
  rewrite (split_spaces _ Hm).
  destruct (munge_whitespace text) as [| c s] eqn:E; [reflexivity |].
  apply wrap_loop_blank; [lia |].
  unfold blank. apply forallb_forall. intros x Hx.
  rewrite Forall_forall in Hm. rewrite (Hm x Hx). reflexivity.
Qed.

End Whitespace.

(** ** The layout engine: paragraphs *)

Section Paragraphs.
Context {U : UnicodeTables}.
Import Spec.

Lemma descend_lines_succ (n : nat) (d y : float) :
  descend_lines (S n) d y = descend_lines n d (fsub y d).
Proof. unfold descend_lines. now rewrite Nat.iter_succ_r. Qed.

(** The loop of [add_paragraph]: one instruction per line, the cursor one
    leading lower after each, nothing else touched. *)
Lemma add_paragraph_lines (lines : list str) :
  forall self : AppSummary.Layout,
    fold_left AppSummary.add_paragraph_line lines self
    = AppSummary.mkLayout
        (AppSummary.commands self
         ++ paragraph_commands (AppSummary.left self) (AppSummary.y self)
              (AppSummary.body_size self) (AppSummary.body_leading self) lines)
        (descend_lines (length lines) (AppSummary.body_leading self) (AppSummary.y self))
        (AppSummary.left self) (AppSummary.body_size self) (AppSummary.body_leading self).
Proof.
  induction lines as [| line lines IH]; intros self.
  - destruct self. cbn. now rewrite app_nil_r.
  - cbn [fold_left]. rewrite IH. destruct self. cbn [length].
    rewrite descend_lines_succ. cbn. now rewrite <- app_assoc.
Qed.

Lemma p_lines (lines : list str) :
  forall self : EngineVergleich.Page,
    fold_left EngineVergleich.p_line lines self
    = EngineVergleich.mkPage
        (EngineVergleich.left self)
        (descend_lines (length lines) (decimal 106 1) (EngineVergleich.y self))
        (EngineVergleich.commands self
         ++ p_commands (EngineVergleich.left self) (EngineVergleich.y self) lines).
Proof.
  induction lines as [| line lines IH]; intros self.
  - destruct self. cbn. now rewrite app_nil_r.
  - cbn [fold_left]. rewrite IH. destruct self. cbn [length].
    rewrite descend_lines_succ. cbn. now rewrite <- app_assoc.
Qed.

Lemma paragraph_commands_length (left y size leading : float) (lines : list str) :
  length (paragraph_commands left y size leading lines) = length lines.
Proof.
  revert y. induction lines as [| line lines IH]; intros y; cbn; [reflexivity |].
  now rewrite IH.
Qed.

(** What [add_paragraph] does when [textwrap.wrap] returns [lines]. *)
Lemma add_paragraph_returns (self : AppSummary.Layout) (text : str) (width : Z)
    (lines : list str) :
  Textwrap.wrap text width = inr lines ->
  AppSummary.add_paragraph self text width
  = (AppSummary.mkLayout
       (AppSummary.commands self
        ++ paragraph_commands (AppSummary.left self) (AppSummary.y self)
             (AppSummary.body_size self) (AppSummary.body_leading self) lines)
       (fsub (descend_lines (length lines) (AppSummary.body_leading self)
                (AppSummary.y self))
             (decimal 40 1))
       (AppSummary.left self) (AppSummary.body_size self) (AppSummary.body_leading self),
     Returned).
Proof.
  intros Hw. unfold AppSummary.add_paragraph. rewrite Hw, add_paragraph_lines.
  reflexivity.
Qed.

Lemma p_returns (self : EngineVergleich.Page) (s : str) (width : Z) (lines : list str) :
  Textwrap.wrap s width = inr lines ->
  EngineVergleich.p self s width
  = (EngineVergleich.mkPage
       (EngineVergleich.left self)
       (fsub (descend_lines (length lines) (decimal 106 1) (EngineVergleich.y self))
             (decimal 20 1))
       (EngineVergleich.commands self
        ++ p_commands (EngineVergleich.left self) (EngineVergleich.y self) lines),
     Returned).
Proof.
  intros Hw. unfold EngineVergleich.p. rewrite Hw, p_lines. reflexivity.
Qed.

End Paragraphs.

(** C10. For every text whose wrap result is empty, in both scripts, the
    paragraph call returns, adds no instruction and lowers the cursor by
    the trailing gap alone (4.0 and 2.0, subtracted as binary64 numbers);
    the empty text and every text of whitespace are such texts for every
    positive width. *)
Theorem empty_paragraph_only_trailing_gap {U : UnicodeTables} :
  (forall (self : AppSummary.Layout) (text : str) (width : Z),
     Textwrap.wrap text width = inr [] ->
     exists self',
       AppSummary.add_paragraph self text width = (self', Returned)
       /\ AppSummary.commands self' = AppSummary.commands self
       /\ AppSummary.y self' = fsub (AppSummary.y self) (decimal 40 1))
  /\ (forall (self : EngineVergleich.Page) (text : str) (width : Z),
        Textwrap.wrap text width = inr [] ->
        exists self',
          EngineVergleich.p self text width = (self', Returned)
          /\ EngineVergleich.commands self' = EngineVergleich.commands self
          /\ EngineVergleich.y self' = fsub (EngineVergleich.y self) (decimal 20 1))
  /\ (forall (text : str) (width : Z),
        Forall (fun c => Textwrap.is_ws c = true) text -> 0 < width ->
        Textwrap.wrap text width = inr []).
Proof.
  split; [| split].
  - intros self text width Hw. eexists. split; [exact (add_paragraph_returns _ _ _ [] Hw) |].
    cbn. split; [apply app_nil_r | reflexivity].
  - intros self text width Hw. eexists. split; [exact (p_returns _ _ _ [] Hw) |].
    cbn. split; [apply app_nil_r | reflexivity].
  - intros text width. apply wrap_whitespace.
Qed.

(** ** The scenario of a title and one paragraph *)

Section Scenario.
Context {U : UnicodeTables}.
Import Spec.

Lemma same_float_eq (x y : float) : same_float x y = true -> x = y.
Proof.
  destruct x as [s | s | | s m e], y as [s' | s' | | s' m' e']; cbn; try discriminate;
    try reflexivity.
  - intros H. apply Bool.eqb_prop in H. now subst.
  - intros H. apply Bool.eqb_prop in H. now subst.
  - intros H. apply andb_prop in H. destruct H as [H He].
    apply andb_prop in H. destruct H as [Hs Hm].
    apply Bool.eqb_prop in Hs. apply Pos.eqb_eq in Hm. apply Z.eqb_eq in He.
    now subst.
Qed.

Lemma scenario_agrees_sound (k : nat) :
  forall n y j,
    scenario_agrees k n y = true -> (j <= k)%nat ->
    fsub (descend_lines j (decimal 120 1) y) (decimal 40 1) = scenario_formula (n + j).
Proof.
  induction k as [| k IH]; intros n y j H Hj; cbn [scenario_agrees] in H;
    apply andb_prop in H; destruct H as [H0 Hk].
  - assert (j = 0)%nat by lia. subst j. rewrite Nat.add_0_r.
    now apply same_float_eq.
  - destruct j as [| j].
    + rewrite Nat.add_0_r. now apply same_float_eq.
    + rewrite descend_lines_succ, <- Nat.add_succ_comm. apply IH; [assumption | lia].
Qed.

(** The cursor of the scenario is the cursor of the formula, whatever
    the number of lines up to 4000. *)
Lemma scenario_cursor_formula (n : nat) :
  (n <= 4000)%nat -> scenario_cursor n = scenario_formula n.
Proof.
  intros Hn. unfold scenario_cursor.
  apply (scenario_agrees_sound 4000 0 _ n); [| assumption].
  vm_compute. reflexivity.
Qed.

End Scenario.

(** C7. For the title [Report] followed by any paragraph of 250
    characters, plain ASCII or not, wrapped at 98: the calls return, the
    instructions are the title instruction and then one body instruction
    per wrapped line, and the cursor ends at
    752.0 - (20.0 + lineCount * 12.0 + 4.0), computed in binary64. *)
Theorem title_and_paragraph_scenario {U : UnicodeTables} (text : str) :
  length text = 250%nat ->
  exists lines final,
    Textwrap.wrap text 98 = inr lines
    /\ AppSummary.add_paragraph
         (AppSummary.add_title AppSummary.Layout_init (u "Report")) text 98
       = (final, Returned)
    /\ AppSummary.commands final
       = u "BT /F2 18.0 Tf 1 0 0 1 54.00 752.00 Tm (Report) Tj ET"
         :: Spec.paragraph_commands (decimal 540 1) (decimal 7320 1)
              (decimal 100 1) (decimal 120 1) lines
    /\ length (AppSummary.commands final) = S (length lines)
    /\ AppSummary.y final
       = fsub (decimal 7520 1)
              (fadd (fadd (decimal 200 1)
                          (fmul (float_of_int (Z.of_nat (length lines))) (decimal 120 1)))
                    (decimal 40 1)).
Proof.
  intros Hlen.
  destruct (Textwrap.wrap text 98) as [e | lines] eqn:Hw.
  { unfold Textwrap.wrap, Textwrap.wrap_chunks in Hw. cbn in Hw. discriminate. }
  eexists lines, _. split; [reflexivity |].
  split; [exact (add_paragraph_returns _ _ _ lines Hw) |].
  cbn [AppSummary.commands AppSummary.y].
  assert (Hc : AppSummary.commands (AppSummary.add_title AppSummary.Layout_init (u "Report"))
               = [u "BT /F2 18.0 Tf 1 0 0 1 54.00 752.00 Tm (Report) Tj ET"])
    by (vm_compute; reflexivity).
  assert (Hy : AppSummary.y (AppSummary.add_title AppSummary.Layout_init (u "Report"))
               = decimal 7320 1) by (vm_compute; reflexivity).
  rewrite Hc. split; [| split].
  - cbn [app]. f_equal.
  - cbn [app length]. now rewrite paragraph_commands_length.
  - pose proof (wrap_line_count _ _ _ Hw) as Hn. rewrite Hlen in Hn.
    apply (scenario_cursor_formula (length lines)). lia.
Qed.

(** ** [textwrap]: plain words separated by single spaces *)

Section PlainWords.
Context {U : UnicodeTables}.
Import Spec Textwrap.

Lemma plain_char_not_ws (c : N) : plain_char c = true -> is_ws c = false.
Proof.
  unfold plain_char. intros H. apply andb_prop in H. destruct H as [H _].
  destruct (is_ws c) eqn:Hw; [| reflexivity].
  apply is_ws_isspace in Hw. rewrite Hw in H. discriminate.
Qed.

Lemma plain_char_not_hyphen (c : N) : plain_char c = true -> is_hyphen c = false.
Proof.
  unfold plain_char. intros H. apply andb_prop in H. destruct H as [_ H].
  now apply negb_true_iff in H.
Qed.

Lemma plain_char_not_space (c : N) : plain_char c = true -> isspace c = false.
Proof.
  unfold plain_char. intros H. apply andb_prop in H. destruct H as [H _].
  now apply negb_true_iff in H.
Qed.

Lemma plain_word_not_blank (w : str) : plain_word w -> blank w = false.
Proof.
  intros [Hne Hw]. destruct w as [| c w]; [congruence |].
  inversion Hw as [| ? ? Hc _]; subst. cbn. now rewrite (plain_char_not_space _ Hc).
Qed.

Lemma blank_space : blank space = true.
Proof. reflexivity. Qed.

(** No run of dashes starts at a character that is no hyphen. *)
Lemma dashes_then_word_no_hyphen (c : N) (s : str) :
  is_hyphen c = false -> dashes_then_word (c :: s) = false.
Proof. intros H. unfold dashes_then_word. cbn [run]. now rewrite H. Qed.

(** A plain word is matched to its end, which is the end of the text or
    a whitespace character. *)
Lemma word_more_plain (w : str) :
  forall prev tail,
    Forall (fun c => plain_char c = true) w ->
    match tail with
    | [] => True
    | c :: _ => is_ws c = true
    end ->
    word_more prev (w ++ tail) = length w.
Proof.
  induction w as [| c w IH]; intros prev tail Hw Htail.
  - cbn [app length]. destruct tail as [| t tail]; [reflexivity |].
    cbn [word_more]. rewrite Htail.
    destruct (is_hyphen t && behind_hyphenated prev && ahead_hyphenated tail) eqn:Hh;
      [| reflexivity].
    apply andb_prop in Hh. destruct Hh as [Hh _]. apply andb_prop in Hh.
    destruct Hh as [Hh _]. unfold is_hyphen in Hh. apply N.eqb_eq in Hh. subst t.
    discriminate.
  - inversion Hw as [| ? ? Hc Hw']; subst. cbn [app word_more length].
    rewrite (plain_char_not_hyphen _ Hc), (plain_char_not_ws _ Hc).
    rewrite dashes_then_word_no_hyphen by now apply plain_char_not_hyphen.
    rewrite andb_false_r. cbn [andb]. now rewrite IH.
Qed.

Lemma chunk_length_plain (prev : str) (c : N) (w tail : str) :
  Forall (fun c => plain_char c = true) (c :: w) ->
  match tail with
  | [] => True
  | c :: _ => is_ws c = true
  end ->
  chunk_length prev c (w ++ tail) = length (c :: w).
Proof.
  intros Hw Htail. inversion Hw as [| ? ? Hc Hw']; subst.
  unfold chunk_length. rewrite (plain_char_not_ws _ Hc).
  rewrite dashes_then_word_no_hyphen by now apply plain_char_not_hyphen.
  rewrite andb_false_r. cbn [length]. now rewrite word_more_plain.
Qed.

Lemma firstn_length_app {A : Type} (l l' : list A) : firstn (length l) (l ++ l') = l.
Proof. rewrite firstn_app, firstn_all, Nat.sub_diag. cbn. apply app_nil_r. Qed.

Lemma skipn_length_app {A : Type} (l l' : list A) : skipn (length l) (l ++ l') = l'.
Proof. rewrite skipn_app, skipn_all, Nat.sub_diag. reflexivity. Qed.

(** The chunk of a plain word, then the rest. *)
Lemma split_loop_word (fuel : nat) (prev w tail : str) :
  plain_word w ->
  match tail with
  | [] => True
  | c :: _ => is_ws c = true
  end ->
  split_loop (S fuel) prev (w ++ tail) = w :: split_loop fuel (rev w ++ prev) tail.
Proof.
  intros [Hne Hw] Htail. destruct w as [| c w]; [congruence |].
  cbn [app split_loop]. rewrite (chunk_length_plain _ _ _ _ Hw Htail).
  change (c :: w ++ tail) with ((c :: w) ++ tail).
  now rewrite firstn_length_app, skipn_length_app.
Qed.

(** The chunk of a single space before a word. *)
Lemma split_loop_space (fuel : nat) (prev : str) (c : N) (t : str) :
  is_ws c = false ->
  split_loop (S fuel) prev (SP :: c :: t) = space :: split_loop fuel (SP :: prev) (c :: t).
Proof.
  intros Hc. cbn [split_loop]. unfold chunk_length. change (is_ws SP) with true.
  cbn iota. cbn [run]. rewrite Hc. reflexivity.
Qed.

(** The text of the words [w :: rest] after the first word. *)
Lemma join_cons (w : str) (rest : list str) :
  join space (w :: rest) = w ++ concat (seps rest).
Proof.
  revert w. induction rest as [| w' rest IH]; intros w.
  - cbn. now rewrite app_nil_r.
  - change (join space (w :: w' :: rest)) with (w ++ space ++ join space (w' :: rest)).
    rewrite IH. reflexivity.
Qed.

Lemma concat_chunks_of (words : list str) :
  concat (chunks_of words) = join space words.
Proof. destruct words as [| w rest]; [reflexivity |]. now rewrite join_cons. Qed.

Lemma split_loop_seps (rest : list str) :
  forall fuel prev,
    Forall plain_word rest ->
    (length (concat (seps rest)) <= fuel)%nat ->
    split_loop fuel prev (concat (seps rest)) = seps rest.
Proof.
  induction rest as [| w rest IH]; intros fuel prev Hrest Hfuel.
  - destruct fuel; reflexivity.
  - inversion Hrest as [| ? ? Hw Hrest']; subst.
    cbn [seps concat] in *. rewrite !length_app in Hfuel. cbn [space length] in Hfuel.
    destruct Hw as [Hne Hcs]. destruct w as [| c w]; [congruence |].
    destruct fuel as [| fuel]; [lia |].
    cbn [space app].
    inversion Hcs as [| ? ? Hc _]; subst.
    rewrite split_loop_space by now apply plain_char_not_ws.
    f_equal. destruct fuel as [| fuel]; [cbn [length] in Hfuel; lia |].
    change (c :: w ++ concat (seps rest)) with ((c :: w) ++ concat (seps rest)).
    rewrite split_loop_word.
    + f_equal. apply IH; [assumption |]. cbn [length] in Hfuel. lia.
    + split; [discriminate | assumption].
    + destruct rest; cbn; [exact I | reflexivity].
Qed.

(** [_split] gives back the words and the spaces between them. *)
Lemma split_join (words : list str) :
  Forall plain_word words -> split (join space words) = chunks_of words.
Proof.
  intros Hws. destruct words as [| w rest]; [reflexivity |].
  inversion Hws as [| ? ? Hw Hrest]; subst.
  rewrite join_cons. unfold split. rewrite length_app.
  destruct Hw as [Hne Hcs]. destruct w as [| c w]; [congruence |].
  cbn [length Nat.add]. rewrite split_loop_word.
  - cbn [chunks_of]. f_equal. apply split_loop_seps; [assumption | lia].
  - split; [discriminate | assumption].
  - destruct rest; cbn; [exact I | reflexivity].
Qed.

(** Nothing to expand and nothing to translate in such a text. *)
Lemma expandtabs_loop_no_tab (s : str) :
  forall col, Forall (fun c => c <> TAB) s -> expandtabs_loop 8 col s = s.
Proof.
  induction s as [| c s IH]; intros col Hs; cbn [expandtabs_loop]; [reflexivity |].
  inversion Hs as [| ? ? Hc Hs']; subst.
  apply N.eqb_neq in Hc. rewrite Hc. now rewrite IH.
Qed.

Lemma munge_whitespace_fixed (s : str) :
  Forall munge_fixed s -> munge_whitespace s = s.
Proof.
  intros Hs. unfold munge_whitespace, expandtabs.
  rewrite expandtabs_loop_no_tab.
  - unfold translate_whitespace. induction Hs as [| c s Hc _ IH]; [reflexivity |].
    cbn [map]. rewrite IH. f_equal.
    destruct Hc as [-> | Hc]; [reflexivity | now rewrite Hc].
  - eapply Forall_impl; [| exact Hs]. intros c [-> | Hc]; [discriminate |].
    intros ->. discriminate.
Qed.

Lemma join_fixed (words : list str) :
  Forall plain_word words -> Forall munge_fixed (join space words).
Proof.
  intros Hws. destruct words as [| w rest]; [constructor |].
  rewrite join_cons. inversion Hws as [| ? ? Hw Hrest]; subst.
  assert (Hp : forall w, plain_word w -> Forall munge_fixed w).
  { intros w0 [_ H0]. eapply Forall_impl; [| exact H0].
    intros c Hc. right. now apply plain_char_not_ws. }
  apply Forall_app. split; [now apply Hp |]. clear Hws Hw.
  induction Hrest as [| w' rest Hw' _ IH]; [constructor |].
  cbn [seps concat]. apply Forall_app. split; [constructor; [now left | constructor] |].
  apply Forall_app. split; [now apply Hp | assumption].
Qed.

Lemma split_chunks_join (words : list str) :
  Forall plain_word words -> split_chunks (join space words) = chunks_of words.
Proof.
  intros Hws. unfold split_chunks.
  rewrite munge_whitespace_fixed by now apply join_fixed.
  now apply split_join.
Qed.

End PlainWords.

(** ** [textwrap]: the lines of plain words give the text back *)

Section Rejoin.
Context {U : UnicodeTables}.
Import Spec Textwrap.

Variable width : Z.
Hypothesis width_positive : 1 <= width.

Lemma seps_app (l l' : list str) : seps (l ++ l') = seps l ++ seps l'.
Proof. induction l as [| w l IH]; [reflexivity |]. cbn. now rewrite IH. Qed.

(** [fill_line] on the chunks after a word: it stops before a space, or
    before a word and then the line ends with a space. *)
Lemma fill_line_seps (rest : list str) :
  forall cur_line cur_len,
    Forall (fits width) rest ->
    exists taken left cur_len',
      rest = taken ++ left
      /\ (fill_line (seps rest) cur_line cur_len width
          = (seps left, cur_line ++ seps taken, cur_len')
          \/ (left <> []
              /\ fill_line (seps rest) cur_line cur_len width
                 = (chunks_of left, cur_line ++ seps taken ++ [space], cur_len'))).
Proof.
  induction rest as [| w rest IH]; intros cur_line cur_len Hrest.
  - exists [], [], cur_len. split; [reflexivity |]. left. cbn. now rewrite app_nil_r.
  - inversion Hrest as [| ? ? Hw Hrest']; subst.
    cbn [seps fill_line]. change (len space) with 1.
    destruct (cur_len + 1 <=? width) eqn:Hsp.
    + destruct (cur_len + 1 + len w <=? width) eqn:Hfit.
      * destruct (IH ((cur_line ++ [space]) ++ [w]) (cur_len + 1 + len w) Hrest')
          as [taken [left [cur_len' [Hsplit Hfill]]]].
        exists (w :: taken), left, cur_len'. split; [now rewrite Hsplit |].
        cbn [seps].
        destruct Hfill as [Hfill | [Hne Hfill]]; [left | right; split; [assumption |]];
          rewrite Hfill, <- !app_assoc; reflexivity.
      * exists [], (w :: rest), (cur_len + 1). split; [reflexivity |].
        right. split; [discriminate | reflexivity].
    + exists [], (w :: rest), cur_len. split; [reflexivity |].
      left. cbn. now rewrite app_nil_r.
Qed.

Lemma last_seps (w : str) (taken : list str) :
  exists w', last (w :: seps taken) [] = w' /\ In w' (w :: taken).
Proof.
  revert w. induction taken as [| t taken IH]; intros w.
  - exists w. split; [reflexivity | now left].
  - destruct (IH t) as [w' [Hl Hin]]. exists w'. split; [| now right].
    cbn [seps]. change (last (w :: space :: t :: seps taken) [])
      with (last (t :: seps taken) []). exact Hl.
Qed.

(** One turn of the loop from a word on: the line is the first words
    that fit, joined by their spaces; the space after them is dropped with
    the line or stays for the next turn. *)
Lemma wrap_step_words (w : str) (rest lines : list str) :
  fits width w -> Forall (fits width) rest ->
  exists taken left,
    rest = taken ++ left
    /\ (wrap_step width (w :: seps rest) lines
        = (seps left, lines ++ [join space (w :: taken)])
        \/ (left <> []
            /\ wrap_step width (w :: seps rest) lines
               = (chunks_of left, lines ++ [join space (w :: taken)]))).
Proof.
  intros [Hw Hlen] Hrest. unfold wrap_step.
  rewrite (plain_word_not_blank _ Hw). cbn [andb fill_line].
  replace (0 + len w <=? width) with true by (symmetry; apply Z.leb_le; lia).
  destruct (fill_line_seps rest ([] ++ [w]) (0 + len w) Hrest)
    as [taken [left [cur_len' [Hsplit Hfill]]]].
  exists taken, left. split; [assumption |].
  assert (Hlast : blank (last (w :: seps taken) []) = false).
  { destruct (last_seps w taken) as [w' [-> Hin]].
    apply plain_word_not_blank. destruct Hin as [<- | Hin]; [assumption |].
    rewrite Hsplit in Hrest. apply Forall_app in Hrest. destruct Hrest as [Ht _].
    rewrite Forall_forall in Ht. now apply Ht. }
  assert (Hshort : forall left', Forall (fits width) left' ->
            match left' with
            | [] => True
            | w' :: _ => (width <? len w') = false
            end).
  { intros [| w' l'] Hl; [exact I |]. inversion Hl as [| ? ? [_ Hw'] _]; subst.
    apply Z.ltb_ge. assumption. }
  assert (Hleft : Forall (fits width) left).
  { rewrite Hsplit in Hrest. apply Forall_app in Hrest. now destruct Hrest. }
  destruct Hfill as [Hfill | [Hne Hfill]]; rewrite Hfill; cbn [app].
  - left. destruct left as [| w' left'].
    + cbn [seps nonempty]. rewrite Hlast. cbn [andb nonempty].
      now rewrite <- concat_chunks_of.
    + cbn [seps]. change (width <? len space) with (width <? 1).
      replace (width <? 1) with false by (symmetry; apply Z.ltb_ge; lia).
      cbn [nonempty]. rewrite Hlast. cbn [andb nonempty].
      now rewrite <- concat_chunks_of.
  - right. split; [assumption |].
    destruct left as [| w' left']; [congruence |].
    cbn [chunks_of]. pose proof (Hshort _ Hleft) as Hs. cbn in Hs. rewrite Hs.
    change (w :: seps taken ++ [space]) with ((w :: seps taken) ++ [space]).
    rewrite last_last, blank_space, removelast_last.
    assert (Hn : nonempty ((w :: seps taken) ++ [space]) = true) by reflexivity.
    rewrite Hn. cbn [andb nonempty].
    now rewrite <- concat_chunks_of.
Qed.

(** Joining is associative over a group of words. *)
Lemma join_app_cons (l : list str) (w : str) (r : list str) :
  join space (l ++ w :: r)
  = match l with
    | [] => join space (w :: r)
    | _ => join space l ++ space ++ join space (w :: r)
    end.
Proof.
  induction l as [| a l IH]; [reflexivity |].
  destruct l as [| a' l].
  - reflexivity.
  - change (join space ((a :: a' :: l) ++ w :: r))
      with (a ++ space ++ join space ((a' :: l) ++ w :: r)).
    rewrite IH.
    change (join space (a :: a' :: l)) with (a ++ space ++ join space (a' :: l)).
    now rewrite <- !app_assoc.
Qed.

Lemma join_group (l : list str) (w : str) (taken left : list str) :
  join space ((l ++ [join space (w :: taken)]) ++ left)
  = join space (l ++ (w :: taken) ++ left).
Proof.
  rewrite <- app_assoc. cbn [app].
  rewrite (join_app_cons l (join space (w :: taken)) left).
  change ((w :: taken) ++ left) with (w :: taken ++ left).
  rewrite (join_app_cons l w (taken ++ left)).
  assert (H : join space (join space (w :: taken) :: left) = join space (w :: taken ++ left)).
  { destruct left as [| a left]; [now rewrite app_nil_r |].
    change (join space (join space (w :: taken) :: a :: left))
      with (join space (w :: taken) ++ space ++ join space (a :: left)).
    change (w :: taken ++ a :: left) with ((w :: taken) ++ a :: left).
    now rewrite (join_app_cons (w :: taken) a left). }
  now rewrite H.
Qed.

Lemma wrap_loop_done (fuel : nat) (lines : list str) :
  wrap_loop fuel width [] lines = lines.
Proof. destruct fuel; reflexivity. Qed.

(** The space that begins a later line is dropped. *)
Lemma wrap_loop_skip_space (fuel : nat) (w : str) (chunks lines : list str) :
  lines <> [] -> plain_word w ->
  wrap_loop fuel width (space :: w :: chunks) lines
  = wrap_loop fuel width (w :: chunks) lines.
Proof.
  intros Hne Hw. destruct fuel as [| fuel]; [reflexivity |]. cbn [wrap_loop].
  assert (Heq : wrap_step width (space :: w :: chunks) lines
                = wrap_step width (w :: chunks) lines).
  { unfold wrap_step. rewrite blank_space, (plain_word_not_blank _ Hw).
    destruct lines; [congruence | reflexivity]. }
  now rewrite Heq.
Qed.

(** The loop from a word on: the lines joined are the lines before and
    the words, joined. *)
Lemma wrap_loop_words (fuel : nat) :
  forall (w : str) (rest lines : list str),
    fits width w -> Forall (fits width) rest ->
    (weight (w :: seps rest) <= fuel)%nat ->
    join space (wrap_loop fuel width (w :: seps rest) lines)
    = join space (lines ++ w :: rest).
Proof.
  induction fuel as [| fuel IH]; intros w rest lines Hw Hrest Hf.
  - rewrite weight_cons in Hf. lia.
  - cbn [wrap_loop].
    destruct (wrap_step_words w rest lines Hw Hrest) as [taken [left [Hsplit Hstep]]].
    assert (Hleft : Forall (fits width) left).
    { rewrite Hsplit in Hrest. apply Forall_app in Hrest. now destruct Hrest. }
    assert (Hgroup : join space ((lines ++ [join space (w :: taken)]) ++ left)
                     = join space (lines ++ w :: rest)).
    { rewrite join_group, Hsplit. reflexivity. }
    assert (Hne : lines ++ [join space (w :: taken)] <> []) by now destruct lines.
    destruct Hstep as [Hstep | [Hl Hstep]];
      pose proof (wrap_step_lighter _ _ _ _ _ _ width_positive Hstep) as Hlight;
      rewrite Hstep.
    + destruct left as [| w' left'].
      * cbn [seps]. rewrite wrap_loop_done. rewrite <- Hgroup. now rewrite app_nil_r.
      * inversion Hleft as [| ? ? Hw' Hleft'].
        cbn [seps] in *. rewrite wrap_loop_skip_space by (assumption || apply Hw').
        rewrite IH; [assumption | assumption | assumption |].
        rewrite !weight_cons in *. lia.
    + destruct left as [| w' left']; [congruence |].
      inversion Hleft as [| ? ? Hw' Hleft'].
      cbn [chunks_of] in *. rewrite IH; [assumption | assumption | assumption | lia].
Qed.

Lemma Forall_fits_plain (words : list str) : Forall (fits width) words -> Forall plain_word words.
Proof. intros H. eapply Forall_impl; [| exact H]. now intros w [Hw _]. Qed.

(** The lines of the wrapped text, joined by single spaces, are the
    text. *)
Lemma wrap_join (words : list str) :
  Forall (fits width) words ->
  exists lines,
    wrap (join space words) width = inr lines /\ join space lines = join space words.
Proof.
  intros Hws. unfold wrap, wrap_chunks.
  replace (width <=? 0) with false by (symmetry; apply Z.leb_gt; lia).
  eexists. split; [reflexivity |].
  rewrite split_chunks_join by now apply Forall_fits_plain.
  destruct words as [| w rest]; [reflexivity |].
  inversion Hws as [| ? ? Hw Hrest]; subst.
  cbn [chunks_of]. now rewrite wrap_loop_words.
Qed.

End Rejoin.

(** ** [textwrap]: a word longer than the width is cut *)

Section LongWord.
Context {U : UnicodeTables}.
Import Spec Textwrap.

Lemma wrap_loop_extends (width : Z) (fuel : nat) :
  forall chunks lines, exists more, wrap_loop fuel width chunks lines = lines ++ more.
Proof.
  induction fuel as [| fuel IH]; intros chunks lines; cbn [wrap_loop].
  - exists []. now rewrite app_nil_r.
  - destruct chunks as [| c chunks]; [exists []; now rewrite app_nil_r |].
    destruct (wrap_step width (c :: chunks) lines) as [chunks' lines'] eqn:Hstep.
    destruct (IH chunks' lines') as [more Hmore]. rewrite Hmore.
    destruct (wrap_step_lines _ _ _ _ _ Hstep) as [-> | [line ->]].
    + now exists more.
    + exists (line :: more). now rewrite <- app_assoc.
Qed.

Lemma rfind_from_no_hyphen (s : str) :
  forall i stop found,
    Forall (fun c => is_hyphen c = false) s -> rfind_from i s stop found = found.
Proof.
  induction s as [| c s IH]; intros i stop found Hs; cbn [rfind_from]; [reflexivity |].
  inversion Hs as [| ? ? Hc Hs']; subst. rewrite Hc.
  destruct (stop <=? i); [reflexivity | now apply IH].
Qed.

Lemma plain_take (n : Z) (w : str) :
  1 <= n -> plain_word w -> plain_word (take n w).
Proof.
  intros Hn [Hne Hw]. split.
  - destruct w as [| c w]; [congruence |]. unfold take.
    destruct (Z.to_nat n) eqn:E; [lia | discriminate].
  - apply Forall_forall. intros x Hx. rewrite Forall_forall in Hw. apply Hw.
    unfold take in Hx. rewrite <- (firstn_skipn (Z.to_nat n) w).
    apply in_or_app. now left.
Qed.

(** The first line of a plain word longer than the width is its first
    [width] characters. *)
Lemma wrap_long_word (w : str) (width : Z) :
  1 <= width -> plain_word w -> width < len w ->
  exists more, wrap w width = inr (take width w :: more).
Proof.
  intros Hw Hp Hlong. unfold wrap, wrap_chunks.
  replace (width <=? 0) with false by (symmetry; apply Z.leb_gt; lia).
  assert (Hs : split_chunks w = [w]).
  { apply (split_chunks_join [w]). constructor; [assumption | constructor]. }
  rewrite Hs, weight_cons. cbn [Nat.add wrap_loop].
  unfold wrap_step. rewrite (plain_word_not_blank _ Hp). cbn [andb fill_line].
  replace (0 + len w <=? width) with false by (symmetry; apply Z.leb_gt; lia).
  replace (width <? len w) with true by (symmetry; now apply Z.ltb_lt).
  unfold handle_long_word.
  replace (width <? 1) with false by (symmetry; apply Z.ltb_ge; lia).
  unfold rfind_hyphen. rewrite rfind_from_no_hyphen.
  - rewrite Z.sub_0_r. change (0 <? -1) with false.
    rewrite andb_false_r. cbn [andb app nonempty last].
    rewrite (plain_word_not_blank _ (plain_take _ _ Hw Hp)).
    cbn [andb nonempty concat app]. rewrite app_nil_r.
    match goal with
    | |- context [wrap_loop ?f width ?c ?l] =>
        destruct (wrap_loop_extends width f c l) as [more ->]
    end.
    now exists more.
  - destruct Hp as [_ Hp]. eapply Forall_impl; [| exact Hp].
    intros c. apply plain_char_not_hyphen.
Qed.

End LongWord.

Section Binary64.

Lemma fexp_unfold (e : Z) : fexp 53 1024 e = Z.max (e - 53) (-1074).
Proof. reflexivity. Qed.

Lemma digits2_pos_log2 (m : positive) :
  Z.pos (digits2_pos m) = Z.log2 (Z.pos m) + 1.
Proof.
  assert (H : forall p, digits2_pos p = Pos.size p).
  { induction p as [p IH | p IH |]; cbn; now rewrite ?IH. }
  rewrite H. destruct m as [p | p |]; cbn; try reflexivity; lia.
Qed.

Lemma digits2_bounds (m : positive) :
  2 ^ (Z.pos (digits2_pos m) - 1) <= Z.pos m < 2 ^ Z.pos (digits2_pos m).
Proof.
  rewrite digits2_pos_log2.
  pose proof (Z.log2_spec (Z.pos m) ltac:(lia)) as H.
  replace (Z.log2 (Z.pos m) + 1 - 1) with (Z.log2 (Z.pos m)) by lia.
  replace (Z.log2 (Z.pos m) + 1) with (Z.succ (Z.log2 (Z.pos m))) by lia. exact H.
Qed.

Lemma Zdigits2_log2 (m : Z) : 0 < m -> Zdigits2 m = Z.log2 m + 1.
Proof. destruct m as [| p | p]; try lia. intros _. apply digits2_pos_log2. Qed.

(** ** Shifting right: the quotient, and whether anything was lost *)

Lemma shr_1_spec (r : shr_record) :
  0 <= shr_m r ->
  shr_m (shr_1 r) = shr_m r / 2
  /\ (Spec.exact_record (shr_1 r) <-> Spec.exact_record r /\ shr_m r mod 2 = 0).
Proof.
  destruct r as [m rb sb]. unfold Spec.exact_record. cbn [shr_m shr_r shr_s]. intros Hm.
  destruct m as [| [p | p |] | p]; try lia; cbn [shr_1 shr_m shr_r shr_s].
  - split; [reflexivity |]. destruct rb, sb; cbn; intuition congruence.
  - split.
    + rewrite Pos2Z.inj_xI. apply (Z.div_unique _ 2 _ 1); lia.
    + assert (Z.pos p~1 mod 2 = 1).
      { rewrite Pos2Z.inj_xI. symmetry. apply (Z.mod_unique _ 2 (Z.pos p) 1); lia. }
      destruct rb, sb; cbn; intuition (congruence || lia).
  - split.
    + rewrite Pos2Z.inj_xO. apply (Z.div_unique _ 2 _ 0); lia.
    + assert (Z.pos p~0 mod 2 = 0).
      { rewrite Pos2Z.inj_xO. symmetry. apply (Z.mod_unique _ 2 (Z.pos p) 0); lia. }
      destruct rb, sb; cbn; intuition (congruence || lia).
  - split; [reflexivity |]. 
    assert (1 mod 2 = 1) by reflexivity.
    destruct rb, sb; cbn; intuition (congruence || lia).
Qed.

Lemma mod_pow2_split (a : Z) (p q : Z) :
  0 <= p -> 0 <= q ->
  (a mod 2 ^ (p + q) = 0 <-> a mod 2 ^ p = 0 /\ (a / 2 ^ p) mod 2 ^ q = 0).
Proof.
  intros Hp Hq. rewrite Z.pow_add_r by assumption.
  assert (0 < 2 ^ p) by (apply Z.pow_pos_nonneg; lia).
  assert (0 < 2 ^ q) by (apply Z.pow_pos_nonneg; lia).
  rewrite Z.rem_mul_r by lia.
  pose proof (Z.mod_pos_bound a (2 ^ p) ltac:(lia)).
  pose proof (Z.mod_pos_bound (a / 2 ^ p) (2 ^ q) ltac:(lia)).
  split; [intros E | intros [E1 E2]]; nia.
Qed.

Lemma iter_shr_1_spec (p : positive) :
  forall r,
    0 <= shr_m r ->
    shr_m (iter_pos shr_1 p r) = shr_m r / 2 ^ Z.pos p
    /\ (Spec.exact_record (iter_pos shr_1 p r)
        <-> Spec.exact_record r /\ shr_m r mod 2 ^ Z.pos p = 0).
Proof.
  assert (Hcomp : forall (a b : Z) r r1 r2,
            0 < a -> 0 < b -> 0 <= shr_m r ->
            (shr_m r1 = shr_m r / 2 ^ a
             /\ (Spec.exact_record r1 <-> Spec.exact_record r /\ shr_m r mod 2 ^ a = 0)) ->
            (shr_m r2 = shr_m r1 / 2 ^ b
             /\ (Spec.exact_record r2 <-> Spec.exact_record r1 /\ shr_m r1 mod 2 ^ b = 0)) ->
            shr_m r2 = shr_m r / 2 ^ (a + b)
            /\ (Spec.exact_record r2 <-> Spec.exact_record r /\ shr_m r mod 2 ^ (a + b) = 0)).
  { intros a b r r1 r2 Ha Hb Hr [H1 E1] [H2 E2]. split.
    - rewrite H2, H1, Z.pow_add_r, Z.div_div by (try apply Z.pow_pos_nonneg; lia).
      reflexivity.
    - rewrite E2, E1, H1, (mod_pow2_split _ a b) by lia. tauto. }
  assert (Hnn : forall q r, 0 <= shr_m r -> 0 <= shr_m r / 2 ^ Z.pos q).
  { intros q r Hr. apply Z.div_pos; [assumption | apply Z.pow_pos_nonneg; lia]. }
  induction p as [p IH | p IH |]; intros r Hr; cbn [iter_pos].
  - pose proof (shr_1_spec r Hr) as S1. change 2 with (2 ^ 1) in S1 at 1 2.
    assert (Hr1 : 0 <= shr_m (shr_1 r)).
    { destruct S1 as [-> _]. apply Z.div_pos; lia. }
    pose proof (IH _ Hr1) as S2.
    assert (Hr2 : 0 <= shr_m (iter_pos shr_1 p (shr_1 r))).
    { destruct S2 as [-> _]. now apply Hnn. }
    pose proof (IH _ Hr2) as S3.
    pose proof (Hcomp 1 (Z.pos p) _ _ _ ltac:(lia) ltac:(lia) Hr S1 S2) as S12.
    pose proof (Hcomp (1 + Z.pos p) (Z.pos p) _ _ _ ltac:(lia) ltac:(lia) Hr S12 S3) as S.
    replace (Z.pos p~1) with (1 + Z.pos p + Z.pos p) by lia. exact S.
  - pose proof (IH _ Hr) as S1.
    assert (Hr1 : 0 <= shr_m (iter_pos shr_1 p r)).
    { destruct S1 as [-> _]. now apply Hnn. }
    pose proof (IH _ Hr1) as S2.
    pose proof (Hcomp (Z.pos p) (Z.pos p) _ _ _ ltac:(lia) ltac:(lia) Hr S1 S2) as S.
    replace (Z.pos p~0) with (Z.pos p + Z.pos p) by lia. exact S.
  - pose proof (shr_1_spec r Hr) as S1. exact S1.
Qed.

End Binary64.
Section Binary64Round.

Lemma emax_prec : (1024 - 53 = 971)%Z.
Proof. reflexivity. Qed.

(** No shift where the exponent is already the canonical one or above. *)
Lemma shr_fexp_no_shift (m : positive) (e : Z) :
  fexp 53 1024 (Z.pos (digits2_pos m) + e) <= e ->
  shr_fexp 53 1024 (Z.pos m) e loc_Exact
  = (Build_shr_record (Z.pos m) false false, e).
Proof.
  intros H. unfold shr_fexp. cbn [Zdigits2 shr_record_of_loc].
  unfold shr. destruct (fexp 53 1024 (Z.pos (digits2_pos m) + e) - e) eqn:E;
    try reflexivity. lia.
Qed.

(** A canonical mantissa goes through unchanged. *)
Lemma binary_round_aux_canonical (s : bool) (m : positive) (e : Z) :
  fexp 53 1024 (Z.pos (digits2_pos m) + e) = e ->
  binary_round_aux 53 1024 s (Z.pos m) e loc_Exact
  = if e <=? 971 then S754_finite s m e else S754_infinity s.
Proof.
  intros H. unfold binary_round_aux.
  rewrite shr_fexp_no_shift by lia.
  cbn [shr_m loc_of_shr_record round_nearest_even].
  rewrite shr_fexp_no_shift by lia. cbn [shr_m]. reflexivity.
Qed.

Lemma pos_iter_xO (m d : positive) : Z.pos (Pos.iter xO m d) = Z.pos m * 2 ^ Z.pos d.
Proof.
  induction d as [| d IH] using Pos.peano_ind.
  - cbn [Pos.iter]. rewrite Pos2Z.inj_xO. lia.
  - rewrite Pos.iter_succ, Pos2Z.inj_xO, IH, Pos2Z.inj_succ, Z.pow_succ_r by lia. lia.
Qed.

Lemma round_nearest_even_range (m : Z) (l : location) :
  m <= round_nearest_even m l <= m + 1.
Proof. destruct l as [| [ | | ]]; cbn; try lia. destruct (Z.even m); lia. Qed.

Lemma loc_of_exact_record (r : shr_record) :
  Spec.exact_record r -> loc_of_shr_record r = loc_Exact.
Proof. destruct r as [m rb sb]. intros [H1 H2]. cbn in *. now subst. Qed.

End Binary64Round.
Section Binary64Round2.
Import Spec.

Lemma log2_scaled (m : positive) (t : Z) :
  0 <= t -> Z.log2 (Z.pos m * 2 ^ t) = Z.log2 (Z.pos m) + t.
Proof. intros Ht. rewrite Z.log2_mul_pow2 by lia. lia. Qed.

(** The result of a rounding that loses nothing. *)
Lemma rounds_to_exact (s : bool) (m : positive) (e : Z) (v : Z) :
  fexp 53 1024 (Z.pos (digits2_pos m) + e) = e ->
  -1074 <= e ->
  v = Z.pos m * 2 ^ (e + 1074) ->
  rounds_to s v (if e <=? 971 then S754_finite s m e else S754_infinity s).
Proof.
  intros Hc He ->. exists m, e. split; [| split; [assumption | split]].
  - unfold canonical_mantissa. now apply Z.eqb_eq.
  - destruct (e <=? 971) eqn:E; [left | right]; split; try reflexivity.
    + now apply Z.leb_le.
    + apply Z.leb_gt in E. lia.
  - set (v := Z.pos m * 2 ^ (e + 1074)). set (j := Z.max (Z.log2 v - 52) 0).
    assert (Hp : 0 < 2 ^ j) by (apply Z.pow_pos_nonneg; lia).
    pose proof (Z.mod_pos_bound v (2 ^ j) Hp). split; [lia | reflexivity].
Qed.

Lemma binary_round_aux_shift (s : bool) (m : positive) (e : Z) (p : positive) :
  -1074 <= e ->
  fexp 53 1024 (Z.pos (digits2_pos m) + e) - e = Z.pos p ->
  rounds_to s (Z.pos m * 2 ^ (e + 1074))
    (binary_round_aux 53 1024 s (Z.pos m) e loc_Exact).
Proof.
  intros He Hn.
  pose proof (digits2_pos_log2 m) as HD. pose proof (digits2_bounds m) as HB.
  set (D := Z.pos (digits2_pos m)) in *.
  rewrite fexp_unfold in Hn.
  assert (Hk : Z.pos p = D - 53) by lia.
  assert (HD54 : 54 <= D) by lia.
  (* the first shift *)
  unfold binary_round_aux, shr_fexp at 1. cbn [Zdigits2 shr_record_of_loc].
  fold D. rewrite fexp_unfold.
  replace (Z.max (D + e - 53) (-1074) - e) with (Z.pos p) by lia.
  cbn [shr].
  destruct (iter_shr_1_spec p (Build_shr_record (Z.pos m) false false) ltac:(cbn; lia))
    as [Hm1 Hex].
  cbn [shr_m] in Hm1, Hex.
  remember (iter_pos shr_1 p (Build_shr_record (Z.pos m) false false)) as r1 eqn:Er1.
  remember (shr_m r1) as m1 eqn:Em1.
  assert (HQ : 0 < 2 ^ Z.pos p) by (apply Z.pow_pos_nonneg; lia).
  assert (Hpow : 2 ^ (D - 1) = 2 ^ 52 * 2 ^ Z.pos p).
  { rewrite <- Z.pow_add_r by lia. f_equal. lia. }
  assert (Hpow' : 2 ^ D = 2 ^ 53 * 2 ^ Z.pos p).
  { rewrite <- Z.pow_add_r by lia. f_equal. lia. }
  assert (Hm1b : 2 ^ 52 <= m1 < 2 ^ 53).
  { rewrite Hm1. split.
    - apply Z.div_le_lower_bound; lia.
    - apply Z.div_lt_upper_bound; lia. }
  pose proof (round_nearest_even_range m1 (loc_of_shr_record r1)) as Hm2.
  remember (round_nearest_even m1 (loc_of_shr_record r1)) as m2 eqn:Em2.
  assert (Hexact : Z.pos m mod 2 ^ Z.pos p = 0 -> m2 = m1).
  { intros Hz. rewrite Em2, loc_of_exact_record; [reflexivity |].
    apply Hex. split; [split; reflexivity | assumption]. }
  (* the value in units of the last place *)
  set (P := 2 ^ (e + 1074)). assert (HP : 0 < P) by (apply Z.pow_pos_nonneg; lia).
  set (v := Z.pos m * P).
  assert (Hlog : Z.log2 v = Z.log2 (Z.pos m) + (e + 1074)) by (apply log2_scaled; lia).
  assert (Hj : Z.max (Z.log2 v - 52) 0 = Z.pos p + (e + 1074)) by lia.
  assert (H2j : 2 ^ (Z.pos p + (e + 1074)) = 2 ^ Z.pos p * P) by (apply Z.pow_add_r; lia).
  assert (Hmod : v mod (2 ^ Z.pos p * P) = (Z.pos m mod 2 ^ Z.pos p) * P).
  { unfold v. apply Z.mul_mod_distr_r; lia. }
  assert (Hdm : Z.pos m = 2 ^ Z.pos p * m1 + Z.pos m mod 2 ^ Z.pos p).
  { rewrite Hm1. apply Z.div_mod. lia. }
  pose proof (Z.mod_pos_bound (Z.pos m) (2 ^ Z.pos p) HQ) as Hr.
  assert (Hval : forall v', v' = m2 * (2 ^ Z.pos p * P) ->
            v - v mod 2 ^ Z.max (Z.log2 v - 52) 0 <= v'
            <= v - v mod 2 ^ Z.max (Z.log2 v - 52) 0 + 2 ^ Z.max (Z.log2 v - 52) 0
            /\ (v mod 2 ^ Z.max (Z.log2 v - 52) 0 = 0 -> v' = v)).
  { intros v' ->. rewrite Hj, H2j, Hmod. unfold v. split; [nia |].
    intros Hz. assert (Z.pos m mod 2 ^ Z.pos p = 0) by nia.
    rewrite (Hexact H). nia. }
  (* the second shift: none, or one place when the rounding carried *)
  assert (Hm2pos : 0 < m2) by lia.
  destruct m2 as [| q | q]; try lia.
  destruct (Z.eq_dec (Z.pos q) (2 ^ 53)) as [Hcarry | Hno].
  - assert (Hq : q = 9007199254740992%positive) by (apply Pos2Z.inj; exact Hcarry).
    subst q. unfold shr_fexp. cbn [Zdigits2 shr_record_of_loc digits2_pos Pos.succ].
    rewrite fexp_unfold.
    replace (Z.max (54 + (e + Z.pos p) - 53) (-1074) - (e + Z.pos p)) with 1 by lia.
    cbn [shr iter_pos shr_1 shr_m].
    exists 4503599627370496%positive, (e + Z.pos p + 1). split; [| split; [lia | split]].
    + unfold canonical_mantissa. cbn [digits2_pos Pos.succ]. rewrite fexp_unfold.
      apply Z.eqb_eq. lia.
    + rewrite emax_prec. destruct (e + Z.pos p + 1 <=? 971) eqn:E; [left | right];
        (split; [reflexivity |]); [now apply Z.leb_le | apply Z.leb_gt in E; lia].
    + apply Hval. replace (e + Z.pos p + 1 + 1074) with (1 + (Z.pos p + (e + 1074))) by lia.
      rewrite Z.pow_add_r, H2j by lia. lia.
  - assert (Hq53 : Z.pos (digits2_pos q) = 53).
    { rewrite digits2_pos_log2.
      assert (Z.log2 (Z.pos q) = 52); [| lia].
      apply Z.log2_unique; [lia |]. change (Z.succ 52) with 53. lia. }
    assert (Hcan : fexp 53 1024 (Z.pos (digits2_pos q) + (e + Z.pos p)) = e + Z.pos p).
    { rewrite Hq53, fexp_unfold. lia. }
    rewrite shr_fexp_no_shift by lia. cbn [shr_m]. rewrite emax_prec.
    exists q, (e + Z.pos p). split; [| split; [lia | split]].
    + unfold canonical_mantissa. now apply Z.eqb_eq.
    + destruct (e + Z.pos p <=? 971) eqn:E; [left | right];
        (split; [reflexivity |]); [now apply Z.leb_le | apply Z.leb_gt in E; lia].
    + apply Hval. replace (e + Z.pos p + 1074) with (Z.pos p + (e + 1074)) by lia.
      now rewrite H2j.
Qed.

Lemma binary_round_spec (s : bool) (m : positive) (e : Z) :
  -1074 <= e ->
  rounds_to s (Z.pos m * 2 ^ (e + 1074)) (binary_round 53 1024 s m e).
Proof.
  intros He. unfold binary_round, shl_align.
  pose proof (digits2_pos_log2 m) as HD.
  destruct (fexp 53 1024 (Z.pos (digits2_pos m) + e) - e) as [| p | d] eqn:E.
  - rewrite binary_round_aux_canonical by lia. apply rounds_to_exact; [lia | lia | reflexivity].
  - now apply (binary_round_aux_shift s m e p).
  - set (k := fexp 53 1024 (Z.pos (digits2_pos m) + e)) in *.
    assert (Hd : Z.pos d = e - k) by lia.
    assert (Hk : -1074 <= k) by (subst k; rewrite fexp_unfold; lia).
    assert (Hdig : Z.pos (digits2_pos (Pos.iter xO m d)) = Z.pos (digits2_pos m) + Z.pos d).
    { rewrite !digits2_pos_log2, pos_iter_xO, log2_scaled by lia. lia. }
    assert (Hcan : fexp 53 1024 (Z.pos (digits2_pos (Pos.iter xO m d)) + k) = k).
    { rewrite Hdig. replace (Z.pos (digits2_pos m) + Z.pos d + k)
        with (Z.pos (digits2_pos m) + e) by lia. reflexivity. }
    rewrite binary_round_aux_canonical by exact Hcan.
    apply rounds_to_exact; [exact Hcan | lia |].
    rewrite pos_iter_xO, Hd, <- Z.mul_assoc, <- Z.pow_add_r by lia.
    do 2 f_equal. lia.
Qed.

End Binary64Round2.
Section Binary64Order.
Import Spec.

(** A canonical mantissa has at most 53 bits, and exactly 53 above the
    least exponent. *)
Lemma canonical_bounds (m : positive) (e : Z) :
  canonical_mantissa 53 1024 m e = true ->
  -1074 <= e /\ Z.pos m < 2 ^ 53 /\ (-1074 < e -> 2 ^ 52 <= Z.pos m).
Proof.
  unfold canonical_mantissa. intros H. apply Z.eqb_eq in H.
  rewrite fexp_unfold in H. pose proof (digits2_bounds m) as HB.
  set (D := Z.pos (digits2_pos m)) in *.
  assert (HD : 0 < D) by (subst D; lia).
  split; [lia |]. split.
  - assert (D <= 53) by lia.
    assert (2 ^ D <= 2 ^ 53) by (apply Z.pow_le_mono_r; lia). lia.
  - intros He. assert (D = 53) by lia.
    replace (D - 1) with 52 in HB by lia. lia.
Qed.

(** Among canonical positive numbers the larger exponent is the larger
    number. *)
Lemma canonical_exponent_order (m1 m2 : positive) (e1 e2 : Z) :
  canonical_mantissa 53 1024 m1 e1 = true ->
  canonical_mantissa 53 1024 m2 e2 = true ->
  e1 < e2 ->
  Z.pos m1 * 2 ^ (e1 + 1074) < Z.pos m2 * 2 ^ (e2 + 1074).
Proof.
  intros H1 H2 He.
  destruct (canonical_bounds _ _ H1) as [He1 [Hm1 _]].
  destruct (canonical_bounds _ _ H2) as [He2 [_ Hm2]].
  specialize (Hm2 ltac:(lia)).
  set (P := 2 ^ (e1 + 1074)). assert (HP : 0 < P) by (apply Z.pow_pos_nonneg; lia).
  assert (Hpow : 2 ^ (e2 + 1074) = 2 ^ (e2 - e1) * P).
  { unfold P. rewrite <- Z.pow_add_r by lia. f_equal. lia. }
  assert (Hge : 2 ^ 1 <= 2 ^ (e2 - e1)) by (apply Z.pow_le_mono_r; lia).
  rewrite Hpow. change (2 ^ 1) with 2 in Hge. change (2 ^ 53) with (2 * 2 ^ 52) in Hm1.
  set (Q := 2 ^ (e2 - e1)) in *. set (A := 2 ^ 52) in *.
  assert (0 < A) by (subst A; reflexivity).
  assert (Z.pos m1 * P < 2 * A * P) by nia.
  assert (2 * A * P <= Z.pos m2 * (Q * P)) by nia.
  lia.
Qed.

(** The comparison of two finite numbers is the comparison of their
    values. *)
Lemma SFcompare_scaled (x y : float) :
  finite_valid x -> finite_valid y ->
  SFcompare x y = Some (scaled x ?= scaled y).
Proof.
  intros [Vx Fx] [Vy Fy].
  destruct x as [sx | sx | | sx mx ex]; try contradiction;
    destruct y as [sy | sy | | sy my ey]; try contradiction; clear Fx Fy.
  - reflexivity.
  - cbn [SFcompare scaled]. f_equal. destruct sy; cbn [cond_Zopp]; symmetry.
    + apply Z.compare_gt_iff. assert (0 < 2 ^ (ey + 1074)); [| nia].
      unfold valid_binary, bounded in Vy. apply andb_prop in Vy. destruct Vy as [Vy _].
      destruct (canonical_bounds _ _ Vy). apply Z.pow_pos_nonneg; lia.
    + apply Z.compare_lt_iff. assert (0 < 2 ^ (ey + 1074)); [| nia].
      unfold valid_binary, bounded in Vy. apply andb_prop in Vy. destruct Vy as [Vy _].
      destruct (canonical_bounds _ _ Vy). apply Z.pow_pos_nonneg; lia.
  - cbn [SFcompare scaled]. f_equal. destruct sx; cbn [cond_Zopp]; symmetry.
    + apply Z.compare_lt_iff. assert (0 < 2 ^ (ex + 1074)); [| nia].
      unfold valid_binary, bounded in Vx. apply andb_prop in Vx. destruct Vx as [Vx _].
      destruct (canonical_bounds _ _ Vx). apply Z.pow_pos_nonneg; lia.
    + apply Z.compare_gt_iff. assert (0 < 2 ^ (ex + 1074)); [| nia].
      unfold valid_binary, bounded in Vx. apply andb_prop in Vx. destruct Vx as [Vx _].
      destruct (canonical_bounds _ _ Vx). apply Z.pow_pos_nonneg; lia.
  - unfold valid_binary, bounded in Vx, Vy. apply andb_prop in Vx. apply andb_prop in Vy.
    destruct Vx as [Cx _], Vy as [Cy _].
    destruct (canonical_bounds _ _ Cx) as [Hex _].
    destruct (canonical_bounds _ _ Cy) as [Hey _].
    assert (Px : 0 < Z.pos mx * 2 ^ (ex + 1074)).
    { assert (0 < 2 ^ (ex + 1074)) by (apply Z.pow_pos_nonneg; lia). nia. }
    assert (Py : 0 < Z.pos my * 2 ^ (ey + 1074)).
    { assert (0 < 2 ^ (ey + 1074)) by (apply Z.pow_pos_nonneg; lia). nia. }
    assert (Hpos : (Z.pos mx * 2 ^ (ex + 1074) ?= Z.pos my * 2 ^ (ey + 1074))
                   = match ex ?= ey with
                     | Lt => Lt
                     | Gt => Gt
                     | Eq => Pos.compare_cont Eq mx my
                     end).
    { destruct (ex ?= ey) eqn:E.
      - apply Z.compare_eq in E. subst ey.
        assert (HP : 0 < 2 ^ (ex + 1074)) by (apply Z.pow_pos_nonneg; lia).
        change (Pos.compare_cont Eq mx my) with (Z.pos mx ?= Z.pos my).
        destruct (Z.pos mx ?= Z.pos my) eqn:Em.
        + apply Z.compare_eq in Em. rewrite Em. apply Z.compare_refl.
        + apply Z.compare_lt_iff. apply Z.compare_lt_iff in Em.
          now apply Z.mul_lt_mono_pos_r.
        + apply Z.compare_gt_iff. apply Z.compare_gt_iff in Em.
          now apply Z.mul_lt_mono_pos_r.
      - apply Z.compare_lt_iff. apply Z.compare_lt_iff in E.
        now apply canonical_exponent_order.
      - apply Z.compare_gt_iff. apply Z.compare_gt_iff in E.
        now apply canonical_exponent_order. }
    cbn [SFcompare scaled]. f_equal.
    destruct sx, sy; cbn [cond_Zopp].
    + rewrite Z.compare_opp.
      rewrite (Z.compare_antisym (Z.pos mx * 2 ^ (ex + 1074)) (Z.pos my * 2 ^ (ey + 1074))).
      rewrite Hpos. destruct (ex ?= ey); reflexivity.
    + symmetry. apply Z.compare_lt_iff. lia.
    + symmetry. apply Z.compare_gt_iff. lia.
    + rewrite Hpos. reflexivity.
Qed.

Lemma flt_scaled (x y : float) :
  finite_valid x -> finite_valid y ->
  (flt x y = true <-> scaled x < scaled y).
Proof.
  intros Hx Hy. unfold flt, SFltb. rewrite (SFcompare_scaled _ _ Hx Hy).
  destruct (scaled x ?= scaled y) eqn:E.
  - apply Z.compare_eq in E. split; [discriminate | lia].
  - apply Z.compare_lt_iff in E. tauto.
  - apply Z.compare_gt_iff in E. split; [discriminate | lia].
Qed.

End Binary64Order.
Section Binary64Sub.
Import Spec.

Lemma shl_align_value (m : positive) (e ez : Z) :
  ez <= e -> -1074 <= ez ->
  Z.pos (fst (shl_align m e ez)) * 2 ^ (ez + 1074) = Z.pos m * 2 ^ (e + 1074).
Proof.
  intros Hle Hez. unfold shl_align. destruct (ez - e) as [| p | d] eqn:E; cbn [fst].
  - do 2 f_equal. lia.
  - lia.
  - rewrite pos_iter_xO, <- Z.mul_assoc, <- Z.pow_add_r by lia. do 2 f_equal. lia.
Qed.

(** A rounding of a value below 2^54 is finite and less than two units
    away. *)
Lemma rounds_to_near (s : bool) (v : Z) (r : float) :
  0 < v < 2 ^ 54 * 2 ^ 1074 ->
  rounds_to s v r ->
  finite_valid r
  /\ exists v', scaled r = cond_Zopp s v'
                /\ v - 2 * 2 ^ 1074 < v' < v + 2 * 2 ^ 1074 /\ 0 < v'.
Proof.
  intros [Hv0 Hv] [m [e [Hc [He [Hr [Hb Hx]]]]]].
  set (T := 2 ^ 1074) in *. assert (HT : 0 < T) by (subst T; apply Z.pow_pos_nonneg; lia).
  set (j := Z.max (Z.log2 v - 52) 0) in *.
  assert (Hlog : Z.log2 v < 1128).
  { apply Z.log2_lt_pow2; [assumption |].
    replace (2 ^ 1128) with (2 ^ 54 * T); [assumption |].
    subst T. rewrite <- Z.pow_add_r by lia. reflexivity. }
  assert (HJ : 0 < 2 ^ j <= 2 * T).
  { split; [apply Z.pow_pos_nonneg; lia |].
    replace (2 * T) with (2 ^ 1075) by (subst T; rewrite <- Z.pow_succ_r by lia; reflexivity).
    apply Z.pow_le_mono_r; lia. }
  pose proof (Z.mod_pos_bound v (2 ^ j) ltac:(lia)) as Hmod.
  set (v' := Z.pos m * 2 ^ (e + 1074)) in *.
  assert (Hnear : v - 2 * T < v' < v + 2 * T).
  { split; [lia |].
    destruct (Z.eq_dec (v mod 2 ^ j) 0) as [Hz | Hnz]; [rewrite (Hx Hz); lia | lia]. }
  assert (Hpos : 0 < v').
  { subst v'. assert (0 < 2 ^ (e + 1074)) by (apply Z.pow_pos_nonneg; lia). nia. }
  assert (Hfin : e <= 971).
  { destruct (Z_le_gt_dec e 971) as [Hle | Hgt]; [assumption | exfalso].
    destruct (canonical_bounds _ _ Hc) as [_ [_ Hm]]. specialize (Hm ltac:(lia)).
    assert (Hp : 2 ^ (e + 1074) = 2 ^ e * T).
    { subst T. rewrite <- Z.pow_add_r by lia. reflexivity. }
    assert (Hp8 : 2 ^ 3 <= 2 ^ e) by (apply Z.pow_le_mono_r; lia).
    change (2 ^ 3) with 8 in Hp8.
    assert (H1 : 2 ^ 52 * (8 * T) <= Z.pos m * (2 ^ e * T)).
    { apply Z.mul_le_mono_nonneg; lia. }
    subst v'. rewrite Hp in Hnear.
    change (2 ^ 54) with (4 * 2 ^ 52) in Hv. set (A := 2 ^ 52) in *.
    assert (0 < A) by (subst A; reflexivity). nia. }
  destruct Hr as [[-> _] | [_ Hinf]]; [| lia].
  split.
  - split; [| exact I]. unfold valid_binary, bounded. rewrite Hc. cbn [andb].
    apply Z.leb_le. rewrite emax_prec. exact Hfin.
  - exists v'. cbn [scaled]. fold v'. split; [reflexivity |]. split; assumption.
Qed.

(** Subtracting a step from a finite cursor of magnitude at most 2^53:
    the result is finite, strictly less, and less than 34 below. *)
Lemma fsub_descends (y c : float) :
  within (2 ^ 53) y -> descent_step c ->
  finite_valid (fsub y c)
  /\ scaled (fsub y c) < scaled y
  /\ scaled y - 34 * 2 ^ 1074 <= scaled (fsub y c).
Proof.
  intros [[Vy Fy] Hy] [[mc [ec ->]] [Vc Hc]].
  set (T := 2 ^ 1074) in *. assert (HT : 0 < T) by (subst T; apply Z.pow_pos_nonneg; lia).
  cbn [scaled cond_Zopp] in Hc.
  destruct y as [sy | sy | | sy my ey]; try contradiction.
  - (* zero *)
    cbn [fsub SFsub negb scaled cond_Zopp]. split; [| lia].
    split; [exact Vc | exact I].
  - unfold valid_binary, bounded in Vy, Vc.
    apply andb_prop in Vy. apply andb_prop in Vc.
    destruct Vy as [Cy _], Vc as [Cc _].
    destruct (canonical_bounds _ _ Cy) as [Hey _].
    destruct (canonical_bounds _ _ Cc) as [Hec _].
    unfold fsub, SFsub. cbn zeta.
    set (ez := Z.min ey ec).
    pose proof (shl_align_value my ey ez ltac:(lia) ltac:(lia)) as Ha.
    pose proof (shl_align_value mc ec ez ltac:(lia) ltac:(lia)) as Hb.
    set (a := Z.pos (fst (shl_align my ey ez))) in *.
    set (b := Z.pos (fst (shl_align mc ec ez))) in *.
    set (P := 2 ^ (ez + 1074)) in *.
    assert (HP : 0 < P) by (subst P; apply Z.pow_pos_nonneg; lia).
    set (Y := scaled (S754_finite sy my ey)) in *.
    set (C := Z.pos mc * 2 ^ (ec + 1074)) in *.
    assert (HY : cond_Zopp sy a * P = Y).
    { subst Y. cbn [scaled]. destruct sy; cbn [cond_Zopp]; lia. }
    cbn [cond_Zopp].
    assert (HM : (cond_Zopp sy a - b) * P = Y - C) by lia.
    assert (Hbound : Z.abs (Y - C) < 2 ^ 54 * T).
    { change (2 ^ 54) with (2 * 2 ^ 53). lia. }
    destruct (cond_Zopp sy a - b) as [| p | p] eqn:EM; cbn [binary_normalize].
    + (* the difference is zero *)
      split; [split; [reflexivity | exact I] |]. cbn [scaled]. lia.
    + destruct (rounds_to_near false (Z.pos p * P) _ ltac:(lia)
                  (binary_round_spec false p ez ltac:(lia)))
        as [Hf [v' [Hs [Hn Hp]]]].
      split; [assumption |]. rewrite Hs. cbn [cond_Zopp]. lia.
    + destruct (rounds_to_near true (Z.pos p * P) _ ltac:(lia)
                  (binary_round_spec true p ez ltac:(lia)))
        as [Hf [v' [Hs [Hn Hp]]]].
      split; [assumption |]. rewrite Hs. cbn [cond_Zopp]. lia.
Qed.

End Binary64Sub.
(** ** The cursor after a chain of steps *)

Section Descent.
Import Spec.

Lemma is_descent_step_sound (c : float) : is_descent_step c = true -> descent_step c.
Proof.
  destruct c as [| | | [|] m e]; try discriminate. unfold is_descent_step.
  intros H. apply andb_prop in H. destruct H as [H H3].
  apply andb_prop in H. destruct H as [H1 H2].
  apply Z.leb_le in H2. apply Z.leb_le in H3.
  split; [now exists m, e |]. split; [assumption | lia].
Qed.

Lemma descend_lines_fold (n : nat) (d y : float) :
  descend_lines n d y = fold_left fsub (repeat d n) y.
Proof.
  revert y. induction n as [| n IH]; intros y; [reflexivity |].
  rewrite descend_lines_succ, IH. reflexivity.
Qed.

Lemma descend_lines_add (a b : nat) (d y : float) :
  descend_lines (a + b) d y = descend_lines b d (descend_lines a d y).
Proof.
  revert y. induction a as [| a IH]; intros y; [reflexivity |].
  cbn [Nat.add]. rewrite !descend_lines_succ. apply IH.
Qed.

(** After [k] steps from [y0] and [steps] more, all within reach of
    2^53, the cursor is finite and not above where it was, and below it
    when a step was made. *)
Lemma chain_descends (steps : list float) :
  forall (y y0 : float) (k : Z),
    0 <= k ->
    finite_valid y ->
    Z.abs (scaled y0) <= 2 ^ 52 * 2 ^ 1074 ->
    scaled y0 - 34 * k * 2 ^ 1074 <= scaled y <= scaled y0 ->
    k + len steps <= 2 ^ 46 ->
    Forall descent_step steps ->
    finite_valid (fold_left fsub steps y)
    /\ scaled (fold_left fsub steps y) <= scaled y
    /\ (steps <> [] -> scaled (fold_left fsub steps y) < scaled y).
Proof.
  induction steps as [| c steps IH]; intros y y0 k Hk Hf H0 Hy Hn Hs.
  - cbn. split; [assumption |]. split; [lia | congruence].
  - inversion Hs as [| ? ? Hc Hs']; subst. cbn [fold_left].
    unfold len in Hn. cbn [length] in Hn. rewrite Nat2Z.inj_succ in Hn.
    set (T := 2 ^ 1074) in *.
    assert (HT : 0 < T) by (subst T; apply Z.pow_pos_nonneg; lia).
    assert (Hw : within (2 ^ 53) y).
    { split; [assumption |]. fold T.
      change (2 ^ 53) with (2 * 2 ^ 52). change (2 ^ 46) with 70368744177664 in Hn.
      change (2 ^ 52) with 4503599627370496 in *. nia. }
    destruct (fsub_descends y c Hw Hc) as [Hf' [Hlt Hlow]]. fold T in Hlow.
    destruct (IH (fsub y c) y0 (k + 1) ltac:(lia) Hf' H0 ltac:(lia)
                 ltac:(unfold len; lia) Hs') as [Hf'' [Hle _]].
    split; [assumption |]. split; [lia |]. intros _. lia.
Qed.

(** The cursor after a chain of at most 2^46 steps from a cursor of
    magnitude at most 2^52 compares below the cursor before. *)
Lemma chain_flt (steps : list float) (y : float) :
  within (2 ^ 52) y ->
  Forall descent_step steps -> steps <> [] -> len steps <= 2 ^ 46 ->
  flt (fold_left fsub steps y) y = true.
Proof.
  intros [Hf Hy] Hs Hne Hn.
  destruct (chain_descends steps y y 0 ltac:(lia) Hf Hy ltac:(lia) ltac:(lia) Hs)
    as [Hf' [_ Hlt]].
  apply flt_scaled; [assumption | assumption | now apply Hlt].
Qed.

End Descent.
(** ** The layout engine: every placement lowers the cursor *)

Section Placements.
Context {U : UnicodeTables}.
Import Spec.

Lemma advanced_refl (self : AppSummary.Layout) : advanced 0 self self.
Proof. unfold advanced. rewrite Nat.add_0_r. repeat split; reflexivity. Qed.

Lemma advanced_trans (a b : nat) (s s1 s2 : AppSummary.Layout) :
  advanced a s s1 -> advanced b s1 s2 -> advanced (a + b) s s2.
Proof.
  intros [Hc1 [Hy1 [Hl1 [Hs1 Hd1]]]] [Hc2 [Hy2 [Hl2 [Hs2 Hd2]]]].
  unfold advanced. rewrite Hc2, Hc1, Hy2, Hy1, Hd1, descend_lines_add.
  repeat split; try congruence. lia.
Qed.

Lemma advanced_line (self : AppSummary.Layout) (cmd : str) :
  advanced 1 self
    (AppSummary.descend (AppSummary.append_command self cmd)
       (AppSummary.body_leading self)).
Proof.
  destruct self. unfold advanced. cbn. rewrite length_app. cbn.
  repeat split; reflexivity.
Qed.

Lemma advanced_extras (extras : list str) :
  forall self, advanced (length extras) self
                 (fold_left AppSummary.add_bullets_extra extras self).
Proof.
  induction extras as [| extra extras IH]; intros self; [apply advanced_refl |].
  cbn [fold_left length]. change (S (length extras)) with (1 + length extras)%nat.
  eapply advanced_trans; [| apply IH].
  unfold AppSummary.add_bullets_extra.
  pose proof (advanced_line self
                (AppSummary.text_cmd (fadd (AppSummary.left self) (decimal 120 1))
                   (AppSummary.y self) extra "F1" (AppSummary.body_size self))) as H.
  destruct self. exact H.
Qed.

(** The outer loop of [add_bullets], however it ends: some lines more. *)
Lemma add_bullets_loop_advanced (width : Z) (items : list str) :
  forall self self' o,
    AppSummary.add_bullets_loop self items width = (self', o) ->
    exists k, advanced k self self'.
Proof.
  induction items as [| item items IH]; intros self self' o H;
    cbn [AppSummary.add_bullets_loop] in H.
  - injection H as <- _. exists 0%nat. apply advanced_refl.
  - destruct (Textwrap.wrap item width) as [e | [| first extras]].
    + injection H as <- _. exists 0%nat. apply advanced_refl.
    + now apply IH in H.
    + apply IH in H. destruct H as [k Hk].
      exists (1 + length extras + k)%nat.
      eapply advanced_trans; [| exact Hk].
      eapply advanced_trans; [| apply advanced_extras].
      pose proof (advanced_line self
                    (AppSummary.text_cmd (AppSummary.left self) (AppSummary.y self)
                       (u "- " ++ first) "F1" (AppSummary.body_size self))) as H1.
      destruct self. exact H1.
Qed.

Lemma advanced_page_refl (self : EngineVergleich.Page) : advanced_page 0 self self.
Proof. unfold advanced_page. rewrite Nat.add_0_r. repeat split; reflexivity. Qed.

Lemma advanced_page_trans (a b : nat) (s s1 s2 : EngineVergleich.Page) :
  advanced_page a s s1 -> advanced_page b s1 s2 -> advanced_page (a + b) s s2.
Proof.
  intros [Hc1 [Hy1 Hl1]] [Hc2 [Hy2 Hl2]].
  unfold advanced_page. rewrite Hc2, Hc1, Hy2, Hy1, descend_lines_add.
  repeat split; try congruence. lia.
Qed.

Lemma advanced_page_line (self : EngineVergleich.Page) (cmd : str) :
  advanced_page 1 self
    (EngineVergleich.descend (EngineVergleich.append_command self cmd) (decimal 106 1)).
Proof.
  destruct self. unfold advanced_page. cbn [EngineVergleich.descend
    EngineVergleich.append_command EngineVergleich.commands EngineVergleich.y
    EngineVergleich.left]. rewrite length_app. cbn [length].
  repeat split; reflexivity.
Qed.

Lemma advanced_page_extras (extras : list str) :
  forall self, advanced_page (length extras) self
                 (fold_left EngineVergleich.b_extra extras self).
Proof.
  induction extras as [| extra extras IH]; intros self; [apply advanced_page_refl |].
  cbn [fold_left length]. change (S (length extras)) with (1 + length extras)%nat.
  eapply advanced_page_trans; [| apply IH].
  unfold EngineVergleich.b_extra. apply advanced_page_line.
Qed.

Lemma b_loop_advanced (width : Z) (items : list str) :
  forall self self' o,
    EngineVergleich.b_loop self items width = (self', o) ->
    exists k, advanced_page k self self'.
Proof.
  induction items as [| item items IH]; intros self self' o H;
    cbn [EngineVergleich.b_loop] in H.
  - injection H as <- _. exists 0%nat. apply advanced_page_refl.
  - destruct (Textwrap.wrap item width) as [e | [| first extras]].
    + injection H as <- _. exists 0%nat. apply advanced_page_refl.
    + now apply IH in H.
    + apply IH in H. destruct H as [k Hk].
      exists (1 + length extras + k)%nat.
      eapply advanced_page_trans; [| exact Hk].
      eapply advanced_page_trans; [| apply advanced_page_extras].
      apply advanced_page_line.
Qed.

(** The steps of [k] lines and a gap. *)
Lemma lines_then_gap (k : nat) (d gap y : float) :
  fsub (descend_lines k d y) gap = fold_left fsub (repeat d k ++ [gap]) y.
Proof. rewrite fold_left_app, <- descend_lines_fold. reflexivity. Qed.

Lemma lines_then_gap_flt (k : nat) (d gap y : float) :
  within (2 ^ 52) y -> descent_step d -> descent_step gap ->
  Z.of_nat k <= 2 ^ 40 ->
  flt (fsub (descend_lines k d y) gap) y = true.
Proof.
  intros Hy Hd Hg Hk. rewrite lines_then_gap. apply chain_flt; [assumption | | |].
  - apply Forall_app. split; [| constructor; [assumption | constructor]].
    apply Forall_forall. intros x Hx. apply repeat_spec in Hx. now subst x.
  - destruct (repeat d k); discriminate.
  - unfold len. rewrite length_app, repeat_length. cbn [length].
    change (2 ^ 40) with 1099511627776 in Hk. change (2 ^ 46) with 70368744177664. lia.
Qed.

Lemma one_step_flt (c y : float) :
  within (2 ^ 52) y -> descent_step c -> flt (fsub y c) y = true.
Proof.
  intros Hy Hc. apply (lines_then_gap_flt 0 c c y Hy Hc Hc). cbn. lia.
Qed.

End Placements.

(** C8, amended. In both scripts, for every layout whose cursor is a
    finite number of magnitude at most 2^52 (and whose body leading is
    the 12.0 of the constructor), every placement call that returns and
    adds at most 2^40 instructions leaves the cursor strictly below where
    it was. *)
Theorem placement_lowers_cursor {U : UnicodeTables} :
  (forall (self self' : AppSummary.Layout) (call : Spec.placement),
     Spec.within (2 ^ 52) (AppSummary.y self) ->
     AppSummary.body_leading self = decimal 120 1 ->
     Spec.place_app self call = (self', Returned) ->
     len (AppSummary.commands self') <= len (AppSummary.commands self) + 2 ^ 40 ->
     flt (AppSummary.y self') (AppSummary.y self) = true)
  /\ (forall (self self' : EngineVergleich.Page) (call : Spec.placement),
        Spec.within (2 ^ 52) (EngineVergleich.y self) ->
        Spec.place_engine self call = (self', Returned) ->
        len (EngineVergleich.commands self') <= len (EngineVergleich.commands self) + 2 ^ 40 ->
        flt (EngineVergleich.y self') (EngineVergleich.y self) = true).
Proof.
  assert (Hstep : forall c, Spec.is_descent_step c = true -> Spec.descent_step c)
    by apply is_descent_step_sound.
  split.
  - intros self self' call Hy Hlead H Hlen. destruct call as [t | t | t | t w | items w];
      cbn [Spec.place_app] in H.
    + injection H as <-. destruct self. apply one_step_flt; [assumption |].
      apply Hstep. vm_compute. reflexivity.
    + injection H as <-. destruct self. apply one_step_flt; [assumption |].
      apply Hstep. vm_compute. reflexivity.
    + injection H as <-. destruct self. apply one_step_flt; [assumption |].
      apply Hstep. vm_compute. reflexivity.
    + destruct (Textwrap.wrap t w) as [e | lines] eqn:Hw.
      * unfold AppSummary.add_paragraph in H. rewrite Hw in H. discriminate.
      * rewrite (add_paragraph_returns _ _ _ _ Hw) in H. injection H as <-.
        cbn [AppSummary.commands AppSummary.y] in *. rewrite Hlead.
        apply lines_then_gap_flt; try assumption;
          try (apply Hstep; vm_compute; reflexivity).
        unfold len in Hlen. rewrite length_app, paragraph_commands_length in Hlen. lia.
    + unfold AppSummary.add_bullets in H.
      destruct (AppSummary.add_bullets_loop self items w) as [s1 o] eqn:Hloop.
      destruct o; [| discriminate]. injection H as <-.
      destruct (add_bullets_loop_advanced _ _ _ _ _ Hloop) as [k [Hc [Hk _]]].
      destruct s1. cbn [AppSummary.descend AppSummary.commands AppSummary.y] in *.
      rewrite Hk, Hlead.
      apply lines_then_gap_flt; try assumption;
        try (apply Hstep; vm_compute; reflexivity).
      unfold len in Hlen. lia.
  - intros self self' call Hy H Hlen. destruct call as [t | t | t | t w | items w];
      cbn [Spec.place_engine] in H.
    + injection H as <-. destruct self. apply one_step_flt; [assumption |].
      apply Hstep. vm_compute. reflexivity.
    + injection H as <-. destruct self. apply one_step_flt; [assumption |].
      apply Hstep. vm_compute. reflexivity.
    + injection H as <-. destruct self. apply one_step_flt; [assumption |].
      apply Hstep. vm_compute. reflexivity.
    + destruct (Textwrap.wrap t w) as [e | lines] eqn:Hw.
      * unfold EngineVergleich.p in H. rewrite Hw in H. discriminate.
      * rewrite (p_returns _ _ _ _ Hw) in H. injection H as <-.
        cbn [EngineVergleich.commands EngineVergleich.y] in *.
        apply lines_then_gap_flt; try assumption;
          try (apply Hstep; vm_compute; reflexivity).
        assert (Hpl : forall l y ls, length (Spec.p_commands l y ls) = length ls).
        { intros l y ls. revert y. induction ls as [| a ls IH]; intros y; cbn;
            [reflexivity | now rewrite IH]. }
        unfold len in Hlen. rewrite length_app, Hpl in Hlen. lia.
    + unfold EngineVergleich.b in H.
      destruct (EngineVergleich.b_loop self items w) as [s1 o] eqn:Hloop.
      destruct o; [| discriminate]. injection H as <-.
      destruct (b_loop_advanced _ _ _ _ _ Hloop) as [k [Hc [Hk _]]].
      destruct s1. cbn [EngineVergleich.descend EngineVergleich.commands EngineVergleich.y] in *.
      rewrite Hk.
      apply lines_then_gap_flt; try assumption;
        try (apply Hstep; vm_compute; reflexivity).
      unfold len in Hlen. lia.
Qed.

(* ================================================================== *)
(** * Further properties of the code                                   *)
(* ================================================================== *)

(** ** [format_description]: what [re.sub] does to marked-up text *)

Section Substitution.
Import Re Markup.

Lemma match_chr_cons (c : N) (k : pattern) (d : N) (s : str) :
  match_here (Chr c :: k) (d :: s)
  = if N.eqb d c then option_map S (match_here k s) else None.
Proof. reflexivity. Qed.

Lemma match_opt_cons (c : N) (k : pattern) (d : N) (s : str) :
  match_here (Opt c :: k) (d :: s)
  = if N.eqb d c
    then match match_here k s with
         | Some n => Some (S n)
         | None => match_here k (d :: s)
         end
    else match_here k (d :: s).
Proof. reflexivity. Qed.

Lemma match_star_nil (cls : N -> bool) (k : pattern) :
  match_here (Star cls :: k) [] = match_here k [].
Proof. reflexivity. Qed.

Lemma match_star_cons (cls : N -> bool) (k : pattern) (d : N) (s : str) :
  match_here (Star cls :: k) (d :: s)
  = if cls d
    then match match_here (Star cls :: k) s with
         | Some n => Some (S n)
         | None => match_here k (d :: s)
         end
    else match_here k (d :: s).
Proof. reflexivity. Qed.

(** A star can take nothing. *)
Lemma match_star_some (cls : N -> bool) (k : pattern) (s : str) :
  (exists m, match_here k s = Some m) -> exists n, match_here (Star cls :: k) s = Some n.
Proof.
  intros [m Hm]. destruct s as [| d s].
  - rewrite match_star_nil. now exists m.
  - rewrite match_star_cons. destruct (cls d); [| now exists m].
    destruct (match_here (Star cls :: k) s); [eexists; reflexivity | now exists m].
Qed.

(** A star takes the characters of its class. *)
Lemma match_star_all (cls : N -> bool) (k : pattern) (ws rest : str) :
  Forall (fun c => cls c = true) ws ->
  (exists m, match_here k rest = Some m) ->
  exists n, match_here (Star cls :: k) (ws ++ rest) = Some n.
Proof.
  intros Hws Hk. induction Hws as [| c ws Hc _ [n IH]].
  - now apply match_star_some.
  - cbn [app]. rewrite match_star_cons, Hc, IH. eexists; reflexivity.
Qed.

Lemma sub_loop_skip (p : pattern) (repl : str) (t : str) :
  forall rest, sub_loop p repl (length t) (t ++ rest) = sub_loop p repl 0 rest.
Proof. induction t as [| c t IH]; intros rest; [reflexivity | exact (IH rest)]. Qed.

(** Text without [<] is copied. *)
Lemma sub_loop_text (k : pattern) (repl : str) (s : str) :
  Forall (fun c => c <> 60%N) s ->
  forall rest,
    sub_loop (Chr 60 :: k) repl 0 (s ++ rest) = s ++ sub_loop (Chr 60 :: k) repl 0 rest.
Proof.
  induction 1 as [| c s Hc _ IH]; intros rest; [reflexivity |].
  cbn [app sub_loop match_here].
  apply N.eqb_neq in Hc. rewrite Hc. now rewrite IH.
Qed.

(** A tag that the pattern does not match is copied. *)
Lemma sub_loop_kept (k : pattern) (repl : str) (t rest : str) :
  Forall (fun c => c <> 60%N) t ->
  match_here (Chr 60 :: k) (60%N :: t ++ rest) = None ->
  sub_loop (Chr 60 :: k) repl 0 (60%N :: t ++ rest)
  = 60%N :: t ++ sub_loop (Chr 60 :: k) repl 0 rest.
Proof.
  intros Ht Hm. cbn [sub_loop]. rewrite Hm. f_equal. now apply sub_loop_text.
Qed.

(** A tag that the pattern matches is replaced. *)
Lemma sub_loop_replaced (p : pattern) (repl : str) (c : N) (t rest : str) :
  match_here p (c :: t ++ rest) = Some (S (length t)) ->
  sub_loop p repl 0 (c :: t ++ rest) = repl ++ sub_loop p repl 0 rest.
Proof. intros Hm. cbn [sub_loop]. rewrite Hm. now rewrite sub_loop_skip. Qed.

(** A match of the pattern of a tag ends at the first [>]: what follows
    that character does not matter, and the match takes all up to it. *)
Lemma match_here_closed (q : pattern) :
  Forall closed_item q ->
  forall body rest,
    Forall (fun c => c <> 62%N) body ->
    match_here (q ++ [Chr 62]) (body ++ 62%N :: rest)
    = match_here (q ++ [Chr 62]) (body ++ [62%N])
    /\ forall n, match_here (q ++ [Chr 62]) (body ++ [62%N]) = Some n ->
                 n = S (length body).
Proof.
  induction 1 as [| it q Hit Hq IH]; intros body rest Hb.
  - destruct body as [| d body]; cbn.
    + split; [reflexivity |]. now intros n [= <-].
    + inversion Hb as [| ? ? Hd _]; subst. apply N.eqb_neq in Hd. rewrite Hd.
      split; [reflexivity | discriminate].
  - change ((it :: q) ++ [Chr 62]) with (it :: (q ++ [Chr 62])).
    destruct it as [c | cls | c]; cbn [closed_item] in Hit.
    + destruct body as [| d body]; cbn [app]; rewrite !match_chr_cons.
      * apply N.eqb_neq in Hit. rewrite N.eqb_sym, Hit. split; [reflexivity | discriminate].
      * inversion Hb as [| ? ? Hd Hb']; subst.
        destruct (IH body rest Hb') as [IH1 IH2].
        destruct (N.eqb d c); [| split; [reflexivity | discriminate]].
        rewrite IH1. split; [reflexivity |].
        intros n Hn. destruct (match_here (q ++ [Chr 62]) (body ++ [62%N])) as [m |] eqn:E;
          [| discriminate].
        injection Hn as <-. cbn [length]. f_equal. now apply IH2.
    + induction Hb as [| d body Hd Hb' IHb].
      * cbn [app]. rewrite !match_star_cons, Hit. apply (IH [] rest). constructor.
      * cbn [app]. rewrite !match_star_cons.
        destruct (cls d).
        -- destruct IHb as [IHb1 IHb2]. rewrite IHb1.
           destruct (match_here (Star cls :: q ++ [Chr 62]) (body ++ [62%N])) as [m |] eqn:E.
           ++ split; [reflexivity |]. intros n [= <-]. cbn [length]. f_equal.
              now apply IHb2.
           ++ apply (IH (d :: body) rest). now constructor.
        -- apply (IH (d :: body) rest). now constructor.
    + destruct body as [| d body]; cbn [app]; rewrite !match_opt_cons.
      * apply N.eqb_neq in Hit. rewrite N.eqb_sym, Hit. apply (IH [] rest). constructor.
      * inversion Hb as [| ? ? Hd Hb']; subst.
        destruct (N.eqb d c); [| apply (IH (d :: body) rest Hb)].
        destruct (IH body rest Hb') as [IH1 IH2]. rewrite IH1.
        destruct (match_here (q ++ [Chr 62]) (body ++ [62%N])) as [m |] eqn:E.
        -- split; [reflexivity |]. intros n [= <-]. cbn [length]. f_equal. now apply IH2.
        -- apply (IH (d :: body) rest Hb).
Qed.

Lemma isspace_not_angle (c : N) : Textwrap.isspace c = true -> c <> 60%N /\ c <> 62%N.
Proof. intros H. split; intros ->; discriminate. Qed.

(** A segment that is no text is [<], a body without [<] and [>], and [>]. *)
Lemma source_tag (seg : segment) :
  well_formed seg ->
  (exists s, seg = Text s)
  \/ exists body,
       source seg = 60%N :: body ++ [62%N]
       /\ Forall (fun c => c <> 60%N) body /\ Forall (fun c => c <> 62%N) body.
Proof.
  destruct seg as [s | ws slash | | | | | name]; intros Hwf; cbn in Hwf.
  - left. now exists s.
  - right. exists (u "br" ++ ws ++ (if slash then u "/" else [])). split.
    + cbn. rewrite <- !app_assoc. reflexivity.
    + split; apply Forall_app; split;
        try (apply Forall_app; split);
        try (destruct slash; repeat constructor; discriminate);
        try (repeat constructor; discriminate);
        (eapply Forall_impl; [| exact Hwf]; intros c Hc;
         now destruct (isspace_not_angle c Hc)).
  - right. exists (u "i"). repeat split; repeat constructor; discriminate.
  - right. exists (u "/i"). repeat split; repeat constructor; discriminate.
  - right. exists (u "b"). repeat split; repeat constructor; discriminate.
  - right. exists (u "/b"). repeat split; repeat constructor; discriminate.
  - right. exists name. destruct Hwf as [Hn _]. split; [reflexivity |].
    split; (eapply Forall_impl; [| exact Hn]); now intros c [H1 H2].
Qed.

Lemma Forall_not_angle_app (body : str) :
  Forall (fun c => c <> 60%N) body -> Forall (fun c => c <> 60%N) (body ++ [62%N]).
Proof. intros H. apply Forall_app. split; [assumption |]. repeat constructor. discriminate. Qed.

(** One substitution of the pattern of a tag, by a replacement without
    [<], works segment by segment. *)
Lemma sub_pass (p : pattern) (repl : str) :
  tag_pattern p -> Forall (fun c => c <> 60%N) repl ->
  forall segs,
    Forall well_formed segs ->
    sub p repl (write segs) = write (map (pass p repl) segs)
    /\ Forall well_formed (map (pass p repl) segs).
Proof.
  intros [q [-> Hq]] Hrepl. unfold sub, write.
  induction 1 as [| seg segs Hseg _ [IH1 IH2]].
  - split; [reflexivity | constructor].
  - cbn [map concat].
    destruct (source_tag seg Hseg) as [[s ->] | [body [Hsrc [Hb1 Hb2]]]].
    + cbn [pass source]. cbn in Hseg. rewrite sub_loop_text by assumption.
      rewrite IH1. split; [reflexivity | now constructor].
    + assert (Hpass : pass (Chr 60 :: q ++ [Chr 62]) repl seg
                      = match match_here (Chr 60 :: q ++ [Chr 62]) (source seg) with
                        | Some _ => Text repl
                        | None => seg
                        end).
      { destruct seg; try reflexivity. cbn in Hsrc.
        apply Forall_not_angle_app in Hb1. rewrite Hsrc in Hseg. cbn in Hseg.
        inversion Hseg as [| ? ? H60 _]. congruence. }
      rewrite Hpass, Hsrc.
      destruct (match_here_closed q Hq body (concat (map source segs)) Hb2) as [Hm1 Hm2].
      assert (Hm : match_here (Chr 60 :: q ++ [Chr 62])
                     (60%N :: (body ++ [62%N]) ++ concat (map source segs))
                   = match_here (Chr 60 :: q ++ [Chr 62]) (60%N :: body ++ [62%N])).
      { cbn [match_here]. rewrite N.eqb_refl, <- app_assoc. cbn [app]. now rewrite Hm1. }
      cbn [app].
      destruct (match_here (Chr 60 :: q ++ [Chr 62]) (60%N :: body ++ [62%N]))
        as [n |] eqn:E.
      * assert (Hn : n = S (length (body ++ [62%N]))).
        { cbn [match_here] in E. rewrite N.eqb_refl in E.
          destruct (match_here (q ++ [Chr 62]) (body ++ [62%N])) as [m |] eqn:E';
            [| discriminate].
          injection E as <-. rewrite (Hm2 m eq_refl), length_app. cbn. lia. }
        subst n. rewrite (sub_loop_replaced _ _ _ _ _ Hm), IH1.
        split; [reflexivity |]. constructor; [exact Hrepl | assumption].
      * rewrite (sub_loop_kept _ _ _ _ (Forall_not_angle_app _ Hb1) Hm), IH1.
        split; [| now constructor]. cbn [map concat]. rewrite Hsrc.
        cbn [app]. now rewrite <- app_assoc.
Qed.

Lemma tag_pattern_br : tag_pattern ApiHandler.br.
Proof.
  exists (lit "br" ++ [Star Textwrap.isspace; Opt 47%N]). split; [reflexivity |].
  repeat constructor; discriminate.
Qed.

Lemma tag_pattern_i : tag_pattern (lit "<i>").
Proof. exists (lit "i"). split; [reflexivity |]. repeat constructor; discriminate. Qed.

Lemma tag_pattern_i' : tag_pattern (lit "</i>").
Proof. exists (lit "/i"). split; [reflexivity |]. repeat constructor; discriminate. Qed.

Lemma tag_pattern_b : tag_pattern (lit "<b>").
Proof. exists (lit "b"). split; [reflexivity |]. repeat constructor; discriminate. Qed.

Lemma tag_pattern_b' : tag_pattern (lit "</b>").
Proof. exists (lit "/b"). split; [reflexivity |]. repeat constructor; discriminate. Qed.

(** The pattern of the line break matches every line break. *)
Lemma br_matches (ws : str) (slash : bool) :
  Forall (fun c => Textwrap.isspace c = true) ws ->
  exists n, match_here ApiHandler.br (source (LineBreak ws slash)) = Some n.
Proof.
  intros Hws.
  change ApiHandler.br
    with (Chr 60 :: Chr 98 :: Chr 114 :: Star Textwrap.isspace :: [Opt 47%N; Chr 62]).
  change (source (LineBreak ws slash))
    with (60%N :: 98%N :: 114%N :: ws ++ (if slash then u "/" else []) ++ u ">").
  rewrite !match_chr_cons. cbn [N.eqb Pos.eqb].
  destruct (match_star_all Textwrap.isspace [Opt 47%N; Chr 62] ws
              ((if slash then u "/" else []) ++ u ">") Hws) as [n Hn].
  - destruct slash; eexists; reflexivity.
  - rewrite Hn. eexists; reflexivity.
Qed.

Lemma pass_other (p : pattern) (repl : str) (name : str) :
  match_here p (u "<" ++ name ++ u ">") = None ->
  pass p repl (Other name) = Other name.
Proof. intros H. unfold pass. cbn [source]. now rewrite H. Qed.

Lemma passes_shown (seg : segment) :
  well_formed seg -> source (passes seg) = shown seg.
Proof.
  destruct seg as [s | ws slash | | | | | name]; intros Hwf; try reflexivity.
  - destruct (br_matches ws slash Hwf) as [n Hn].
    unfold passes. cbn [pass]. rewrite Hn. reflexivity.
  - destruct Hwf as [_ Hr]. unfold recognised, patterns in Hr. cbn [existsb] in Hr.
    repeat (apply orb_false_elim in Hr; destruct Hr as [? Hr]).
    repeat match goal with
           | H : match match_here ?p ?s with Some _ => true | None => false end = false |- _ =>
               let E := fresh "E" in
               destruct (match_here p s) eqn:E; [discriminate H |]; clear H
           end.
    unfold passes. rewrite !pass_other by assumption. reflexivity.
Qed.

Lemma format_description_passes (segs : list segment) :
  Forall well_formed segs ->
  ApiHandler.format_description (write segs) = write (map passes segs).
Proof.
  intros H0. unfold ApiHandler.format_description.
  assert (Hlf : Forall (fun c => c <> 60%N) (u LF)) by (repeat constructor; discriminate).
  destruct (sub_pass _ _ tag_pattern_br Hlf segs H0) as [E1 H1]. rewrite E1.
  destruct (sub_pass _ [] tag_pattern_i (Forall_nil _) _ H1) as [E2 H2]. rewrite E2.
  destruct (sub_pass _ [] tag_pattern_i' (Forall_nil _) _ H2) as [E3 H3]. rewrite E3.
  destruct (sub_pass _ [] tag_pattern_b (Forall_nil _) _ H3) as [E4 H4]. rewrite E4.
  destruct (sub_pass _ [] tag_pattern_b' (Forall_nil _) _ H4) as [E5 H5]. rewrite E5.
  rewrite !map_map. reflexivity.
Qed.

Lemma format_description_display (segs : list segment) :
  Forall well_formed segs ->
  ApiHandler.format_description (write segs) = display segs.
Proof.
  intros H. rewrite format_description_passes by assumption.
  unfold write, display. f_equal. rewrite map_map.
  apply map_ext_in. intros seg Hin. apply passes_shown.
  rewrite Forall_forall in H. now apply H.
Qed.

(** No substitution of [format_description] makes the text longer. *)
Lemma sub_loop_length (k : pattern) (c0 : N) (repl : str) :
  (length repl <= 1)%nat ->
  forall s skip, (length (sub_loop (Chr c0 :: k) repl skip s) <= length s)%nat.
Proof.
  intros Hr. induction s as [| c s IH]; intros skip.
  - destruct skip; cbn; lia.
  - destruct skip as [| skip].
    + cbn [sub_loop].
      destruct (match_here (Chr c0 :: k) (c :: s)) as [[| n] |] eqn:E.
      * cbn [match_here] in E. destruct (N.eqb c c0); [| discriminate].
        destruct (match_here k s); discriminate.
      * rewrite length_app. specialize (IH n). cbn [length]. lia.
      * specialize (IH O). cbn [length]. lia.
    + cbn [sub_loop]. specialize (IH skip). cbn [length]. lia.
Qed.

End Substitution.

(** ** [list_manager.py]: the lists and the list boxes *)

Section TextEquality.

Lemma str_eqb_eq (a b : str) : str_eqb a b = true <-> a = b.
Proof.
  revert b. induction a as [| x a IH]; intros [| y b]; cbn; split; intros H;
    try reflexivity; try discriminate.
  - apply andb_prop in H. destruct H as [Hx Ha].
    apply N.eqb_eq in Hx. apply IH in Ha. now subst.
  - injection H as -> ->. rewrite N.eqb_refl. now apply IH.
Qed.

Lemma str_eqb_refl (a : str) : str_eqb a a = true.
Proof. now apply str_eqb_eq. Qed.

Lemma str_eqb_neq (a b : str) : str_eqb a b = false <-> a <> b.
Proof.
  split; intros H.
  - intros Heq. apply str_eqb_eq in Heq. congruence.
  - destruct (str_eqb a b) eqn:E; [| reflexivity]. apply str_eqb_eq in E. contradiction.
Qed.

End TextEquality.

Section Lists.
Import ListManager.

Lemma contains_In (l : list str) (x : str) : contains l x = true <-> In x l.
Proof.
  unfold contains. rewrite existsb_exists. split.
  - intros [y [Hy He]]. apply str_eqb_eq in He. now subst.
  - intros H. exists x. split; [assumption | apply str_eqb_refl].
Qed.

Lemma contains_not_In (l : list str) (x : str) : contains l x = false <-> ~ In x l.
Proof.
  split; intros H.
  - intros Hin. apply contains_In in Hin. congruence.
  - destruct (contains l x) eqn:E; [| reflexivity]. apply contains_In in E. contradiction.
Qed.

(** [l.remove(x)] does not raise for an [x] of [l]. *)
Lemma list_remove_In (x : str) (l : list str) :
  In x l -> exists l', list_remove x l = Some l'.
Proof.
  induction l as [| y l IH]; intros Hin; [destruct Hin |].
  cbn [list_remove]. destruct (str_eqb y x) eqn:E; [eexists; reflexivity |].
  destruct Hin as [-> | Hin]; [rewrite str_eqb_refl in E; discriminate |].
  destruct (IH Hin) as [l' ->]. eexists; reflexivity.
Qed.

(** What is left after [l.remove(x)] was in [l]; and [x] is not left when
    it was there once. *)
Lemma list_remove_NoDup (x : str) (l l' : list str) :
  list_remove x l = Some l' ->
  (forall y, In y l' -> In y l)
  /\ (NoDup l -> NoDup l' /\ ~ In x l').
Proof.
  revert l'. induction l as [| y l IH]; intros l' H; cbn [list_remove] in H; [discriminate |].
  destruct (str_eqb y x) eqn:E.
  - injection H as <-. apply str_eqb_eq in E. subst y. split.
    + intros z Hz. now right.
    + intros Hnd. inversion Hnd; subst. now split.
  - destruct (list_remove x l) as [l0 |] eqn:El; [| discriminate].
    injection H as <-. destruct (IH l0 eq_refl) as [Hsub Hnd]. split.
    + intros z [-> | Hz]; [now left | right; now apply Hsub].
    + intros Hn. inversion Hn as [| ? ? Hy Hl]; subst.
      destruct (Hnd Hl) as [Hnd0 Hx]. split.
      * constructor; [| assumption]. intros Hin. apply Hy. now apply Hsub.
      * intros [-> | Hin]; [| contradiction].
        rewrite str_eqb_refl in E. discriminate.
Qed.

(** [l.remove(x)] after [l.append(x)], for an [x] that was not in [l]. *)
Lemma list_remove_appended (x : str) (l : list str) :
  ~ In x l -> list_remove x (l ++ [x]) = Some l.
Proof.
  induction l as [| y l IH]; intros Hx; cbn [app list_remove].
  - now rewrite str_eqb_refl.
  - destruct (str_eqb y x) eqn:E.
    + apply str_eqb_eq in E. subst y. exfalso. apply Hx. now left.
    + rewrite IH; [reflexivity |]. intros Hin. apply Hx. now right.
Qed.

Context {L : Type} {Tk : Listbox L}.

(** The loop of the display functions adds the rows at the end of one
    list box and touches nothing else. *)
Lemma insert_rows (listbox : nat) (l : list str) :
  forall s : state,
    rows (widgets (fold_left (insert_row listbox) l s) listbox)
    = rows (widgets s listbox) ++ l
    /\ watch_list (fold_left (insert_row listbox) l s) = watch_list s
    /\ buy_list (fold_left (insert_row listbox) l s) = buy_list s
    /\ forall i, i <> listbox ->
                 widgets (fold_left (insert_row listbox) l s) i = widgets s i.
Proof.
  induction l as [| x l IH]; intros s.
  - cbn. rewrite app_nil_r. repeat split; reflexivity.
  - cbn [fold_left]. destruct (IH (insert_row listbox s x)) as [H1 [H2 [H3 H4]]].
    split; [| split; [| split]].
    + rewrite H1. unfold insert_row, set_widget. cbn.
      now rewrite Nat.eqb_refl, rows_insert_end, <- app_assoc.
    + now rewrite H2.
    + now rewrite H3.
    + intros i Hi. rewrite (H4 i Hi). unfold insert_row, set_widget. cbn.
      apply Nat.eqb_neq in Hi. now rewrite Hi.
Qed.

Lemma update_watch_list_display_spec (listbox : nat) (s : state) :
  rows (widgets (update_watch_list_display listbox s) listbox) = watch_list s
  /\ watch_list (update_watch_list_display listbox s) = watch_list s
  /\ buy_list (update_watch_list_display listbox s) = buy_list s
  /\ forall i, i <> listbox ->
               widgets (update_watch_list_display listbox s) i = widgets s i.
Proof.
  unfold update_watch_list_display.
  destruct (insert_rows listbox
              (watch_list (set_widget s listbox (delete_all (widgets s listbox))))
              (set_widget s listbox (delete_all (widgets s listbox))))
    as [H1 [H2 [H3 H4]]].
  split; [| split; [| split]].
  - rewrite H1. cbn. now rewrite Nat.eqb_refl, rows_delete_all.
  - now rewrite H2.
  - now rewrite H3.
  - intros i Hi. rewrite (H4 i Hi). cbn. apply Nat.eqb_neq in Hi. now rewrite Hi.
Qed.

Lemma update_buy_list_display_spec (listbox : nat) (s : state) :
  rows (widgets (update_buy_list_display listbox s) listbox) = buy_list s
  /\ watch_list (update_buy_list_display listbox s) = watch_list s
  /\ buy_list (update_buy_list_display listbox s) = buy_list s
  /\ forall i, i <> listbox ->
               widgets (update_buy_list_display listbox s) i = widgets s i.
Proof.
  unfold update_buy_list_display.
  destruct (insert_rows listbox
              (buy_list (set_widget s listbox (delete_all (widgets s listbox))))
              (set_widget s listbox (delete_all (widgets s listbox))))
    as [H1 [H2 [H3 H4]]].
  split; [| split; [| split]].
  - rewrite H1. cbn. now rewrite Nat.eqb_refl, rows_delete_all.
  - now rewrite H2.
  - now rewrite H3.
  - intros i Hi. rewrite (H4 i Hi). cbn. apply Nat.eqb_neq in Hi. now rewrite Hi.
Qed.

Lemma show_watch_list_keeps_lists (listbox : nat) : keeps_lists (show_watch_list listbox).
Proof.
  intros s. unfold show_watch_list. cbn [fst].
  destruct (update_watch_list_display_spec listbox s) as [_ [H2 [H3 _]]]. now split.
Qed.

Lemma show_buy_list_keeps_lists (listbox : nat) : keeps_lists (show_buy_list listbox).
Proof.
  intros s. unfold show_buy_list. cbn [fst].
  destruct (update_buy_list_display_spec listbox s) as [_ [H2 [H3 _]]]. now split.
Qed.

Lemma NoDup_appended (x : str) (l : list str) : NoDup l -> ~ In x l -> NoDup (l ++ [x]).
Proof.
  intros Hl Hx. apply NoDup_app; [assumption | repeat constructor; intros [] | ].
  intros y Hy [<- | []]. contradiction.
Qed.

Lemma truthy_not_empty (title : str) : truthy title = true -> title <> [].
Proof. destruct title; [discriminate | discriminate]. Qed.

Lemma run_tidy (c : call) (s : state) :
  keeps_lists (update_func_of c) -> tidy s -> tidy (fst (run c s)).
Proof.
  intros Hk [Hw [Hb [Hew Heb]]]. unfold tidy.
  destruct c as [title f | title f | listbox f | listbox f]; cbn [run update_func_of] in *.
  - unfold add_to_watch_list.
    destruct (truthy title && negb (contains (watch_list s) title)) eqn:E;
      [| cbn [fst]; now repeat split].
    apply andb_prop in E. destruct E as [Ht Hc].
    apply negb_true_iff, contains_not_In in Hc. apply truthy_not_empty in Ht.
    destruct (Hk (mkState (watch_list s ++ [title]) (buy_list s) (widgets s))) as [-> ->].
    cbn. repeat split; try assumption.
    + now apply NoDup_appended.
    + intros Hin. apply in_app_or in Hin. destruct Hin as [Hin | [Hin | []]];
        [contradiction | congruence].
  - unfold add_to_buy_list.
    destruct (truthy title && negb (contains (buy_list s) title)) eqn:E;
      [| cbn [fst]; now repeat split].
    apply andb_prop in E. destruct E as [Ht Hc].
    apply negb_true_iff, contains_not_In in Hc. apply truthy_not_empty in Ht.
    destruct (Hk (mkState (watch_list s) (buy_list s ++ [title]) (widgets s))) as [-> ->].
    cbn. repeat split; try assumption.
    + now apply NoDup_appended.
    + intros Hin. apply in_app_or in Hin. destruct Hin as [Hin | [Hin | []]];
        [contradiction | congruence].
  - unfold remove_from_watch_list.
    destruct (contains (watch_list s) (get_active (widgets s listbox))) eqn:E;
      [| cbn [fst]; now repeat split].
    destruct (list_remove (get_active (widgets s listbox)) (watch_list s)) as [l |] eqn:El;
      [| cbn [fst]; now repeat split].
    destruct (list_remove_NoDup _ _ _ El) as [Hsub Hnd].
    destruct (Hk (mkState l (buy_list s) (widgets s))) as [-> ->]. cbn.
    repeat split; try assumption; [now apply Hnd |].
    intros Hin. apply Hew. now apply Hsub.
  - unfold remove_from_buy_list.
    destruct (contains (buy_list s) (get_active (widgets s listbox))) eqn:E;
      [| cbn [fst]; now repeat split].
    destruct (list_remove (get_active (widgets s listbox)) (buy_list s)) as [l |] eqn:El;
      [| cbn [fst]; now repeat split].
    destruct (list_remove_NoDup _ _ _ El) as [Hsub Hnd].
    destruct (Hk (mkState (watch_list s) l (widgets s))) as [-> ->]. cbn.
    repeat split; try assumption; [now apply Hnd |].
    intros Hin. apply Heb. now apply Hsub.
Qed.

Lemma run_all_tidy (calls : list call) :
  forall s,
    Forall (fun c => keeps_lists (update_func_of c)) calls ->
    tidy s -> tidy (run_all calls s).
Proof.
  induction calls as [| c calls IH]; intros s Hk Hs; [assumption |].
  inversion Hk as [| ? ? Hc Hk']; subst. cbn [run_all fold_left].
  apply IH; [assumption |]. now apply run_tidy.
Qed.

Lemma show_watch_list_in_step (watch_box buy_box : nat) (s : state) :
  watch_box <> buy_box ->
  rows (widgets s buy_box) = buy_list s ->
  in_step watch_box buy_box (fst (show_watch_list watch_box s)).
Proof.
  intros Hne Hb. unfold show_watch_list, in_step. cbn [fst].
  destruct (update_watch_list_display_spec watch_box s) as [H1 [H2 [H3 H4]]].
  rewrite H1, H2, H3, (H4 buy_box) by congruence. now split.
Qed.

Lemma show_buy_list_in_step (watch_box buy_box : nat) (s : state) :
  watch_box <> buy_box ->
  rows (widgets s watch_box) = watch_list s ->
  in_step watch_box buy_box (fst (show_buy_list buy_box s)).
Proof.
  intros Hne Hw. unfold show_buy_list, in_step. cbn [fst].
  destruct (update_buy_list_display_spec buy_box s) as [H1 [H2 [H3 H4]]].
  rewrite H1, H2, H3, (H4 watch_box) by congruence. now split.
Qed.

Lemma run_in_step (watch_box buy_box : nat) (c : call) (s : state) :
  watch_box <> buy_box ->
  wired watch_box buy_box c ->
  in_step watch_box buy_box s -> in_step watch_box buy_box (fst (run c s)).
Proof.
  intros Hne Hc [Hw Hb].
  destruct c as [title f | title f | listbox f | listbox f]; cbn [run wired] in *; subst f.
  - unfold add_to_watch_list.
    destruct (truthy title && negb (contains (watch_list s) title));
      [| cbn [fst]; now split].
    apply (show_watch_list_in_step watch_box buy_box _ Hne). exact Hb.
  - unfold add_to_buy_list.
    destruct (truthy title && negb (contains (buy_list s) title));
      [| cbn [fst]; now split].
    apply (show_buy_list_in_step watch_box buy_box _ Hne). exact Hw.
  - unfold remove_from_watch_list.
    destruct (contains (watch_list s) (get_active (widgets s listbox)));
      [| cbn [fst]; now split].
    destruct (list_remove (get_active (widgets s listbox)) (watch_list s));
      [| cbn [fst]; now split].
    apply (show_watch_list_in_step watch_box buy_box _ Hne). exact Hb.
  - unfold remove_from_buy_list.
    destruct (contains (buy_list s) (get_active (widgets s listbox)));
      [| cbn [fst]; now split].
    destruct (list_remove (get_active (widgets s listbox)) (buy_list s));
      [| cbn [fst]; now split].
    apply (show_buy_list_in_step watch_box buy_box _ Hne). exact Hw.
Qed.

Lemma run_all_in_step (watch_box buy_box : nat) (calls : list call) :
  forall s,
    watch_box <> buy_box ->
    Forall (wired watch_box buy_box) calls ->
    in_step watch_box buy_box s -> in_step watch_box buy_box (run_all calls s).
Proof.
  induction calls as [| c calls IH]; intros s Hne Hc Hs; [assumption |].
  inversion Hc as [| ? ? Hc1 Hc']; subst. cbn [run_all fold_left].
  apply IH; [assumption | assumption |]. now apply run_in_step.
Qed.

End Lists.

(** ** [database_handler.py]: the rows of the two tables *)

Section Tables.
Import DatabaseHandler.

Lemma table_of_with_table (conn : connection) (name : list_name) (t : table) :
  table_of (with_table conn name t) name = Some t
  /\ table_of (with_table conn name t) (other name) = table_of conn (other name).
Proof. destruct name; split; reflexivity. Qed.

Lemma add_anime_to_unfold (name : list_name) (conn : connection) (title cover_url : value) :
  add_anime_to name conn title cover_url
  = match check_anime_exists conn title name with
    | inl e => (conn, Raised e)
    | inr false =>
        match insert conn name title cover_url with
        | inl e => (conn, Raised e)
        | inr conn' => (conn', Returned)
        end
    | inr true => (conn, Raised (already_exists name))
    end.
Proof. destruct name; reflexivity. Qed.

Lemma get_list_unfold (name : list_name) (conn : connection) :
  get_list name conn = select_all (table_of conn name).
Proof. destruct name; reflexivity. Qed.

(** [WHERE title = ?] finds a row exactly when the title is among the
    titles. *)
Lemma filter_title_is (s : str) (l : list row) :
  filter (title_is (Some s)) l = [] <-> ~ In s (map title l).
Proof.
  induction l as [| r l IH]; cbn [filter map]; [split; [intros _ [] | reflexivity] |].
  unfold title_is at 1. destruct (str_eqb (title r) s) eqn:E.
  - apply str_eqb_eq in E. split; [discriminate |]. intros H. exfalso. apply H. now left.
  - apply str_eqb_neq in E. rewrite IH. split.
    + intros H [Heq | Hin]; [congruence | contradiction].
    + intros H Hin. apply H. now right.
Qed.

(** [title = NULL] is true of no row. *)
Lemma filter_title_is_none (l : list row) : filter (title_is None) l = [].
Proof. induction l as [| r l IH]; [reflexivity | exact IH]. Qed.

Lemma filter_title_is_app (p : value) (l l' : list row) :
  filter (title_is p) (l ++ l') = filter (title_is p) l ++ filter (title_is p) l'.
Proof. apply filter_app. Qed.

(** The rows that [DELETE] leaves: those of the other titles, in their
    order. *)
Lemma titles_after_delete (s : str) (l : list row) :
  map title (filter (fun r => negb (title_is (Some s) r)) l)
  = filter (fun x => negb (str_eqb x s)) (map title l).
Proof.
  induction l as [| r l IH]; [reflexivity |]. cbn [filter map title_is].
  destruct (str_eqb (title r) s); cbn [negb map]; [exact IH | f_equal; exact IH].
Qed.

Lemma pairs_after_delete (s : str) (l : list row) :
  map (fun r => (title r, cover_url r)) (filter (fun r => negb (title_is (Some s) r)) l)
  = filter (fun p => negb (str_eqb (fst p) s)) (map (fun r => (title r, cover_url r)) l).
Proof.
  induction l as [| r l IH]; [reflexivity |]. cbn [filter map title_is fst].
  destruct (str_eqb (title r) s); cbn [negb map]; [exact IH | f_equal; exact IH].
Qed.

Lemma NoDup_filter {A : Type} (f : A -> bool) (l : list A) : NoDup l -> NoDup (filter f l).
Proof.
  induction 1 as [| x l Hx _ IH]; cbn [filter]; [constructor |].
  destruct (f x); [| assumption]. constructor; [| assumption].
  intros Hin. apply filter_In in Hin. now destruct Hin.
Qed.

Lemma filter_none (s : str) (l : list row) :
  ~ In s (map title l) -> filter (fun r => negb (title_is (Some s) r)) l = l.
Proof.
  induction l as [| r l IH]; intros H; [reflexivity |]. cbn [filter title_is].
  destruct (str_eqb (title r) s) eqn:E.
  - apply str_eqb_eq in E. exfalso. apply H. now left.
  - cbn [negb]. f_equal. apply IH. intros Hin. apply H. now right.
Qed.

Lemma largest_id_filter (f : row -> bool) (l : list row) (q : Z) :
  fold_right Z.max q (map id (filter f l)) <= fold_right Z.max q (map id l).
Proof.
  induction l as [| r l IH]; cbn [filter map fold_right]; [lia |].
  destruct (f r); cbn [map fold_right]; lia.
Qed.

(** No title twice in either table. *)
Lemma insert_unique (conn conn' : connection) (name : list_name) (s : str) (c : value) :
  check_anime_exists conn (Some s) name = inr false ->
  insert conn name (Some s) c = inr conn' ->
  unique conn -> unique conn'.
Proof.
  unfold check_anime_exists, select_where_title, insert.
  destruct (table_of conn name) as [t |] eqn:Ht; [| discriminate].
  destruct (binds (Some s)); [| discriminate]. cbn [andb negb].
  intros Hc Hi.
  destruct (filter (title_is (Some s)) (rows t)) eqn:Hf; [| discriminate].
  apply filter_title_is in Hf.
  destruct (negb (binds c)); [discriminate |].
  destruct (max_rowid <=? largest_id t); [discriminate |].
  injection Hi as <-. intros [Hw Hb].
  assert (Hn : NoDup (map title (rows t)) ->
               NoDup (map title (rows t ++ [mkRow (largest_id t + 1) s c]))).
  { intros Hnd. rewrite map_app. cbn [map title].
    apply NoDup_app; [assumption | repeat constructor; intros [] |].
    intros y Hy [<- | []]. contradiction. }
  destruct name; cbn in Ht; rewrite Ht in *; split; cbn; try assumption; now apply Hn.
Qed.

Lemma run_unique (c : call) (conn : connection) : unique conn -> unique (fst (run c conn)).
Proof.
  intros Hu. destruct c as [| t c | t c | t name]; cbn [run].
  - destruct Hu as [Hw Hb]. destruct conn as [[w |] [b |]]; split; cbn in *;
      try assumption; constructor.
  - change (add_anime_to_watch_list conn t c) with (add_anime_to WatchList conn t c).
    rewrite add_anime_to_unfold.
    destruct (check_anime_exists conn t WatchList) as [e | [|]] eqn:Hc; try assumption.
    destruct (insert conn WatchList t c) as [e | conn'] eqn:Hi; [assumption |]. cbn [fst].
    destruct t as [s |]; [now apply (insert_unique _ _ _ _ _ Hc Hi) |].
    unfold insert in Hi. destruct (table_of conn WatchList); [| discriminate].
    destruct (negb _); [discriminate |]. destruct (_ <=? _); discriminate.
  - change (add_anime_to_buy_list conn t c) with (add_anime_to BuyList conn t c).
    rewrite add_anime_to_unfold.
    destruct (check_anime_exists conn t BuyList) as [e | [|]] eqn:Hc; try assumption.
    destruct (insert conn BuyList t c) as [e | conn'] eqn:Hi; [assumption |]. cbn [fst].
    destruct t as [s |]; [now apply (insert_unique _ _ _ _ _ Hc Hi) |].
    unfold insert in Hi. destruct (table_of conn BuyList); [| discriminate].
    destruct (negb _); [discriminate |]. destruct (_ <=? _); discriminate.
  - unfold remove_anime_from_list, delete_where_title.
    destruct (table_of conn name) as [tb |] eqn:Ht; [| assumption].
    destruct (binds t); [| assumption]. cbn [fst].
    assert (Hn : NoDup (map title (rows tb)) ->
                 NoDup (map title (filter (fun r => negb (title_is t r)) (rows tb)))).
    { intros Hnd. destruct t as [s |].
      - rewrite titles_after_delete. now apply NoDup_filter.
      - cbn [title_is negb]. clear Ht. induction (rows tb) as [| r l IH]; [constructor |].
        cbn [filter]. cbn [map] in *. inversion Hnd; subst.
        constructor; [| now apply IH].
        assert (E : filter (fun _ : row => true) l = l).
        { clear. induction l as [| x l IHl]; [reflexivity | cbn; now rewrite IHl]. }
        now rewrite E. }
    destruct Hu as [Hw Hb].
    destruct name; cbn in Ht; rewrite Ht in *; split; cbn; try assumption; now apply Hn.
Qed.

Lemma run_all_unique (calls : list call) :
  forall conn, unique conn -> unique (run_all calls conn).
Proof.
  induction calls as [| c calls IH]; intros conn Hu; [assumption |].
  cbn [run_all fold_left]. apply IH. now apply run_unique.
Qed.

End Tables.

(** ** The serializer: the trailer and the width of the entries *)

Section Trailer.
Import Spec Xref.

Lemma begins_at_inside (t before mid after : bytes) :
  begins_at t (len before + len mid) (before ++ mid ++ t ++ after).
Proof.
  rewrite <- len_app, (app_assoc before mid). apply begins_at_intro.
Qed.

(** The number after [startxref] is where the table begins. *)
Lemma build_pdf_startxref (objects : list bytes) :
  startxref_locates
    (xref_table (len objects) (tl (EngineVergleich.build_pdf_offsets objects)))
    (EngineVergleich.build_pdf objects).
Proof.
  rewrite build_pdf_offsets_unfold, build_pdf_unfold.
  set (table := xref_table (len objects) (object_starts 1 (len pdf_header) objects)).
  set (body := pdf_header ++ indirect_objects 1 objects).
  exists (body ++ table
          ++ latin1 ("trailer" ++ LF ++ "<< /Size " ++ str_of_int (len objects + 1)
                     ++ " /Root 1 0 R >>" ++ LF)),
    (str_of_int (len body)), (len body).
  split; [| split].
  - subst body. rewrite !latin1_app, <- !app_assoc. reflexivity.
  - apply int_of_str_of_int.
  - subst body.
    rewrite (app_assoc pdf_header (indirect_objects 1 objects)). apply begins_at_intro.
Qed.

Lemma length_latin1 (s : string) : length (latin1 s) = String.length s.
Proof.
  unfold latin1. induction s as [| c s IH]; [reflexivity |].
  change (list_byte_of_string (String c s)) with (byte_of_ascii c :: list_byte_of_string s).
  cbn [length String.length]. now rewrite IH.
Qed.

Lemma length_zeros (k : nat) : String.length (zeros k) = k.
Proof. induction k as [| k IH]; [reflexivity | cbn; now rewrite IH]. Qed.

Lemma string_length_append (s t : string) :
  String.length (s ++ t) = (String.length s + String.length t)%nat.
Proof. induction s as [| c s IH]; [reflexivity | cbn; now rewrite IH]. Qed.

(** A number below [10^k] has at most [k] digits. *)
Lemma digits_loop_length (fuel : nat) :
  forall (n : Z) (acc : string) (k : nat),
    0 <= n < 10 ^ Z.of_nat k -> (1 <= k)%nat ->
    (String.length (digits_loop fuel n acc) <= String.length acc + k)%nat.
Proof.
  induction fuel as [| fuel IH]; intros n acc k Hn Hk; cbn [digits_loop]; [lia |].
  destruct (n / 10 =? 0) eqn:Hq; [cbn [String.length]; lia |].
  apply Z.eqb_neq in Hq.
  destruct k as [| [| k]]; [lia | |].
  - exfalso. apply Hq. apply Z.div_small. cbn in Hn. lia.
  - assert (Hd : 0 <= n / 10 < 10 ^ Z.of_nat (S k)).
    { split; [apply Z.div_pos; lia |]. apply Z.div_lt_upper_bound; [lia |].
      rewrite (Nat2Z.inj_succ (S k)), Z.pow_succ_r in Hn by lia. lia. }
    specialize (IH (n / 10) (String (digit (n mod 10)) acc) (S k) Hd ltac:(lia)).
    cbn [String.length] in IH. lia.
Qed.

(** The entry of an offset below [10^10] has 20 bytes. *)
Lemma xref_entry_length (off : Z) : 0 <= off < 10 ^ 10 -> len (xref_entry off) = 20.
Proof.
  intros Hoff. unfold xref_entry, len. rewrite length_latin1.
  unfold format_0d. replace (off <? 0) with false by (symmetry; apply Z.ltb_ge; lia).
  rewrite Z.abs_eq by lia.
  pose proof (digits_loop_length (S (Z.to_nat (Z.log2 off))) off EmptyString 10
                ltac:(exact Hoff) ltac:(lia)) as Hd.
  fold (digits off) in Hd. cbn [String.length] in Hd.
  rewrite !string_length_append, length_zeros. cbn [String.length].
  change (String.length LF) with 1%nat. lia.
Qed.

Lemma len_concat_entries (offs : list Z) :
  Forall (fun off => 0 <= off < 10 ^ 10) offs ->
  len (concat (map xref_entry offs)) = 20 * len offs.
Proof.
  induction 1 as [| off offs Hoff _ IH]; [reflexivity |].
  cbn [map concat]. rewrite len_app, IH, (xref_entry_length off Hoff).
  unfold len. cbn [length]. lia.
Qed.

Lemma nth_error_split_at {A : Type} (l : list A) (i : nat) (x : A) :
  nth_error l i = Some x -> l = firstn i l ++ x :: skipn (S i) l /\ length (firstn i l) = i.
Proof.
  revert i. induction l as [| y l IH]; intros [| i] H; try discriminate.
  - injection H as ->. now split.
  - cbn [nth_error] in H. destruct (IH i H) as [Hl Hn]. cbn [firstn skipn app length].
    split; [f_equal; exact Hl | now rewrite Hn].
Qed.

(** The starts of the objects are within the file. *)
Lemma object_starts_bound (objects : list bytes) :
  forall i start j off,
    nth_error (object_starts i start objects) j = Some off ->
    start <= off <= start + len (indirect_objects i objects).
Proof.
  intros i start j off Hnth.
  destruct (object_starts_token _ _ _ _ _ Hnth) as [before [after [Heq ->]]].
  rewrite Heq, !len_app.
  pose proof (len_nonneg before). pose proof (len_nonneg after).
  pose proof (len_nonneg (opening_token (i + Z.of_nat j))). lia.
Qed.

Lemma build_pdf_entries (objects : list bytes) :
  len (EngineVergleich.build_pdf objects) < 10 ^ 10 ->
  exists pos,
    begins_at (xref_table (len objects) (tl (EngineVergleich.build_pdf_offsets objects)))
      pos (EngineVergleich.build_pdf objects)
    /\ entries_by_counting (len objects) (tl (EngineVergleich.build_pdf_offsets objects))
         pos (EngineVergleich.build_pdf objects).
Proof.
  rewrite build_pdf_offsets_unfold, build_pdf_unfold.
  set (offs := object_starts 1 (len pdf_header) objects).
  set (body := pdf_header ++ indirect_objects 1 objects).
  set (trailer := latin1 _).
  rewrite (app_assoc pdf_header). fold body. intros Hlen.
  exists (len body). split; [apply begins_at_intro |].
  assert (Hall : Forall (fun off => 0 <= off < 10 ^ 10) offs).
  { apply Forall_forall. intros off Hin. apply In_nth_error in Hin. destruct Hin as [j Hj].
    pose proof (object_starts_bound _ _ _ _ _ Hj) as Hb.
    rewrite !len_app in Hlen. subst body. rewrite len_app in Hlen.
    pose proof (len_nonneg pdf_header). pose proof (len_nonneg trailer).
    pose proof (len_nonneg (xref_table (len objects) offs)). lia. }
  intros i off Hnth.
  assert (Hoff : 0 <= off < 10 ^ 10).
  { rewrite Forall_forall in Hall. apply Hall. eapply nth_error_In. exact Hnth. }
  split; [now apply xref_entry_length |].
  destruct (nth_error_split_at _ _ _ Hnth) as [Hsplit Hi].
  assert (Hfirst : Forall (fun off => 0 <= off < 10 ^ 10) (firstn i offs)).
  { rewrite Hsplit in Hall. apply Forall_app in Hall. now destruct Hall. }
  unfold xref_table. fold (head (len objects)).
  rewrite Hsplit at 1. rewrite map_app, concat_app. cbn [map concat].
  set (free := latin1 ("0000000000 65535 f " ++ LF)).
  set (first := concat (map xref_entry (firstn i offs))).
  replace (len body + len (head (len objects)) + 20 * (Z.of_nat i + 1))
    with (len (body ++ head (len objects) ++ free ++ first)).
  - match goal with
    | |- begins_at ?t _ ?f =>
        replace f
          with ((body ++ head (len objects) ++ free ++ first)
                ++ t ++ (concat (map xref_entry (skipn (S i) offs)) ++ trailer))
          by (rewrite <- !app_assoc; reflexivity)
    end.
    apply begins_at_intro.
  - rewrite !len_app. subst first. rewrite (len_concat_entries _ Hfirst).
    replace (len (firstn i offs)) with (Z.of_nat i) by (unfold len; now rewrite Hi).
    replace (len free) with 20 by reflexivity. lia.
Qed.

End Trailer.

(** ** The layout engine: what a call refuses, keeps and adds *)

Section Growth.
Context {U : UnicodeTables}.
Import Spec Placing.

Lemma wrap_refuses (text : str) (width : Z) :
  width <= 0 -> Textwrap.wrap text width = inl ValueError.
Proof.
  intros Hw. unfold Textwrap.wrap, Textwrap.wrap_chunks.
  now replace (width <=? 0) with true by (symmetry; apply Z.leb_le; lia).
Qed.

Lemma wrap_accepts (text : str) (width : Z) :
  0 < width -> exists lines, Textwrap.wrap text width = inr lines.
Proof.
  intros Hw. unfold Textwrap.wrap, Textwrap.wrap_chunks.
  replace (width <=? 0) with false by (symmetry; apply Z.leb_gt; lia).
  eexists; reflexivity.
Qed.

Lemma add_bullets_loop_returns (width : Z) (items : list str) :
  0 < width ->
  forall self, snd (AppSummary.add_bullets_loop self items width) = Returned.
Proof.
  intros Hw. induction items as [| item items IH]; intros self; [reflexivity |].
  cbn [AppSummary.add_bullets_loop].
  destruct (wrap_accepts item width Hw) as [[| first extras] ->]; apply IH.
Qed.

Lemma b_loop_returns (width : Z) (items : list str) :
  0 < width ->
  forall self, snd (EngineVergleich.b_loop self items width) = Returned.
Proof.
  intros Hw. induction items as [| item items IH]; intros self; [reflexivity |].
  cbn [EngineVergleich.b_loop].
  destruct (wrap_accepts item width Hw) as [[| first extras] ->]; apply IH.
Qed.

Lemma place_app_refused (self : AppSummary.Layout) (call : placement) :
  if refused call
  then place_app self call = (self, Raised ValueError)
  else snd (place_app self call) = Returned.
Proof.
  destruct call as [t | t | t | t w | items w]; cbn [refused place_app]; try reflexivity.
  - unfold AppSummary.add_paragraph. destruct (w <=? 0) eqn:Hw.
    + apply Z.leb_le in Hw. now rewrite (wrap_refuses t w Hw).
    + apply Z.leb_gt in Hw. now destruct (wrap_accepts t w Hw) as [lines ->].
  - unfold AppSummary.add_bullets. destruct (w <=? 0) eqn:Hw; cbn [andb].
    + apply Z.leb_le in Hw. destruct items as [| item items]; [reflexivity |].
      cbn [Textwrap.nonempty AppSummary.add_bullets_loop].
      now rewrite (wrap_refuses item w Hw).
    + apply Z.leb_gt in Hw. pose proof (add_bullets_loop_returns w items Hw self) as Hr.
      destruct (AppSummary.add_bullets_loop self items w) as [s o]. cbn in Hr. now subst o.
Qed.

Lemma place_engine_refused (self : EngineVergleich.Page) (call : placement) :
  if refused call
  then place_engine self call = (self, Raised ValueError)
  else snd (place_engine self call) = Returned.
Proof.
  destruct call as [t | t | t | t w | items w]; cbn [refused place_engine]; try reflexivity.
  - unfold EngineVergleich.p. destruct (w <=? 0) eqn:Hw.
    + apply Z.leb_le in Hw. now rewrite (wrap_refuses t w Hw).
    + apply Z.leb_gt in Hw. now destruct (wrap_accepts t w Hw) as [lines ->].
  - unfold EngineVergleich.b. destruct (w <=? 0) eqn:Hw; cbn [andb].
    + apply Z.leb_le in Hw. destruct items as [| item items]; [reflexivity |].
      cbn [Textwrap.nonempty EngineVergleich.b_loop].
      now rewrite (wrap_refuses item w Hw).
    + apply Z.leb_gt in Hw. pose proof (b_loop_returns w items Hw self) as Hr.
      destruct (EngineVergleich.b_loop self items w) as [s o]. cbn in Hr. now subst o.
Qed.

(** *** Instructions are only added, and behind the others *)

Lemma grown_refl (self : AppSummary.Layout) : grown self self.
Proof. split; [exists []; now rewrite app_nil_r | repeat split]. Qed.

Lemma grown_trans (s s1 s2 : AppSummary.Layout) : grown s s1 -> grown s1 s2 -> grown s s2.
Proof.
  intros [[a1 Ha1] [Hl1 [Hs1 Hd1]]] [[a2 Ha2] [Hl2 [Hs2 Hd2]]].
  split; [exists (a1 ++ a2); now rewrite Ha2, Ha1, app_assoc |].
  repeat split; congruence.
Qed.

Lemma grown_step (self : AppSummary.Layout) (cmd : str) (d : float) :
  grown self (AppSummary.descend (AppSummary.append_command self cmd) d).
Proof. split; [now exists [cmd] | repeat split]. Qed.

Lemma grown_fold (f : AppSummary.Layout -> str -> AppSummary.Layout) (l : list str) :
  (forall s x, grown s (f s x)) -> forall self, grown self (fold_left f l self).
Proof.
  intros Hf. induction l as [| x l IH]; intros self; [apply grown_refl |].
  cbn [fold_left]. eapply grown_trans; [apply Hf | apply IH].
Qed.

Lemma add_bullets_loop_grown (width : Z) (items : list str) :
  forall self, grown self (fst (AppSummary.add_bullets_loop self items width)).
Proof.
  induction items as [| item items IH]; intros self; [apply grown_refl |].
  cbn [AppSummary.add_bullets_loop].
  destruct (Textwrap.wrap item width) as [e | [| first extras]];
    [apply grown_refl | apply IH |].
  eapply grown_trans; [| apply IH].
  eapply grown_trans; [apply grown_step |].
  apply grown_fold. intros s x. apply grown_step.
Qed.

Lemma place_app_grown (self : AppSummary.Layout) (call : placement) :
  grown self (fst (place_app self call)).
Proof.
  destruct call as [t | t | t | t w | items w]; cbn [place_app fst];
    try apply grown_step.
  - unfold AppSummary.add_paragraph.
    destruct (Textwrap.wrap t w) as [e | lines]; [apply grown_refl |]. cbn [fst].
    eapply grown_trans; [apply grown_fold; intros s x; apply grown_step |].
    split; [exists []; cbn; now rewrite app_nil_r | repeat split].
  - unfold AppSummary.add_bullets.
    pose proof (add_bullets_loop_grown w items self) as Hg.
    destruct (AppSummary.add_bullets_loop self items w) as [s [| e]]; cbn [fst] in *;
      [| assumption].
    eapply grown_trans; [exact Hg |].
    split; [exists []; cbn; now rewrite app_nil_r | repeat split].
Qed.

Lemma grown_page_refl (self : EngineVergleich.Page) : grown_page self self.
Proof. split; [exists []; now rewrite app_nil_r | reflexivity]. Qed.

Lemma grown_page_trans (s s1 s2 : EngineVergleich.Page) :
  grown_page s s1 -> grown_page s1 s2 -> grown_page s s2.
Proof.
  intros [[a1 Ha1] Hl1] [[a2 Ha2] Hl2].
  split; [exists (a1 ++ a2); now rewrite Ha2, Ha1, app_assoc | congruence].
Qed.

Lemma grown_page_step (self : EngineVergleich.Page) (cmd : str) (d : float) :
  grown_page self (EngineVergleich.descend (EngineVergleich.append_command self cmd) d).
Proof. split; [now exists [cmd] | reflexivity]. Qed.

Lemma grown_page_fold (f : EngineVergleich.Page -> str -> EngineVergleich.Page)
    (l : list str) :
  (forall s x, grown_page s (f s x)) -> forall self, grown_page self (fold_left f l self).
Proof.
  intros Hf. induction l as [| x l IH]; intros self; [apply grown_page_refl |].
  cbn [fold_left]. eapply grown_page_trans; [apply Hf | apply IH].
Qed.

Lemma b_loop_grown (width : Z) (items : list str) :
  forall self, grown_page self (fst (EngineVergleich.b_loop self items width)).
Proof.
  induction items as [| item items IH]; intros self; [apply grown_page_refl |].
  cbn [EngineVergleich.b_loop].
  destruct (Textwrap.wrap item width) as [e | [| first extras]];
    [apply grown_page_refl | apply IH |].
  eapply grown_page_trans; [| apply IH].
  eapply grown_page_trans; [apply grown_page_step |].
  apply grown_page_fold. intros s x. apply grown_page_step.
Qed.

Lemma place_engine_grown (self : EngineVergleich.Page) (call : placement) :
  grown_page self (fst (place_engine self call)).
Proof.
  destruct call as [t | t | t | t w | items w]; cbn [place_engine fst];
    try apply grown_page_step.
  - unfold EngineVergleich.p.
    destruct (Textwrap.wrap t w) as [e | lines]; [apply grown_page_refl |]. cbn [fst].
    eapply grown_page_trans; [apply grown_page_fold; intros s x; apply grown_page_step |].
    split; [exists []; cbn; now rewrite app_nil_r | reflexivity].
  - unfold EngineVergleich.b.
    pose proof (b_loop_grown w items self) as Hg.
    destruct (EngineVergleich.b_loop self items w) as [s [| e]]; cbn [fst] in *;
      [| assumption].
    eapply grown_page_trans; [exact Hg |].
    split; [exists []; cbn; now rewrite app_nil_r | reflexivity].
Qed.

(** *** Items of whitespace make no bullet *)

Lemma all_whitespace_wrap (item : str) (width : Z) :
  all_whitespace item = true -> 0 < width -> Textwrap.wrap item width = inr [].
Proof.
  intros Hi Hw. apply wrap_whitespace; [| assumption].
  apply Forall_forall. unfold all_whitespace in Hi. rewrite forallb_forall in Hi. exact Hi.
Qed.

Lemma add_bullets_loop_skips (width : Z) (items : list str) :
  0 < width ->
  forall self,
    AppSummary.add_bullets_loop self
      (filter (fun item => negb (all_whitespace item)) items) width
    = AppSummary.add_bullets_loop self items width.
Proof.
  intros Hw. induction items as [| item items IH]; intros self; [reflexivity |].
  cbn [filter]. destruct (all_whitespace item) eqn:Hi; cbn [negb].
  - cbn [AppSummary.add_bullets_loop]. rewrite (all_whitespace_wrap item width Hi Hw).
    apply IH.
  - cbn [AppSummary.add_bullets_loop].
    destruct (Textwrap.wrap item width) as [e | [| first extras]];
      [reflexivity | apply IH | apply IH].
Qed.

Lemma b_loop_skips (width : Z) (items : list str) :
  0 < width ->
  forall self,
    EngineVergleich.b_loop self
      (filter (fun item => negb (all_whitespace item)) items) width
    = EngineVergleich.b_loop self items width.
Proof.
  intros Hw. induction items as [| item items IH]; intros self; [reflexivity |].
  cbn [filter]. destruct (all_whitespace item) eqn:Hi; cbn [negb].
  - cbn [EngineVergleich.b_loop]. rewrite (all_whitespace_wrap item width Hi Hw).
    apply IH.
  - cbn [EngineVergleich.b_loop].
    destruct (Textwrap.wrap item width) as [e | [| first extras]];
      [reflexivity | apply IH | apply IH].
Qed.

(** *** What a list of bullets takes of the page *)

Lemma add_bullets_loop_lines (width : Z) (items : list str) :
  0 < width ->
  forall self,
    exists self',
      AppSummary.add_bullets_loop self items width = (self', Returned)
      /\ advanced (wrapped_lines width items) self self'.
Proof.
  intros Hw. induction items as [| item items IH]; intros self.
  - exists self. split; [reflexivity | apply advanced_refl].
  - cbn [AppSummary.add_bullets_loop wrapped_lines fold_right].
    fold (wrapped_lines width items).
    destruct (wrap_accepts item width Hw) as [[| first extras] ->].
    + apply IH.
    + match goal with
      | |- context [AppSummary.add_bullets_loop ?s items width] =>
          destruct (IH s) as [self' [Hl Ha]]
      end.
      exists self'. split; [exact Hl |].
      change (length (first :: extras) + wrapped_lines width items)%nat
        with (1 + length extras + wrapped_lines width items)%nat.
      eapply advanced_trans; [| exact Ha].
      eapply advanced_trans; [| apply advanced_extras].
      pose proof (advanced_line self
                    (AppSummary.text_cmd (AppSummary.left self) (AppSummary.y self)
                       (u "- " ++ first) "F1" (AppSummary.body_size self))) as H1.
      destruct self. exact H1.
Qed.

Lemma b_loop_lines (width : Z) (items : list str) :
  0 < width ->
  forall self,
    exists self',
      EngineVergleich.b_loop self items width = (self', Returned)
      /\ advanced_page (wrapped_lines width items) self self'.
Proof.
  intros Hw. induction items as [| item items IH]; intros self.
  - exists self. split; [reflexivity | apply advanced_page_refl].
  - cbn [EngineVergleich.b_loop wrapped_lines fold_right].
    fold (wrapped_lines width items).
    destruct (wrap_accepts item width Hw) as [[| first extras] ->].
    + apply IH.
    + match goal with
      | |- context [EngineVergleich.b_loop ?s items width] =>
          destruct (IH s) as [self' [Hl Ha]]
      end.
      exists self'. split; [exact Hl |].
      change (length (first :: extras) + wrapped_lines width items)%nat
        with (1 + length extras + wrapped_lines width items)%nat.
      eapply advanced_page_trans; [| exact Ha].
      eapply advanced_page_trans; [| apply advanced_page_extras].
      apply advanced_page_line.
Qed.

End Growth.

(** ** [textwrap]: no character but whitespace is lost *)

Section Visible.
Context {U : UnicodeTables}.
Import Textwrap Placing.

Lemma visible_app (s t : str) : visible (s ++ t) = visible s ++ visible t.
Proof. apply filter_app. Qed.

Lemma visible_blank (s : str) : blank s = true -> visible s = [].
Proof.
  unfold blank, visible. induction s as [| c s IH]; [reflexivity |].
  cbn [forallb filter]. intros H. apply andb_prop in H. destruct H as [Hc Hs].
  rewrite Hc. cbn [negb]. now apply IH.
Qed.

Lemma visible_spaces (n : nat) : visible (repeat SP n) = [].
Proof. induction n as [| n IH]; [reflexivity | exact IH]. Qed.

Lemma visible_expandtabs (s : str) :
  forall col, visible (expandtabs_loop 8 col s) = visible s.
Proof.
  induction s as [| c s IH]; intros col; [reflexivity |]. cbn [expandtabs_loop].
  destruct (N.eqb c TAB) eqn:Hc.
  - apply N.eqb_eq in Hc. subst c. change (0 <? 8) with true. cbn iota.
    rewrite visible_app, visible_spaces, IH. reflexivity.
  - unfold visible in *. cbn [filter]. now rewrite IH.
Qed.

Lemma visible_translate (s : str) : visible (translate_whitespace s) = visible s.
Proof.
  unfold translate_whitespace, visible. induction s as [| c s IH]; [reflexivity |].
  cbn [map filter]. rewrite IH. destruct (is_ws c) eqn:Hc; [| reflexivity].
  rewrite (is_ws_isspace c Hc). reflexivity.
Qed.

Lemma visible_munge (text : str) : visible (munge_whitespace text) = visible text.
Proof.
  unfold munge_whitespace, expandtabs. now rewrite visible_translate, visible_expandtabs.
Qed.

(** The chunks of a text are the text, cut. *)
Lemma concat_split_loop (fuel : nat) :
  forall prev s, (length s <= fuel)%nat -> concat (split_loop fuel prev s) = s.
Proof.
  induction fuel as [| fuel IH]; intros prev s Hs.
  - destruct s; [reflexivity | cbn in Hs; lia].
  - cbn [split_loop]. destruct s as [| c rest]; [reflexivity |].
    set (n := chunk_length prev c rest).
    pose proof (chunk_length_positive prev c rest) as Hn. fold n in Hn.
    cbn [concat]. rewrite IH.
    + apply firstn_skipn.
    + rewrite length_skipn. cbn [length] in *. lia.
Qed.

Lemma concat_split_chunks (text : str) :
  concat (split_chunks text) = munge_whitespace text.
Proof. unfold split_chunks, split. now apply concat_split_loop. Qed.

Lemma visible_concat_app (l l' : list str) :
  visible (concat (l ++ l')) = visible (concat l) ++ visible (concat l').
Proof. now rewrite concat_app, visible_app. Qed.

Lemma visible_removelast (l : list str) :
  nonempty l && blank (last l []) = true ->
  visible (concat (removelast l)) = visible (concat l).
Proof.
  intros H. apply andb_prop in H. destruct H as [Hne Hb].
  assert (Hl : l <> []) by (destruct l; [discriminate | discriminate]).
  assert (E : concat l = concat (removelast l) ++ last l []).
  { rewrite (app_removelast_last [] Hl) at 1. rewrite concat_app. cbn [concat].
    now rewrite app_nil_r. }
  now rewrite E, visible_app, (visible_blank _ Hb), app_nil_r.
Qed.

(** A turn of the loop moves characters from the chunks to the lines and
    drops nothing but whitespace. *)
Lemma wrap_step_visible (width : Z) (c : str) (chunks lines chunks' lines' : list str) :
  1 <= width ->
  wrap_step width (c :: chunks) lines = (chunks', lines') ->
  visible (concat lines') ++ visible (concat chunks')
  = visible (concat lines) ++ visible (concat (c :: chunks)).
Proof.
  intros Hw H. unfold wrap_step in H.
  set (chunks0 := if blank c && nonempty lines then chunks else c :: chunks) in H.
  assert (H0 : visible (concat chunks0) = visible (concat (c :: chunks))).
  { subst chunks0. destruct (blank c && nonempty lines) eqn:E; [| reflexivity].
    apply andb_prop in E. destruct E as [Hb _].
    cbn [concat]. now rewrite visible_app, (visible_blank _ Hb). }
  destruct (fill_line chunks0 [] 0 width) as [[chunks1 cur_line1] cur_len1] eqn:Hfill.
  destruct (fill_line_prefix _ _ _ _ _ _ _ Hfill) as [taken [Hsplit [Hline _]]].
  cbn [app] in Hline. subst cur_line1.
  assert (H2 : forall chunks2 cur_line2,
            match chunks1 with
            | chunk :: _ =>
                if width <? len chunk
                then handle_long_word chunks1 taken cur_len1 width
                else (chunks1, taken)
            | [] => (chunks1, taken)
            end = (chunks2, cur_line2) ->
            visible (concat cur_line2) ++ visible (concat chunks2)
            = visible (concat chunks0)).
  { intros chunks2 cur_line2 E. rewrite Hsplit, visible_concat_app.
    destruct chunks1 as [| chunk rest].
    - now injection E as <- <-.
    - destruct (width <? len chunk).
      + destruct (handle_long_word_cut width cur_len1 chunk rest taken Hw)
          as [end_ [Hh _]].
        rewrite Hh in E. injection E as <- <-.
        rewrite visible_concat_app. cbn [concat].
        rewrite app_nil_r, !visible_app, <- !app_assoc. f_equal.
        rewrite app_assoc, <- visible_app. unfold take, drop.
        now rewrite firstn_skipn.
      + now injection E as <- <-. }
  destruct (match chunks1 with
            | chunk :: _ => _
            | [] => _
            end) as [chunks2 cur_line2] eqn:E2.
  specialize (H2 _ _ eq_refl).
  injection H as <- <-.
  set (cur_line3 := if nonempty cur_line2 && blank (last cur_line2 [])
                    then removelast cur_line2 else cur_line2).
  assert (H3 : visible (concat cur_line3) = visible (concat cur_line2)).
  { subst cur_line3.
    destruct (nonempty cur_line2 && blank (last cur_line2 [])) eqn:E; [| reflexivity].
    now apply visible_removelast. }
  match goal with
  | |- visible (concat ?new) ++ _ = _ =>
      assert (H4 : visible (concat new)
                   = visible (concat lines) ++ visible (concat cur_line3))
  end.
  { destruct cur_line3 as [| x l]; cbn [nonempty].
    - cbn [concat]. now rewrite app_nil_r.
    - rewrite visible_concat_app. cbn [concat]. now rewrite app_nil_r. }
  rewrite H4, H3, <- app_assoc, H2, H0. reflexivity.
Qed.

Lemma wrap_loop_visible (width : Z) (fuel : nat) :
  forall chunks lines,
    1 <= width -> (weight chunks <= fuel)%nat ->
    visible (concat (wrap_loop fuel width chunks lines))
    = visible (concat lines) ++ visible (concat chunks).
Proof.
  induction fuel as [| fuel IH]; intros chunks lines Hw Hf.
  - destruct chunks as [| c chunks]; [| cbn in Hf; lia].
    cbn. now rewrite app_nil_r.
  - cbn [wrap_loop]. destruct chunks as [| c chunks]; [cbn; now rewrite app_nil_r |].
    destruct (wrap_step width (c :: chunks) lines) as [chunks' lines'] eqn:Hstep.
    rewrite IH; [now apply (wrap_step_visible _ _ _ _ _ _ Hw Hstep) | assumption |].
    pose proof (wrap_step_lighter _ _ _ _ _ _ Hw Hstep). lia.
Qed.

(** The lines of a text have its characters, whitespace left aside. *)
Lemma wrap_visible (text : str) (width : Z) (lines : list str) :
  wrap text width = inr lines -> visible_lines lines = visible text.
Proof.
  intros H. pose proof (wrap_width_positive _ _ _ H) as Hw.
  unfold wrap, wrap_chunks in H. destruct (width <=? 0); [discriminate |].
  injection H as <-. unfold visible_lines.
  rewrite wrap_loop_visible by (assumption || lia).
  cbn [concat visible filter app]. now rewrite concat_split_chunks, visible_munge.
Qed.

End Visible.

(** ** The literal in the bytes of the stream *)

Section EncodedLiteral.
Import Spec.

Lemma encode_char_replace_plain (c : N) :
  (c =? 92)%N = false -> (c =? 40)%N = false -> (c =? 41)%N = false ->
  escape_char (Byte.to_N (encode_char_replace c)) = [Byte.to_N (encode_char_replace c)].
Proof.
  intros H92 H40 H41. unfold encode_char_replace.
  destruct (Byte.of_N c) as [x |] eqn:E; [| reflexivity].
  apply Byte.to_of_N in E. rewrite E. unfold escape_char. now rewrite H92, H40, H41.
Qed.

(** Encoding, with its question marks, commutes with escaping. *)
Lemma encode_escape (text : str) :
  map Byte.to_N (encode_latin1_replace (flat_map escape_char text))
  = flat_map escape_char (map Byte.to_N (encode_latin1_replace text)).
Proof.
  unfold encode_latin1_replace. induction text as [| c text IH]; [reflexivity |].
  cbn [flat_map map]. rewrite !map_app, IH. f_equal.
  unfold escape_char at 1.
  destruct (c =? 92)%N eqn:H92; [apply N.eqb_eq in H92; subst c; reflexivity |].
  destruct (c =? 40)%N eqn:H40; [apply N.eqb_eq in H40; subst c; reflexivity |].
  destruct (c =? 41)%N eqn:H41; [apply N.eqb_eq in H41; subst c; reflexivity |].
  cbn [map]. now rewrite encode_char_replace_plain.
Qed.

Lemma encoded_escape_reads_back (text : str) :
  unescape (map Byte.to_N (encode_latin1_replace (flat_map escape_char text)))
  = map Byte.to_N (encode_latin1_replace text).
Proof. rewrite encode_escape. apply unescape_flat_map. Qed.

End EncodedLiteral.

(** ** The literal of an instruction ends where it should *)

Section Literal.
Import Spec Placing.

Lemma read_literal_escaped (text rest : str) :
  read_literal 0 (flat_map escape_char text ++ 41%N :: rest) = Some (text, rest).
Proof.
  induction text as [| c text IH]; [reflexivity |].
  cbn [flat_map]. unfold escape_char at 1.
  destruct (c =? 92)%N eqn:H92.
  - apply N.eqb_eq in H92. subst c. cbn [app read_literal N.eqb Pos.eqb].
    now rewrite IH.
  - destruct (c =? 40)%N eqn:H40.
    + apply N.eqb_eq in H40. subst c. cbn [app read_literal N.eqb Pos.eqb].
      now rewrite IH.
    + destruct (c =? 41)%N eqn:H41.
      * apply N.eqb_eq in H41. subst c. cbn [app read_literal N.eqb Pos.eqb].
        now rewrite IH.
      * cbn [app read_literal]. rewrite H92, H40, H41, IH. reflexivity.
Qed.

End Literal.

(** ** [textwrap]: the lines have no whitespace but spaces *)

Section NoBreaks.
Context {U : UnicodeTables}.
Import Spec Textwrap.

Lemma munge_whitespace_munge_fixed (text : str) :
  Forall munge_fixed (munge_whitespace text).
Proof.
  unfold munge_whitespace, translate_whitespace.
  induction (expandtabs 8 text) as [| c s IH]; cbn [map]; constructor; [| assumption].
  unfold munge_fixed. destruct (is_ws c) eqn:Hc; [now left | now right].
Qed.

Lemma Forall_firstn {A : Type} (P : A -> Prop) (n : nat) (l : list A) :
  Forall P l -> Forall P (firstn n l).
Proof.
  intros H. rewrite <- (firstn_skipn n l) in H. apply Forall_app in H. now destruct H.
Qed.

Lemma Forall_skipn {A : Type} (P : A -> Prop) (n : nat) (l : list A) :
  Forall P l -> Forall P (skipn n l).
Proof.
  intros H. rewrite <- (firstn_skipn n l) in H. apply Forall_app in H. now destruct H.
Qed.

Lemma split_loop_forall (P : N -> Prop) (fuel : nat) :
  forall prev s, Forall P s -> Forall (Forall P) (split_loop fuel prev s).
Proof.
  induction fuel as [| fuel IH]; intros prev s Hs; cbn [split_loop]; [constructor |].
  destruct s as [| c rest]; [constructor |].
  constructor; [now apply Forall_firstn | apply IH; now apply Forall_skipn].
Qed.

Lemma Forall_concat (P : N -> Prop) (l : list str) :
  Forall (Forall P) l -> Forall P (concat l).
Proof.
  induction 1 as [| x l Hx _ IH]; cbn [concat]; [constructor |].
  apply Forall_app. now split.
Qed.

Lemma Forall_removelast {A : Type} (P : A -> Prop) (l : list A) :
  Forall P l -> Forall P (removelast l).
Proof.
  induction 1 as [| x l Hx Hl IH]; [constructor |].
  destruct l as [| y l]; [constructor |].
  change (removelast (x :: y :: l)) with (x :: removelast (y :: l)). now constructor.
Qed.

(** A turn of the loop makes its line of characters of the chunks. *)
Lemma wrap_step_forall (P : N -> Prop) (width : Z) (c : str)
    (chunks lines chunks' lines' : list str) :
  1 <= width ->
  wrap_step width (c :: chunks) lines = (chunks', lines') ->
  Forall (Forall P) (c :: chunks) -> Forall (Forall P) lines ->
  Forall (Forall P) chunks' /\ Forall (Forall P) lines'.
Proof.
  intros Hw H Hc Hl. unfold wrap_step in H.
  set (chunks0 := if blank c && nonempty lines then chunks else c :: chunks) in H.
  assert (H0 : Forall (Forall P) chunks0).
  { subst chunks0. destruct (blank c && nonempty lines); [now inversion Hc | assumption]. }
  destruct (fill_line chunks0 [] 0 width) as [[chunks1 cur_line1] cur_len1] eqn:Hfill.
  destruct (fill_line_prefix _ _ _ _ _ _ _ Hfill) as [taken [Hsplit [Hline _]]].
  cbn [app] in Hline. subst cur_line1.
  rewrite Hsplit in H0. apply Forall_app in H0. destruct H0 as [Ht H1].
  assert (H2 : forall chunks2 cur_line2,
            match chunks1 with
            | chunk :: _ =>
                if width <? len chunk
                then handle_long_word chunks1 taken cur_len1 width
                else (chunks1, taken)
            | [] => (chunks1, taken)
            end = (chunks2, cur_line2) ->
            Forall (Forall P) chunks2 /\ Forall (Forall P) cur_line2).
  { intros chunks2 cur_line2 E. destruct chunks1 as [| chunk rest].
    - injection E as <- <-. now split.
    - destruct (width <? len chunk).
      + destruct (handle_long_word_cut width cur_len1 chunk rest taken Hw)
          as [end_ [Hh _]].
        rewrite Hh in E. injection E as <- <-.
        inversion H1 as [| ? ? Hchunk Hrest]; subst. split.
        * constructor; [now apply Forall_skipn | assumption].
        * apply Forall_app. split; [assumption |].
          constructor; [now apply Forall_firstn | constructor].
      + injection E as <- <-. now split. }
  destruct (match chunks1 with
            | chunk :: _ => _
            | [] => _
            end) as [chunks2 cur_line2] eqn:E2.
  destruct (H2 _ _ eq_refl) as [Hc2 Hl2].
  injection H as <- <-. split; [assumption |].
  set (cur_line3 := if nonempty cur_line2 && blank (last cur_line2 [])
                    then removelast cur_line2 else cur_line2).
  assert (H3 : Forall (Forall P) cur_line3).
  { subst cur_line3. destruct (nonempty cur_line2 && blank (last cur_line2 []));
      [now apply Forall_removelast | assumption]. }
  destruct (nonempty cur_line3); [| assumption].
  apply Forall_app. split; [assumption |].
  constructor; [now apply Forall_concat | constructor].
Qed.

Lemma wrap_loop_forall (P : N -> Prop) (width : Z) (fuel : nat) :
  forall chunks lines,
    1 <= width ->
    Forall (Forall P) chunks -> Forall (Forall P) lines ->
    Forall (Forall P) (wrap_loop fuel width chunks lines).
Proof.
  induction fuel as [| fuel IH]; intros chunks lines Hw Hc Hl; cbn [wrap_loop];
    [assumption |].
  destruct chunks as [| c chunks]; [assumption |].
  destruct (wrap_step width (c :: chunks) lines) as [chunks' lines'] eqn:Hstep.
  destruct (wrap_step_forall P _ _ _ _ _ _ Hw Hstep Hc Hl) as [Hc' Hl'].
  now apply IH.
Qed.

Lemma wrap_munge_fixed (text : str) (width : Z) (lines : list str) :
  wrap text width = inr lines -> Forall (Forall munge_fixed) lines.
Proof.
  intros H. pose proof (wrap_width_positive _ _ _ H) as Hw.
  unfold wrap, wrap_chunks in H. destruct (width <=? 0); [discriminate |].
  injection H as <-.
  apply wrap_loop_forall; [assumption | | constructor].
  unfold split_chunks, split. apply split_loop_forall, munge_whitespace_munge_fixed.
Qed.

End NoBreaks.

(** ** How many lines a page takes *)

Section Capacity.
Import Spec Placing.

Lemma capacity_table_sound (k : nat) :
  forall n y d gap limit cap j,
    capacity_table k n y d gap limit cap = true -> (j <= k)%nat ->
    flt (fsub (descend_lines j d y) gap) limit = negb (n + j <=? cap)%nat.
Proof.
  induction k as [| k IH]; intros n y d gap limit cap j H Hj; cbn [capacity_table] in H;
    apply andb_prop in H; destruct H as [H0 Hk].
  - assert (j = 0)%nat by lia. subst j. rewrite Nat.add_0_r.
    now apply Bool.eqb_prop in H0.
  - destruct j as [| j].
    + rewrite Nat.add_0_r. now apply Bool.eqb_prop in H0.
    + rewrite descend_lines_succ, <- Nat.add_succ_comm. apply IH; [assumption | lia].
Qed.

(** From a cursor at or below the limit, any further lines and a gap
    leave the cursor below the limit. *)
Lemma below_stays_below (m : nat) (d gap limit y : float) :
  within (2 ^ 52) y -> descent_step d -> descent_step gap ->
  finite_valid limit -> scaled y <= scaled limit ->
  Z.of_nat m <= 2 ^ 40 ->
  flt (fsub (descend_lines m d y) gap) limit = true.
Proof.
  intros [Hf Hy] Hd Hg Hl Hle Hm. rewrite lines_then_gap.
  destruct (chain_descends (repeat d m ++ [gap]) y y 0 ltac:(lia) Hf Hy ltac:(lia))
    as [Hf' [_ Hlt]].
  - unfold len. rewrite length_app, repeat_length. cbn [length].
    change (2 ^ 40) with 1099511627776 in Hm. change (2 ^ 46) with 70368744177664. lia.
  - apply Forall_app. split; [| constructor; [assumption | constructor]].
    apply Forall_forall. intros x Hx. apply repeat_spec in Hx. now subst x.
  - apply flt_scaled; [assumption | assumption |].
    assert (Hne : repeat d m ++ [gap] <> []) by (destruct (repeat d m); discriminate).
    specialize (Hlt Hne). lia.
Qed.

(** The check after a paragraph of [n] lines from the cursor [y0], when
    a table covers the paragraphs up to [cap + 2] lines. *)
Lemma capacity (n cap : nat) (y0 d gap limit : float) :
  capacity_table (S (S cap)) 0 y0 d gap limit cap = true ->
  within (2 ^ 52) (descend_lines (S (S cap)) d y0) ->
  descent_step d -> descent_step gap -> finite_valid limit ->
  scaled (descend_lines (S (S cap)) d y0) <= scaled limit ->
  Z.of_nat n <= 2 ^ 40 ->
  flt (fsub (descend_lines n d y0) gap) limit = negb (n <=? cap)%nat.
Proof.
  intros Ht Hw Hd Hg Hl Hle Hn.
  destruct (Nat.le_gt_cases n (S (S cap))) as [Hsmall | Hbig].
  - apply (capacity_table_sound _ 0 y0 d gap limit cap n Ht Hsmall).
  - replace n with (S (S cap) + (n - S (S cap)))%nat at 1 by lia.
    rewrite descend_lines_add.
    rewrite below_stays_below; try assumption; [| lia].
    symmetry. apply negb_true_iff. apply Nat.leb_gt. lia.
Qed.

End Capacity.

(* ================================================================== *)
(** * The description of an anime: [format_description]                *)
(* ================================================================== *)

(** X1. For every description made of text without [<], line breaks
    ([<br>], [<br/>], [<br />], with any whitespace before the optional
    slash), the tags [<i>], [</i>], [<b>], [</b>] and tags that none of
    the five patterns matches, [format_description] of [api_handler.py]
    and of [gui_setup.py] returns the text with one line feed for every
    line break, without the four tags, and with the other tags as they
    were written. *)
Theorem format_description_cleans_markup (segs : list Markup.segment) :
  Forall Markup.well_formed segs ->
  ApiHandler.format_description (Markup.write segs) = Markup.display segs
  /\ GuiSetup.format_description (Markup.write segs) = Markup.display segs.
Proof.
  intros H. split; exact (format_description_display segs H).
Qed.

(** X2. For every description, marked up well or not,
    [format_description] returns a text that is not longer than the
    description. *)
Theorem format_description_never_longer (description : str) :
  len (ApiHandler.format_description description) <= len description
  /\ len (GuiSetup.format_description description) <= len description.
Proof.
  assert (H : len (ApiHandler.format_description description) <= len description).
  { unfold ApiHandler.format_description, Re.sub, len.
    pose proof (sub_loop_length (Re.lit "br" ++ [Re.Star Textwrap.isspace; Re.Opt 47%N]
                                   ++ Re.lit ">") 60%N (u LF) ltac:(cbn; lia)
                  description O) as H1.
    change (Re.Chr 60 :: Re.lit "br" ++ [Re.Star Textwrap.isspace; Re.Opt 47%N]
              ++ Re.lit ">") with ApiHandler.br in H1.
    set (d1 := Re.sub_loop ApiHandler.br (u LF) 0 description) in *.
    pose proof (sub_loop_length (Re.lit "i>") 60%N [] ltac:(cbn; lia) d1 O) as H2.
    change (Re.Chr 60 :: Re.lit "i>") with (Re.lit "<i>") in H2.
    set (d2 := Re.sub_loop (Re.lit "<i>") [] 0 d1) in *.
    pose proof (sub_loop_length (Re.lit "/i>") 60%N [] ltac:(cbn; lia) d2 O) as H3.
    change (Re.Chr 60 :: Re.lit "/i>") with (Re.lit "</i>") in H3.
    set (d3 := Re.sub_loop (Re.lit "</i>") [] 0 d2) in *.
    pose proof (sub_loop_length (Re.lit "b>") 60%N [] ltac:(cbn; lia) d3 O) as H4.
    change (Re.Chr 60 :: Re.lit "b>") with (Re.lit "<b>") in H4.
    set (d4 := Re.sub_loop (Re.lit "<b>") [] 0 d3) in *.
    pose proof (sub_loop_length (Re.lit "/b>") 60%N [] ltac:(cbn; lia) d4 O) as H5.
    change (Re.Chr 60 :: Re.lit "/b>") with (Re.lit "</b>") in H5.
    lia. }
  split; exact H.
Qed.

(* ================================================================== *)
(** * The lists in memory: [list_manager.py]                           *)
(* ================================================================== *)

(** X3. From the empty lists of the module, after any sequence of calls
    of the four add and remove functions whose callables leave the two
    lists alone, whatever the calls return or raise, neither list holds a
    title twice and neither holds the empty title. *)
Theorem lists_hold_no_title_twice {L : Type} {Tk : ListManager.Listbox L}
    (w : nat -> L) (calls : list ListManager.call) :
  Forall (fun c => ListManager.keeps_lists (ListManager.update_func_of c)) calls ->
  ListManager.tidy (ListManager.run_all calls (ListManager.initial w)).
Proof.
  intros H. apply run_all_tidy; [assumption |].
  repeat split; try constructor; intros [].
Qed.

(** X4. Removing undoes adding: when a title that is not empty and not
    in the list is added with a callable that leaves the lists alone, and
    the list box then has that title as its active row, the remove
    function does not raise [ValueError] and hands to its callable the
    lists as they were before the addition; so for the watch list and for
    the buy list. *)
Theorem remove_undoes_add {L : Type} {Tk : ListManager.Listbox L}
    (s : ListManager.state) (title : str) (listbox : nat) (f g : ListManager.callback) :
  ListManager.keeps_lists f ->
  ListManager.truthy title = true ->
  (ListManager.contains (ListManager.watch_list s) title = false ->
   let s1 := fst (ListManager.add_to_watch_list title f s) in
   ListManager.get_active (ListManager.widgets s1 listbox) = title ->
   ListManager.remove_from_watch_list listbox g s1
   = g (ListManager.mkState (ListManager.watch_list s) (ListManager.buy_list s)
          (ListManager.widgets s1)))
  /\ (ListManager.contains (ListManager.buy_list s) title = false ->
      let s1 := fst (ListManager.add_to_buy_list title f s) in
      ListManager.get_active (ListManager.widgets s1 listbox) = title ->
      ListManager.remove_from_buy_list listbox g s1
      = g (ListManager.mkState (ListManager.watch_list s) (ListManager.buy_list s)
             (ListManager.widgets s1))).
Proof.
  intros Hf Ht. split.
  - intros Hc s1 Ha. apply contains_not_In in Hc.
    assert (Hs1 : ListManager.watch_list s1 = ListManager.watch_list s ++ [title]
                  /\ ListManager.buy_list s1 = ListManager.buy_list s).
    { subst s1. unfold ListManager.add_to_watch_list.
      rewrite Ht, (proj2 (contains_not_In _ _) Hc). cbn [andb negb].
      destruct (Hf (ListManager.mkState (ListManager.watch_list s ++ [title])
                      (ListManager.buy_list s) (ListManager.widgets s))) as [Hw Hb].
      now split. }
    destruct Hs1 as [Hw Hb].
    unfold ListManager.remove_from_watch_list. rewrite Ha, Hw, Hb.
    rewrite (proj2 (contains_In _ _)) by (apply in_or_app; right; now left).
    now rewrite (list_remove_appended _ _ Hc).
  - intros Hc s1 Ha. apply contains_not_In in Hc.
    assert (Hs1 : ListManager.watch_list s1 = ListManager.watch_list s
                  /\ ListManager.buy_list s1 = ListManager.buy_list s ++ [title]).
    { subst s1. unfold ListManager.add_to_buy_list.
      rewrite Ht, (proj2 (contains_not_In _ _) Hc). cbn [andb negb].
      destruct (Hf (ListManager.mkState (ListManager.watch_list s)
                      (ListManager.buy_list s ++ [title]) (ListManager.widgets s))) as [Hw Hb].
      now split. }
    destruct Hs1 as [Hw Hb].
    unfold ListManager.remove_from_buy_list. rewrite Ha, Hw, Hb.
    rewrite (proj2 (contains_In _ _)) by (apply in_or_app; right; now left).
    now rewrite (list_remove_appended _ _ Hc).
Qed.

(** X5. For every state and every list box, [update_watch_list_display]
    leaves the list box showing exactly the watch list, row by row and in
    its order, whatever it showed before, and changes neither list nor any
    other list box; [update_buy_list_display] does the same with the buy
    list. *)
Theorem display_shows_the_list {L : Type} {Tk : ListManager.Listbox L}
    (listbox : nat) (s : ListManager.state) :
  (ListManager.rows
     (ListManager.widgets (ListManager.update_watch_list_display listbox s) listbox)
   = ListManager.watch_list s
   /\ ListManager.watch_list (ListManager.update_watch_list_display listbox s)
      = ListManager.watch_list s
   /\ ListManager.buy_list (ListManager.update_watch_list_display listbox s)
      = ListManager.buy_list s
   /\ forall i, i <> listbox ->
        ListManager.widgets (ListManager.update_watch_list_display listbox s) i
        = ListManager.widgets s i)
  /\ (ListManager.rows
        (ListManager.widgets (ListManager.update_buy_list_display listbox s) listbox)
      = ListManager.buy_list s
      /\ ListManager.watch_list (ListManager.update_buy_list_display listbox s)
         = ListManager.watch_list s
      /\ ListManager.buy_list (ListManager.update_buy_list_display listbox s)
         = ListManager.buy_list s
      /\ forall i, i <> listbox ->
           ListManager.widgets (ListManager.update_buy_list_display listbox s) i
           = ListManager.widgets s i).
Proof.
  split; [apply update_watch_list_display_spec | apply update_buy_list_display_spec].
Qed.

(** X6. When every call on the watch list is given the display of the
    watch list in one list box as its callable, and every call on the buy
    list the display of the buy list in another list box, then from the
    empty lists and two empty list boxes, after any sequence of add and
    remove calls, each of the two list boxes shows exactly its list. *)
Theorem list_boxes_follow_the_lists {L : Type} {Tk : ListManager.Listbox L}
    (watch_box buy_box : nat) (w : nat -> L) (calls : list ListManager.call) :
  watch_box <> buy_box ->
  ListManager.rows (w watch_box) = [] ->
  ListManager.rows (w buy_box) = [] ->
  Forall (ListManager.wired watch_box buy_box) calls ->
  ListManager.in_step watch_box buy_box
    (ListManager.run_all calls (ListManager.initial w)).
Proof.
  intros Hne Hw Hb Hc. apply run_all_in_step; [assumption | assumption |].
  split; assumption.
Qed.

(* ================================================================== *)
(** * The lists in the database: [database_handler.py]                 *)
(* ================================================================== *)

(** X7. On a table that exists and has ids left, with a cover that can
    be bound: adding a title that is in the table raises the [ValueError]
    of the list and changes nothing; adding a title that is not in the
    table returns, and afterwards the title is found by
    [check_anime_exists], the list function returns the old pairs followed
    by the new one, and the other table is as it was; adding [None] as the
    title raises [IntegrityError] and changes nothing. *)
Theorem add_anime_stores_a_title_once (name : DatabaseHandler.list_name)
    (conn : DatabaseHandler.connection) (t : DatabaseHandler.table)
    (s : str) (cover_url : DatabaseHandler.value) :
  DatabaseHandler.table_of conn name = Some t ->
  DatabaseHandler.encodable s = true ->
  DatabaseHandler.binds cover_url = true ->
  DatabaseHandler.largest_id t < DatabaseHandler.max_rowid ->
  (In s (DatabaseHandler.titles (Some t)) ->
   DatabaseHandler.add_anime_to name conn (Some s) cover_url
   = (conn, DatabaseHandler.Raised (DatabaseHandler.already_exists name)))
  /\ (~ In s (DatabaseHandler.titles (Some t)) ->
      exists conn' pairs,
        DatabaseHandler.add_anime_to name conn (Some s) cover_url
        = (conn', DatabaseHandler.Returned)
        /\ DatabaseHandler.check_anime_exists conn' (Some s) name = inr true
        /\ DatabaseHandler.get_list name conn = inr pairs
        /\ DatabaseHandler.get_list name conn' = inr (pairs ++ [(s, cover_url)])
        /\ DatabaseHandler.table_of conn' (DatabaseHandler.other name)
           = DatabaseHandler.table_of conn (DatabaseHandler.other name))
  /\ DatabaseHandler.add_anime_to name conn None cover_url
     = (conn, DatabaseHandler.Raised DatabaseHandler.IntegrityError).
Proof.
  intros Ht He Hb Hid. apply Z.leb_gt in Hid.
  rewrite !add_anime_to_unfold.
  unfold DatabaseHandler.check_anime_exists, DatabaseHandler.select_where_title,
    DatabaseHandler.insert.
  rewrite Ht. cbn [DatabaseHandler.binds]. rewrite He, Hb, Hid. cbn [andb negb].
  split; [| split].
  - intros Hin. cbn [DatabaseHandler.titles] in Hin.
    destruct (filter (DatabaseHandler.title_is (Some s)) (DatabaseHandler.rows t)) eqn:Hf;
      [| reflexivity].
    apply filter_title_is in Hf. contradiction.
  - intros Hin. cbn [DatabaseHandler.titles] in Hin.
    rewrite (proj2 (filter_title_is _ _) Hin).
    destruct (table_of_with_table conn name
                (DatabaseHandler.mkTable
                   (DatabaseHandler.rows t
                    ++ [DatabaseHandler.mkRow (DatabaseHandler.largest_id t + 1) s cover_url])
                   (DatabaseHandler.largest_id t + 1))) as [Hsame Hother].
    eexists. eexists. split; [reflexivity |].
    rewrite !get_list_unfold, Hsame, Ht.
    cbn [DatabaseHandler.select_all DatabaseHandler.rows DatabaseHandler.binds].
    rewrite filter_title_is_app, (proj2 (filter_title_is _ _) Hin).
    cbn [filter DatabaseHandler.title_is DatabaseHandler.title app]. rewrite str_eqb_refl.
    split; [reflexivity |]. split; [reflexivity |]. split; [| exact Hother].
    now rewrite map_app.
  - now rewrite filter_title_is_none.
Qed.

(** X8. No title twice: when neither table of a database holds a title
    twice, then after any sequence of calls of [create_database_schema],
    the two add functions and [remove_anime_from_list], with any titles
    and covers and whatever the calls return or raise, neither table holds
    a title twice. *)
Theorem titles_stay_unique (calls : list DatabaseHandler.call)
    (conn : DatabaseHandler.connection) :
  NoDup (DatabaseHandler.titles (DatabaseHandler.watch_list conn)) ->
  NoDup (DatabaseHandler.titles (DatabaseHandler.buy_list conn)) ->
  NoDup (DatabaseHandler.titles
           (DatabaseHandler.watch_list (DatabaseHandler.run_all calls conn)))
  /\ NoDup (DatabaseHandler.titles
              (DatabaseHandler.buy_list (DatabaseHandler.run_all calls conn))).
Proof.
  intros Hw Hb. apply (run_all_unique calls conn). now split.
Qed.

(** X9. On a table that exists, [remove_anime_from_list] with a title
    returns and removes every row of that title and no other: afterwards
    [check_anime_exists] does not find the title, the list function
    returns the pairs of the other titles in their order, and the other
    table is as it was; a title that was not in the table is no error and
    changes nothing; and the title can be added again. *)
Theorem remove_anime_removes_the_title (name : DatabaseHandler.list_name)
    (conn : DatabaseHandler.connection) (t : DatabaseHandler.table) (s : str) :
  DatabaseHandler.table_of conn name = Some t ->
  DatabaseHandler.encodable s = true ->
  exists conn' pairs,
    DatabaseHandler.remove_anime_from_list conn (Some s) name
    = (conn', DatabaseHandler.Returned)
    /\ DatabaseHandler.check_anime_exists conn' (Some s) name = inr false
    /\ DatabaseHandler.get_list name conn = inr pairs
    /\ DatabaseHandler.get_list name conn'
       = inr (filter (fun p => negb (str_eqb (fst p) s)) pairs)
    /\ DatabaseHandler.table_of conn' (DatabaseHandler.other name)
       = DatabaseHandler.table_of conn (DatabaseHandler.other name)
    /\ (~ In s (DatabaseHandler.titles (Some t)) -> conn' = conn)
    /\ (forall cover_url,
          DatabaseHandler.binds cover_url = true ->
          DatabaseHandler.largest_id t < DatabaseHandler.max_rowid ->
          snd (DatabaseHandler.add_anime_to name conn' (Some s) cover_url)
          = DatabaseHandler.Returned).
Proof.
  intros Ht He.
  unfold DatabaseHandler.remove_anime_from_list, DatabaseHandler.delete_where_title.
  rewrite Ht. cbn [DatabaseHandler.binds]. rewrite He.
  set (t' := DatabaseHandler.mkTable
               (filter (fun r => negb (DatabaseHandler.title_is (Some s) r))
                       (DatabaseHandler.rows t))
               (DatabaseHandler.seq t)).
  destruct (table_of_with_table conn name t') as [Hsame Hother].
  assert (Hgone : filter (DatabaseHandler.title_is (Some s)) (DatabaseHandler.rows t') = []).
  { apply filter_title_is. subst t'. cbn [DatabaseHandler.rows].
    rewrite titles_after_delete. intros Hin. apply filter_In in Hin.
    destruct Hin as [_ Hin]. now rewrite str_eqb_refl in Hin. }
  eexists. eexists. split; [reflexivity |].
  split; [| split; [| split; [| split; [| split]]]].
  - unfold DatabaseHandler.check_anime_exists, DatabaseHandler.select_where_title.
    rewrite Hsame. cbn [DatabaseHandler.binds]. now rewrite He, Hgone.
  - rewrite get_list_unfold, Ht. reflexivity.
  - rewrite get_list_unfold, Hsame. subst t'.
    cbn [DatabaseHandler.select_all DatabaseHandler.rows]. now rewrite pairs_after_delete.
  - exact Hother.
  - intros Hin. cbn [DatabaseHandler.titles] in Hin. subst t'.
    rewrite (filter_none _ _ Hin).
    destruct name, conn as [w b], t as [rs q]; cbn in *; now rewrite Ht.
  - intros cover_url Hb Hid. rewrite add_anime_to_unfold.
    unfold DatabaseHandler.check_anime_exists, DatabaseHandler.select_where_title,
      DatabaseHandler.insert.
    rewrite Hsame. cbn [DatabaseHandler.binds]. rewrite He, Hb, Hgone. cbn [andb negb].
    assert (Hle : DatabaseHandler.largest_id t' <= DatabaseHandler.largest_id t).
    { subst t'. unfold DatabaseHandler.largest_id. cbn [DatabaseHandler.rows DatabaseHandler.seq].
      apply largest_id_filter. }
    replace (DatabaseHandler.max_rowid <=? DatabaseHandler.largest_id t') with false
      by (symmetry; apply Z.leb_gt; lia).
    reflexivity.
Qed.

(* ================================================================== *)
(** * The written file and the layout, further                          *)
(* ================================================================== *)

(** X10. For every list of object bodies, in both scripts, the file ends
    with [startxref], a decimal number and the end mark, and the number
    reads as the byte index at which the cross-reference table of the
    recorded offsets begins in the file. *)
Theorem startxref_locates_the_table (objects : list bytes) :
  Xref.startxref_locates
    (Spec.xref_table (len objects) (tl (EngineVergleich.build_pdf_offsets objects)))
    (EngineVergleich.build_pdf objects)
  /\ Xref.startxref_locates
       (Spec.xref_table (len objects) (tl (AppSummary.write_pdf_offsets objects)))
       (AppSummary.write_pdf_bytes objects).
Proof.
  split; [apply build_pdf_startxref |].
  rewrite write_pdf_offsets_eq, write_pdf_bytes_eq_build_pdf. apply build_pdf_startxref.
Qed.

(** X11. For every list of object bodies whose file is shorter than
    10^10 bytes, in both scripts, every entry of the cross-reference table
    has exactly 20 bytes, so that the entry of the object [i + 1] begins
    [20 * (i + 1)] bytes behind the two lines that head the table; the
    entry of the offset 10^10 has 21 bytes. *)
Theorem xref_entries_are_found_by_counting (objects : list bytes) :
  len (EngineVergleich.build_pdf objects) < 10 ^ 10 ->
  (exists pos,
     Spec.begins_at
       (Spec.xref_table (len objects) (tl (EngineVergleich.build_pdf_offsets objects)))
       pos (EngineVergleich.build_pdf objects)
     /\ Xref.entries_by_counting (len objects)
          (tl (EngineVergleich.build_pdf_offsets objects)) pos
          (EngineVergleich.build_pdf objects))
  /\ (exists pos,
        Spec.begins_at
          (Spec.xref_table (len objects) (tl (AppSummary.write_pdf_offsets objects)))
          pos (AppSummary.write_pdf_bytes objects)
        /\ Xref.entries_by_counting (len objects)
             (tl (AppSummary.write_pdf_offsets objects)) pos
             (AppSummary.write_pdf_bytes objects))
  /\ len (Spec.xref_entry (10 ^ 10)) = 21.
Proof.
  intros Hlen. split; [now apply build_pdf_entries |]. split; [| reflexivity].
  rewrite write_pdf_offsets_eq, write_pdf_bytes_eq_build_pdf. now apply build_pdf_entries.
Qed.

(** X12. In both scripts a placement call raises exactly when it is a
    paragraph of a wrap width that is not positive, or a list of bullets
    of such a width with at least one item; what it raises is the
    [ValueError] of [textwrap], and the layout is as it was before the
    call: nothing is placed and the cursor has not moved.  Every other
    call returns. *)
Theorem placement_raises_only_for_the_width {U : UnicodeTables} :
  (forall (self : AppSummary.Layout) (call : Spec.placement),
     if Placing.refused call
     then Spec.place_app self call = (self, Raised ValueError)
     else snd (Spec.place_app self call) = Returned)
  /\ (forall (self : EngineVergleich.Page) (call : Spec.placement),
        if Placing.refused call
        then Spec.place_engine self call = (self, Raised ValueError)
        else snd (Spec.place_engine self call) = Returned).
Proof. split; [apply place_app_refused | apply place_engine_refused]. Qed.

(** X13. In both scripts every placement call, whatever its arguments
    and its outcome, leaves the instructions that were there in their
    places and only adds instructions behind them; it changes neither the
    left margin nor, in the app summary, the size and the leading of the
    body type. *)
Theorem placement_only_adds_instructions {U : UnicodeTables} :
  (forall (self : AppSummary.Layout) (call : Spec.placement),
     Placing.grown self (fst (Spec.place_app self call)))
  /\ (forall (self : EngineVergleich.Page) (call : Spec.placement),
        Placing.grown_page self (fst (Spec.place_engine self call))).
Proof. split; [apply place_app_grown | apply place_engine_grown]. Qed.

(** X14. For a positive wrap width, in both scripts, the items of a list
    of bullets that are empty or all whitespace make no bullet and take no
    room: the call does exactly what it does on the list without these
    items. *)
Theorem bullets_skip_items_of_whitespace {U : UnicodeTables} (items : list str)
    (width : Z) :
  0 < width ->
  (forall self : AppSummary.Layout,
     AppSummary.add_bullets self
       (filter (fun item => negb (Placing.all_whitespace item)) items) width
     = AppSummary.add_bullets self items width)
  /\ (forall self : EngineVergleich.Page,
        EngineVergleich.b self
          (filter (fun item => negb (Placing.all_whitespace item)) items) width
        = EngineVergleich.b self items width).
Proof.
  intros Hw. split; intros self.
  - unfold AppSummary.add_bullets. now rewrite add_bullets_loop_skips.
  - unfold EngineVergleich.b. now rewrite b_loop_skips.
Qed.

(** X15. For a positive wrap width, in both scripts, a list of bullets
    returns, adds one instruction for every line that its items wrap to,
    and lowers the cursor by one leading for each of these lines and by
    one gap for the whole list (4.0 and 2.0), the subtractions being those
    of binary64 in the order of the lines. *)
Theorem bullets_take_a_leading_per_line {U : UnicodeTables} (items : list str)
    (width : Z) :
  0 < width ->
  (forall self : AppSummary.Layout,
     exists self',
       AppSummary.add_bullets self items width = (self', Returned)
       /\ length (AppSummary.commands self')
          = (length (AppSummary.commands self) + Placing.wrapped_lines width items)%nat
       /\ AppSummary.y self'
          = fsub (Spec.descend_lines (Placing.wrapped_lines width items)
                    (AppSummary.body_leading self) (AppSummary.y self))
                 (decimal 40 1))
  /\ (forall self : EngineVergleich.Page,
        exists self',
          EngineVergleich.b self items width = (self', Returned)
          /\ length (EngineVergleich.commands self')
             = (length (EngineVergleich.commands self)
                + Placing.wrapped_lines width items)%nat
          /\ EngineVergleich.y self'
             = fsub (Spec.descend_lines (Placing.wrapped_lines width items)
                       (decimal 106 1) (EngineVergleich.y self))
                    (decimal 20 1)).
Proof.
  intros Hw. split; intros self.
  - destruct (add_bullets_loop_lines width items Hw self) as [s1 [Hl [Hc [Hy _]]]].
    unfold AppSummary.add_bullets. rewrite Hl. eexists. split; [reflexivity |].
    destruct s1. cbn in *. split; [exact Hc | now rewrite Hy].
  - destruct (b_loop_lines width items Hw self) as [s1 [Hl [Hc [Hy _]]]].
    unfold EngineVergleich.b. rewrite Hl. eexists. split; [reflexivity |].
    destruct s1. cbn in *. split; [exact Hc | now rewrite Hy].
Qed.

(** X16. Wrapping loses nothing but whitespace: for every text and
    width for which [textwrap.wrap] returns, the characters of the lines,
    whitespace left aside, are those of the text in their order; so the
    instructions that a paragraph call adds, in both scripts, carry every
    character of the paragraph that is no whitespace, once and in
    order. *)
Theorem paragraph_keeps_every_character {U : UnicodeTables} :
  (forall (text : str) (width : Z) (lines : list str),
     Textwrap.wrap text width = inr lines ->
     Placing.visible_lines lines = Placing.visible text)
  /\ (forall (self self' : AppSummary.Layout) (text : str) (width : Z),
        AppSummary.add_paragraph self text width = (self', Returned) ->
        exists lines,
          AppSummary.commands self'
          = AppSummary.commands self
            ++ Spec.paragraph_commands (AppSummary.left self) (AppSummary.y self)
                 (AppSummary.body_size self) (AppSummary.body_leading self) lines
          /\ Placing.visible_lines lines = Placing.visible text)
  /\ (forall (self self' : EngineVergleich.Page) (text : str) (width : Z),
        EngineVergleich.p self text width = (self', Returned) ->
        exists lines,
          EngineVergleich.commands self'
          = EngineVergleich.commands self
            ++ Spec.p_commands (EngineVergleich.left self) (EngineVergleich.y self) lines
          /\ Placing.visible_lines lines = Placing.visible text).
Proof.
  split; [intros text width lines; apply wrap_visible |]. split.
  - intros self self' text width H.
    destruct (Textwrap.wrap text width) as [e | lines] eqn:Hw.
    + unfold AppSummary.add_paragraph in H. rewrite Hw in H. discriminate.
    + rewrite (add_paragraph_returns _ _ _ _ Hw) in H. injection H as <-.
      exists lines. split; [reflexivity | now apply (wrap_visible text width)].
  - intros self self' text width H.
    destruct (Textwrap.wrap text width) as [e | lines] eqn:Hw.
    + unfold EngineVergleich.p in H. rewrite Hw in H. discriminate.
    + rewrite (p_returns _ _ _ _ Hw) in H. injection H as <-.
      exists lines. split; [reflexivity | now apply (wrap_visible text width)].
Qed.

(** X17. For every text, in both scripts, the bytes of the escaped text
    in the stream, where a question mark stands for every character that
    Latin-1 does not have, read back as the bytes of the text itself: the
    encoding neither adds nor removes an escape. *)
Theorem encoded_literal_reads_back (text : str) :
  Spec.unescape
    (map Byte.to_N (encode_latin1_replace (AppSummary.escape_pdf_text text)))
  = map Byte.to_N (encode_latin1_replace text)
  /\ Spec.unescape (map Byte.to_N (encode_latin1_replace (EngineVergleich.esc text)))
     = map Byte.to_N (encode_latin1_replace text).
Proof.
  unfold AppSummary.escape_pdf_text, EngineVergleich.esc.
  rewrite escape_is_flat_map. split; apply encoded_escape_reads_back.
Qed.

(** X18. Whatever text the clock gives for the time stamp, [main] of
    either script returns: the text it places does not overflow the page.
    The app summary has 41 instructions and its cursor ends at 218.00, the
    engine comparison has 46 and ends at 253.40; [main] writes one file,
    at [OUT_PATH], with the bytes of the serializer for the six objects
    around the encoded instructions, and prints the path. *)
Theorem main_fits_the_page {U : UnicodeTables} :
  (forall generated_at : str,
     snd (AppSummaryMain.main_layout generated_at) = Returned
     /\ length (AppSummary.commands (fst (AppSummaryMain.main_layout generated_at)))
        = 41%nat
     /\ format_f 2 (AppSummary.y (fst (AppSummaryMain.main_layout generated_at)))
        = "218.00"%string
     /\ AppSummaryMain.main generated_at
        = (mkEffects
             [(AppSummaryMain.OUT_PATH,
               AppSummary.write_pdf_bytes
                 (AppSummary.write_pdf_objects
                    (AppSummary.build_pdf_stream
                       (fst (AppSummaryMain.main_layout generated_at)))))]
             [AppSummaryMain.OUT_PATH],
           Returned))
  /\ (forall now : str,
        snd (EngineVergleichMain.main_page now) = Returned
        /\ length (EngineVergleich.commands (fst (EngineVergleichMain.main_page now)))
           = 46%nat
        /\ format_f 2 (EngineVergleich.y (fst (EngineVergleichMain.main_page now)))
           = "253.40"%string
        /\ EngineVergleichMain.main now
           = (mkEffects
                [(EngineVergleichMain.OUT_PATH,
                  EngineVergleich.build_pdf
                    (EngineVergleich.main_objs
                       (EngineVergleich.main_stream
                          (fst (EngineVergleichMain.main_page now)))))]
                [EngineVergleichMain.OUT_PATH],
              Returned)).
Proof.
  split.
  - intros generated_at.
    assert (Hr : snd (AppSummaryMain.main_layout generated_at) = Returned)
      by (vm_compute; reflexivity).
    split; [exact Hr |]. split; [vm_compute; reflexivity |].
    split; [vm_compute; reflexivity |].
    unfold AppSummaryMain.main.
    destruct (AppSummaryMain.main_layout generated_at) as [layout o].
    cbn [snd fst] in *. subst o. reflexivity.
  - intros now.
    assert (Hr : snd (EngineVergleichMain.main_page now) = Returned)
      by (vm_compute; reflexivity).
    split; [exact Hr |]. split; [vm_compute; reflexivity |].
    split; [vm_compute; reflexivity |].
    unfold EngineVergleichMain.main.
    destruct (EngineVergleichMain.main_page now) as [p o].
    cbn [snd fst] in *. subst o. reflexivity.
Qed.

(** X19. For every text, in both scripts, the literal of an instruction
    ends at its own closing parenthesis: the instruction is the operators
    before the literal, an opening parenthesis, the escaped text and
    [) Tj ET], and a reader that takes a backslash for the character after
    it and counts the parentheses that are not escaped reads the text
    itself up to that parenthesis, whatever parentheses and backslashes
    the text has. *)
Theorem literal_ends_at_its_parenthesis (x y : float) (text : str) (font : string)
    (size : float) :
  (exists before,
     AppSummary.text_cmd x y text font size
     = before ++ u "(" ++ AppSummary.escape_pdf_text text ++ u ") Tj ET"
     /\ Placing.read_literal 0 (AppSummary.escape_pdf_text text ++ u ") Tj ET")
        = Some (text, u " Tj ET"))
  /\ (exists before,
        EngineVergleich.txt x y text font size
        = before ++ u "(" ++ EngineVergleich.esc text ++ u ") Tj ET"
        /\ Placing.read_literal 0 (EngineVergleich.esc text ++ u ") Tj ET")
           = Some (text, u " Tj ET")).
Proof.
  split.
  - exists (u "BT /" ++ u font ++ u " " ++ u (repr_float size) ++ u " Tf 1 0 0 1 "
            ++ u (format_f 2 x) ++ u " " ++ u (format_f 2 y) ++ u " Tm ").
    split.
    + unfold AppSummary.text_cmd. rewrite <- !app_assoc. reflexivity.
    + unfold AppSummary.escape_pdf_text. rewrite escape_is_flat_map.
      apply (read_literal_escaped text (u " Tj ET")).
  - exists (u "BT /" ++ u font ++ u " " ++ u (format_f 1 size) ++ u " Tf 1 0 0 1 "
            ++ u (format_f 2 x) ++ u " " ++ u (format_f 2 y) ++ u " Tm ").
    split.
    + unfold EngineVergleich.txt. rewrite <- !app_assoc. reflexivity.
    + unfold EngineVergleich.esc. rewrite escape_is_flat_map.
      apply (read_literal_escaped text (u " Tj ET")).
Qed.

(** X20. The lines of a paragraph have no whitespace of [textwrap] but
    spaces: for every text and width for which the paragraph call returns,
    in both scripts, no line that it places contains a tab, a line feed, a
    vertical tab, a form feed or a carriage return. *)
Theorem paragraph_lines_have_no_line_break {U : UnicodeTables} :
  (forall (text : str) (width : Z) (lines : list str),
     Textwrap.wrap text width = inr lines ->
     Forall (Forall Spec.munge_fixed) lines)
  /\ (forall (self self' : AppSummary.Layout) (text : str) (width : Z),
        AppSummary.add_paragraph self text width = (self', Returned) ->
        exists lines,
          AppSummary.commands self'
          = AppSummary.commands self
            ++ Spec.paragraph_commands (AppSummary.left self) (AppSummary.y self)
                 (AppSummary.body_size self) (AppSummary.body_leading self) lines
          /\ Forall (Forall Spec.munge_fixed) lines)
  /\ (forall (self self' : EngineVergleich.Page) (text : str) (width : Z),
        EngineVergleich.p self text width = (self', Returned) ->
        exists lines,
          EngineVergleich.commands self'
          = EngineVergleich.commands self
            ++ Spec.p_commands (EngineVergleich.left self) (EngineVergleich.y self) lines
          /\ Forall (Forall Spec.munge_fixed) lines).
Proof.
  split; [intros text width lines; apply wrap_munge_fixed |]. split.
  - intros self self' text width H.
    destruct (Textwrap.wrap text width) as [e | lines] eqn:Hw.
    + unfold AppSummary.add_paragraph in H. rewrite Hw in H. discriminate.
    + rewrite (add_paragraph_returns _ _ _ _ Hw) in H. injection H as <-.
      exists lines. split; [reflexivity | now apply (wrap_munge_fixed text width)].
  - intros self self' text width H.
    destruct (Textwrap.wrap text width) as [e | lines] eqn:Hw.
    + unfold EngineVergleich.p in H. rewrite Hw in H. discriminate.
    + rewrite (p_returns _ _ _ _ Hw) in H. injection H as <-.
      exists lines. split; [reflexivity | now apply (wrap_munge_fixed text width)].
Qed.

(** X21. How many lines the page takes: on a fresh layout, a paragraph
    that wraps to [n] lines, [n] at most 2^40, passes the check exactly
    when [n] is at most 58 in the app summary (cursor 752.0, leading 12.0,
    gap 4.0, margin 42.0) and at most 68 in the engine comparison (770.0,
    10.6, 2.0, 38.0), with the binary64 arithmetic of the code. *)
Theorem fresh_page_takes_58_and_68_lines {U : UnicodeTables} :
  (forall (text : str) (width : Z) (lines : list str),
     Textwrap.wrap text width = inr lines ->
     Z.of_nat (length lines) <= 2 ^ 40 ->
     AppSummary.check_fit (fst (AppSummary.add_paragraph AppSummary.Layout_init text width))
     = if (length lines <=? 58)%nat then Returned else Raised RuntimeError)
  /\ (forall (text : str) (width : Z) (lines : list str),
        Textwrap.wrap text width = inr lines ->
        Z.of_nat (length lines) <= 2 ^ 40 ->
        EngineVergleich.check (fst (EngineVergleich.p EngineVergleich.Page_init text width))
        = if (length lines <=? 68)%nat then Returned else Raised RuntimeError).
Proof.
  assert (Hstep : forall c, Spec.is_descent_step c = true -> Spec.descent_step c)
    by apply is_descent_step_sound.
  split.
  - intros text width lines Hw Hn.
    rewrite (add_paragraph_returns _ _ _ _ Hw). cbn [fst].
    unfold AppSummary.check_fit.
    cbn [AppSummary.y AppSummary.Layout_init AppSummary.body_leading].
    rewrite (capacity (length lines) 58 (decimal 7520 1) (decimal 120 1) (decimal 40 1)
               (decimal 420 1)); try assumption.
    + destruct (length lines <=? 58)%nat; reflexivity.
    + vm_compute. reflexivity.
    + split; [split; [vm_compute; reflexivity | exact I] |].
      apply Z.leb_le. vm_compute. reflexivity.
    + apply Hstep. vm_compute. reflexivity.
    + apply Hstep. vm_compute. reflexivity.
    + split; [vm_compute; reflexivity | exact I].
    + apply Z.leb_le. vm_compute. reflexivity.
  - intros text width lines Hw Hn.
    rewrite (p_returns _ _ _ _ Hw). cbn [fst].
    unfold EngineVergleich.check.
    cbn [EngineVergleich.y EngineVergleich.Page_init].
    rewrite (capacity (length lines) 68 (decimal 7700 1) (decimal 106 1) (decimal 20 1)
               (decimal 380 1)); try assumption.
    + destruct (length lines <=? 68)%nat; reflexivity.
    + vm_compute. reflexivity.
    + split; [split; [vm_compute; reflexivity | exact I] |].
      apply Z.leb_le. vm_compute. reflexivity.
    + apply Hstep. vm_compute. reflexivity.
    + apply Hstep. vm_compute. reflexivity.
    + split; [vm_compute; reflexivity | exact I].
    + apply Z.leb_le. vm_compute. reflexivity.
Qed.


(* ================================================================== *)
(** * Words and lines: what [textwrap] breaks                          *)
(* ================================================================== *)

(** ** [_split]: the chunks of a text *)

Section Chunks.
Context {U : UnicodeTables}.
Import Textwrap Words.

Lemma split_loop_enough (fuel : nat) :
  forall prev s extra,
    (length s <= fuel)%nat ->
    split_loop (fuel + extra) prev s = split_loop fuel prev s.
Proof.
  induction fuel as [| fuel IH]; intros prev s extra Hs.
  - destruct s; [| cbn in Hs; lia]. destruct extra; reflexivity.
  - cbn [Nat.add split_loop]. destruct s as [| c rest]; [reflexivity |].
    f_equal. apply IH. rewrite length_skipn.
    pose proof (chunk_length_positive prev c rest). cbn [length] in *. lia.
Qed.

Lemma chunks_from_nil (prev : str) : chunks_from prev [] = [].
Proof. reflexivity. Qed.

(** The first chunk, and the chunks of what stands behind it. *)
Lemma chunks_from_cons (prev : str) (c : N) (rest : str) :
  chunks_from prev (c :: rest)
  = firstn (chunk_length prev c rest) (c :: rest)
    :: chunks_from (rev (firstn (chunk_length prev c rest) (c :: rest)) ++ prev)
         (skipn (chunk_length prev c rest) (c :: rest)).
Proof.
  unfold chunks_from. cbn [length split_loop]. f_equal.
  set (n := chunk_length prev c rest).
  pose proof (chunk_length_positive prev c rest) as Hn. fold n in Hn.
  replace (length rest)
    with (length (skipn n (c :: rest))
          + (length rest - length (skipn n (c :: rest))))%nat.
  - apply split_loop_enough. lia.
  - rewrite length_skipn. cbn [length]. lia.
Qed.

Lemma split_chunks_from (text : str) :
  split_chunks text = chunks_from [] (munge_whitespace text).
Proof. reflexivity. Qed.

(** *** What whitespace and hyphens are not *)

Lemma ws_cases (c : N) :
  is_ws c = true -> c = 9%N \/ c = 10%N \/ c = 11%N \/ c = 12%N \/ c = 13%N \/ c = 32%N.
Proof.
  unfold is_ws. intros H.
  repeat (apply orb_prop in H; destruct H as [H | H]);
    apply N.eqb_eq in H; subst c; tauto.
Qed.

Lemma ws_not_w (c : N) : is_ws c = true -> is_w c = false.
Proof.
  intros H. destruct (ws_cases c H) as [-> | [-> | [-> | [-> | [-> | ->]]]]]; reflexivity.
Qed.

Lemma ws_not_letter (c : N) : is_ws c = true -> is_letter c = false.
Proof. intros H. unfold is_letter. now rewrite (ws_not_w c H). Qed.

Lemma ws_not_hyphen (c : N) : is_ws c = true -> is_hyphen c = false.
Proof.
  intros H. destruct (ws_cases c H) as [-> | [-> | [-> | [-> | [-> | ->]]]]]; reflexivity.
Qed.

Lemma ws_not_wp (c : N) : is_ws c = true -> is_wp c = false.
Proof.
  intros H. destruct (ws_cases c H) as [-> | [-> | [-> | [-> | [-> | ->]]]]]; reflexivity.
Qed.

Lemma hyphen_eq (c : N) : is_hyphen c = true -> c = HYPHEN.
Proof. unfold is_hyphen. apply N.eqb_eq. Qed.

Lemma hyphen_not_letter (c : N) : is_hyphen c = true -> is_letter c = false.
Proof. intros H. apply hyphen_eq in H. subst c. reflexivity. Qed.

Lemma hyphen_not_wp (c : N) : is_hyphen c = true -> is_wp c = false.
Proof. intros H. apply hyphen_eq in H. subst c. reflexivity. Qed.

Lemma hyphen_not_ws (c : N) : is_hyphen c = true -> is_ws c = false.
Proof. intros H. apply hyphen_eq in H. subst c. reflexivity. Qed.

(** *** What the chunks look at behind the word and before it *)

Lemma ahead_hyphenated_end (q t : str) :
  word_end t -> ahead_hyphenated (q ++ t) = ahead_hyphenated q.
Proof.
  intros Ht. destruct t as [| d t]; [now rewrite app_nil_r |]. cbn in Ht.
  pose proof (ws_not_letter d Ht) as Hl. pose proof (ws_not_hyphen d Ht) as Hh.
  destruct q as [| c1 [| c2 [| c3 q]]]; cbn [app ahead_hyphenated].
  - destruct t; [reflexivity |]. now rewrite Hl.
  - rewrite Hh, Hl. apply andb_false_r.
  - rewrite Hl. reflexivity.
  - reflexivity.
Qed.

Lemma run_hyphen_end (q t : str) :
  word_end t -> run is_hyphen (q ++ t) = run is_hyphen q.
Proof.
  intros Ht. induction q as [| c q IH]; cbn [app run].
  - destruct t as [| d t]; [reflexivity |]. cbn in Ht. cbn [run].
    now rewrite (ws_not_hyphen d Ht).
  - now rewrite IH.
Qed.

Lemma nth_run_hyphen_end (q t : str) :
  word_end t ->
  match nth_error (q ++ t) (run is_hyphen q) with
  | Some c => is_w c
  | None => false
  end
  = match nth_error q (run is_hyphen q) with
    | Some c => is_w c
    | None => false
    end.
Proof.
  intros Ht. induction q as [| c q IH]; cbn [app run].
  - destruct t as [| d t]; [reflexivity |]. cbn in Ht. cbn. apply (ws_not_w d Ht).
  - destruct (is_hyphen c); [exact IH | reflexivity].
Qed.

Lemma dashes_then_word_end (q t : str) :
  word_end t -> dashes_then_word (q ++ t) = dashes_then_word q.
Proof.
  intros Ht. unfold dashes_then_word.
  now rewrite (run_hyphen_end q t Ht), (nth_run_hyphen_end q t Ht).
Qed.

Lemma is_letter_SP : is_letter SP = false.
Proof. reflexivity. Qed.

Lemma behind_wp_sp (q r : str) : behind_wp (q ++ SP :: r) = behind_wp q.
Proof. destruct q; reflexivity. Qed.

Lemma behind_hyphenated_sp (q r : str) :
  behind_hyphenated (q ++ SP :: r) = behind_hyphenated q.
Proof.
  destruct q as [| a [| b [| c q]]]; cbn [app behind_hyphenated].
  - destruct r; [reflexivity |]. rewrite is_letter_SP. reflexivity.
  - rewrite is_letter_SP. change (is_hyphen SP) with false.
    now rewrite !andb_false_r.
  - rewrite is_letter_SP. reflexivity.
  - reflexivity.
Qed.

Lemma behind_wp_more (p x : str) :
  behind_wp p = true -> behind_wp (p ++ x) = true.
Proof. destruct p; [discriminate | trivial]. Qed.

Lemma behind_hyphenated_more (p x : str) :
  behind_hyphenated p = true -> behind_hyphenated (p ++ x) = true.
Proof.
  destruct p as [| a [| b [| c p]]]; cbn [app behind_hyphenated]; try discriminate;
    [| trivial].
  rewrite andb_false_r, orb_false_r. intros ->. reflexivity.
Qed.

(** A space behind the word hides what is before it. *)
Lemma word_more_sp (s : str) :
  forall q r, word_more (q ++ SP :: r) s = word_more q s.
Proof.
  induction s as [| c s IH]; intros q r; cbn [word_more]; [reflexivity |].
  rewrite behind_hyphenated_sp, behind_wp_sp.
  change (c :: q ++ SP :: r) with ((c :: q) ++ SP :: r). now rewrite IH.
Qed.

Lemma chunk_length_sp (q r : str) (c : N) (rest : str) :
  chunk_length (q ++ SP :: r) c rest = chunk_length q c rest.
Proof.
  unfold chunk_length. rewrite behind_wp_sp.
  change (c :: q ++ SP :: r) with ((c :: q) ++ SP :: r). now rewrite word_more_sp.
Qed.

Lemma split_loop_sp (fuel : nat) :
  forall q r s, split_loop fuel (q ++ SP :: r) s = split_loop fuel q s.
Proof.
  induction fuel as [| fuel IH]; intros q r s; cbn [split_loop]; [reflexivity |].
  destruct s as [| c rest]; [reflexivity |].
  rewrite chunk_length_sp. f_equal. rewrite app_assoc. apply IH.
Qed.

Lemma chunks_from_sp (r s : str) : chunks_from (SP :: r) s = chunks_from [] s.
Proof. unfold chunks_from. apply (split_loop_sp (length s) [] r s). Qed.

(** *** A chunk does not reach over whitespace *)

Lemma word_more_le_run (s : str) :
  forall prev, (word_more prev s <= word_run s)%nat.
Proof.
  unfold word_run. induction s as [| c s IH]; intros prev; cbn [word_more run]; [lia |].
  destruct (is_hyphen c && behind_hyphenated prev && ahead_hyphenated s) eqn:Hh.
  - apply andb_prop in Hh. destruct Hh as [Hh _]. apply andb_prop in Hh.
    destruct Hh as [Hh _]. rewrite (hyphen_not_ws c Hh). cbn [negb]. lia.
  - destruct (is_ws c); cbn [negb]; [lia |].
    destruct (behind_wp prev && dashes_then_word (c :: s)); [lia |].
    specialize (IH (c :: prev)). lia.
Qed.

Lemma run_hyphen_le_run (s : str) : (run is_hyphen s <= word_run s)%nat.
Proof.
  unfold word_run. induction s as [| c s IH]; cbn [run]; [lia |].
  destruct (is_hyphen c) eqn:Hh; [| lia].
  rewrite (hyphen_not_ws c Hh). cbn [negb]. lia.
Qed.

Lemma chunk_length_le_run (prev : str) (c : N) (rest : str) :
  is_ws c = false -> (chunk_length prev c rest <= word_run (c :: rest))%nat.
Proof.
  intros Hc. unfold chunk_length. rewrite Hc.
  destruct (behind_wp prev && dashes_then_word (c :: rest)).
  - apply run_hyphen_le_run.
  - unfold word_run. cbn [run]. rewrite Hc. cbn [negb].
    pose proof (word_more_le_run rest (c :: prev)). unfold word_run in *. lia.
Qed.

Lemma chunk_length_ws (prev : str) (c : N) (rest : str) :
  is_ws c = true -> chunk_length prev c rest = S (run is_ws rest).
Proof. intros Hc. unfold chunk_length. now rewrite Hc. Qed.

Lemma firstn_run (p : N -> bool) (s : str) :
  forall n, (n <= run p s)%nat -> Forall (fun c => p c = true) (firstn n s).
Proof.
  induction s as [| c s IH]; intros n Hn; [rewrite firstn_nil; constructor |].
  destruct n as [| n]; [constructor |]. cbn [run] in Hn. cbn [firstn].
  destruct (p c) eqn:Hc; [| lia].
  constructor; [assumption | apply IH; lia].
Qed.

Lemma firstn_word_run (s : str) (n : nat) :
  (n <= word_run s)%nat -> unspaced (firstn n s).
Proof.
  intros Hn. pose proof (firstn_run _ s n Hn) as H. unfold unspaced.
  eapply Forall_impl; [| exact H]. intros c Hc. now apply negb_true_iff in Hc.
Qed.

(** The first chunk is not empty, and it is whitespace or has none. *)
Lemma first_chunk_kind (prev : str) (c : N) (rest : str) :
  chunk_kind (firstn (chunk_length prev c rest) (c :: rest)).
Proof.
  pose proof (chunk_length_positive prev c rest) as Hn. split.
  - destruct (chunk_length prev c rest); [lia | discriminate].
  - destruct (is_ws c) eqn:Hc.
    + left. rewrite (chunk_length_ws _ _ _ Hc). cbn [firstn].
      constructor; [assumption |]. apply (firstn_run is_ws). lia.
    + right. apply firstn_word_run. now apply chunk_length_le_run.
Qed.

Lemma split_loop_kinds (fuel : nat) :
  forall prev s, Forall chunk_kind (split_loop fuel prev s).
Proof.
  induction fuel as [| fuel IH]; intros prev s; cbn [split_loop]; [constructor |].
  destruct s as [| c rest]; [constructor |].
  constructor; [apply first_chunk_kind | apply IH].
Qed.

(** *** Where two chunks meet *)

(** Why [word_more] stops: at the end, before whitespace, before a
    hyphen, or behind one. *)
Lemma word_more_stops (s : str) :
  forall prev,
    match skipn (word_more prev s) s with
    | [] => True
    | d :: _ => is_ws d = true \/ is_hyphen d = true
    end
    \/ last (firstn (word_more prev s) s) 0%N = HYPHEN.
Proof.
  induction s as [| c s IH]; intros prev; cbn [word_more]; [now left |].
  destruct (is_hyphen c && behind_hyphenated prev && ahead_hyphenated s) eqn:Hh.
  - right. apply andb_prop in Hh. destruct Hh as [Hh _]. apply andb_prop in Hh.
    destruct Hh as [Hh _]. cbn. now apply hyphen_eq.
  - destruct (is_ws c) eqn:Hw; [left; cbn; now left |].
    destruct (behind_wp prev && dashes_then_word (c :: s)) eqn:Hd.
    + left. cbn [skipn]. right.
      apply andb_prop in Hd. destruct Hd as [_ Hd]. unfold dashes_then_word in Hd.
      apply andb_prop in Hd. destruct Hd as [Hd _]. cbn [run] in Hd.
      destruct (is_hyphen c); [reflexivity | discriminate].
    + destruct (IH (c :: prev)) as [Hs | Hl]; [left; exact Hs | right].
      cbn [firstn]. destruct (firstn (word_more (c :: prev) s) s) as [| e l] eqn:Hf.
      * cbn in Hl. discriminate.
      * exact Hl.
Qed.

Lemma last_firstn_run (p : N -> bool) (s : str) :
  (1 <= run p s)%nat -> p (last (firstn (run p s) s) 0%N) = true.
Proof.
  induction s as [| c s IH]; cbn [run]; [lia |].
  destruct (p c) eqn:Hc; [| lia]. intros _. cbn [firstn].
  destruct s as [| d s]; [exact Hc |]. cbn [run] in *.
  destruct (p d) eqn:Hd; [| exact Hc].
  change (last (c :: firstn (S (run p s)) (d :: s)) 0%N)
    with (last (firstn (S (run p s)) (d :: s)) 0%N).
  apply IH. lia.
Qed.

(** The boundary of the first chunk with the next. *)
Lemma first_boundary (prev : str) (c : N) (rest : str) (prev' : str) (c' : N)
    (rest' : str) :
  skipn (chunk_length prev c rest) (c :: rest) = c' :: rest' ->
  word_boundary (firstn (chunk_length prev c rest) (c :: rest))
                (firstn (chunk_length prev' c' rest') (c' :: rest')).
Proof.
  intros Hs. pose proof (chunk_length_positive prev' c' rest') as Hn'.
  assert (Hhd : hd 0%N (firstn (chunk_length prev' c' rest') (c' :: rest')) = c').
  { destruct (chunk_length prev' c' rest'); [lia | reflexivity]. }
  destruct (is_ws c) eqn:Hc.
  { left. destruct (first_chunk_kind prev c rest) as [_ [Hk | Hk]]; [exact Hk |].
    pose proof (chunk_length_positive prev c rest) as Hn.
    destruct (chunk_length prev c rest); [lia |]. cbn [firstn] in Hk.
    inversion Hk; subst. congruence. }
  revert Hs. unfold chunk_length at 1 2. rewrite Hc.
  destruct (behind_wp prev && dashes_then_word (c :: rest)) eqn:Hd.
  - intros _. right. right. left.
    apply andb_prop in Hd. destruct Hd as [_ Hd]. unfold dashes_then_word in Hd.
    apply andb_prop in Hd. destruct Hd as [Hd _]. apply Nat.leb_le in Hd.
    apply hyphen_eq. apply last_firstn_run. lia.
  - cbn [skipn firstn]. intros Hs.
    destruct (word_more_stops rest (c :: prev)) as [Hstop | Hl].
    + rewrite Hs in Hstop. destruct Hstop as [Hw | Hh].
      * right. left.
        destruct (first_chunk_kind prev' c' rest') as [_ [Hk | Hk]]; [exact Hk |].
        destruct (chunk_length prev' c' rest'); [lia |]. cbn [firstn] in Hk.
        inversion Hk; subst. congruence.
      * right. right. right. rewrite Hhd. now apply hyphen_eq.
    + right. right. left.
      destruct (firstn (word_more (c :: prev) rest) rest) as [| e l] eqn:Hf.
      * cbn in Hl. discriminate.
      * exact Hl.
Qed.

Lemma split_loop_boundaries (fuel : nat) :
  forall prev s l1 a b l2,
    split_loop fuel prev s = l1 ++ a :: b :: l2 -> word_boundary a b.
Proof.
  induction fuel as [| fuel IH]; intros prev s l1 a b l2 H; cbn [split_loop] in H.
  - destruct l1; discriminate.
  - destruct s as [| c rest]; [destruct l1; discriminate |].
    destruct l1 as [| x l1].
    + cbn [app] in H. injection H as Ha Hb. subst a.
      destruct fuel as [| fuel]; [discriminate |]. cbn [split_loop] in Hb.
      destruct (skipn (chunk_length prev c rest) (c :: rest)) as [| c' rest'] eqn:Hs;
        [discriminate |].
      injection Hb as Hb _. subst b. now apply first_boundary.
    + cbn [app] in H. injection H as _ H. now apply (IH _ _ _ _ _ _ H).
Qed.

End Chunks.

(** ** [_wrap_chunks]: the lines are runs of chunks *)

Section Lines.
Import Textwrap Words.

Lemma cuts_long_app (width : Z) (l : list str) :
  forall cs ps, cuts_long width cs ps -> cuts_long width (l ++ cs) (l ++ ps).
Proof.
  induction l as [| c l IH]; intros cs ps H; [exact H |].
  cbn [app]. apply cuts_whole. now apply IH.
Qed.

Lemma lines_of_dropped (l : list str) :
  forall ps ls,
    Forall (fun p => blank p = true) l -> lines_of ps ls -> lines_of (l ++ ps) ls.
Proof.
  induction l as [| p l IH]; intros ps ls Hl H; [exact H |].
  inversion Hl; subst. cbn [app]. apply lines_drop; [assumption | now apply IH].
Qed.

(** What one turn of the loop does with the chunks it takes: the pieces
    [used], of which the line [new] is made, if one is. *)
Lemma wrap_step_pieces (width : Z) (chunks lines chunks' lines' : list str) :
  1 <= width ->
  wrap_step width chunks lines = (chunks', lines') ->
  exists used new,
    lines' = lines ++ new
    /\ (forall ps, cuts_long width chunks' ps -> cuts_long width chunks (used ++ ps))
    /\ (forall ps ls, lines_of ps ls -> lines_of (used ++ ps) (new ++ ls)).
Proof.
  intros Hw H. unfold wrap_step in H.
  set (chunks0 := match chunks with
                  | first :: rest => if blank first && nonempty lines then rest else chunks
                  | [] => chunks
                  end) in H.
  assert (Hlead : exists lead, chunks = lead ++ chunks0
                               /\ Forall (fun p => blank p = true) lead).
  { subst chunks0. destruct chunks as [| first rest]; [exists []; split; [reflexivity | constructor] |].
    destruct (blank first && nonempty lines) eqn:Hb.
    - exists [first]. split; [reflexivity |]. apply andb_prop in Hb.
      constructor; [tauto | constructor].
    - exists []. split; [reflexivity | constructor]. }
  destruct Hlead as [lead [Hchunks Hblank]].
  destruct (fill_line chunks0 [] 0 width) as [[chunks1 cur_line1] cur_len1] eqn:Hfill.
  destruct (fill_line_prefix _ _ _ _ _ _ _ Hfill) as [taken [Hsplit [Hline [Hlen _]]]].
  cbn [app] in Hline. subst cur_line1.
  assert (Hf : cur_len1 = len (concat taken) /\ cur_len1 <= width).
  { apply (fill_line_width _ _ _ _ _ _ _ Hfill); [reflexivity | lia]. }
  destruct Hf as [Hf1 Hf2].
  assert (Hcut : exists cutp chunks2,
            match chunks1 with
            | chunk :: _ =>
                if width <? len chunk
                then handle_long_word chunks1 taken cur_len1 width
                else (chunks1, taken)
            | [] => (chunks1, taken)
            end = (chunks2, taken ++ cutp)
            /\ (forall ps, cuts_long width chunks2 ps -> cuts_long width chunks1 (cutp ++ ps))).
  { destruct chunks1 as [| chunk rest].
    - exists [], []. rewrite app_nil_r. split; [reflexivity | trivial].
    - destruct (width <? len chunk) eqn:Hlong.
      + apply Z.ltb_lt in Hlong.
        destruct (handle_long_word_cut width cur_len1 chunk rest taken Hw)
          as [end_ [Hh Hend]].
        exists [take end_ chunk], (drop end_ chunk :: rest). split; [exact Hh |].
        intros ps Hps. cbn [app]. apply cuts_cut; [assumption | | assumption].
        pose proof (len_nonneg (concat taken)). lia.
      + exists [], (chunk :: rest). rewrite app_nil_r. split; [reflexivity | trivial]. }
  destruct Hcut as [cutp [chunks2 [Hlong Hcuts]]].
  rewrite Hlong in H. injection H as <- <-.
  set (cur_line2 := taken ++ cutp) in *.
  set (cur_line3 := if nonempty cur_line2 && blank (last cur_line2 [])
                    then removelast cur_line2 else cur_line2).
  exists (lead ++ cur_line2), (if nonempty cur_line3 then [concat cur_line3] else []).
  split; [| split].
  - destruct (nonempty cur_line3); [reflexivity | now rewrite app_nil_r].
  - intros ps Hps. rewrite Hchunks, Hsplit, <- !app_assoc.
    apply cuts_long_app. subst cur_line2. rewrite <- app_assoc.
    apply cuts_long_app. now apply Hcuts.
  - intros ps ls Hpl. rewrite <- app_assoc. apply lines_of_dropped; [assumption |].
    subst cur_line3. destruct (nonempty cur_line2 && blank (last cur_line2 [])) eqn:Hb.
    + apply andb_prop in Hb. destruct Hb as [Hne Hbl].
      assert (Hn : cur_line2 <> []) by (destruct cur_line2; [discriminate | discriminate]).
      assert (E : cur_line2 ++ ps = removelast cur_line2 ++ last cur_line2 [] :: ps).
      { rewrite (app_removelast_last [] Hn) at 1. now rewrite <- app_assoc. }
      rewrite E.
      destruct (removelast cur_line2) as [| r l] eqn:Hr.
      * cbn [nonempty app]. now apply lines_drop.
      * cbn [nonempty]. change ([concat (r :: l)] ++ ls) with (concat (r :: l) :: ls).
        apply lines_line; [discriminate |]. now apply lines_drop.
    + destruct cur_line2 as [| r l]; [exact Hpl |].
      cbn [nonempty]. change ([concat (r :: l)] ++ ls) with (concat (r :: l) :: ls).
      apply lines_line; [discriminate | assumption].
Qed.

Lemma wrap_loop_pieces (width : Z) (fuel : nat) :
  forall chunks lines,
    1 <= width -> (weight chunks <= fuel)%nat ->
    exists pieces more,
      wrap_loop fuel width chunks lines = lines ++ more
      /\ cuts_long width chunks pieces
      /\ lines_of pieces more.
Proof.
  induction fuel as [| fuel IH]; intros chunks lines Hw Hf.
  - destruct chunks as [| c chunks]; [| rewrite weight_cons in Hf; lia].
    exists [], []. cbn. rewrite app_nil_r. repeat split; constructor.
  - cbn [wrap_loop]. destruct chunks as [| c chunks].
    + exists [], []. rewrite app_nil_r. repeat split; constructor.
    + destruct (wrap_step width (c :: chunks) lines) as [chunks' lines'] eqn:Hstep.
      pose proof (wrap_step_lighter _ _ _ _ _ _ Hw Hstep) as Hlight.
      destruct (wrap_step_pieces _ _ _ _ _ Hw Hstep) as [used [new [-> [Hcuts Hlines]]]].
      destruct (IH chunks' (lines ++ new) Hw ltac:(lia)) as [pieces [more [-> [Hc Hl]]]].
      exists (used ++ pieces), (new ++ more). rewrite <- app_assoc.
      split; [reflexivity |]. split; [now apply Hcuts | now apply Hlines].
Qed.

(** The lines of [wrap] are runs of the chunks of the text; a chunk is
    cut only when it is longer than the width, and only whitespace is
    left out. *)
Lemma wrap_pieces {U : UnicodeTables} (text : str) (width : Z) (lines : list str) :
  wrap text width = inr lines ->
  exists pieces,
    cuts_long width (split_chunks text) pieces /\ lines_of pieces lines.
Proof.
  intros H. pose proof (wrap_width_positive _ _ _ H) as Hw.
  unfold wrap, wrap_chunks in H. destruct (width <=? 0); [discriminate |].
  injection H as <-.
  destruct (wrap_loop_pieces width (weight (split_chunks text)) (split_chunks text) []
              Hw ltac:(lia)) as [pieces [more [Heq [Hc Hl]]]].
  exists pieces. rewrite Heq. cbn [app]. now split.
Qed.

(** The chunks of a text: together the text with its whitespace made
    spaces, each of them whitespace or without any, and two in a row meet
    at whitespace or at a hyphen. *)
Lemma split_chunks_words {U : UnicodeTables} (text : str) :
  concat (split_chunks text) = munge_whitespace text
  /\ Forall chunk_kind (split_chunks text)
  /\ (forall l1 a b l2, split_chunks text = l1 ++ a :: b :: l2 -> word_boundary a b).
Proof.
  split; [apply concat_split_chunks |]. split; [apply split_loop_kinds |].
  intros l1 a b l2. apply split_loop_boundaries.
Qed.

End Lines.

(** ** Texts of words with single spaces *)

Section Spaced.
Context {U : UnicodeTables}.
Import Spec Textwrap Words.

Lemma not_space_not_ws (c : N) : isspace c = false -> is_ws c = false.
Proof.
  intros H. destruct (is_ws c) eqn:Hw; [| reflexivity].
  apply is_ws_isspace in Hw. congruence.
Qed.

Lemma word_unspaced (w : str) : word w -> unspaced w.
Proof.
  intros [_ H]. eapply Forall_impl; [| exact H]. apply not_space_not_ws.
Qed.

Lemma blank_cons (c : N) (a : str) : isspace c = false -> blank (c :: a) = false.
Proof. intros H. unfold blank. cbn [forallb]. now rewrite H. Qed.

Lemma spaced_head (s : str) :
  spaced s -> exists c r, s = c :: r /\ isspace c = false.
Proof. intros H. destruct H; eauto. Qed.

Lemma spaced_not_nil (s : str) : spaced s -> s <> [].
Proof. intros H. destruct H; discriminate. Qed.

Lemma spaced_last_char (s : str) :
  spaced s -> exists y d, s = y ++ [d] /\ isspace d = false.
Proof.
  induction 1 as [c Hc | c s Hc _ [y [d [-> Hd]]] | c s Hc _ [y [d [-> Hd]]]].
  - exists [], c. now split.
  - exists (c :: y), d. now split.
  - exists (c :: SP :: y), d. now split.
Qed.

Lemma spaced_fixed (s : str) : spaced s -> Forall munge_fixed s.
Proof.
  induction 1 as [c Hc | c s Hc _ IH | c s Hc _ IH].
  - constructor; [right; now apply not_space_not_ws | constructor].
  - constructor; [right; now apply not_space_not_ws | assumption].
  - constructor; [right; now apply not_space_not_ws |].
    constructor; [now left | assumption].
Qed.

Lemma word_spaced (w : str) : word w -> spaced w.
Proof.
  intros [Hne H]. induction H as [| c w Hc Hw IH]; [congruence |].
  destruct w as [| d w]; [now apply spaced_last |].
  apply spaced_char; [assumption |]. apply IH. discriminate.
Qed.

(** Two such texts with a space between them are one. *)
Lemma spaced_app_space (a b : str) : spaced a -> spaced b -> spaced (a ++ SP :: b).
Proof.
  intros Ha Hb. induction Ha as [c Hc | c s Hc _ IH | c s Hc _ IH]; cbn [app].
  - now apply spaced_space.
  - now apply spaced_char.
  - now apply spaced_space.
Qed.

Lemma spaced_join_lines (lines : list str) :
  lines <> [] -> Forall spaced lines -> spaced (join space lines).
Proof.
  intros Hne H. induction H as [| l lines Hl Hls IH]; [congruence |].
  destruct lines as [| l' lines]; [exact Hl |].
  change (join space (l :: l' :: lines)) with (l ++ SP :: join space (l' :: lines)).
  apply spaced_app_space; [assumption |]. apply IH. discriminate.
Qed.

Lemma join_cons_cons (l : str) (lines : list str) :
  lines <> [] -> join space (l :: lines) = l ++ SP :: join space lines.
Proof. destruct lines; [congruence | reflexivity]. Qed.

(** The first word of the text, and what stands behind it. *)
Lemma spaced_word (s : str) :
  spaced s ->
  exists w t,
    s = w ++ t /\ word w /\ (t = [] \/ exists t0, t = SP :: t0 /\ spaced t0).
Proof.
  induction 1 as [c Hc | c s Hc _ [w [t [-> [[Hne Hw] Ht]]]] | c s Hc Hs _].
  - exists [c], []. split; [reflexivity |]. split; [| now left].
    split; [discriminate | now constructor].
  - exists (c :: w), t. split; [reflexivity |]. split; [| exact Ht].
    split; [discriminate | now constructor].
  - exists [c], (SP :: s). split; [reflexivity |]. split; [| right; eauto].
    split; [discriminate | now constructor].
Qed.

(** A text cut in two: inside a word, before a space, or behind one. *)
Lemma spaced_app_inv (s : str) :
  spaced s ->
  forall a b, s = a ++ b -> a <> [] -> b <> [] ->
    (spaced a /\ spaced b)
    \/ (spaced a /\ exists b', b = SP :: b' /\ spaced b')
    \/ (exists a', a = a' ++ [SP] /\ spaced a' /\ spaced b).
Proof.
  induction 1 as [c Hc | c s Hc Hs IH | c s Hc Hs IH]; intros a b E Ha Hb.
  - destruct a as [| x [| y a]]; [congruence | |]; cbn in E.
    + injection E as _ E. congruence.
    + discriminate.
  - destruct a as [| x a]; [congruence |]. cbn [app] in E. injection E as <- E.
    destruct a as [| y a].
    + cbn [app] in E. subst b. left. split; [now apply spaced_last | assumption].
    + destruct (IH (y :: a) b E ltac:(discriminate) Hb)
        as [[H1 H2] | [[H1 [b' [-> H2]]] | [a' [E' [H1 H2]]]]].
      * left. split; [now apply spaced_char | assumption].
      * right. left. split; [now apply spaced_char | eauto].
      * right. right. exists (c :: a'). rewrite E'. split; [reflexivity |].
        split; [| assumption]. now apply spaced_char.
  - destruct a as [| x a]; [congruence |]. cbn [app] in E. injection E as <- E.
    destruct a as [| y a].
    + cbn [app] in E. subst b. right. left. split; [now apply spaced_last | eauto].
    + cbn [app] in E. injection E as <- E. destruct a as [| z a].
      * cbn [app] in E. subst b. right. right. exists [c]. split; [reflexivity |].
        split; [now apply spaced_last | assumption].
      * destruct (IH (z :: a) b E ltac:(discriminate) Hb)
          as [[H1 H2] | [[H1 [b' [-> H2]]] | [a' [E' [H1 H2]]]]].
        -- left. split; [now apply spaced_space | assumption].
        -- right. left. split; [now apply spaced_space | eauto].
        -- right. right. exists (c :: SP :: a'). rewrite E'. split; [reflexivity |].
           split; [| assumption]. now apply spaced_space.
Qed.

(** *** The length of a word *)

Lemma run_le_length (p : N -> bool) (s : str) : (run p s <= length s)%nat.
Proof.
  induction s as [| c s IH]; cbn [run length]; [lia |]. destruct (p c); lia.
Qed.

Lemma word_run_word (w t : str) :
  unspaced w -> word_end t -> word_run (w ++ t) = length w.
Proof.
  unfold word_run. intros Hw Ht. induction Hw as [| c w Hc _ IH]; cbn [app run length].
  - destruct t as [| d t]; [reflexivity |]. cbn in Ht. cbn [run]. now rewrite Ht.
  - rewrite Hc. cbn [negb]. now rewrite IH.
Qed.

Lemma short_words_skipn (width : Z) (s : str) (n : nat) :
  short_words width s -> short_words width (skipn n s).
Proof. intros H m. rewrite skipn_skipn. apply H. Qed.

Lemma short_words_app (width : Z) (a b : str) :
  short_words width (a ++ b) -> short_words width b.
Proof.
  intros H. rewrite <- (skipn_length_app a b). now apply short_words_skipn.
Qed.

Lemma short_words_head (width : Z) (s : str) :
  short_words width s -> Z.of_nat (word_run s) <= width.
Proof. intros H. apply (H O). Qed.

End Spaced.

(** ** The chunks of such a text *)

Section SpacedChunks.
Context {U : UnicodeTables}.
Import Spec Textwrap Words.

Lemma chunks_from_kinds (prev s : str) : Forall chunk_kind (chunks_from prev s).
Proof. apply split_loop_kinds. Qed.

Lemma concat_chunks_from (prev s : str) : concat (chunks_from prev s) = s.
Proof. apply concat_split_loop. lia. Qed.

(** The chunks behind some of them are the chunks of the text behind
    theirs. *)
Lemma chunks_from_suffix (taken : list str) :
  forall prev s rest,
    chunks_from prev s = taken ++ rest ->
    exists x s1,
      s = x ++ s1 /\ concat taken = x /\ rest = chunks_from (rev x ++ prev) s1.
Proof.
  induction taken as [| a taken IH]; intros prev s rest H.
  - exists [], s. cbn. auto.
  - destruct s as [| c r]; [discriminate |].
    rewrite chunks_from_cons in H. cbn [app] in H. injection H as Ha Hr.
    destruct (IH _ _ _ Hr) as [x [s1 [Hs [Hc Hrest]]]].
    exists (a ++ x), s1. split; [| split].
    + rewrite <- app_assoc, <- Hs, <- Ha. symmetry. apply firstn_skipn.
    + cbn [concat]. now rewrite Hc.
    + rewrite rev_app_distr, <- app_assoc, <- Ha. exact Hrest.
Qed.

Lemma chunks_from_space (prev : str) (c : N) (s : str) :
  is_ws c = false ->
  chunks_from prev (SP :: c :: s) = space :: chunks_from (SP :: prev) (c :: s).
Proof.
  intros Hc. rewrite chunks_from_cons.
  assert (E : chunk_length prev SP (c :: s) = 1%nat).
  { unfold chunk_length. change (is_ws SP) with true. cbn iota. cbn [run].
    now rewrite Hc. }
  rewrite E. reflexivity.
Qed.

(** The chunks of a word end with the word. *)
Lemma chunks_from_word (n : nat) :
  forall w prev t,
    (length w <= n)%nat -> w <> [] -> unspaced w -> word_end t ->
    exists A,
      chunks_from prev (w ++ t) = A ++ chunks_from (rev w ++ prev) t
      /\ concat A = w.
Proof.
  induction n as [| n IH]; intros w prev t Hn Hne Hw Ht.
  - destruct w; [congruence | cbn in Hn; lia].
  - destruct w as [| c q]; [congruence |].
    cbn [app]. rewrite chunks_from_cons.
    set (k := chunk_length prev c (q ++ t)).
    assert (Hk : (1 <= k <= length (c :: q))%nat).
    { split; [apply chunk_length_positive |].
      inversion Hw as [| ? ? Hc Hq]; subst.
      pose proof (chunk_length_le_run prev c (q ++ t) Hc) as Hr.
      change (c :: q ++ t) with ((c :: q) ++ t) in Hr.
      now rewrite (word_run_word (c :: q) t Hw Ht) in Hr. }
    clearbody k. change (c :: q ++ t) with ((c :: q) ++ t).
    assert (Hf : firstn k ((c :: q) ++ t) = firstn k (c :: q)).
    { rewrite firstn_app. replace (k - length (c :: q))%nat with O by lia.
      apply app_nil_r. }
    assert (Hs : skipn k ((c :: q) ++ t) = skipn k (c :: q) ++ t).
    { rewrite skipn_app. now replace (k - length (c :: q))%nat with O by lia. }
    rewrite Hf, Hs.
    destruct (skipn k (c :: q)) as [| d w'] eqn:Hsk.
    + assert (E : firstn k (c :: q) = c :: q).
      { rewrite <- (firstn_skipn k (c :: q)) at 2. rewrite Hsk. now rewrite app_nil_r. }
      exists [c :: q]. rewrite E. cbn [app concat]. rewrite app_nil_r. now split.
    + destruct (IH (d :: w') (rev (firstn k (c :: q)) ++ prev) t) as [A [HA Hc]].
      * rewrite <- Hsk, length_skipn. cbn [length] in *. lia.
      * discriminate.
      * rewrite <- Hsk. now apply Forall_skipn.
      * exact Ht.
      * exists (firstn k (c :: q) :: A). split.
        -- rewrite HA. change ((firstn k (c :: q) :: A) ++ ?r)
             with (firstn k (c :: q) :: A ++ r). do 3 f_equal.
           rewrite app_assoc, <- rev_app_distr, <- Hsk, firstn_skipn. reflexivity.
        -- cbn [concat]. rewrite Hc, <- Hsk. apply firstn_skipn.
Qed.

(** The chunks of a text before a space end with the text, and the
    space is a chunk. *)
Lemma chunks_from_block (n : nat) :
  forall x prev y,
    (length x <= n)%nat -> spaced x -> spaced y ->
    exists B,
      chunks_from prev (x ++ SP :: y)
      = B ++ space :: chunks_from (SP :: rev x ++ prev) y
      /\ concat B = x.
Proof.
  induction n as [| n IH]; intros x prev y Hn Hx Hy.
  - destruct (spaced_not_nil _ Hx). destruct x; [reflexivity | cbn in Hn; lia].
  - destruct (spaced_word x Hx) as [w [t [-> [Hw Ht]]]].
    destruct (spaced_head y Hy) as [c [r [-> Hc]]].
    apply not_space_not_ws in Hc.
    destruct Ht as [-> | [t0 [-> Ht0]]].
    + rewrite app_nil_r.
      destruct (chunks_from_word (length w) w prev (SP :: c :: r) (le_n _) (proj1 Hw)
                  (word_unspaced _ Hw) eq_refl) as [A [HA HcA]].
      exists A. rewrite HA, chunks_from_space by assumption. now split.
    + rewrite <- app_assoc. cbn [app].
      destruct (chunks_from_word (length w) w prev (SP :: t0 ++ SP :: c :: r) (le_n _)
                  (proj1 Hw) (word_unspaced _ Hw) eq_refl) as [A [HA HcA]].
      rewrite HA.
      destruct (spaced_head t0 Ht0) as [c0 [r0 [E0 Hc0]]].
      apply not_space_not_ws in Hc0.
      assert (Hsp : chunks_from (rev w ++ prev) (SP :: t0 ++ SP :: c :: r)
                    = space :: chunks_from (SP :: rev w ++ prev) (t0 ++ SP :: c :: r)).
      { rewrite E0. cbn [app]. now apply chunks_from_space. }
      rewrite Hsp.
      destruct (IH t0 (SP :: rev w ++ prev) (c :: r)) as [B0 [HB0 HcB0]];
        [rewrite length_app in Hn; cbn [length] in Hn; lia | assumption | assumption |].
      exists (A ++ space :: B0). split.
      * rewrite HB0, <- app_assoc. cbn [app]. do 4 f_equal.
        rewrite rev_app_distr. cbn [rev]. rewrite <- !app_assoc. reflexivity.
      * rewrite concat_app. cbn [concat]. now rewrite HcA, HcB0.
Qed.

(** *** The first chunk of a word is no shorter at the head of a line *)

Lemma word_more_hyphens (s : str) :
  forall h p, is_hyphen h = true -> (run is_hyphen s <= word_more (h :: p) s)%nat.
Proof.
  induction s as [| c s IH]; intros h p Hh; cbn [run word_more]; [lia |].
  destruct (is_hyphen c) eqn:Hc; [| lia].
  assert (Hb : behind_hyphenated (h :: p) = false).
  { destruct p; cbn [behind_hyphenated]; [reflexivity |].
    now rewrite (hyphen_not_letter h Hh). }
  assert (Hp : behind_wp (h :: p) = false) by (cbn; now apply hyphen_not_wp).
  rewrite Hb, Hp, (hyphen_not_ws c Hc). cbn [andb].
  specialize (IH c (h :: p) Hc). lia.
Qed.

Lemma ahead_dashes_clash (c : N) (q : str) :
  ahead_hyphenated q = true -> dashes_then_word (c :: q) = true -> False.
Proof.
  intros Ha Hd. destruct q as [| c1 [| c2 q]]; cbn [ahead_hyphenated] in Ha;
    try discriminate.
  apply andb_prop in Ha. destruct Ha as [Hl _].
  unfold dashes_then_word in Hd. cbn [run] in Hd.
  destruct (is_hyphen c); [| discriminate].
  destruct (is_hyphen c1) eqn:Hh1; [| discriminate].
  rewrite (hyphen_not_letter _ Hh1) in Hl. discriminate.
Qed.

(** With less text behind the word, and whitespace or nothing after it,
    a chunk ends no earlier. *)
Lemma word_more_mono (q : str) :
  forall p x t1 t2,
    word_end t1 -> word_end t2 ->
    (word_more (p ++ x) (q ++ t1) <= word_more p (q ++ t2))%nat.
Proof.
  induction q as [| c q IH]; intros p x t1 t2 H1 H2.
  - cbn [app]. destruct t1 as [| d t1]; [cbn; lia |]. cbn in H1. cbn [word_more].
    rewrite (ws_not_hyphen d H1), H1. cbn. lia.
  - cbn [app word_more].
    rewrite (ahead_hyphenated_end q t1 H1), (ahead_hyphenated_end q t2 H2).
    change (c :: q ++ t1) with ((c :: q) ++ t1).
    change (c :: q ++ t2) with ((c :: q) ++ t2).
    rewrite (dashes_then_word_end (c :: q) t1 H1), (dashes_then_word_end (c :: q) t2 H2).
    destruct (is_hyphen c && behind_hyphenated p && ahead_hyphenated q) eqn:Hn.
    + apply andb_prop in Hn. destruct Hn as [Hn Ha]. apply andb_prop in Hn.
      destruct Hn as [Hh Hb]. rewrite Hh, (behind_hyphenated_more p x Hb), Ha.
      cbn. lia.
    + destruct (is_hyphen c && behind_hyphenated (p ++ x) && ahead_hyphenated q) eqn:Ho.
      * apply andb_prop in Ho. destruct Ho as [Ho Ha]. apply andb_prop in Ho.
        destruct Ho as [Hh _]. rewrite (hyphen_not_ws c Hh).
        destruct (behind_wp p && dashes_then_word (c :: q)) eqn:En; [| lia].
        apply andb_prop in En. destruct En as [_ Ed].
        destruct (ahead_dashes_clash c q Ha Ed).
      * destruct (is_ws c); [lia |].
        destruct (behind_wp p && dashes_then_word (c :: q)) eqn:En.
        -- apply andb_prop in En. destruct En as [Eb Ed].
           rewrite (behind_wp_more p x Eb), Ed. cbn. lia.
        -- destruct (behind_wp (p ++ x) && dashes_then_word (c :: q)); [lia |].
           specialize (IH (c :: p) x t1 t2 H1 H2). cbn [app] in IH. lia.
Qed.

Lemma first_len_mono (w t1 t2 prev : str) :
  w <> [] -> unspaced w -> word_end t1 -> word_end t2 ->
  (first_len prev (w ++ t1) <= first_len [] (w ++ t2))%nat.
Proof.
  intros Hne Hw H1 H2. destruct w as [| c q]; [congruence |].
  inversion Hw as [| ? ? Hc Hq]; subst.
  cbn [app first_len]. unfold chunk_length. rewrite Hc.
  change (behind_wp [] && dashes_then_word (c :: q ++ t2)) with false. cbn iota.
  destruct (behind_wp prev && dashes_then_word (c :: q ++ t1)) eqn:Hd.
  - apply andb_prop in Hd. destruct Hd as [_ Hd]. unfold dashes_then_word in Hd.
    apply andb_prop in Hd. destruct Hd as [Hd _]. apply Nat.leb_le in Hd.
    cbn [run] in *. destruct (is_hyphen c) eqn:Hh; [| lia].
    rewrite (run_hyphen_end q t1 H1). rewrite <- (run_hyphen_end q t2 H2).
    pose proof (word_more_hyphens (q ++ t2) c [] Hh). lia.
  - pose proof (word_more_mono q [c] prev t1 t2 H1 H2) as Hm. cbn [app] in Hm. lia.
Qed.

(** The first chunk of a text that begins with a word is within the
    word. *)
Lemma first_len_word (w t prev : str) :
  w <> [] -> unspaced w -> word_end t ->
  (1 <= first_len prev (w ++ t) <= length w)%nat.
Proof.
  intros Hne Hw Ht. destruct w as [| c q]; [congruence |].
  inversion Hw as [| ? ? Hc Hq]; subst. cbn [app first_len]. split.
  - apply chunk_length_positive.
  - pose proof (chunk_length_le_run prev c (q ++ t) Hc) as Hr.
    change (c :: q ++ t) with ((c :: q) ++ t) in Hr.
    now rewrite (word_run_word (c :: q) t Hw Ht) in Hr.
Qed.

End SpacedChunks.

(** ** Wrapping the lines again *)

Section Rewrap.
Context {U : UnicodeTables}.
Import Spec Textwrap Words.

Variable width : Z.
Hypothesis width_positive : 1 <= width.

(** Chunks that fit together are taken together. *)
Lemma fill_line_block (A : list str) :
  forall rest cur_line cur_len,
    0 <= cur_len -> cur_len + len (concat A) <= width ->
    fill_line (A ++ rest) cur_line cur_len width
    = fill_line rest (cur_line ++ A) (cur_len + len (concat A)) width.
Proof.
  induction A as [| a A IH]; intros rest cur_line cur_len H0 H.
  - cbn [app concat]. rewrite app_nil_r. f_equal. cbn. lia.
  - cbn [app concat fill_line]. cbn [concat] in H. rewrite len_app in H.
    pose proof (len_nonneg a). pose proof (len_nonneg (concat A)).
    replace (cur_len + len a <=? width) with true by (symmetry; apply Z.leb_le; lia).
    rewrite IH by lia. f_equal; [now rewrite <- app_assoc | rewrite len_app; lia].
Qed.

(** A turn of the loop whose first chunk is no whitespace and which
    meets no chunk longer than the width. *)
Lemma wrap_step_filled (chunks lines chunks1 taken : list str) (cur_len1 : Z) :
  fill_line chunks [] 0 width = (chunks1, taken, cur_len1) ->
  match chunks with
  | first :: _ => blank first = false
  | [] => True
  end ->
  match chunks1 with
  | c :: _ => len c <= width
  | [] => True
  end ->
  wrap_step width chunks lines
  = (chunks1,
     let cur := if nonempty taken && blank (last taken [])
                then removelast taken else taken in
     if nonempty cur then lines ++ [concat cur] else lines).
Proof.
  intros Hfill Hfirst Hshort. unfold wrap_step.
  assert (E : match chunks with
              | first :: rest => if blank first && nonempty lines then rest else chunks
              | [] => chunks
              end = chunks).
  { destruct chunks; [reflexivity |]. now rewrite Hfirst. }
  rewrite E, Hfill. destruct chunks1 as [| c r]; [reflexivity |].
  replace (width <? len c) with false by (symmetry; apply Z.ltb_ge; exact Hshort).
  reflexivity.
Qed.

Lemma line_of_nonblank (l lines : list str) :
  l <> [] -> blank (last l []) = false ->
  (let cur := if nonempty l && blank (last l []) then removelast l else l in
   if nonempty cur then lines ++ [concat cur] else lines)
  = lines ++ [concat l].
Proof.
  intros Hne Hb. cbn zeta. rewrite Hb, andb_false_r.
  destruct l; [congruence | reflexivity].
Qed.

Lemma line_of_space (l lines : list str) (y : str) :
  last l [] = space -> concat (removelast l) = y -> y <> [] ->
  (let cur := if nonempty l && blank (last l []) then removelast l else l in
   if nonempty cur then lines ++ [concat cur] else lines)
  = lines ++ [y].
Proof.
  intros Hl Hc Hy. cbn zeta. rewrite Hl, blank_space.
  destruct l as [| a l]; [discriminate |]. cbn [nonempty andb].
  destruct (removelast (a :: l)) as [| b r] eqn:Hr; [cbn in Hc; congruence |].
  cbn [nonempty]. now rewrite Hc.
Qed.

Lemma wrap_loop_skip_blank (fuel : nat) (f : str) (chunks lines : list str) :
  lines <> [] -> blank f = false ->
  wrap_loop fuel width (space :: f :: chunks) lines
  = wrap_loop fuel width (f :: chunks) lines.
Proof.
  intros Hne Hf. destruct fuel as [| fuel]; [reflexivity |]. cbn [wrap_loop].
  assert (Heq : wrap_step width (space :: f :: chunks) lines
                = wrap_step width (f :: chunks) lines).
  { unfold wrap_step. rewrite blank_space, Hf.
    destruct lines; [congruence | reflexivity]. }
  now rewrite Heq.
Qed.

Lemma wrap_loop_nil (fuel : nat) (lines : list str) :
  wrap_loop fuel width [] lines = lines.
Proof. destruct fuel; reflexivity. Qed.

(** *** The last chunk of a line *)

Lemma concat_nil_chunks (l : list str) :
  Forall chunk_kind l -> concat l = [] -> l = [].
Proof.
  intros Hk Hc. destruct l as [| a l]; [reflexivity |].
  inversion Hk as [| ? ? [Ha _] _]; subst. cbn in Hc.
  apply app_eq_nil in Hc. tauto.
Qed.

Lemma first_chunk_nonblank (l : list str) (c : N) (r : str) :
  Forall chunk_kind l -> concat l = c :: r -> isspace c = false ->
  match l with
  | first :: _ => blank first = false
  | [] => True
  end.
Proof.
  intros Hk Hc Hd. destruct l as [| a l]; [exact I |].
  inversion Hk as [| ? ? [Ha _] _]; subst. destruct a as [| e a]; [congruence |].
  cbn in Hc. injection Hc as -> _. now apply blank_cons.
Qed.

Lemma last_chunk_nonblank (l : list str) (y : str) (d : N) :
  Forall chunk_kind l -> concat l = y ++ [d] -> isspace d = false ->
  l <> [] /\ blank (last l []) = false.
Proof.
  intros Hk Hc Hd.
  assert (Hne : l <> []) by (intros ->; destruct y; discriminate).
  split; [assumption |].
  destruct (exists_last Hne) as [l0 [cl ->]]. rewrite last_last.
  apply Forall_app in Hk. destruct Hk as [_ Hk].
  inversion Hk as [| ? ? [Hcl _] _]; subst.
  destruct (exists_last Hcl) as [cl0 [e ->]].
  rewrite concat_app in Hc. cbn [concat] in Hc. rewrite app_nil_r, app_assoc in Hc.
  apply app_inj_tail in Hc. destruct Hc as [_ ->].
  unfold blank. rewrite forallb_app. cbn [forallb]. rewrite Hd.
  now rewrite andb_false_r.
Qed.

Lemma last_chunk_space (l : list str) (y' : str) (d : N) :
  Forall chunk_kind l -> concat l = (y' ++ [d]) ++ [SP] -> is_ws d = false ->
  l <> [] /\ last l [] = space /\ concat (removelast l) = y' ++ [d].
Proof.
  intros Hk Hc Hd.
  assert (Hne : l <> []) by (intros ->; destruct y'; discriminate).
  split; [assumption |].
  destruct (exists_last Hne) as [l0 [cl ->]]. rewrite last_last, removelast_last.
  apply Forall_app in Hk. destruct Hk as [_ Hk].
  inversion Hk as [| ? ? [Hcl Hkind] _]; subst.
  destruct (exists_last Hcl) as [cl0 [e ->]].
  rewrite concat_app in Hc. cbn [concat] in Hc. rewrite app_nil_r, app_assoc in Hc.
  apply app_inj_tail in Hc. destruct Hc as [Hc ->].
  destruct cl0 as [| x cl0].
  - rewrite app_nil_r in Hc. now split.
  - exfalso. assert (Hx : x :: cl0 <> []) by discriminate.
    destruct (exists_last Hx) as [cl1 [e' E]]. rewrite E in Hc, Hkind.
    rewrite app_assoc in Hc. apply app_inj_tail in Hc. destruct Hc as [_ ->].
    destruct Hkind as [Hws | Hun].
    + apply Forall_app in Hws. destruct Hws as [Hws _].
      apply Forall_app in Hws. destruct Hws as [_ Hws].
      inversion Hws; subst. congruence.
    + apply Forall_app in Hun. destruct Hun as [_ Hun].
      inversion Hun; subst. discriminate.
Qed.

(** *** Where a line of the text ends *)

(** What stands behind the first word, cut in two: the part [keep] of
    the line, a space that is dropped with the line, a space that the next
    turn drops, and the text [s1] that is left. *)
Lemma cut_cases (t x s1' : str) :
  (t = [] \/ exists t0, t = SP :: t0 /\ spaced t0) ->
  t = x ++ s1' ->
  exists keep (dropped gap : bool) s1,
    x = keep ++ (if dropped then [SP] else [])
    /\ s1' = (if gap then [SP] else []) ++ s1
    /\ (keep = [] \/ exists k', keep = SP :: k' /\ spaced k')
    /\ ((s1 = [] /\ gap = false /\ dropped = false)
        \/ (spaced s1 /\ (gap = true -> dropped = false))).
Proof.
  intros [-> | [t0 [-> Ht0]]] E.
  - symmetry in E. apply app_eq_nil in E. destruct E as [-> ->].
    exists [], false, false, [].
    split; [reflexivity |]. split; [reflexivity |]. split; [now left |]. left. auto.
  - destruct x as [| x0 x'].
    + cbn [app] in E. subst s1'. exists [], false, true, t0.
      split; [reflexivity |]. split; [reflexivity |]. split; [now left |]. right. auto.
    + cbn [app] in E. injection E as <- E.
      destruct s1' as [| c1 r1].
      * rewrite app_nil_r in E. subst x'. exists (SP :: t0), false, false, [].
        split; [now rewrite app_nil_r |]. split; [reflexivity |].
        split; [right; eauto |]. left. auto.
      * destruct x' as [| x1 x''].
        -- cbn [app] in E. subst t0. exists [], true, false, (c1 :: r1).
           split; [reflexivity |]. split; [reflexivity |]. split; [now left |].
           right. split; [assumption | discriminate].
        -- destruct (spaced_app_inv t0 Ht0 (x1 :: x'') (c1 :: r1) E
                       ltac:(discriminate) ltac:(discriminate))
             as [[H1 H2] | [[H1 [b' [Eb H2]]] | [a' [Ea [H1 H2]]]]].
           ++ exists (SP :: x1 :: x''), false, false, (c1 :: r1).
              split; [now rewrite app_nil_r |]. split; [reflexivity |].
              split; [right; eauto |]. right. split; [assumption | discriminate].
           ++ exists (SP :: x1 :: x''), false, true, b'.
              split; [now rewrite app_nil_r |]. split; [now rewrite Eb |].
              split; [right; eauto |]. right. auto.
           ++ exists (SP :: a'), true, false, (c1 :: r1).
              split; [now rewrite Ea |]. split; [reflexivity |].
              split; [right; eauto |]. right. split; [assumption | discriminate].
Qed.

(** One turn of the loop on a text of words that fit: the line [L], made
    of the first word [w] and more, and the text [s1] that is left, whose
    first chunk no longer fits behind the line and a space. *)
Lemma wrap_step_spaced (prev s : str) (acc : list str) :
  spaced s -> short_words width s ->
  exists L s1 prev1 (gap : bool) w t t',
    wrap_step width (chunks_from prev s) acc
    = ((if gap then [space] else []) ++ chunks_from prev1 s1, acc ++ [L])
    /\ spaced L /\ len L <= width
    /\ s = w ++ t /\ L = w ++ t' /\ w <> [] /\ unspaced w
    /\ word_end t /\ word_end t'
    /\ ((s1 = [] /\ gap = false)
        \/ (spaced s1 /\ short_words width s1
            /\ width < len L + 1 + Z.of_nat (first_len prev1 s1))).
Proof.
  intros Hs Hshort.
  destruct (spaced_word s Hs) as [w [t [-> [Hw Ht]]]].
  pose proof (word_unspaced w Hw) as Hwu. pose proof (proj1 Hw) as Hwne.
  assert (Hte : word_end t)
    by (destruct Ht as [-> | [t0 [-> _]]]; [exact I | reflexivity]).
  assert (Hlenw : len w <= width).
  { pose proof (short_words_head _ _ Hshort) as Hh.
    now rewrite (word_run_word w t Hwu Hte) in Hh. }
  destruct (chunks_from_word (length w) w prev t (le_n _) Hwne Hwu Hte) as [A [HA HcA]].
  set (pw := rev w ++ prev) in *.
  pose proof (chunks_from_kinds prev (w ++ t)) as Hkinds. rewrite HA in Hkinds.
  assert (Hfirst : match A ++ chunks_from pw t with
                   | first :: _ => blank first = false
                   | [] => True
                   end).
  { destruct (spaced_head _ (word_spaced w Hw)) as [c [q [Ew Hc]]].
    apply (first_chunk_nonblank _ c (q ++ t)); [assumption | | assumption].
    rewrite <- HA, concat_chunks_from, Ew. reflexivity. }
  assert (Hfill0 : fill_line (A ++ chunks_from pw t) [] 0 width
                   = fill_line (chunks_from pw t) A (len w) width).
  { rewrite fill_line_block; [now rewrite HcA | lia | rewrite HcA; lia]. }
  destruct (fill_line (chunks_from pw t) A (len w) width)
    as [[chunks1 cur_line1] cur_len1] eqn:Hfill.
  destruct (fill_line_prefix _ _ _ _ _ _ _ Hfill) as [taken [Hsplit [Hline [Hlen Hstop]]]].
  assert (Hl : cur_len1 = len (concat cur_line1) /\ cur_len1 <= width).
  { apply (fill_line_width _ _ _ _ _ _ _ Hfill); [now rewrite HcA | assumption]. }
  destruct Hl as [_ Hl2].
  destruct (chunks_from_suffix taken pw t chunks1 Hsplit) as [x [s1' [Ht' [Hcx Hch1]]]].
  rewrite Hcx in Hlen.
  destruct (cut_cases t x s1' Ht Ht')
    as [keep [dropped [gap [s1 [Ex [Es1 [Hkeep Hrest]]]]]]].
  set (L := w ++ keep).
  assert (HL : spaced L).
  { subst L. destruct Hkeep as [-> | [k' [-> Hk']]].
    - rewrite app_nil_r. now apply word_spaced.
    - apply spaced_app_space; [now apply word_spaced | assumption]. }
  assert (Hconcat : concat cur_line1 = L ++ (if dropped then [SP] else [])).
  { rewrite Hline, concat_app, HcA, Hcx, Ex. subst L. now rewrite app_assoc. }
  assert (Hk1 : Forall chunk_kind cur_line1).
  { rewrite Hline. rewrite Hsplit, app_assoc in Hkinds.
    apply Forall_app in Hkinds. tauto. }
  assert (Hcur : cur_len1 = len L + (if dropped then 1 else 0)).
  { rewrite Hlen, Ex. subst L. rewrite !len_app. destruct dropped; cbn; lia. }
  assert (Hline1 : forall lines,
            (let cur := if nonempty cur_line1 && blank (last cur_line1 [])
                        then removelast cur_line1 else cur_line1 in
             if nonempty cur then lines ++ [concat cur] else lines)
            = lines ++ [L]).
  { intros lines. destruct (spaced_last_char L HL) as [y [d [Ey Hd]]].
    destruct dropped.
    - rewrite Ey in Hconcat.
      destruct (last_chunk_space cur_line1 y d Hk1 Hconcat (not_space_not_ws d Hd))
        as [_ [Hlast Hrem]].
      apply line_of_space; [assumption | now rewrite Ey |].
      rewrite Ey. destruct y; discriminate.
    - rewrite app_nil_r in Hconcat. rewrite Ey in Hconcat.
      destruct (last_chunk_nonblank cur_line1 y d Hk1 Hconcat Hd) as [Hne Hb].
      rewrite (line_of_nonblank _ _ Hne Hb). now rewrite Hconcat, Ey. }
  assert (Hstep : match chunks1 with
                  | c :: _ => len c <= width
                  | [] => True
                  end ->
                  wrap_step width (chunks_from prev (w ++ t)) acc
                  = (chunks1, acc ++ [L])).
  { intros Hc1.
    assert (Hfill' : fill_line (chunks_from prev (w ++ t)) [] 0 width
                     = (chunks1, cur_line1, cur_len1))
      by (rewrite HA; exact Hfill0).
    rewrite (wrap_step_filled _ acc _ _ _ Hfill'); [| now rewrite HA | exact Hc1].
    f_equal. apply Hline1. }
  assert (Hshort1 : short_words width s1).
  { rewrite Ht', Es1, !app_assoc in Hshort. now apply short_words_app in Hshort. }
  assert (Hchunk : forall p c r,
            isspace c = false -> short_words width (c :: r) ->
            Z.of_nat (first_len p (c :: r)) <= width
            /\ exists rest,
                 chunks_from p (c :: r)
                 = firstn (first_len p (c :: r)) (c :: r) :: rest).
  { intros p c r Hc Hsw. split.
    - pose proof (chunk_length_le_run p c r (not_space_not_ws c Hc)) as Hr.
      pose proof (short_words_head _ _ Hsw). cbn [first_len]. lia.
    - rewrite chunks_from_cons. eexists. reflexivity. }
  exists L, s1, (if gap then SP :: rev x ++ pw else rev x ++ pw), gap, w, t, keep.
  assert (Hlen_L : len L <= width) by (destruct dropped; lia).
  assert (Hkeep_end : word_end keep)
    by (destruct Hkeep as [-> | [k' [-> _]]]; [exact I | reflexivity]).
  destruct Hrest as [[-> [-> ->]] | [Hs1 Hgd]].
  - cbn [app] in Es1. subst s1'. rewrite Hch1 in Hstep.
    rewrite (Hstep I). repeat split; auto.
  - destruct (spaced_head s1 Hs1) as [c [r [E1 Hc]]].
    destruct gap.
    + rewrite (Hgd eq_refl) in *. cbn [app] in Es1. subst s1'.
      rewrite E1 in Hch1. rewrite chunks_from_space in Hch1 by now apply not_space_not_ws.
      rewrite <- E1 in Hch1. rewrite Hch1 in Hstep, Hstop.
      rewrite Hstep by (change (len space) with 1; lia).
      change (len space) with 1 in Hstop.
      repeat split; auto. right. repeat split; auto. lia.
    + cbn [app] in Es1. subst s1'. rewrite Hch1, E1 in Hstep, Hstop.
      rewrite E1 in Hshort1.
      destruct (Hchunk (rev x ++ pw) c r Hc Hshort1) as [Hfl [rest Hcf]].
      rewrite Hcf in Hstep, Hstop.
      assert (Hlf : len (firstn (first_len (rev x ++ pw) (c :: r)) (c :: r))
                    <= Z.of_nat (first_len (rev x ++ pw) (c :: r))).
      { unfold len. rewrite length_firstn. lia. }
      rewrite Hstep by lia. rewrite <- Hcf, <- E1.
      repeat split; auto. right.
      split; [exact Hs1 |]. split; [now rewrite E1 |]. rewrite E1.
      cbv beta iota in Hstop. destruct dropped; lia.
Qed.

(** The loop on a text of words that fit, and on the lines it makes,
    joined by spaces. *)
Lemma wrap_loop_spaced (fuel : nat) :
  forall s prev acc,
    spaced s -> short_words width s ->
    (weight (chunks_from prev s) <= fuel)%nat ->
    exists more,
      wrap_loop fuel width (chunks_from prev s) acc = acc ++ more
      /\ more <> [] /\ Forall spaced more
      /\ (first_len prev s <= first_len [] (join space more))%nat
      /\ Z.of_nat (first_len [] (join space more)) <= width
      /\ (forall fuel' acc',
            (weight (chunks_from [] (join space more)) <= fuel')%nat ->
            wrap_loop fuel' width (chunks_from [] (join space more)) acc'
            = acc' ++ more).
Proof.
  induction fuel as [| fuel IH]; intros s prev acc Hs Hshort Hfuel.
  { destruct (spaced_head s Hs) as [c [r [-> _]]].
    rewrite chunks_from_cons, weight_cons in Hfuel. lia. }
  destruct (wrap_step_spaced prev s acc Hs Hshort)
    as [L [s1 [prev1 [gap [w [t [t' [Hstep [HL [HlenL [Es [EL [Hwne [Hwu [Hte [Hte' Hrest]]]]]]]]]]]]]]]].
  assert (Hne : exists c chunks, chunks_from prev s = c :: chunks).
  { destruct (spaced_head s Hs) as [c [r [-> _]]]. rewrite chunks_from_cons. eauto. }
  destruct Hne as [c0 [chunks0 Ech]].
  pose proof Hstep as Hlight. rewrite Ech in Hlight.
  apply (wrap_step_lighter _ _ _ _ _ _ width_positive) in Hlight.
  rewrite <- Ech in Hlight.
  (* the first line, wrapped alone or before more lines *)
  assert (Hfirst_len : forall tail,
            word_end tail ->
            (first_len prev s <= first_len [] (L ++ tail))%nat
            /\ Z.of_nat (first_len [] (L ++ tail)) <= width).
  { intros tail Htail. rewrite Es, EL, <- app_assoc.
    assert (Hend : word_end (t' ++ tail)) by (destruct t'; [exact Htail | exact Hte']).
    split; [now apply first_len_mono |].
    pose proof (first_len_word w (t' ++ tail) [] Hwne Hwu Hend) as Hb.
    rewrite EL, len_app in HlenL. pose proof (len_nonneg t'). unfold len in *. lia. }
  destruct (spaced_head L HL) as [cL [rL [EcL HcL]]].
  destruct (spaced_last_char L HL) as [yL [dL [EyL HdL]]].
  cbn [wrap_loop]. rewrite Ech, <- Ech, Hstep.
  destruct Hrest as [[-> ->] | [Hs1 [Hshort1 Hstop]]].
  - (* the last line *)
    cbn [app]. rewrite chunks_from_nil, wrap_loop_nil.
    exists [L]. split; [reflexivity |]. split; [discriminate |].
    split; [constructor; [assumption | constructor] |]. cbn [join].
    destruct (Hfirst_len [] I) as [Hf1 Hf2]. rewrite app_nil_r in Hf1, Hf2.
    split; [assumption |]. split; [assumption |].
    intros fuel' acc' Hfuel'.
    pose proof (chunks_from_kinds [] L) as HkL.
    pose proof (concat_chunks_from [] L) as HcLs.
    assert (Hfill : fill_line (chunks_from [] L) [] 0 width = ([], chunks_from [] L, len L)).
    { rewrite <- (app_nil_r (chunks_from [] L)) at 1.
      rewrite fill_line_block; [now rewrite HcLs | lia | rewrite HcLs; lia]. }
    assert (Hst : wrap_step width (chunks_from [] L) acc' = ([], acc' ++ [L])).
    { rewrite (wrap_step_filled _ acc' _ _ _ Hfill).
      - f_equal.
        assert (HcLy : concat (chunks_from [] L) = yL ++ [dL])
          by (rewrite HcLs; exact EyL).
        destruct (last_chunk_nonblank _ yL dL HkL HcLy HdL) as [Hn Hb].
        rewrite (line_of_nonblank _ _ Hn Hb). now rewrite HcLs.
      - apply (first_chunk_nonblank _ cL rL); [assumption | now rewrite HcLs | assumption].
      - exact I. }
    destruct fuel' as [| fuel'].
    { rewrite EcL, chunks_from_cons, weight_cons in Hfuel'. lia. }
    cbn [wrap_loop]. rewrite EcL, chunks_from_cons. rewrite <- chunks_from_cons, <- EcL.
    now rewrite Hst, wrap_loop_nil.
  - (* more lines *)
    destruct (spaced_head s1 Hs1) as [c1 [r1 [E1 Hc1]]].
    assert (Hnb1 : forall p, exists f rest,
               chunks_from p s1 = f :: rest /\ blank f = false).
    { intros p. rewrite E1, chunks_from_cons. eexists _, _. split; [reflexivity |].
      pose proof (chunk_length_positive p c1 r1).
      destruct (chunk_length p c1 r1); [lia |]. cbn [firstn]. now apply blank_cons. }
    assert (Hloop : wrap_loop fuel width
                      ((if gap then [space] else []) ++ chunks_from prev1 s1) (acc ++ [L])
                    = wrap_loop fuel width (chunks_from prev1 s1) (acc ++ [L])).
    { destruct gap; [| reflexivity]. destruct (Hnb1 prev1) as [f [rest [-> Hf]]].
      cbn [app]. apply wrap_loop_skip_blank; [now destruct acc | assumption]. }
    rewrite Hloop.
    assert (Hw1 : (weight (chunks_from prev1 s1) <= fuel)%nat).
    { destruct gap; cbn [app] in Hlight; rewrite ?weight_cons in Hlight; lia. }
    destruct (IH s1 prev1 (acc ++ [L]) Hs1 Hshort1 Hw1)
      as [more1 [Hrun [Hne1 [Hsp1 [Hfl1 [Hfw1 Hre1]]]]]].
    exists (L :: more1). rewrite Hrun, <- app_assoc.
    split; [reflexivity |]. split; [discriminate |].
    split; [now constructor |].
    rewrite (join_cons_cons L more1 Hne1).
    destruct (Hfirst_len (SP :: join space more1) eq_refl) as [Hf1 Hf2].
    split; [assumption |]. split; [assumption |].
    intros fuel' acc' Hfuel'.
    pose proof (spaced_join_lines more1 Hne1 Hsp1) as HT1.
    destruct (chunks_from_block (length L) L [] (join space more1) (le_n _) HL HT1)
      as [B [HB HcB]].
    rewrite chunks_from_sp in HB.
    set (N1 := chunks_from [] (join space more1)) in *.
    assert (HkB : Forall chunk_kind B).
    { pose proof (chunks_from_kinds [] (L ++ SP :: join space more1)) as Hk.
      rewrite HB in Hk. apply Forall_app in Hk. tauto. }
    destruct (spaced_head _ HT1) as [cT [rT [ET HcT]]].
    assert (HN1 : exists f rest,
               N1 = f :: rest /\ blank f = false
               /\ len f = Z.of_nat (first_len [] (join space more1))).
    { subst N1. rewrite ET, chunks_from_cons. eexists _, _. split; [reflexivity |].
      pose proof (chunk_length_positive [] cT rT) as Hp.
      pose proof (chunk_length_le_run [] cT rT (not_space_not_ws cT HcT)) as Hr.
      pose proof (run_le_length (fun c => negb (is_ws c)) (cT :: rT)) as Hrl.
      fold (word_run (cT :: rT)) in Hrl. split.
      - destruct (chunk_length [] cT rT); [lia |]. cbn [firstn]. now apply blank_cons.
      - unfold len. rewrite length_firstn. cbn [first_len]. lia. }
    destruct HN1 as [f1 [rest1 [EN1 [Hbf1 Hlf1]]]].
    rewrite HB in Hfuel' |- *.
    rewrite weight_app, weight_cons in Hfuel'.
    assert (Hfill0 : fill_line (B ++ space :: N1) [] 0 width
                     = fill_line (space :: N1) B (len L) width).
    { rewrite fill_line_block; [now rewrite HcB | lia | rewrite HcB; lia]. }
    assert (HfB : match B ++ space :: N1 with
                  | first :: _ => blank first = false
                  | [] => True
                  end).
    { apply (first_chunk_nonblank _ cL (rL ++ SP :: join space more1)).
      - apply Forall_app. split; [assumption |].
        pose proof (chunks_from_kinds [] (L ++ SP :: join space more1)) as Hk.
        rewrite HB in Hk. apply Forall_app in Hk. tauto.
      - rewrite concat_app. cbn [concat]. subst N1.
        rewrite HcB, concat_chunks_from, EcL. reflexivity.
      - assumption. }
    assert (HBne : exists b B', B ++ space :: N1 = b :: B').
    { destruct B; cbn [app]; eauto. }
    destruct HBne as [b [B' EB]].
    destruct fuel' as [| fuel']; [lia |].
    cbn [wrap_loop]. rewrite EB, <- EB.
    assert (HlastB : B <> [] /\ blank (last B []) = false).
    { rewrite EyL in HcB. now apply (last_chunk_nonblank B yL dL). }
    destruct HlastB as [HBn HBl].
    destruct (len L + 1 <=? width) eqn:Hsp.
    + apply Z.leb_le in Hsp.
      assert (Hfill : fill_line (B ++ space :: N1) [] 0 width
                      = (N1, B ++ [space], len L + 1)).
      { rewrite Hfill0. cbn [fill_line]. change (len space) with 1.
        replace (len L + 1 <=? width) with true by (symmetry; now apply Z.leb_le).
        rewrite EN1. cbn [fill_line].
        replace (len L + 1 + len f1 <=? width) with false
          by (symmetry; apply Z.leb_gt; lia).
        reflexivity. }
      rewrite (wrap_step_filled _ acc' _ _ _ Hfill HfB)
        by (rewrite EN1; lia).
      rewrite (line_of_space (B ++ [space]) acc' L).
      * rewrite Hre1 by lia. now rewrite <- app_assoc.
      * apply last_last.
      * now rewrite removelast_last.
      * rewrite EcL. discriminate.
    + apply Z.leb_gt in Hsp.
      assert (Hfill : fill_line (B ++ space :: N1) [] 0 width
                      = (space :: N1, B, len L)).
      { rewrite Hfill0. cbn [fill_line]. change (len space) with 1.
        replace (len L + 1 <=? width) with false by (symmetry; now apply Z.leb_gt).
        reflexivity. }
      rewrite (wrap_step_filled _ acc' _ _ _ Hfill HfB)
        by (change (len space) with 1; lia).
      rewrite (line_of_nonblank B acc' HBn HBl), HcB, EN1.
      rewrite wrap_loop_skip_blank by (assumption || now destruct acc').
      rewrite <- EN1. rewrite Hre1 by lia. now rewrite <- app_assoc.
Qed.

End Rewrap.

(** ** Words that fit, separated by single spaces *)

Section FittingWords.
Context {U : UnicodeTables}.
Import Spec Textwrap Words.

Lemma plain_word_word (w : str) : plain_word w -> word w.
Proof.
  intros [Hne Hw]. split; [assumption |]. eapply Forall_impl; [| exact Hw].
  apply plain_char_not_space.
Qed.

Lemma join_words_spaced (words : list str) :
  words <> [] -> Forall word words -> spaced (join space words).
Proof.
  intros Hne Hws. apply spaced_join_lines; [assumption |].
  eapply Forall_impl; [| exact Hws]. apply word_spaced.
Qed.

Lemma join_words_short (width : Z) (words : list str) :
  0 <= width -> Forall (word_fits width) words ->
  short_words width (join space words).
Proof.
  intros Hw Hws. induction Hws as [| w rest [Hword Hlen] Hrest IH].
  - intros n. cbn [join]. rewrite skipn_nil. cbn. lia.
  - assert (E : exists t, join space (w :: rest) = w ++ t
                          /\ (t = [] \/ t = SP :: join space rest)).
    { destruct rest as [| w' rest]; [exists []; rewrite app_nil_r; auto |].
      exists (SP :: join space (w' :: rest)). auto. }
    destruct E as [t [-> Ht]]. intros n.
    assert (Hte : word_end t) by (destruct Ht as [-> | ->]; [exact I | reflexivity]).
    rewrite skipn_app.
    destruct (Nat.le_gt_cases n (length w)) as [Hn | Hn].
    + replace (n - length w)%nat with O by lia. cbn [skipn].
      rewrite (word_run_word (skipn n w) t); [| | assumption].
      * rewrite length_skipn. unfold len in Hlen. lia.
      * apply Forall_skipn. now apply word_unspaced.
    + rewrite skipn_all2 by lia. cbn [app].
      destruct Ht as [-> | ->]; [rewrite skipn_nil; cbn; lia |].
      destruct (n - length w)%nat as [| m] eqn:Em; [lia |]. cbn [skipn]. apply IH.
Qed.

Lemma split_chunks_spaced (s : str) :
  spaced s -> split_chunks s = chunks_from [] s.
Proof.
  intros Hs. unfold split_chunks.
  now rewrite (munge_whitespace_fixed s (spaced_fixed s Hs)).
Qed.

(** Wrapping the lines of such a text again, joined by single spaces,
    gives the same lines. *)
Lemma wrap_words_again (width : Z) (words : list str) :
  1 <= width -> Forall (word_fits width) words ->
  exists lines,
    wrap (join space words) width = inr lines
    /\ wrap (join space lines) width = inr lines.
Proof.
  intros Hw Hws. unfold wrap, wrap_chunks.
  replace (width <=? 0) with false by (symmetry; apply Z.leb_gt; lia).
  destruct words as [| w0 rest0]; [exists []; split; reflexivity |].
  assert (Hs : spaced (join space (w0 :: rest0))).
  { apply join_words_spaced; [discriminate |].
    eapply Forall_impl; [| exact Hws]. now intros w [H _]. }
  assert (Hsh : short_words width (join space (w0 :: rest0)))
    by (apply join_words_short; [lia | assumption]).
  rewrite (split_chunks_spaced _ Hs).
  destruct (wrap_loop_spaced width Hw _ (join space (w0 :: rest0)) [] [] Hs Hsh (le_n _))
    as [more [Hrun [Hne [Hsp [_ [_ Hre]]]]]].
  exists more. split; [now rewrite Hrun |].
  rewrite (split_chunks_spaced _ (spaced_join_lines more Hne Hsp)).
  now rewrite (Hre _ [] (le_n _)).
Qed.

End FittingWords.

(** C5, amended. Whenever the paragraph call returns, in both scripts, it
    adds the instructions of the lines of [textwrap.wrap]; each of those
    lines has at most [width] characters; and the lines are, in order, runs
    of the chunks into which [textwrap] splits the text, of which only a
    chunk longer than the width is cut and only whitespace is left out.
    The chunks are the text with its whitespace made spaces; each is a run
    of whitespace or has none, and two in a row meet at whitespace or at a
    hyphen.  So a break falls at whitespace, at a hyphen, or inside a
    chunk longer than the width.  Such a chunk is not left whole: the first
    line of a plain word longer than the width is its first [width]
    characters. *)
Theorem paragraph_lines_within_width {U : UnicodeTables} :
  (forall (self self' : AppSummary.Layout) (text : str) (width : Z),
     AppSummary.add_paragraph self text width = (self', Returned) ->
     exists lines,
       Textwrap.wrap text width = inr lines
       /\ AppSummary.commands self'
          = AppSummary.commands self
            ++ Spec.paragraph_commands (AppSummary.left self) (AppSummary.y self)
                 (AppSummary.body_size self) (AppSummary.body_leading self) lines
       /\ Forall (fun line => len line <= width) lines
       /\ exists pieces,
            Words.cuts_long width (Textwrap.split_chunks text) pieces
            /\ Words.lines_of pieces lines)
  /\ (forall (self self' : EngineVergleich.Page) (text : str) (width : Z),
        EngineVergleich.p self text width = (self', Returned) ->
        exists lines,
          Textwrap.wrap text width = inr lines
          /\ EngineVergleich.commands self'
             = EngineVergleich.commands self
               ++ Spec.p_commands (EngineVergleich.left self) (EngineVergleich.y self) lines
          /\ Forall (fun line => len line <= width) lines
          /\ exists pieces,
               Words.cuts_long width (Textwrap.split_chunks text) pieces
               /\ Words.lines_of pieces lines)
  /\ (forall text : str,
        concat (Textwrap.split_chunks text) = Textwrap.munge_whitespace text
        /\ Forall Words.chunk_kind (Textwrap.split_chunks text)
        /\ (forall l1 a b l2,
              Textwrap.split_chunks text = l1 ++ a :: b :: l2 ->
              Words.word_boundary a b))
  /\ (forall (word : str) (width : Z),
        1 <= width -> Spec.plain_word word -> width < len word ->
        exists more, Textwrap.wrap word width = inr (take width word :: more)).
Proof.
  split; [| split; [| split]].
  - intros self self' text width H.
    destruct (Textwrap.wrap text width) as [e | lines] eqn:Hw.
    + unfold AppSummary.add_paragraph in H. rewrite Hw in H. discriminate.
    + rewrite (add_paragraph_returns _ _ _ _ Hw) in H. injection H as <-.
      exists lines. split; [reflexivity |]. split; [reflexivity |].
      split; [now apply (wrap_lines_width text) | now apply wrap_pieces].
  - intros self self' text width H.
    destruct (Textwrap.wrap text width) as [e | lines] eqn:Hw.
    + unfold EngineVergleich.p in H. rewrite Hw in H. discriminate.
    + rewrite (p_returns _ _ _ _ Hw) in H. injection H as <-.
      exists lines. split; [reflexivity |]. split; [reflexivity |].
      split; [now apply (wrap_lines_width text) | now apply wrap_pieces].
  - apply split_chunks_words.
  - intros word width. apply wrap_long_word.
Qed.

(** C6, amended. For words of at most [width] characters, without
    whitespace but with or without hyphens, separated by single spaces:
    the wrapped lines, joined by single spaces and wrapped again at the
    same width, are the same lines; and when the words have no hyphen
    either, the joined lines are the text itself. *)
Theorem rewrap_of_joined_lines {U : UnicodeTables} (words : list str) (width : Z) :
  1 <= width ->
  Forall (Words.word_fits width) words ->
  exists lines,
    Textwrap.wrap (join Spec.space words) width = inr lines
    /\ Textwrap.wrap (join Spec.space lines) width = inr lines
    /\ (Forall Spec.plain_word words -> join Spec.space lines = join Spec.space words).
Proof.
  intros Hw Hws. destruct (wrap_words_again width words Hw Hws) as [lines [Hwrap Hagain]].
  exists lines. split; [assumption |]. split; [assumption |].
  intros Hplain.
  assert (Hfits : Forall (Spec.fits width) words).
  { apply Forall_forall. intros w Hin. rewrite Forall_forall in Hws, Hplain.
    split; [now apply Hplain | now apply Hws]. }
  destruct (wrap_join width Hw words Hfits) as [lines' [Hwrap' Hjoin]].
  rewrite Hwrap in Hwrap'. injection Hwrap' as <-. exact Hjoin.
Qed.

(* ================================================================== *)
(** * Instances: the theorems at concrete inputs                       *)
(* ================================================================== *)

(** The serializer on two small objects: the offsets 15 and 32. *)
Example build_pdf_two_objects :
  tl (EngineVergleich.build_pdf_offsets [latin1 "A"; latin1 "BC"]) = [15; 32]
  /\ Spec.begins_at (latin1 "2 0 obj") 32 (EngineVergleich.build_pdf [latin1 "A"; latin1 "BC"]).
Proof. split; [reflexivity |]. split; [lia | reflexivity]. Qed.

(** C3 at the fresh layout, and at a layout whose cursor is 41.0. *)
Lemma check_fit_witness :
  AppSummary.check_fit AppSummary.Layout_init = Returned
  /\ AppSummary.check_fit
       (AppSummary.mkLayout [] (decimal 410 1) (decimal 540 1) (decimal 100 1)
          (decimal 120 1))
     = Raised RuntimeError.
Proof.
  split.
  - apply (proj2 (proj1 check_fit_raises_below_threshold AppSummary.Layout_init)).
    vm_compute. reflexivity.
  - apply (proj1 (proj1 check_fit_raises_below_threshold
                    (AppSummary.mkLayout [] (decimal 410 1) (decimal 540 1)
                       (decimal 100 1) (decimal 120 1)))).
    vm_compute. reflexivity.
Defined.

(** C5 as stated fails: the word of ten letters is cut at width 4, in the
    wrapped lines and in the instructions of [add_paragraph]; and a word
    that fits the width is broken behind its hyphen. *)
Lemma long_word_counterexample :
  Textwrap.wrap (U := Spec.ascii_tables) (u "abcdefghij") 4
  = inr [u "abcd"; u "efgh"; u "ij"]
  /\ Textwrap.wrap (U := Spec.ascii_tables) (u "abcdefghij") 4 <> inr [u "abcdefghij"]
  /\ AppSummary.commands
       (fst (AppSummary.add_paragraph (U := Spec.ascii_tables) AppSummary.Layout_init
               (u "abcdefghij") 4))
     = [u "BT /F1 10.0 Tf 1 0 0 1 54.00 752.00 Tm (abcd) Tj ET";
        u "BT /F1 10.0 Tf 1 0 0 1 54.00 740.00 Tm (efgh) Tj ET";
        u "BT /F1 10.0 Tf 1 0 0 1 54.00 728.00 Tm (ij) Tj ET"]
  /\ Textwrap.wrap (U := Spec.ascii_tables) (u "aaa bbb-ccc") 8
     = inr [u "aaa bbb-"; u "ccc"].
Proof.
  split; [vm_compute; reflexivity |]. split; [vm_compute; discriminate |].
  split; vm_compute; reflexivity.
Qed.

Lemma plain_word_abcdefghij : Spec.plain_word (u "abcdefghij").
Proof. split; [discriminate |]. repeat constructor. Qed.

(** C5, amended, at the same word, and at a paragraph with a hyphenated
    word. *)
Lemma paragraph_lines_witness :
  (exists more,
     Textwrap.wrap (U := Spec.ascii_tables) (u "abcdefghij") 4
     = inr (take 4 (u "abcdefghij") :: more))
  /\ (exists lines,
        Textwrap.wrap (U := Spec.ascii_tables) (u "aaa bbb-ccc") 8 = inr lines
        /\ AppSummary.commands
             (fst (AppSummary.add_paragraph (U := Spec.ascii_tables)
                     AppSummary.Layout_init (u "aaa bbb-ccc") 8))
           = AppSummary.commands AppSummary.Layout_init
             ++ Spec.paragraph_commands (AppSummary.left AppSummary.Layout_init)
                  (AppSummary.y AppSummary.Layout_init)
                  (AppSummary.body_size AppSummary.Layout_init)
                  (AppSummary.body_leading AppSummary.Layout_init) lines
        /\ Forall (fun line => len line <= 8) lines
        /\ exists pieces,
             Words.cuts_long 8
               (Textwrap.split_chunks (U := Spec.ascii_tables) (u "aaa bbb-ccc")) pieces
             /\ Words.lines_of pieces lines).
Proof.
  split.
  - apply (proj2 (proj2 (proj2 (@paragraph_lines_within_width Spec.ascii_tables)))).
    + lia.
    + exact plain_word_abcdefghij.
    + vm_compute. reflexivity.
  - apply (proj1 (@paragraph_lines_within_width Spec.ascii_tables)
             AppSummary.Layout_init
             (fst (AppSummary.add_paragraph (U := Spec.ascii_tables)
                     AppSummary.Layout_init (u "aaa bbb-ccc") 8))
             (u "aaa bbb-ccc") 8).
    vm_compute. reflexivity.
Defined.

(** C6 as stated fails: the lines concatenated wrap otherwise; so do the
    lines joined by a space or by a line feed when the text has two spaces
    in a row; and so do the lines joined by a space when a word is longer
    than the width. *)
Lemma rewrap_counterexample :
  (Textwrap.wrap (U := Spec.ascii_tables) (u "ab cd ef") 5 = inr [u "ab cd"; u "ef"]
   /\ Textwrap.wrap (U := Spec.ascii_tables) (concat [u "ab cd"; u "ef"]) 5
      = inr [u "ab"; u "cdef"])
  /\ (Textwrap.wrap (U := Spec.ascii_tables) (u "a  a") 3 = inr [u "a"; u "a"]
      /\ Textwrap.wrap (U := Spec.ascii_tables) (join (u " ") [u "a"; u "a"]) 3
         = inr [u "a a"]
      /\ Textwrap.wrap (U := Spec.ascii_tables) (join (u LF) [u "a"; u "a"]) 3
         = inr [u "a a"])
  /\ (Textwrap.wrap (U := Spec.ascii_tables) (u "ab abcdefgh") 3
      = inr [u "ab "; u "abc"; u "def"; u "gh"]
      /\ Textwrap.wrap (U := Spec.ascii_tables)
           (join (u " ") [u "ab "; u "abc"; u "def"; u "gh"]) 3
         = inr [u "ab"; u "abc"; u "def"; u "gh"]).
Proof. repeat split; vm_compute; reflexivity. Qed.

Lemma word_fits_8 (w : str) :
  In w [u "aaa"; u "bbb-ccc"; u "dd"] -> Words.word_fits 8 w.
Proof.
  intros [<- | [<- | [<- | []]]];
    (split; [split; [discriminate | repeat constructor] | vm_compute; discriminate]).
Qed.

Lemma word_fits_5 (w : str) :
  In w [u "ab"; u "cd"; u "ef"] -> Words.word_fits 5 w /\ Spec.plain_word w.
Proof.
  intros [<- | [<- | [<- | []]]];
    (split; [split; [split; [discriminate | repeat constructor]
                    | vm_compute; discriminate]
            | split; [discriminate | repeat constructor]]).
Qed.

(** C6, amended, at three words, one of them with a hyphen, and width 8,
    where the lines are [aaa bbb-] and [ccc dd]; and at three words without
    hyphen and width 5. *)
Lemma rewrap_witness :
  (exists lines,
     Textwrap.wrap (U := Spec.ascii_tables)
       (join Spec.space [u "aaa"; u "bbb-ccc"; u "dd"]) 8 = inr lines
     /\ Textwrap.wrap (U := Spec.ascii_tables) (join Spec.space lines) 8 = inr lines)
  /\ (exists lines,
        Textwrap.wrap (U := Spec.ascii_tables)
          (join Spec.space [u "ab"; u "cd"; u "ef"]) 5 = inr lines
        /\ Textwrap.wrap (U := Spec.ascii_tables) (join Spec.space lines) 5 = inr lines
        /\ join Spec.space lines = join Spec.space [u "ab"; u "cd"; u "ef"]).
Proof.
  split.
  - destruct (@rewrap_of_joined_lines Spec.ascii_tables [u "aaa"; u "bbb-ccc"; u "dd"] 8)
      as [lines [H1 [H2 _]]].
    + lia.
    + apply Forall_forall. exact word_fits_8.
    + exists lines. split; assumption.
  - destruct (@rewrap_of_joined_lines Spec.ascii_tables [u "ab"; u "cd"; u "ef"] 5)
      as [lines [H1 [H2 H3]]].
    + lia.
    + apply Forall_forall. intros w Hin. exact (proj1 (word_fits_5 w Hin)).
    + exists lines. split; [assumption |]. split; [assumption |]. apply H3.
      apply Forall_forall. intros w Hin. exact (proj2 (word_fits_5 w Hin)).
Defined.

(** C7 at fifty times [abcd ]. *)
Lemma title_and_paragraph_witness :
  exists lines final,
    Textwrap.wrap (U := Spec.ascii_tables) (concat (repeat (u "abcd ") 50)) 98 = inr lines
    /\ AppSummary.add_paragraph (U := Spec.ascii_tables)
         (AppSummary.add_title AppSummary.Layout_init (u "Report"))
         (concat (repeat (u "abcd ") 50)) 98
       = (final, Returned)
    /\ AppSummary.commands final
       = u "BT /F2 18.0 Tf 1 0 0 1 54.00 752.00 Tm (Report) Tj ET"
         :: Spec.paragraph_commands (decimal 540 1) (decimal 7320 1)
              (decimal 100 1) (decimal 120 1) lines
    /\ length (AppSummary.commands final) = S (length lines)
    /\ AppSummary.y final
       = fsub (decimal 7520 1)
              (fadd (fadd (decimal 200 1)
                          (fmul (float_of_int (Z.of_nat (length lines))) (decimal 120 1)))
                    (decimal 40 1)).
Proof.
  apply (@title_and_paragraph_scenario Spec.ascii_tables (concat (repeat (u "abcd ") 50))).
  vm_compute. reflexivity.
Defined.

(** C8 as stated fails: a paragraph call with the width 0 raises and
    leaves the cursor where it was; and at the cursor -2^60 a title call
    returns with the cursor where it was, 20.0 being less than half the
    distance to the next number. *)
Lemma placement_counterexample :
  (Spec.place_app (U := Spec.ascii_tables) AppSummary.Layout_init
     (Spec.Paragraph (u "x") 0)
   = (AppSummary.Layout_init, Raised ValueError)
   /\ flt (AppSummary.y AppSummary.Layout_init) (AppSummary.y AppSummary.Layout_init)
      = false)
  /\ (let far := AppSummary.mkLayout [] (float_of_int (- 2 ^ 60)) (decimal 540 1)
                   (decimal 100 1) (decimal 120 1) in
      snd (Spec.place_app (U := Spec.ascii_tables) far (Spec.Title (u "x"))) = Returned
      /\ AppSummary.y (fst (Spec.place_app (U := Spec.ascii_tables) far (Spec.Title (u "x"))))
         = AppSummary.y far
      /\ flt (AppSummary.y (fst (Spec.place_app (U := Spec.ascii_tables) far
                                   (Spec.Title (u "x")))))
             (AppSummary.y far) = false).
Proof. repeat split; vm_compute; reflexivity. Qed.

Lemma within_initial_cursor : Spec.within (2 ^ 52) (AppSummary.y AppSummary.Layout_init).
Proof.
  split; [split; [vm_compute; reflexivity | exact I] |].
  apply Z.leb_le. vm_compute. reflexivity.
Qed.

(** C8, amended, at the title call on the fresh layout. *)
Lemma placement_witness :
  flt (AppSummary.y (AppSummary.add_title AppSummary.Layout_init (u "x")))
      (AppSummary.y AppSummary.Layout_init) = true.
Proof.
  apply (proj1 (@placement_lowers_cursor Spec.ascii_tables)
           AppSummary.Layout_init
           (AppSummary.add_title AppSummary.Layout_init (u "x"))
           (Spec.Title (u "x"))).
  - exact within_initial_cursor.
  - reflexivity.
  - reflexivity.
  - vm_compute. discriminate.
Defined.

(** C10 at the empty text. *)
Lemma empty_paragraph_witness :
  exists self',
    AppSummary.add_paragraph (U := Spec.ascii_tables) AppSummary.Layout_init [] 98
    = (self', Returned)
    /\ AppSummary.commands self' = AppSummary.commands AppSummary.Layout_init
    /\ AppSummary.y self' = fsub (AppSummary.y AppSummary.Layout_init) (decimal 40 1).
Proof.
  apply (proj1 (@empty_paragraph_only_trailing_gap Spec.ascii_tables)).
  reflexivity.
Defined.

(** X1 at a description with every kind of segment. *)
Lemma format_description_witness :
  ApiHandler.format_description
    (Markup.write
       [Markup.Text (u "One "); Markup.BoldOn; Markup.Text (u "two"); Markup.BoldOff;
        Markup.LineBreak (u " ") true; Markup.ItalicOn; Markup.Text (u "x > y");
        Markup.ItalicOff; Markup.Other (u "u"); Markup.LineBreak [] false])
  = Markup.display
      [Markup.Text (u "One "); Markup.BoldOn; Markup.Text (u "two"); Markup.BoldOff;
       Markup.LineBreak (u " ") true; Markup.ItalicOn; Markup.Text (u "x > y");
       Markup.ItalicOff; Markup.Other (u "u"); Markup.LineBreak [] false]
  /\ GuiSetup.format_description
       (Markup.write
          [Markup.Text (u "One "); Markup.BoldOn; Markup.Text (u "two"); Markup.BoldOff;
           Markup.LineBreak (u " ") true; Markup.ItalicOn; Markup.Text (u "x > y");
           Markup.ItalicOff; Markup.Other (u "u"); Markup.LineBreak [] false])
     = Markup.display
         [Markup.Text (u "One "); Markup.BoldOn; Markup.Text (u "two"); Markup.BoldOff;
          Markup.LineBreak (u " ") true; Markup.ItalicOn; Markup.Text (u "x > y");
          Markup.ItalicOff; Markup.Other (u "u"); Markup.LineBreak [] false].
Proof.
  apply format_description_cleans_markup.
  repeat constructor; discriminate.
Defined.

(** X3 at a title added twice, removed, and a title for the other list. *)
Lemma lists_hold_no_title_twice_witness :
  ListManager.tidy
    (ListManager.run_all (L := ListManager.rows_and_active)
       [ListManager.AddToWatchList (u "Bleach") (ListManager.show_watch_list 0);
        ListManager.AddToWatchList (u "Bleach") (ListManager.show_watch_list 0);
        ListManager.RemoveFromWatchList 0 (ListManager.show_watch_list 0);
        ListManager.AddToBuyList (u "Naruto") (ListManager.show_buy_list 1)]
       (ListManager.initial (fun _ => ([], O)))).
Proof.
  apply lists_hold_no_title_twice.
  repeat constructor;
    first [apply show_watch_list_keeps_lists | apply show_buy_list_keeps_lists].
Defined.

(** X4 at the first title of the watch list. *)
Lemma remove_undoes_add_witness :
  ListManager.remove_from_watch_list (L := ListManager.rows_and_active) 0
    (ListManager.show_watch_list 0)
    (fst (ListManager.add_to_watch_list (u "Bleach") (ListManager.show_watch_list 0)
            (ListManager.initial (fun _ => ([], O)))))
  = ListManager.show_watch_list 0
      (ListManager.mkState [] []
         (ListManager.widgets
            (fst (ListManager.add_to_watch_list (u "Bleach") (ListManager.show_watch_list 0)
                    (ListManager.initial (fun _ => ([], O))))))).
Proof.
  apply (proj1 (remove_undoes_add (L := ListManager.rows_and_active)
                  (ListManager.initial (fun _ => ([], O))) (u "Bleach") 0%nat
                  (ListManager.show_watch_list 0) (ListManager.show_watch_list 0)
                  (show_watch_list_keeps_lists 0) eq_refl)).
  - reflexivity.
  - reflexivity.
Defined.

(** X6 at calls on both lists. *)
Lemma list_boxes_follow_the_lists_witness :
  ListManager.in_step 0 1
    (ListManager.run_all (L := ListManager.rows_and_active)
       [ListManager.AddToWatchList (u "Bleach") (ListManager.show_watch_list 0);
        ListManager.AddToBuyList (u "Naruto") (ListManager.show_buy_list 1);
        ListManager.AddToWatchList (u "Bleach") (ListManager.show_watch_list 0);
        ListManager.RemoveFromWatchList 0 (ListManager.show_watch_list 0)]
       (ListManager.initial (fun _ => ([], O)))).
Proof.
  apply list_boxes_follow_the_lists.
  - discriminate.
  - reflexivity.
  - reflexivity.
  - repeat constructor.
Defined.

(** X7 at the first title of a new watch list. *)
Lemma add_anime_witness :
  (In (u "Bleach") (DatabaseHandler.titles (Some (DatabaseHandler.mkTable [] 0))) ->
   DatabaseHandler.add_anime_to DatabaseHandler.WatchList
     (DatabaseHandler.create_database_schema DatabaseHandler.new_database)
     (Some (u "Bleach")) None
   = (DatabaseHandler.create_database_schema DatabaseHandler.new_database,
      DatabaseHandler.Raised (DatabaseHandler.already_exists DatabaseHandler.WatchList)))
  /\ (~ In (u "Bleach") (DatabaseHandler.titles (Some (DatabaseHandler.mkTable [] 0))) ->
      exists conn' pairs,
        DatabaseHandler.add_anime_to DatabaseHandler.WatchList
          (DatabaseHandler.create_database_schema DatabaseHandler.new_database)
          (Some (u "Bleach")) None
        = (conn', DatabaseHandler.Returned)
        /\ DatabaseHandler.check_anime_exists conn' (Some (u "Bleach"))
             DatabaseHandler.WatchList = inr true
        /\ DatabaseHandler.get_list DatabaseHandler.WatchList
             (DatabaseHandler.create_database_schema DatabaseHandler.new_database)
           = inr pairs
        /\ DatabaseHandler.get_list DatabaseHandler.WatchList conn'
           = inr (pairs ++ [(u "Bleach", None)])
        /\ DatabaseHandler.table_of conn'
             (DatabaseHandler.other DatabaseHandler.WatchList)
           = DatabaseHandler.table_of
               (DatabaseHandler.create_database_schema DatabaseHandler.new_database)
               (DatabaseHandler.other DatabaseHandler.WatchList))
  /\ DatabaseHandler.add_anime_to DatabaseHandler.WatchList
       (DatabaseHandler.create_database_schema DatabaseHandler.new_database) None None
     = (DatabaseHandler.create_database_schema DatabaseHandler.new_database,
        DatabaseHandler.Raised DatabaseHandler.IntegrityError).
Proof.
  apply (add_anime_stores_a_title_once DatabaseHandler.WatchList
           (DatabaseHandler.create_database_schema DatabaseHandler.new_database)
           (DatabaseHandler.mkTable [] 0) (u "Bleach") None).
  - reflexivity.
  - reflexivity.
  - reflexivity.
  - reflexivity.
Defined.

(** X8 at a new database. *)
Lemma titles_stay_unique_witness :
  NoDup (DatabaseHandler.titles
           (DatabaseHandler.watch_list
              (DatabaseHandler.run_all
                 [DatabaseHandler.CreateDatabaseSchema;
                  DatabaseHandler.AddAnimeToWatchList (Some (u "Bleach")) None;
                  DatabaseHandler.AddAnimeToWatchList (Some (u "Bleach")) None;
                  DatabaseHandler.RemoveAnimeFromList (Some (u "Naruto"))
                    DatabaseHandler.WatchList]
                 DatabaseHandler.new_database)))
  /\ NoDup (DatabaseHandler.titles
              (DatabaseHandler.buy_list
                 (DatabaseHandler.run_all
                    [DatabaseHandler.CreateDatabaseSchema;
                     DatabaseHandler.AddAnimeToWatchList (Some (u "Bleach")) None;
                     DatabaseHandler.AddAnimeToWatchList (Some (u "Bleach")) None;
                     DatabaseHandler.RemoveAnimeFromList (Some (u "Naruto"))
                       DatabaseHandler.WatchList]
                    DatabaseHandler.new_database))).
Proof.
  apply titles_stay_unique; constructor.
Defined.

(** X9 at a table of two rows. *)
Lemma remove_anime_witness :
  exists conn' pairs,
    DatabaseHandler.remove_anime_from_list
      (DatabaseHandler.mkConnection
         (Some (DatabaseHandler.mkTable
                  [DatabaseHandler.mkRow 1 (u "Bleach") None;
                   DatabaseHandler.mkRow 2 (u "Naruto") None] 2))
         None)
      (Some (u "Bleach")) DatabaseHandler.WatchList
    = (conn', DatabaseHandler.Returned)
    /\ DatabaseHandler.check_anime_exists conn' (Some (u "Bleach"))
         DatabaseHandler.WatchList = inr false
    /\ DatabaseHandler.get_list DatabaseHandler.WatchList
         (DatabaseHandler.mkConnection
            (Some (DatabaseHandler.mkTable
                     [DatabaseHandler.mkRow 1 (u "Bleach") None;
                      DatabaseHandler.mkRow 2 (u "Naruto") None] 2))
            None)
       = inr pairs
    /\ DatabaseHandler.get_list DatabaseHandler.WatchList conn'
       = inr (filter (fun p => negb (str_eqb (fst p) (u "Bleach"))) pairs)
    /\ DatabaseHandler.table_of conn' (DatabaseHandler.other DatabaseHandler.WatchList)
       = DatabaseHandler.table_of
           (DatabaseHandler.mkConnection
              (Some (DatabaseHandler.mkTable
                       [DatabaseHandler.mkRow 1 (u "Bleach") None;
                        DatabaseHandler.mkRow 2 (u "Naruto") None] 2))
              None)
           (DatabaseHandler.other DatabaseHandler.WatchList)
    /\ (~ In (u "Bleach")
          (DatabaseHandler.titles
             (Some (DatabaseHandler.mkTable
                      [DatabaseHandler.mkRow 1 (u "Bleach") None;
                       DatabaseHandler.mkRow 2 (u "Naruto") None] 2))) ->
        conn' = DatabaseHandler.mkConnection
                  (Some (DatabaseHandler.mkTable
                           [DatabaseHandler.mkRow 1 (u "Bleach") None;
                            DatabaseHandler.mkRow 2 (u "Naruto") None] 2))
                  None)
    /\ (forall cover_url,
          DatabaseHandler.binds cover_url = true ->
          DatabaseHandler.largest_id
            (DatabaseHandler.mkTable
               [DatabaseHandler.mkRow 1 (u "Bleach") None;
                DatabaseHandler.mkRow 2 (u "Naruto") None] 2)
          < DatabaseHandler.max_rowid ->
          snd (DatabaseHandler.add_anime_to DatabaseHandler.WatchList conn'
                 (Some (u "Bleach")) cover_url)
          = DatabaseHandler.Returned).
Proof.
  apply (remove_anime_removes_the_title DatabaseHandler.WatchList
           (DatabaseHandler.mkConnection
              (Some (DatabaseHandler.mkTable
                       [DatabaseHandler.mkRow 1 (u "Bleach") None;
                        DatabaseHandler.mkRow 2 (u "Naruto") None] 2))
              None)
           (DatabaseHandler.mkTable
              [DatabaseHandler.mkRow 1 (u "Bleach") None;
               DatabaseHandler.mkRow 2 (u "Naruto") None] 2)
           (u "Bleach")).
  - reflexivity.
  - reflexivity.
Defined.

(** X11 at the file of two small objects. *)
Lemma xref_entries_witness :
  (exists pos,
     Spec.begins_at
       (Spec.xref_table (len [latin1 "A"; latin1 "BC"])
          (tl (EngineVergleich.build_pdf_offsets [latin1 "A"; latin1 "BC"])))
       pos (EngineVergleich.build_pdf [latin1 "A"; latin1 "BC"])
     /\ Xref.entries_by_counting (len [latin1 "A"; latin1 "BC"])
          (tl (EngineVergleich.build_pdf_offsets [latin1 "A"; latin1 "BC"])) pos
          (EngineVergleich.build_pdf [latin1 "A"; latin1 "BC"]))
  /\ (exists pos,
        Spec.begins_at
          (Spec.xref_table (len [latin1 "A"; latin1 "BC"])
             (tl (AppSummary.write_pdf_offsets [latin1 "A"; latin1 "BC"])))
          pos (AppSummary.write_pdf_bytes [latin1 "A"; latin1 "BC"])
        /\ Xref.entries_by_counting (len [latin1 "A"; latin1 "BC"])
             (tl (AppSummary.write_pdf_offsets [latin1 "A"; latin1 "BC"])) pos
             (AppSummary.write_pdf_bytes [latin1 "A"; latin1 "BC"]))
  /\ len (Spec.xref_entry (10 ^ 10)) = 21.
Proof.
  apply (xref_entries_are_found_by_counting [latin1 "A"; latin1 "BC"]).
  vm_compute. reflexivity.
Defined.

(** X14 at a list with an empty item and an item of two spaces. *)
Lemma bullets_skip_witness :
  (forall self : AppSummary.Layout,
     AppSummary.add_bullets (U := Spec.ascii_tables) self
       (filter (fun item => negb (Placing.all_whitespace item)) [u "a b"; []; u "  "; u "c"])
       5
     = AppSummary.add_bullets (U := Spec.ascii_tables) self [u "a b"; []; u "  "; u "c"] 5)
  /\ (forall self : EngineVergleich.Page,
        EngineVergleich.b (U := Spec.ascii_tables) self
          (filter (fun item => negb (Placing.all_whitespace item))
             [u "a b"; []; u "  "; u "c"]) 5
        = EngineVergleich.b (U := Spec.ascii_tables) self [u "a b"; []; u "  "; u "c"] 5).
Proof.
  apply (@bullets_skip_items_of_whitespace Spec.ascii_tables [u "a b"; []; u "  "; u "c"] 5).
  lia.
Defined.

(** X15 at two items, the first of two lines. *)
Lemma bullets_lines_witness :
  (forall self : AppSummary.Layout,
     exists self',
       AppSummary.add_bullets (U := Spec.ascii_tables) self [u "ab cd ef"; u "g"] 5
       = (self', Returned)
       /\ length (AppSummary.commands self')
          = (length (AppSummary.commands self)
             + Placing.wrapped_lines (U := Spec.ascii_tables) 5 [u "ab cd ef"; u "g"])%nat
       /\ AppSummary.y self'
          = fsub (Spec.descend_lines
                    (Placing.wrapped_lines (U := Spec.ascii_tables) 5 [u "ab cd ef"; u "g"])
                    (AppSummary.body_leading self) (AppSummary.y self))
                 (decimal 40 1))
  /\ (forall self : EngineVergleich.Page,
        exists self',
          EngineVergleich.b (U := Spec.ascii_tables) self [u "ab cd ef"; u "g"] 5
          = (self', Returned)
          /\ length (EngineVergleich.commands self')
             = (length (EngineVergleich.commands self)
                + Placing.wrapped_lines (U := Spec.ascii_tables) 5 [u "ab cd ef"; u "g"])%nat
          /\ EngineVergleich.y self'
             = fsub (Spec.descend_lines
                       (Placing.wrapped_lines (U := Spec.ascii_tables) 5
                          [u "ab cd ef"; u "g"])
                       (decimal 106 1) (EngineVergleich.y self))
                    (decimal 20 1)).
Proof.
  apply (@bullets_take_a_leading_per_line Spec.ascii_tables [u "ab cd ef"; u "g"] 5).
  lia.
Defined.

(** X16 at a text of three words with a tab and two spaces. *)
Lemma paragraph_keeps_witness :
  Placing.visible_lines [u "ab"; u "cd"; u "ef"]
  = Placing.visible [97; 98; 9; 99; 100; 32; 32; 101; 102]%N
  /\ exists lines,
       AppSummary.commands
         (fst (AppSummary.add_paragraph (U := Spec.ascii_tables) AppSummary.Layout_init
                 (u "ab cd ef") 5))
       = AppSummary.commands AppSummary.Layout_init
         ++ Spec.paragraph_commands (AppSummary.left AppSummary.Layout_init)
              (AppSummary.y AppSummary.Layout_init)
              (AppSummary.body_size AppSummary.Layout_init)
              (AppSummary.body_leading AppSummary.Layout_init) lines
       /\ Placing.visible_lines lines = Placing.visible (u "ab cd ef").
Proof.
  split.
  - apply (proj1 (@paragraph_keeps_every_character Spec.ascii_tables)
             [97; 98; 9; 99; 100; 32; 32; 101; 102]%N 5).
    vm_compute. reflexivity.
  - apply (proj1 (proj2 (@paragraph_keeps_every_character Spec.ascii_tables))
             AppSummary.Layout_init
             (fst (AppSummary.add_paragraph (U := Spec.ascii_tables) AppSummary.Layout_init
                     (u "ab cd ef") 5))
             (u "ab cd ef") 5).
    vm_compute. reflexivity.
Defined.

(** X20 at a text with a tab and a line feed. *)
Lemma paragraph_lines_no_break_witness :
  Forall (Forall Spec.munge_fixed) [u "ab"; u "cd ef"].
Proof.
  apply (proj1 (@paragraph_lines_have_no_line_break Spec.ascii_tables)
           [97; 98; 9; 99; 100; 10; 101; 102]%N 5).
  vm_compute. reflexivity.
Defined.

(** X21 at a paragraph of one line. *)
Lemma fresh_page_witness :
  AppSummary.check_fit
    (fst (AppSummary.add_paragraph (U := Spec.ascii_tables) AppSummary.Layout_init
            (u "ab cd") 98))
  = if (length [u "ab cd"] <=? 58)%nat then Returned else Raised RuntimeError.
Proof.
  apply (proj1 (@fresh_page_takes_58_and_68_lines Spec.ascii_tables) (u "ab cd") 98
           [u "ab cd"]).
  - vm_compute. reflexivity.
  - vm_compute. discriminate.
Defined.
